(** * Shared / weak ownership: control blocks, [SharedPtr], [WeakPtr],
      [EnableSharedFromThis]

    A shallow embedding of [shared.h] and [weak.h].  The C++ heap is an
    explicit store: control blocks and managed objects live in finite maps
    keyed by their address, handles ([SharedPtr], [WeakPtr]) are plain pairs
    of nullable addresses, and every member function is a computation in a
    small state-and-failure monad over that store.  The [size_t] counters are
    integers reduced modulo [2^64]. *)

From Stdlib Require Import ZArith Lia.
From stdpp Require Import base option list gmap fin_maps.

Set Default Proof Using "Type".

(** ** Data model *)

(** Addresses handed out by [operator new]. *)
Abbreviation addr := nat.

(** A raw pointer [T*] or [IControlBlock*]: [None] is [nullptr]. *)
Abbreviation ptr := (option nat).

(** [size_t] arithmetic: 64-bit, unsigned, wrapping. *)
Definition size_t_modulus : Z := 2 ^ 64.
Definition wrap (z : Z) : Z := z mod size_t_modulus.

(** The two concrete control blocks.  [ControlBlockPtr] stores the adopted
    pointer [ptr_]; [ControlBlockHolder] stores the object inside itself
    ([storage_]), so the object shares the block's address. *)
Inductive variant :=
  | ControlBlockPtr (ptr_ : ptr)
  | ControlBlockHolder.

Record IControlBlock := mkCB {
  strong_ref_counter_ : Z;
  weak_ref_counter_ : Z;
  impl : variant
}.

Record SharedPtr := mkShared { sp_ptr_ : ptr; sp_cblock_ : ptr }.
Record WeakPtr := mkWeak { wp_ptr_ : ptr; wp_cblock_ : ptr }.

#[global] Instance variant_eq_dec : EqDecision variant.
Proof. solve_decision. Defined.

#[global] Instance IControlBlock_eq_dec : EqDecision IControlBlock.
Proof. solve_decision. Defined.

#[global] Instance SharedPtr_eq_dec : EqDecision SharedPtr.
Proof. solve_decision. Defined.

#[global] Instance WeakPtr_eq_dec : EqDecision WeakPtr.
Proof. solve_decision. Defined.

(** What the run of a program leaves behind, newest event first. *)
Inductive what := Block | Object.

Inductive event :=
  | EvAlloc (k : what) (a : addr)  (* operator new returned [a] *)
  | EvDispose (b : addr)           (* [Dispose()] was called on block [b] *)
  | EvDestroy (b : addr).          (* [Destroy()] was called on block [b] *)

#[global] Instance what_eq_dec : EqDecision what.
Proof. solve_decision. Defined.

#[global] Instance event_eq_dec : EqDecision event.
Proof. solve_decision. Defined.

(** The store.  [objects] holds the live managed objects; the only state of
    an object the smart pointers ever touch is its [weak_this_] member
    (present when the type derives from [EnableSharedFromThis], and never
    read or written otherwise). *)
Record Heap := mkHeap {
  cblocks : gmap nat IControlBlock;
  objects : gmap nat WeakPtr;
  next : addr;
  trace : list event
}.

Definition empty_heap : Heap := mkHeap ∅ ∅ 0 [].

(** ** Outcomes *)

Inductive ub := NullDeref | Dangling.

Inductive outcome (A : Type) :=
  | Ok (a : A)
  | BadWeakPtr            (* the exception thrown by the promoting constructor *)
  | Undefined (why : ub). (* undefined behaviour: the program has no meaning *)
Arguments Ok {A} a.
Arguments BadWeakPtr {A}.
Arguments Undefined {A} why.

Definition M (A : Type) : Type := Heap → outcome (A * Heap).

#[global] Instance M_ret : MRet M := λ A a h, Ok (a, h).
#[global] Instance M_bind : MBind M := λ A B f m h,
  match m h with
  | Ok (a, h') => f a h'
  | BadWeakPtr => BadWeakPtr
  | Undefined w => Undefined w
  end.

Definition fail {A} (w : ub) : M A := λ _, Undefined w.
Definition throw_BadWeakPtr {A} : M A := λ _, BadWeakPtr.

(** ** Store access *)

Definition load_cb (b : addr) : M IControlBlock := λ h,
  match cblocks h !! b with
  | Some cb => Ok (cb, h)
  | None => Undefined Dangling
  end.

(** Store updates. *)
Definition upd_cb (b : addr) (cb : IControlBlock) (h : Heap) : Heap :=
  mkHeap (<[b := cb]> (cblocks h)) (objects h) (next h) (trace h).
Definition del_cb (b : addr) (h : Heap) : Heap :=
  mkHeap (delete b (cblocks h)) (objects h) (next h) (trace h).
Definition upd_obj (o : addr) (w : WeakPtr) (h : Heap) : Heap :=
  mkHeap (cblocks h) (<[o := w]> (objects h)) (next h) (trace h).
Definition del_obj (o : addr) (h : Heap) : Heap :=
  mkHeap (cblocks h) (delete o (objects h)) (next h) (trace h).
Definition log (e : event) (h : Heap) : Heap :=
  mkHeap (cblocks h) (objects h) (next h) (e :: trace h).
Definition bump (h : Heap) : Heap :=
  mkHeap (cblocks h) (objects h) (S (next h)) (trace h).

Definition store_cb (b : addr) (cb : IControlBlock) : M unit := λ h, Ok (tt, upd_cb b cb h).

Definition free_cb (b : addr) : M unit := λ h, Ok (tt, del_cb b h).

(** [p->weak_this_] read through a raw pointer. *)
Definition load_obj (p : ptr) : M WeakPtr := λ h,
  match p with
  | None => Undefined NullDeref
  | Some o =>
      match objects h !! o with
      | Some w => Ok (w, h)
      | None => Undefined Dangling
      end
  end.

Definition store_obj (o : addr) (w : WeakPtr) : M unit := λ h, Ok (tt, upd_obj o w h).

Definition free_obj (o : addr) : M unit := λ h, Ok (tt, del_obj o h).

Definition emit (e : event) : M unit := λ h, Ok (tt, log e h).

(** [operator new]: one fresh address, one allocation event. *)
Definition alloc (k : what) : M addr := λ h,
  Ok (next h, log (EvAlloc k (next h)) (bump h)).

(** ** IControlBlock *)

Definition GetStrongRefsCount (b : addr) : M Z :=
  cb ← load_cb b; mret (strong_ref_counter_ cb).

Definition AddStrongRef (b : addr) : M unit :=
  cb ← load_cb b;
  store_cb b (mkCB (wrap (strong_ref_counter_ cb + 1)) (weak_ref_counter_ cb) (impl cb)).

Definition RemoveStrongRef (b : addr) : M unit :=
  cb ← load_cb b;
  store_cb b (mkCB (wrap (strong_ref_counter_ cb - 1)) (weak_ref_counter_ cb) (impl cb)).

Definition IsZeroStrongOwning (b : addr) : M bool :=
  cb ← load_cb b; mret (bool_decide (strong_ref_counter_ cb = 0%Z)).

Definition GetWeakRefsCount (b : addr) : M Z :=
  cb ← load_cb b; mret (weak_ref_counter_ cb).

Definition AddWeakRef (b : addr) : M unit :=
  cb ← load_cb b;
  store_cb b (mkCB (strong_ref_counter_ cb) (wrap (weak_ref_counter_ cb + 1)) (impl cb)).

Definition RemoveWeakRef (b : addr) : M unit :=
  cb ← load_cb b;
  store_cb b (mkCB (strong_ref_counter_ cb) (wrap (weak_ref_counter_ cb - 1)) (impl cb)).

Definition IsZeroWeakOwning (b : addr) : M bool :=
  cb ← load_cb b; mret (bool_decide (weak_ref_counter_ cb = 0%Z)).

(** [delete this]: both concrete destructors are empty. *)
Definition Destroy (b : addr) : M unit :=
  _ ← load_cb b; emit (EvDestroy b);; free_cb b.

(** ** WeakPtr *)

Definition WeakPtr_default : WeakPtr := mkWeak None None.

Definition WeakPtr_Zeroing (_ : WeakPtr) : WeakPtr := mkWeak None None.

Definition WeakPtr_Release (this : WeakPtr) : M WeakPtr :=
  match wp_cblock_ this with
  | Some b =>
      RemoveWeakRef b;;
      zs ← IsZeroStrongOwning b;
      zw ← (if zs then IsZeroWeakOwning b else mret false);
      (if zs && zw then Destroy b else mret tt);;
      mret (WeakPtr_Zeroing this)
  | None => mret (WeakPtr_Zeroing this)
  end.

Definition WeakPtr_Reset (this : WeakPtr) : M WeakPtr := WeakPtr_Release this.

Definition WeakPtr_UseCount (this : WeakPtr) : M Z :=
  match wp_cblock_ this with
  | Some b => GetStrongRefsCount b
  | None => mret 0%Z
  end.

Definition WeakPtr_Expired (this : WeakPtr) : M bool :=
  n ← WeakPtr_UseCount this; mret (bool_decide (n = 0%Z)).

(** [WeakPtr(const WeakPtr& other)] *)
Definition WeakPtr_copy (other : WeakPtr) : M WeakPtr :=
  let this := mkWeak (wp_ptr_ other) (wp_cblock_ other) in
  (if wp_cblock_ this is Some b then AddWeakRef b else mret tt);;
  mret this.

(** [WeakPtr(WeakPtr&& other)]: the new handle and what is left of [other]. *)
Definition WeakPtr_move (other : WeakPtr) : M (WeakPtr * WeakPtr) :=
  let this := mkWeak (wp_ptr_ other) (wp_cblock_ other) in
  mret (this, WeakPtr_Zeroing other).

(** Demotion, [WeakPtr(const SharedPtr<T>& other)]. *)
Definition WeakPtr_from_shared (other : SharedPtr) : M WeakPtr :=
  let this := mkWeak (sp_ptr_ other) (sp_cblock_ other) in
  (if wp_cblock_ this is Some b then AddWeakRef b else mret tt);;
  mret this.

(** [operator=(const WeakPtr& other)]; [self] is [this == &other]. *)
Definition WeakPtr_assign_copy (self : bool) (this other : WeakPtr) : M WeakPtr :=
  if self then mret this
  else
    _ ← WeakPtr_Release this;
    let this := mkWeak (wp_ptr_ other) (wp_cblock_ other) in
    (if wp_cblock_ this is Some b then AddWeakRef b else mret tt);;
    mret this.

(** [operator=(SharedPtr<Y>& other)] *)
Definition WeakPtr_assign_shared (this : WeakPtr) (other : SharedPtr) : M WeakPtr :=
  _ ← WeakPtr_Release this;
  let this := mkWeak (sp_ptr_ other) (sp_cblock_ other) in
  (if wp_cblock_ this is Some b then AddWeakRef b else mret tt);;
  mret this.

(** [operator=(WeakPtr&& other)]: the assigned handle and what is left of
    [other]. *)
Definition WeakPtr_assign_move (self : bool) (this other : WeakPtr)
  : M (WeakPtr * WeakPtr) :=
  if self then mret (this, other)
  else
    _ ← WeakPtr_Release this;
    let this := mkWeak (wp_ptr_ other) (wp_cblock_ other) in
    mret (this, WeakPtr_Zeroing other).

Definition WeakPtr_Swap (this other : WeakPtr) : WeakPtr * WeakPtr :=
  (mkWeak (wp_ptr_ other) (wp_cblock_ other), mkWeak (wp_ptr_ this) (wp_cblock_ this)).

(** ** Managed objects *)

(** [new T(...)] in user code: the object starts with an empty [weak_this_]. *)
Definition new_object : M addr :=
  o ← alloc Object; store_obj o WeakPtr_default;; mret o.

(** [~T()]: the member [weak_this_] is destroyed, when the type has one. *)
Definition destroy_object (esft : bool) (p : ptr) : M unit :=
  w ← load_obj p;
  (if esft then _ ← WeakPtr_Release w; mret tt else mret tt);;
  (if p is Some o then free_obj o else mret tt).

(** [Dispose()], dispatched on the concrete block.  [delete ptr_] is the
    deletion of a live object.  The store does not record whether an object
    came from [new] or lives in the [storage_] of a [ControlBlockHolder];
    deleting the latter through a [ControlBlockPtr], which takes the
    adoption of a pointer obtained from a [MakeShared] handle, is undefined
    in C++ and is not told apart here. *)
Definition GetPtr (b : addr) : ptr := Some b.

Definition Dispose (esft : bool) (b : addr) : M unit :=
  cb ← load_cb b;
  emit (EvDispose b);;
  match impl cb with
  | ControlBlockPtr None => mret tt                     (* delete nullptr *)
  | ControlBlockPtr (Some o) => destroy_object esft (Some o)   (* delete ptr_ *)
  | ControlBlockHolder => destroy_object esft (GetPtr b)       (* destroy_at *)
  end.

(** [new ControlBlockPtr<Y>(ptr)] *)
Definition new_ControlBlockPtr (p : ptr) : M addr :=
  b ← alloc Block;
  store_cb b (mkCB 0 0 (ControlBlockPtr p));;
  (if p is Some _ then AddStrongRef b else mret tt);;
  mret b.

(** [new ControlBlockHolder<T>(args...)]: the object is built in
    [storage_]. *)
Definition new_ControlBlockHolder : M addr :=
  b ← alloc Block;
  store_cb b (mkCB 0 0 ControlBlockHolder);;
  store_obj b WeakPtr_default;;
  AddStrongRef b;;
  mret b.

(** ** SharedPtr *)

Definition SharedPtr_default : SharedPtr := mkShared None None.

Definition SharedPtr_Zeroing (_ : SharedPtr) : SharedPtr := mkShared None None.

(** [p->weak_this_ = *this] *)
Definition set_weak_this (p : ptr) (this : SharedPtr) : M unit :=
  w ← load_obj p;
  w' ← WeakPtr_assign_shared w this;
  (if p is Some o then store_obj o w' else fail NullDeref).

(** [explicit SharedPtr(Y* ptr)] *)
Definition SharedPtr_from_raw (esft : bool) (p : ptr) : M SharedPtr :=
  b ← new_ControlBlockPtr p;
  let this := mkShared p (Some b) in
  (if esft then set_weak_this p this else mret tt);;
  mret this.

(** [SharedPtr(const SharedPtr& other)] *)
Definition SharedPtr_copy (esft : bool) (other : SharedPtr) : M SharedPtr :=
  let this := mkShared (sp_ptr_ other) (sp_cblock_ other) in
  (if sp_cblock_ this is Some b then AddStrongRef b else mret tt);;
  (if esft then set_weak_this (sp_ptr_ other) this else mret tt);;
  mret this.

(** [SharedPtr(SharedPtr<Y>&& other)]: the new handle and what is left of
    [other]. *)
Definition SharedPtr_move (esft : bool) (other : SharedPtr) : M (SharedPtr * SharedPtr) :=
  let this := mkShared (sp_ptr_ other) (sp_cblock_ other) in
  (if esft then set_weak_this (sp_ptr_ other) this else mret tt);;
  mret (this, SharedPtr_Zeroing other).

(** [SharedPtr(ControlBlockHolder<Y>* cblock_holder)] *)
Definition SharedPtr_from_holder (esft : bool) (b : addr) : M SharedPtr :=
  let this := mkShared (GetPtr b) (Some b) in
  (if esft then set_weak_this (sp_ptr_ this) this else mret tt);;
  mret this.

(** Aliasing constructor, [SharedPtr(const SharedPtr<Y>& other, T* ptr)].
    (The overload that takes [const SharedPtr<Y>&&] calls the non-const
    [Zeroing] on its const argument, so it cannot be instantiated and has no
    counterpart here.) *)
Definition SharedPtr_alias (other : SharedPtr) (p : ptr) : M SharedPtr :=
  let this := mkShared p (sp_cblock_ other) in
  (if sp_cblock_ this is Some b then AddStrongRef b else mret tt);;
  mret this.

(** Promotion, [explicit SharedPtr(const WeakPtr<T>& other)]. *)
Definition SharedPtr_from_weak (other : WeakPtr) : M SharedPtr :=
  e ← WeakPtr_Expired other;
  if e : bool then throw_BadWeakPtr
  else
    let this := mkShared (wp_ptr_ other) (wp_cblock_ other) in
    (if sp_cblock_ this is Some b then AddStrongRef b else fail NullDeref);;
    mret this.

Definition SharedPtr_Release (esft : bool) (this : SharedPtr) : M SharedPtr :=
  match sp_cblock_ this with
  | Some b =>
      (if esft then
         w ← load_obj (sp_ptr_ this);
         e ← WeakPtr_Expired w;
         if e : bool then mret tt
         else
           w' ← WeakPtr_Reset w;
           (if sp_ptr_ this is Some o then store_obj o w' else fail NullDeref)
       else mret tt);;
      RemoveStrongRef b;;
      z ← IsZeroStrongOwning b;
      (if z : bool then Dispose esft b else mret tt);;
      zs ← IsZeroStrongOwning b;
      zw ← (if zs then IsZeroWeakOwning b else mret false);
      (if zs && zw then Destroy b else mret tt);;
      mret (SharedPtr_Zeroing this)
  | None => mret (SharedPtr_Zeroing this)
  end.

(** [operator=(const SharedPtr& other)]; [self] is [this == &other]. *)
Definition SharedPtr_assign_copy (esft self : bool) (this other : SharedPtr)
  : M SharedPtr :=
  if self then mret this
  else
    _ ← SharedPtr_Release esft this;
    let this := mkShared (sp_ptr_ other) (sp_cblock_ other) in
    (if sp_cblock_ this is Some b then AddStrongRef b else mret tt);;
    mret this.

(** [operator=(SharedPtr&& other)] *)
Definition SharedPtr_assign_move (esft self : bool) (this other : SharedPtr)
  : M (SharedPtr * SharedPtr) :=
  if self then mret (this, other)
  else
    _ ← SharedPtr_Release esft this;
    let this := mkShared (sp_ptr_ other) (sp_cblock_ other) in
    mret (this, SharedPtr_Zeroing other).

Definition SharedPtr_Reset (esft : bool) (this : SharedPtr) : M SharedPtr :=
  SharedPtr_Release esft this.

(** [Reset(Y* ptr)] *)
Definition SharedPtr_Reset_ptr (esft : bool) (this : SharedPtr) (p : ptr)
  : M SharedPtr :=
  _ ← SharedPtr_Release esft this;
  b ← new_ControlBlockPtr p;
  mret (mkShared p (Some b)).

Definition SharedPtr_Swap (this other : SharedPtr) : SharedPtr * SharedPtr :=
  (mkShared (sp_ptr_ other) (sp_cblock_ other), mkShared (sp_ptr_ this) (sp_cblock_ this)).

Definition SharedPtr_Get (this : SharedPtr) : ptr := sp_ptr_ this.

Definition SharedPtr_UseCount (this : SharedPtr) : M Z :=
  match sp_cblock_ this with
  | Some b => GetStrongRefsCount b
  | None => mret 0%Z
  end.

Definition SharedPtr_bool (this : SharedPtr) : bool :=
  bool_decide (SharedPtr_Get this ≠ None).

(** [MakeShared<T>(args...)] *)
Definition MakeShared (esft : bool) : M SharedPtr :=
  b ← new_ControlBlockHolder; SharedPtr_from_holder esft b.

(** [WeakPtr::Lock] *)
Definition WeakPtr_Lock (this : WeakPtr) : M SharedPtr :=
  e ← WeakPtr_Expired this;
  if e : bool then mret SharedPtr_default else SharedPtr_from_weak this.

(** ** EnableSharedFromThis, called on the object at [p] *)

Definition SharedFromThis (p : ptr) : M SharedPtr :=
  w ← load_obj p; WeakPtr_Lock w.

Definition WeakFromThis (p : ptr) : M WeakPtr :=
  w ← load_obj p; WeakPtr_copy w.

(** ** Programs

    A program is a straight-line sequence of statements over two families of
    local variables, [SharedPtr<T>] ones and [WeakPtr<T>] ones, for one
    element type [T]; [esft] says whether [T] derives from
    [EnableSharedFromThis<T>] (the [if constexpr] tests).  Declarations
    append a variable; a destroyed variable keeps its (zeroed) slot.  A
    statement that names a variable not yet declared is skipped. *)

Record config := mkConfig {
  mem : Heap;
  shared : list SharedPtr;
  weak : list WeakPtr
}.

Definition init : config := mkConfig empty_heap [] [].

Inductive op :=
  | SDefault                       (* SharedPtr<T> s; *)
  | SAdoptNew                      (* SharedPtr<T> s(new T); *)
  | SAdopt (p : ptr)               (* SharedPtr<T> s(p); *)
  | SMakeShared                    (* auto s = MakeShared<T>(); *)
  | SCopy (i : nat)                (* SharedPtr<T> s(s_i); *)
  | SMove (i : nat)                (* SharedPtr<T> s(std::move(s_i)); *)
  | SAlias (i : nat) (p : ptr)     (* SharedPtr<T> s(s_i, p); *)
  | SPromote (j : nat)             (* try { SharedPtr<T> s(w_j); keep s } catch (BadWeakPtr&) {} *)
  | SLock (j : nat)                (* auto s = w_j.Lock(); *)
  | SSharedFromThis (i : nat)      (* auto s = s_i->SharedFromThis(); *)
  | SCopyAssign (i j : nat)        (* s_i = s_j; *)
  | SMoveAssign (i j : nat)        (* s_i = std::move(s_j); *)
  | SReset (i : nat)               (* s_i.Reset(); *)
  | SResetNew (i : nat)            (* s_i.Reset(new T); *)
  | SResetPtr (i : nat) (p : ptr)  (* s_i.Reset(p); *)
  | SSwap (i j : nat)              (* s_i.Swap(s_j); *)
  | SDestroy (i : nat)             (* s_i.~SharedPtr(); *)
  | WDefault                       (* WeakPtr<T> w; *)
  | WCopy (j : nat)                (* WeakPtr<T> w(w_j); *)
  | WMove (j : nat)                (* WeakPtr<T> w(std::move(w_j)); *)
  | WDemote (i : nat)              (* WeakPtr<T> w(s_i); *)
  | WWeakFromThis (i : nat)        (* auto w = s_i->WeakFromThis(); *)
  | WCopyAssign (j k : nat)        (* w_j = w_k; *)
  | WAssignShared (j i : nat)      (* w_j = s_i; *)
  | WMoveAssign (j k : nat)        (* w_j = std::move(w_k); *)
  | WReset (j : nat)               (* w_j.Reset(); *)
  | WSwap (j k : nat)              (* w_j.Swap(w_k); *)
  | WDestroy (j : nat).            (* w_j.~WeakPtr(); *)

(** Run [m] on the store of [c] and rebuild the configuration with [k]. *)
Definition exec {A} (c : config) (m : M A) (k : A → Heap → config) : outcome config :=
  match m (mem c) with
  | Ok (a, h) => Ok (k a h)
  | BadWeakPtr => BadWeakPtr
  | Undefined w => Undefined w
  end.

Definition decl_shared (c : config) (m : M SharedPtr) : outcome config :=
  exec c m (λ s h, mkConfig h (shared c ++ [s]) (weak c)).

Definition decl_weak (c : config) (m : M WeakPtr) : outcome config :=
  exec c m (λ w h, mkConfig h (shared c) (weak c ++ [w])).

Definition upd_shared (c : config) (i : nat) (m : M SharedPtr) : outcome config :=
  exec c m (λ s h, mkConfig h (<[i := s]> (shared c)) (weak c)).

Definition upd_weak (c : config) (j : nat) (m : M WeakPtr) : outcome config :=
  exec c m (λ w h, mkConfig h (shared c) (<[j := w]> (weak c))).

Definition step (esft : bool) (o : op) (c : config) : outcome config :=
  match o with
  | SDefault => decl_shared c (mret SharedPtr_default)
  | SAdoptNew => decl_shared c (p ← new_object; SharedPtr_from_raw esft (Some p))
  | SAdopt p => decl_shared c (SharedPtr_from_raw esft p)
  | SMakeShared => decl_shared c (MakeShared esft)
  | SCopy i =>
      match shared c !! i with
      | Some s => decl_shared c (SharedPtr_copy esft s)
      | None => Ok c
      end
  | SMove i =>
      match shared c !! i with
      | Some s =>
          exec c (SharedPtr_move esft s)
            (λ r h, mkConfig h (<[i := r.2]> (shared c) ++ [r.1]) (weak c))
      | None => Ok c
      end
  | SAlias i p =>
      match shared c !! i with
      | Some s => decl_shared c (SharedPtr_alias s p)
      | None => Ok c
      end
  | SPromote j =>
      match weak c !! j with
      | Some w =>
          match SharedPtr_from_weak w (mem c) with
          | Ok (s, h) => Ok (mkConfig h (shared c ++ [s]) (weak c))
          | BadWeakPtr => Ok c
          | Undefined u => Undefined u
          end
      | None => Ok c
      end
  | SLock j =>
      match weak c !! j with
      | Some w => decl_shared c (WeakPtr_Lock w)
      | None => Ok c
      end
  | SSharedFromThis i =>
      match shared c !! i with
      | Some s => decl_shared c (SharedFromThis (SharedPtr_Get s))
      | None => Ok c
      end
  | SCopyAssign i j =>
      match shared c !! i, shared c !! j with
      | Some this, Some other =>
          upd_shared c i (SharedPtr_assign_copy esft (bool_decide (i = j)) this other)
      | _, _ => Ok c
      end
  | SMoveAssign i j =>
      match shared c !! i, shared c !! j with
      | Some this, Some other =>
          exec c (SharedPtr_assign_move esft (bool_decide (i = j)) this other)
            (λ r h, mkConfig h (<[i := r.1]> (<[j := r.2]> (shared c))) (weak c))
      | _, _ => Ok c
      end
  | SReset i =>
      match shared c !! i with
      | Some s => upd_shared c i (SharedPtr_Reset esft s)
      | None => Ok c
      end
  | SResetNew i =>
      match shared c !! i with
      | Some s => upd_shared c i (p ← new_object; SharedPtr_Reset_ptr esft s (Some p))
      | None => Ok c
      end
  | SResetPtr i p =>
      match shared c !! i with
      | Some s => upd_shared c i (SharedPtr_Reset_ptr esft s p)
      | None => Ok c
      end
  | SSwap i j =>
      match shared c !! i, shared c !! j with
      | Some this, Some other =>
          let r := SharedPtr_Swap this other in
          Ok (mkConfig (mem c) (<[i := r.1]> (<[j := r.2]> (shared c))) (weak c))
      | _, _ => Ok c
      end
  | SDestroy i =>
      match shared c !! i with
      | Some s => upd_shared c i (SharedPtr_Release esft s)
      | None => Ok c
      end
  | WDefault => decl_weak c (mret WeakPtr_default)
  | WCopy j =>
      match weak c !! j with
      | Some w => decl_weak c (WeakPtr_copy w)
      | None => Ok c
      end
  | WMove j =>
      match weak c !! j with
      | Some w =>
          exec c (WeakPtr_move w)
            (λ r h, mkConfig h (shared c) (<[j := r.2]> (weak c) ++ [r.1]))
      | None => Ok c
      end
  | WDemote i =>
      match shared c !! i with
      | Some s => decl_weak c (WeakPtr_from_shared s)
      | None => Ok c
      end
  | WWeakFromThis i =>
      match shared c !! i with
      | Some s => decl_weak c (WeakFromThis (SharedPtr_Get s))
      | None => Ok c
      end
  | WCopyAssign j k =>
      match weak c !! j, weak c !! k with
      | Some this, Some other =>
          upd_weak c j (WeakPtr_assign_copy (bool_decide (j = k)) this other)
      | _, _ => Ok c
      end
  | WAssignShared j i =>
      match weak c !! j, shared c !! i with
      | Some this, Some other => upd_weak c j (WeakPtr_assign_shared this other)
      | _, _ => Ok c
      end
  | WMoveAssign j k =>
      match weak c !! j, weak c !! k with
      | Some this, Some other =>
          exec c (WeakPtr_assign_move (bool_decide (j = k)) this other)
            (λ r h, mkConfig h (shared c) (<[j := r.1]> (<[k := r.2]> (weak c))))
      | _, _ => Ok c
      end
  | WReset j =>
      match weak c !! j with
      | Some w => upd_weak c j (WeakPtr_Reset w)
      | None => Ok c
      end
  | WSwap j k =>
      match weak c !! j, weak c !! k with
      | Some this, Some other =>
          let r := WeakPtr_Swap this other in
          Ok (mkConfig (mem c) (shared c) (<[j := r.1]> (<[k := r.2]> (weak c))))
      | _, _ => Ok c
      end
  | WDestroy j =>
      match weak c !! j with
      | Some w => upd_weak c j (WeakPtr_Release w)
      | None => Ok c
      end
  end.

Fixpoint run (esft : bool) (prog : list op) (c : config) : outcome config :=
  match prog with
  | [] => Ok c
  | o :: prog' =>
      match step esft o c with
      | Ok c' => run esft prog' c'
      | BadWeakPtr => BadWeakPtr
      | Undefined u => Undefined u
      end
  end.

(** Number of handles of a list that reference control block [b]. *)
Definition owners (b : addr) (l : list SharedPtr) : nat :=
  length (filter (λ s, sp_cblock_ s = Some b) l).

Definition observers (b : addr) (l : list WeakPtr) : nat :=
  length (filter (λ w, wp_cblock_ w = Some b) l).

(** [weak_this_] members of live objects that reference [b]; there is no
    such member when the type does not derive from [EnableSharedFromThis]. *)
Definition self_observers (esft : bool) (b : addr) (objs : gmap nat WeakPtr) : nat :=
  if esft then observers b (map_to_list objs).*2 else 0.

(** Counting events of a trace. *)
Definition count_ev (e : event) (tr : list event) : nat :=
  length (filter (λ x, x = e) tr).
Definition n_dispose (b : addr) (tr : list event) : nat := count_ev (EvDispose b) tr.
Definition n_destroy (b : addr) (tr : list event) : nat := count_ev (EvDestroy b) tr.
Definition n_created (b : addr) (tr : list event) : nat := count_ev (EvAlloc Block b) tr.
Definition is_alloc (e : event) : bool :=
  match e with EvAlloc _ _ => true | _ => false end.
Definition n_alloc (tr : list event) : nat :=
  length (filter (λ e, is_alloc e = true) tr).

(** * Specification vocabulary *)

(** The heap [h] with the counters of block [b] replaced. *)
Definition with_counters (b : addr) (cb : IControlBlock) (s w : Z) (h : Heap) : Heap :=
  upd_cb b (mkCB s w (impl cb)) h.

(** A weak handle is expired when it has no control block or the block's
    strong count is zero. *)
Definition expired (w : WeakPtr) (h : Heap) : Prop :=
  wp_cblock_ w = None ∨
  ∃ b cb, wp_cblock_ w = Some b ∧ cblocks h !! b = Some cb ∧ strong_ref_counter_ cb = 0%Z.

(** The control block a handle points to, if any, has not been freed. *)
Definition live_ref (h : Heap) (cblock : ptr) : Prop :=
  ∀ b, cblock = Some b → is_Some (cblocks h !! b).

Definition demo_heap : Heap :=
  mkHeap {[ 0 := mkCB 1 1 ControlBlockHolder ]} {[ 0 := WeakPtr_default ]} 1
         [EvAlloc Block 0].


(** ** Lifetime invariant *)

Definition ind (c : ptr) (b : addr) : nat := if decide (c = Some b) then 1 else 0.

Fixpoint ordered (tr : list event) : Prop :=
  match tr with
  | [] => True
  | e :: tr' => (∀ b, e = EvDestroy b → EvDispose b ∈ tr') ∧ ordered tr'
  end.

Definition block_ok (pend : Prop) (h : Heap) (ns nw : nat) (b : addr) : Prop :=
  match cblocks h !! b with
  | Some cb =>
      strong_ref_counter_ cb = Z.of_nat ns ∧
      weak_ref_counter_ cb = Z.of_nat nw ∧
      (Z.of_nat ns < size_t_modulus)%Z ∧
      (Z.of_nat nw < size_t_modulus)%Z ∧
      (pend ∨ 0 < ns + nw) ∧
      n_created b (trace h) = 1 ∧
      n_destroy b (trace h) = 0 ∧
      n_dispose b (trace h) = (if decide (ns = 0) then 1 else 0)
  | None =>
      ns = 0 ∧ nw = 0 ∧
      n_created b (trace h) ≤ 1 ∧
      n_dispose b (trace h) = n_created b (trace h) ∧
      n_destroy b (trace h) = n_created b (trace h)
  end.

Definition fresh (h : Heap) : Prop :=
  ∀ a, next h ≤ a →
    cblocks h !! a = None ∧ objects h !! a = None ∧ n_created a (trace h) = 0.

Definition heap_inv (pend : addr → Prop) (h : Heap) (ns nw : addr → nat) : Prop :=
  (∀ b, block_ok (pend b) h (ns b) (nw b) b) ∧ fresh h ∧ ordered (trace h).


(** The store after [WeakPtr::Release] on a handle to block [b]. *)
Definition weak_release_heap (b : addr) (cb : IControlBlock) (h : Heap) : Heap :=
  if decide (strong_ref_counter_ cb = 0 ∧ wrap (weak_ref_counter_ cb - 1) = 0)%Z
  then log (EvDestroy b) (del_cb b h)
  else upd_cb b (mkCB (strong_ref_counter_ cb) (wrap (weak_ref_counter_ cb - 1)) (impl cb)) h.


(** The invariant over the handles that exist outside the store: [sl] and
    [wl] are the shared and weak handles held by the program (in any order);
    the [weak_this_] members of live objects are counted from the store. *)
Definition hinv (esft : bool) (pend : addr → Prop) (h : Heap)
    (sl : list SharedPtr) (wl : list WeakPtr) : Prop :=
  heap_inv pend h (λ b, owners b sl)
    (λ b, observers b wl + self_observers esft b (objects h)).

(** No counter is about to overflow. *)
Definition small_s (sl : list SharedPtr) : Prop :=
  ∀ b, (Z.of_nat (owners b sl) + 1 < size_t_modulus)%Z.

Definition small_w (esft : bool) (h : Heap) (wl : list WeakPtr) : Prop :=
  ∀ b, (Z.of_nat (observers b wl + self_observers esft b (objects h)) + 1
          < size_t_modulus)%Z.

(** Adoption of a null raw pointer, [SharedPtr<T> s(nullptr_of_type_T)] or
    [s.Reset(nullptr_of_type_T)]. *)
Definition adopts_null (o : op) : bool :=
  match o with
  | SAdopt None | SResetPtr _ None => true
  | _ => false
  end.

(** A configuration is well formed when the invariant holds for the program's
    variables; [n] bounds its size. *)
Definition cfg_ok (esft : bool) (n : nat) (c : config) : Prop :=
  hinv esft (λ _, False) (mem c) (shared c) (weak c) ∧
  length (shared c) + length (weak c) + next (mem c) ≤ n.

(** What the lifetime protocol promises for control block [b] in
    configuration [c]: while the block is allocated its counters are the
    numbers of strong and weak handles that reference it, at least one
    handle does, [Destroy] has not run, and [Dispose] has run (once) exactly
    if no strong handle is left; once the block is gone no handle references
    it and [Dispose] and [Destroy] have each run exactly once. *)
Definition lifecycle_ok (esft : bool) (c : config) (b : addr) : Prop :=
  let h := mem c in
  let tr := trace h in
  let ns := owners b (shared c) in
  let nw := observers b (weak c) + self_observers esft b (objects h) in
  match cblocks h !! b with
  | Some cb =>
      strong_ref_counter_ cb = Z.of_nat ns ∧
      weak_ref_counter_ cb = Z.of_nat nw ∧
      0 < ns + nw ∧
      n_destroy b tr = 0 ∧
      n_dispose b tr = (if decide (ns = 0) then 1 else 0)
  | None =>
      ns = 0 ∧ nw = 0 ∧ n_dispose b tr = 1 ∧ n_destroy b tr = 1
  end.

(** Sample programs. *)
Definition demo_prog : list op :=
  [SMakeShared; WDemote 0; SCopy 0; SAlias 1 (Some 0); SReset 0; SMove 1;
   SDestroy 2; SLock 0; SDestroy 3; SDestroy 4; WDestroy 0].

Definition null_prog : list op := [SAdopt None; SDestroy 0].

(** [T* n = nullptr; SharedPtr<T> a(n); SharedPtr<T> b(a);] *)
Definition null_copy_prog : list op := [SAdopt None; SCopy 0].

(** [T* n = nullptr; SharedPtr<T> sp(n); SharedPtr<T> a(sp, n); sp.Reset();] *)
Definition null_alias_prog : list op := [SAdopt None; SAlias 0 None; SReset 0].

(** The handle points to a live object.  For a type that derives from
    [EnableSharedFromThis], releasing a handle that has a control block
    reads [ptr_->weak_this_]. *)
Definition points_to_live (s : SharedPtr) (h : Heap) : Prop :=
  ∃ o, sp_ptr_ s = Some o ∧ is_Some (objects h !! o).

(** The configuration after [auto s = MakeShared<T>();] for a type that
    derives from [EnableSharedFromThis]. *)
Definition esft_owner : config :=
  mkConfig
    (mkHeap {[ 0 := mkCB 1 1 ControlBlockHolder ]} {[ 0 := mkWeak (Some 0) (Some 0) ]} 1
       [EvAlloc Block 0])
    [mkShared (Some 0) (Some 0)] [].

(** Programs for a type that derives from [EnableSharedFromThis]. *)
Definition copy_then_drop_prog : list op := [SMakeShared; SCopy 0; SDestroy 1].
Definition promote_prog : list op :=
  [SMakeShared; WDemote 0; SCopy 0; SDestroy 1; SPromote 0].
Definition reset_new_prog : list op := [SDefault; SResetNew 0].

(** What the [weak_this_] member of one object contributes. *)
Definition eind (esft : bool) (w : WeakPtr) (b : addr) : nat :=
  if esft then ind (wp_cblock_ w) b else 0.

Definition copy_move_reset_prog : list op :=
  [SMakeShared; SCopy 0; SCopy 1; SMove 0; SDefault; SCopyAssign 4 1;
   SMoveAssign 0 2; SReset 1; SDestroy 3].

(** ** Objects and their owning blocks

    Used to show that programs over a type without the self-reference
    capability never run into undefined behaviour. *)

(** The object a control block disposes of. *)
Definition managed (b : addr) (cb : IControlBlock) : ptr :=
  match impl cb with
  | ControlBlockPtr p => p
  | ControlBlockHolder => GetPtr b
  end.

(** Every block with a non-zero strong count has a live object of its own. *)
Definition obj_inv (h : Heap) : Prop :=
  ∀ b cb, cblocks h !! b = Some cb → strong_ref_counter_ cb ≠ 0%Z →
    ∃ o, managed b cb = Some o ∧ is_Some (objects h !! o) ∧
      ∀ b' cb', cblocks h !! b' = Some cb' → strong_ref_counter_ cb' ≠ 0%Z →
        managed b' cb' = Some o → b' = b.

(** A live object that no block with a non-zero strong count manages. *)
Definition unowned (o : addr) (h : Heap) : Prop :=
  is_Some (objects h !! o) ∧
  ∀ b cb, cblocks h !! b = Some cb → strong_ref_counter_ cb ≠ 0%Z →
    managed b cb ≠ Some o.

(** Statements that neither adopt a raw pointer supplied by the caller nor
    use [SharedFromThis]/[WeakFromThis]. *)
Definition safe_op (o : op) : bool :=
  match o with
  | SAdopt _ | SResetPtr _ _ | SSharedFromThis _ | WWeakFromThis _ => false
  | _ => true
  end.

(** ** Blocks out of reach

    No [weak_this_] member references block [b]. *)
Definition refs_none (b : addr) (h : Heap) : Prop :=
  ∀ o w, objects h !! o = Some w → wp_cblock_ w ≠ Some b.

(** Block [b] and its events are in [h'] what they are in [h]. *)
Definition frame (b : addr) (h h' : Heap) : Prop :=
  cblocks h' !! b = cblocks h !! b ∧
  n_dispose b (trace h') = n_dispose b (trace h) ∧
  n_destroy b (trace h') = n_destroy b (trace h) ∧
  next h ≤ next h'.

Definition s_off (b : addr) (s : SharedPtr) : Prop := sp_cblock_ s ≠ Some b.
Definition w_off (b : addr) (w : WeakPtr) : Prop := wp_cblock_ w ≠ Some b.

(** No handle of the configuration references [b]. *)
Definition unreferenced (b : addr) (c : config) : Prop :=
  Forall (s_off b) (shared c) ∧ Forall (w_off b) (weak c) ∧ refs_none b (mem c).

(** [b] is unreferenced and already allocated. *)
Definition isolated (b : addr) (c : config) : Prop :=
  unreferenced b c ∧ b < next (mem c).

(** The computation [m], run where nothing in the store references the
    allocated address [b], leaves [b] alone, stores no reference to it and
    returns a result in [P]. *)
Definition leaves {A} (b : addr) (P : A → Prop) (m : M A) : Prop :=
  ∀ h r h', refs_none b h → b < next h → m h = Ok (r, h') →
    frame b h h' ∧ refs_none b h' ∧ P r.

Definition leaked_prog : list op :=
  [SMakeShared; SCopy 1; WDemote 1; SAdopt None; SDestroy 1; SCopyAssign 0 2;
   SDestroy 3; SDestroy 2; SLock 0; WDestroy 0; SDestroy 4; SDestroy 0].

(** More sample programs. *)
Definition expiry_prog : list op := [SMakeShared; WDemote 0; SCopy 0; SDestroy 0; SDestroy 1].

Definition expiry_final : config :=
  mkConfig
    (mkHeap {[ 0 := mkCB 0 1 ControlBlockHolder ]} ∅ 1 [EvDispose 0; EvAlloc Block 0])
    [mkShared None None; mkShared None None]
    [mkWeak (Some 0) (Some 0)].

Definition release_all_prog : list op :=
  [SMakeShared; SAdoptNew; WDemote 0; SCopy 1; SMoveAssign 0 1; SLock 0;
   SDestroy 0; SDestroy 3; SDestroy 2; WDestroy 0].

Definition release_all_final : config :=
  mkConfig
    (mkHeap ∅ ∅ 3
       [EvDestroy 0; EvDestroy 2; EvDispose 2; EvDispose 0;
        EvAlloc Block 2; EvAlloc Object 1; EvAlloc Block 0])
    [mkShared None None; mkShared None None; mkShared None None; mkShared None None]
    [mkWeak None None].

(** Every live object, those in [X] apart, is the one managed by an
    allocated control block that has not been disposed of. *)
Definition owned_except (X : addr → Prop) (h : Heap) : Prop :=
  ∀ o, is_Some (objects h !! o) →
    X o ∨ ∃ b cb, cblocks h !! b = Some cb ∧ managed b cb = Some o ∧
                  n_dispose b (trace h) = 0.

(** Running [m] keeps [owned_except X]. *)
Definition keeps (X : addr → Prop) {A} (m : M A) : Prop :=
  ∀ h r h', owned_except X h → m h = Ok (r, h') → owned_except X h'.

Definition churn_prog : list op :=
  [SMakeShared; SCopy 0; WDemote 1; SAdoptNew; SMoveAssign 0 2; SDestroy 1; SLock 0;
   SDestroy 0; WDestroy 0].

Definition churn_final : config :=
  mkConfig
    (mkHeap {[ 0 := mkCB 1 1 ControlBlockHolder ]} {[ 0 := WeakPtr_default ]} 4
       [EvDestroy 1; EvDestroy 3; EvDispose 3; EvDispose 1;
        EvAlloc Block 3; EvAlloc Object 2; EvAlloc Block 1; EvAlloc Block 0])
    [mkShared None None; mkShared None None; mkShared None None; mkShared None None]
    [mkWeak None None].

(** * Intrusive reference counting ([intrusive.h])

    The counter lives inside the managed object (its [RefCounted] base), so
    the store maps the address of each live object to its counter.  Member
    functions are computations in a state-and-failure monad over that
    store, with the outcomes of the shared-pointer model. *)

(** ** SimpleCounter *)

Record SimpleCounter := mkCounter { count_ : Z }.

(** [constexpr SimpleCounter()] *)
Definition SimpleCounter_new : SimpleCounter := mkCounter 0.

(** The copy constructor delegates to the default constructor: a copy
    starts at 0. *)
Definition SimpleCounter_copy (other : SimpleCounter) : SimpleCounter := SimpleCounter_new.

(** [operator=] builds a temporary and returns [*this] as it is. *)
Definition SimpleCounter_assign (this other : SimpleCounter) : SimpleCounter := this.

(** [++count_] and [--count_]: the new value and the updated counter. *)
Definition SimpleCounter_IncRef (this : SimpleCounter) : Z * SimpleCounter :=
  let n := wrap (count_ this + 1) in (n, mkCounter n).

Definition SimpleCounter_DecRef (this : SimpleCounter) : Z * SimpleCounter :=
  let n := wrap (count_ this - 1) in (n, mkCounter n).

Definition SimpleCounter_RefCount (this : SimpleCounter) : Z := count_ this.

(** ** The store of reference-counted objects *)

Inductive rc_event :=
  | RcNew (o : addr)       (* new T *)
  | RcDelete (o : addr).   (* Deleter::Destroy(object), that is delete object *)

#[global] Instance rc_event_eq_dec : EqDecision rc_event.
Proof. solve_decision. Defined.

Record RcStore := mkRcStore {
  rc_objects : gmap nat SimpleCounter;
  rc_next : addr;
  rc_trace : list rc_event
}.

Definition rc_empty : RcStore := mkRcStore ∅ 0 [].

Definition RM (A : Type) : Type := RcStore → outcome (A * RcStore).

#[global] Instance RM_ret : MRet RM := λ A a h, Ok (a, h).
#[global] Instance RM_bind : MBind RM := λ A B f m h,
  match m h with
  | Ok (a, h') => f a h'
  | BadWeakPtr => BadWeakPtr
  | Undefined w => Undefined w
  end.

Definition rc_fail {A} (w : ub) : RM A := λ _, Undefined w.

(** [counter_] of the object behind a raw pointer. *)
Definition rc_load (p : ptr) : RM SimpleCounter := λ h,
  match p with
  | None => Undefined NullDeref
  | Some o =>
      match rc_objects h !! o with
      | Some c => Ok (c, h)
      | None => Undefined Dangling
      end
  end.

Definition rc_store (o : addr) (c : SimpleCounter) : RM unit := λ h,
  Ok (tt, mkRcStore (<[o := c]> (rc_objects h)) (rc_next h) (rc_trace h)).

(** [new T(args...)]: a fresh object whose counter is 0. *)
Definition rc_new : RM addr := λ h,
  Ok (rc_next h,
      mkRcStore (<[rc_next h := SimpleCounter_new]> (rc_objects h)) (S (rc_next h))
        (RcNew (rc_next h) :: rc_trace h)).

Definition rc_free (o : addr) : RM unit := λ h,
  Ok (tt, mkRcStore (delete o (rc_objects h)) (rc_next h) (RcDelete o :: rc_trace h)).

(** [DefaultDelete::Destroy(object)]: [delete object]. *)
Definition DefaultDelete_Destroy (object : addr) : RM unit :=
  rc_load (Some object);; rc_free object.

(** ** RefCounted: member functions of the object at address [this] *)

Definition RefCounted_IncRef (this : addr) : RM unit :=
  c ← rc_load (Some this); rc_store this (SimpleCounter_IncRef c).2.

Definition RefCounted_RefCount (this : addr) : RM Z :=
  c ← rc_load (Some this); mret (SimpleCounter_RefCount c).

Definition RefCounted_DecRef (this : addr) : RM unit :=
  c ← rc_load (Some this);
  rc_store this (SimpleCounter_DecRef c).2;;
  n ← RefCounted_RefCount this;
  if bool_decide (n = 0%Z) then DefaultDelete_Destroy this else mret tt.

(** ** IntrusivePtr *)

Record IntrusivePtr := mkIntrusive { ip_ptr_ : ptr }.

#[global] Instance IntrusivePtr_eq_dec : EqDecision IntrusivePtr.
Proof. solve_decision. Defined.

Definition IntrusivePtr_default : IntrusivePtr := mkIntrusive None.

Definition IntrusivePtr_Zeroing (_ : IntrusivePtr) : IntrusivePtr := mkIntrusive None.

(** [Release()] *)
Definition IntrusivePtr_Release (this : IntrusivePtr) : RM IntrusivePtr :=
  (if ip_ptr_ this is Some o then RefCounted_DecRef o else mret tt);;
  mret (IntrusivePtr_Zeroing this).

(** [IntrusivePtr(T* ptr)] *)
Definition IntrusivePtr_from_raw (p : ptr) : RM IntrusivePtr :=
  (if p is Some o then RefCounted_IncRef o else mret tt);;
  mret (mkIntrusive p).

(** [IntrusivePtr(const IntrusivePtr& other)] *)
Definition IntrusivePtr_copy (other : IntrusivePtr) : RM IntrusivePtr :=
  (if ip_ptr_ other is Some o then RefCounted_IncRef o else mret tt);;
  mret (mkIntrusive (ip_ptr_ other)).

(** [IntrusivePtr(IntrusivePtr&& other)]: the new handle and what is left of
    [other]. *)
Definition IntrusivePtr_move (other : IntrusivePtr) : RM (IntrusivePtr * IntrusivePtr) :=
  (if ip_ptr_ other is Some o then RefCounted_IncRef o else mret tt);;
  other' ← IntrusivePtr_Release other;
  mret (mkIntrusive (ip_ptr_ other), other').

(** [operator=(const IntrusivePtr& other)] *)
Definition IntrusivePtr_assign_copy (this other : IntrusivePtr) : RM IntrusivePtr :=
  if bool_decide (ip_ptr_ this = ip_ptr_ other) then mret this
  else
    _ ← IntrusivePtr_Release this;
    (if ip_ptr_ other is Some o then RefCounted_IncRef o else mret tt);;
    mret (mkIntrusive (ip_ptr_ other)).

(** [operator=(IntrusivePtr&& other)]: the assigned handle and what is left
    of [other]. *)
Definition IntrusivePtr_assign_move (this other : IntrusivePtr)
  : RM (IntrusivePtr * IntrusivePtr) :=
  if bool_decide (ip_ptr_ this = ip_ptr_ other) then mret (this, other)
  else
    _ ← IntrusivePtr_Release this;
    (if ip_ptr_ other is Some o then RefCounted_IncRef o else mret tt);;
    other' ← IntrusivePtr_Release other;
    mret (mkIntrusive (ip_ptr_ other), other').

Definition IntrusivePtr_Reset (this : IntrusivePtr) : RM IntrusivePtr :=
  IntrusivePtr_Release this.

(** [Reset(T* ptr)] *)
Definition IntrusivePtr_Reset_ptr (this : IntrusivePtr) (p : ptr) : RM IntrusivePtr :=
  _ ← IntrusivePtr_Release this;
  (if p is Some o then RefCounted_IncRef o else mret tt);;
  mret (mkIntrusive p).

Definition IntrusivePtr_Swap (this other : IntrusivePtr) : IntrusivePtr * IntrusivePtr :=
  (mkIntrusive (ip_ptr_ other), mkIntrusive (ip_ptr_ this)).

Definition IntrusivePtr_Get (this : IntrusivePtr) : ptr := ip_ptr_ this.

Definition IntrusivePtr_UseCount (this : IntrusivePtr) : RM Z :=
  if ip_ptr_ this is Some o then RefCounted_RefCount o else mret 0%Z.

Definition IntrusivePtr_bool (this : IntrusivePtr) : bool :=
  bool_decide (ip_ptr_ this ≠ None).

(** [MakeIntrusive<T>(args...)] *)
Definition MakeIntrusive : RM IntrusivePtr :=
  o ← rc_new; IntrusivePtr_from_raw (Some o).

(** ** Programs over [IntrusivePtr<T>] variables

    As for the shared pointers: declarations append a variable, a destroyed
    variable keeps its (zeroed) slot, and a statement that names a variable
    not yet declared is skipped. *)

Record rc_config := mkRcConfig {
  rc_mem : RcStore;
  rc_vars : list IntrusivePtr
}.

Definition rc_init : rc_config := mkRcConfig rc_empty [].

Inductive rc_op :=
  | IDefault                 (* IntrusivePtr<T> p; *)
  | IMake                    (* auto p = MakeIntrusive<T>(); *)
  | IFromRaw (i : nat)       (* IntrusivePtr<T> p(p_i.Get()); *)
  | ICopy (i : nat)          (* IntrusivePtr<T> p(p_i); *)
  | IMove (i : nat)          (* IntrusivePtr<T> p(std::move(p_i)); *)
  | ICopyAssign (i j : nat)  (* p_i = p_j; *)
  | IMoveAssign (i j : nat)  (* p_i = std::move(p_j); *)
  | IReset (i : nat)         (* p_i.Reset(); *)
  | IResetRaw (i j : nat)    (* p_i.Reset(p_j.Get()); *)
  | IResetNew (i : nat)      (* p_i.Reset(new T); *)
  | ISwap (i j : nat)        (* p_i.Swap(p_j); *)
  | IDestroy (i : nat).      (* p_i.~IntrusivePtr(); *)

Definition rc_exec {A} (c : rc_config) (m : RM A) (k : A → RcStore → rc_config)
  : outcome rc_config :=
  match m (rc_mem c) with
  | Ok (a, h) => Ok (k a h)
  | BadWeakPtr => BadWeakPtr
  | Undefined w => Undefined w
  end.

Definition rc_decl (c : rc_config) (m : RM IntrusivePtr) : outcome rc_config :=
  rc_exec c m (λ s h, mkRcConfig h (rc_vars c ++ [s])).

Definition rc_upd (c : rc_config) (i : nat) (m : RM IntrusivePtr) : outcome rc_config :=
  rc_exec c m (λ s h, mkRcConfig h (<[i := s]> (rc_vars c))).

Definition rc_step (o : rc_op) (c : rc_config) : outcome rc_config :=
  match o with
  | IDefault => rc_decl c (mret IntrusivePtr_default)
  | IMake => rc_decl c MakeIntrusive
  | IFromRaw i =>
      match rc_vars c !! i with
      | Some s => rc_decl c (IntrusivePtr_from_raw (IntrusivePtr_Get s))
      | None => Ok c
      end
  | ICopy i =>
      match rc_vars c !! i with
      | Some s => rc_decl c (IntrusivePtr_copy s)
      | None => Ok c
      end
  | IMove i =>
      match rc_vars c !! i with
      | Some s =>
          rc_exec c (IntrusivePtr_move s)
            (λ r h, mkRcConfig h (<[i := r.2]> (rc_vars c) ++ [r.1]))
      | None => Ok c
      end
  | ICopyAssign i j =>
      match rc_vars c !! i, rc_vars c !! j with
      | Some this, Some other => rc_upd c i (IntrusivePtr_assign_copy this other)
      | _, _ => Ok c
      end
  | IMoveAssign i j =>
      match rc_vars c !! i, rc_vars c !! j with
      | Some this, Some other =>
          rc_exec c (IntrusivePtr_assign_move this other)
            (λ r h, mkRcConfig h (<[i := r.1]> (<[j := r.2]> (rc_vars c))))
      | _, _ => Ok c
      end
  | IReset i =>
      match rc_vars c !! i with
      | Some s => rc_upd c i (IntrusivePtr_Reset s)
      | None => Ok c
      end
  | IResetRaw i j =>
      match rc_vars c !! i, rc_vars c !! j with
      | Some this, Some other =>
          rc_upd c i (IntrusivePtr_Reset_ptr this (IntrusivePtr_Get other))
      | _, _ => Ok c
      end
  | IResetNew i =>
      match rc_vars c !! i with
      | Some s => rc_upd c i (p ← rc_new; IntrusivePtr_Reset_ptr s (Some p))
      | None => Ok c
      end
  | ISwap i j =>
      match rc_vars c !! i, rc_vars c !! j with
      | Some this, Some other =>
          let r := IntrusivePtr_Swap this other in
          Ok (mkRcConfig (rc_mem c) (<[i := r.1]> (<[j := r.2]> (rc_vars c))))
      | _, _ => Ok c
      end
  | IDestroy i =>
      match rc_vars c !! i with
      | Some s => rc_upd c i (IntrusivePtr_Release s)
      | None => Ok c
      end
  end.

Fixpoint rc_run (prog : list rc_op) (c : rc_config) : outcome rc_config :=
  match prog with
  | [] => Ok c
  | o :: prog' =>
      match rc_step o c with
      | Ok c' => rc_run prog' c'
      | BadWeakPtr => BadWeakPtr
      | Undefined u => Undefined u
      end
  end.

(** ** Specification vocabulary *)

(** Number of handles of a list that point to object [o]. *)
Definition holders (o : addr) (l : list IntrusivePtr) : nat :=
  length (filter (λ s, ip_ptr_ s = Some o) l).

Definition rc_count (e : rc_event) (tr : list rc_event) : nat :=
  length (filter (λ x, x = e) tr).

(** The state of object [o] when [k] handles point to it: while it is
    allocated its counter is [k], at least one handle points to it (unless
    [pend]: it has just been allocated), and it has not been deleted; once
    it is gone no handle points to it and it has been deleted exactly once
    if it ever existed. *)
Definition rc_ok (pend : Prop) (h : RcStore) (k : nat) (o : addr) : Prop :=
  match rc_objects h !! o with
  | Some c =>
      count_ c = Z.of_nat k ∧ (pend ∨ 0 < k) ∧
      rc_count (RcNew o) (rc_trace h) = 1 ∧ rc_count (RcDelete o) (rc_trace h) = 0
  | None =>
      k = 0 ∧ rc_count (RcNew o) (rc_trace h) ≤ 1 ∧
      rc_count (RcDelete o) (rc_trace h) = rc_count (RcNew o) (rc_trace h)
  end.

Definition rc_inv (pend : addr → Prop) (h : RcStore) (n : addr → nat) : Prop :=
  (∀ o, rc_ok (pend o) h (n o) o) ∧
  (∀ a, rc_next h ≤ a → rc_objects h !! a = None ∧ rc_count (RcNew a) (rc_trace h) = 0).

(** A well-formed configuration of at most [N] variables. *)
Definition rc_cfg_ok (N : nat) (c : rc_config) : Prop :=
  rc_inv (λ _, False) (rc_mem c) (λ o, holders o (rc_vars c)) ∧ length (rc_vars c) ≤ N.

(** [p_i.Reset(p_i.Get())]. *)
Definition self_reset (o : rc_op) : bool :=
  match o with
  | IResetRaw i j => bool_decide (i = j)
  | _ => false
  end.

Definition rc_demo_prog : list rc_op :=
  [IMake; ICopy 0; IMove 1; IFromRaw 2; IDefault; ICopyAssign 4 0; IResetNew 0;
   IMoveAssign 1 3; IResetRaw 2 0; ISwap 0 4; IReset 1; IDestroy 0; IDestroy 2; IDestroy 4].

(** The configurations that [rc_demo_prog] reaches after nine statements
    and at its end. *)
Definition rc_demo_mid : rc_config :=
  mkRcConfig
    (mkRcStore {[ 0 := mkCounter 2; 1 := mkCounter 2 ]} 2 [RcNew 1; RcNew 0])
    [mkIntrusive (Some 1); mkIntrusive (Some 0); mkIntrusive (Some 1);
     mkIntrusive None; mkIntrusive (Some 0)].

Definition rc_demo_final : rc_config :=
  mkRcConfig
    (mkRcStore ∅ 2 [RcDelete 1; RcDelete 0; RcNew 1; RcNew 0])
    [mkIntrusive None; mkIntrusive None; mkIntrusive None; mkIntrusive None;
     mkIntrusive None].

(** * Unique ownership ([unique.h], [compressed_pair.h])

    A [UniquePtr<T, Deleter>] is its [CompressedPair<T*, Deleter>]: a raw
    pointer and a deleter.  A deleter is modelled by a tag; calling it
    deletes the object, as [Slug<T>] does, and records the tag in the
    trace.  The store is the set of live objects.  The specialisation for
    arrays has the same member functions, with [delete[]]. *)

Record CompressedPair (F S : Type) := mkPair { GetFirst : F; GetSecond : S }.
Arguments mkPair {F S} _ _.
Arguments GetFirst {F S} _.
Arguments GetSecond {F S} _.

(** Deleters, by tag; [Slug] is the default one. *)
Abbreviation Deleter := nat.
Definition Slug : Deleter := 0.

Inductive uq_event :=
  | UqNew (o : addr)                  (* new T *)
  | UqDelete (d : Deleter) (o : addr). (* d(o) *)

#[global] Instance uq_event_eq_dec : EqDecision uq_event.
Proof. solve_decision. Defined.

Record UqStore := mkUqStore {
  uq_objects : gset nat;
  uq_next : addr;
  uq_trace : list uq_event
}.

Definition uq_empty : UqStore := mkUqStore ∅ 0 [].

Definition UM (A : Type) : Type := UqStore → outcome (A * UqStore).

#[global] Instance UM_ret : MRet UM := λ A a h, Ok (a, h).
#[global] Instance UM_bind : MBind UM := λ A B f m h,
  match m h with
  | Ok (a, h') => f a h'
  | BadWeakPtr => BadWeakPtr
  | Undefined w => Undefined w
  end.

(** [new T] *)
Definition uq_new : UM addr := λ h,
  Ok (uq_next h,
      mkUqStore ({[uq_next h]} ∪ uq_objects h) (S (uq_next h)) (UqNew (uq_next h) :: uq_trace h)).

(** [deleter(ptr)] on a non-null pointer: [delete ptr]. *)
Definition call_deleter (d : Deleter) (o : addr) : UM unit := λ h,
  if decide (o ∈ uq_objects h)
  then Ok (tt, mkUqStore (uq_objects h ∖ {[o]}) (uq_next h) (UqDelete d o :: uq_trace h))
  else Undefined Dangling.

Definition UniquePtr : Type := CompressedPair ptr Deleter.

(** [explicit UniquePtr(T* ptr = nullptr)] *)
Definition UniquePtr_new (p : ptr) : UniquePtr := mkPair p Slug.

(** [UniquePtr(T* ptr, Deleter deleter)] *)
Definition UniquePtr_new_with (p : ptr) (d : Deleter) : UniquePtr := mkPair p d.

Definition UniquePtr_Get (this : UniquePtr) : ptr := GetFirst this.

Definition UniquePtr_GetDeleter (this : UniquePtr) : Deleter := GetSecond this.

Definition UniquePtr_bool (this : UniquePtr) : bool :=
  bool_decide (UniquePtr_Get this ≠ None).

(** [Release()]: the pointer that was held, and the handle afterwards. *)
Definition UniquePtr_Release (this : UniquePtr) : ptr * UniquePtr :=
  (UniquePtr_Get this, mkPair None (GetSecond this)).

(** [Reset(T* ptr = nullptr)]: the new pointer is stored first, then the
    old one is deleted. *)
Definition UniquePtr_Reset (this : UniquePtr) (p : ptr) : UM UniquePtr :=
  let old_ptr := UniquePtr_Get this in
  let this := mkPair p (GetSecond this) in
  (if old_ptr is Some o then call_deleter (UniquePtr_GetDeleter this) o else mret tt);;
  mret this.

(** [UniquePtr(UniquePtr<U, D>&& other)]: the new handle and what is left of
    [other]. *)
Definition UniquePtr_move (other : UniquePtr) : UniquePtr * UniquePtr :=
  let r := UniquePtr_Release other in
  (mkPair r.1 (UniquePtr_GetDeleter r.2), r.2).

(** [operator=(UniquePtr<U, D>&& other)]; [self] is [this == &other], in
    which case both results are the one object. *)
Definition UniquePtr_assign_move (self : bool) (this other : UniquePtr)
  : UM (UniquePtr * UniquePtr) :=
  if self then
    let r := UniquePtr_Release this in
    this ← UniquePtr_Reset r.2 r.1;
    let this := mkPair (GetFirst this) (UniquePtr_GetDeleter this) in
    mret (this, this)
  else
    let r := UniquePtr_Release other in
    this ← UniquePtr_Reset this r.1;
    mret (mkPair (GetFirst this) (UniquePtr_GetDeleter r.2), r.2).

(** [operator=(std::nullptr_t)] *)
Definition UniquePtr_assign_null (this : UniquePtr) : UM UniquePtr :=
  UniquePtr_Reset this None.

(** [~UniquePtr()] *)
Definition UniquePtr_destroy (this : UniquePtr) : UM unit :=
  if UniquePtr_Get this is Some o then call_deleter (UniquePtr_GetDeleter this) o
  else mret tt.

Definition UniquePtr_Swap (this other : UniquePtr) : UniquePtr * UniquePtr :=
  (mkPair (GetFirst other) (GetSecond other), mkPair (GetFirst this) (GetSecond this)).

(** ** Programs over [UniquePtr<T, Deleter>] variables

    Declarations append a variable; a destroyed variable is gone ([None]),
    and a statement that names a variable that is gone or not yet declared
    is skipped. *)

Record uq_config := mkUqConfig {
  uq_mem : UqStore;
  uq_vars : list (option UniquePtr)
}.

Definition uq_init : uq_config := mkUqConfig uq_empty [].

Inductive uq_op :=
  | UDefault                    (* UniquePtr<T> u; *)
  | UNew                        (* UniquePtr<T> u(new T); *)
  | UNewWith (d : Deleter)      (* UniquePtr<T, D> u(new T, d); *)
  | UMove (i : nat)             (* UniquePtr<T, D> u(std::move(u_i)); *)
  | UMoveAssign (i j : nat)     (* u_i = std::move(u_j); *)
  | UAssignNull (i : nat)       (* u_i = nullptr; *)
  | UReset (i : nat)            (* u_i.Reset(); *)
  | UResetNew (i : nat)         (* u_i.Reset(new T); *)
  | UResetRaw (i j : nat)       (* u_i.Reset(u_j.Get()); *)
  | URelease (i : nat)          (* u_i.Release(); the pointer is dropped *)
  | USwap (i j : nat)           (* u_i.Swap(u_j); *)
  | UDestroy (i : nat).         (* u_i.~UniquePtr(); *)

Definition uq_var (c : uq_config) (i : nat) : option UniquePtr :=
  match uq_vars c !! i with
  | Some (Some u) => Some u
  | _ => None
  end.

Definition uq_exec {A} (c : uq_config) (m : UM A)
    (k : A → list (option UniquePtr)) : outcome uq_config :=
  match m (uq_mem c) with
  | Ok (a, h) => Ok (mkUqConfig h (k a))
  | BadWeakPtr => BadWeakPtr
  | Undefined w => Undefined w
  end.

Definition uq_step (o : uq_op) (c : uq_config) : outcome uq_config :=
  let l := uq_vars c in
  match o with
  | UDefault => Ok (mkUqConfig (uq_mem c) (l ++ [Some (UniquePtr_new None)]))
  | UNew => uq_exec c uq_new (λ p, l ++ [Some (UniquePtr_new (Some p))])
  | UNewWith d => uq_exec c uq_new (λ p, l ++ [Some (UniquePtr_new_with (Some p) d)])
  | UMove i =>
      match uq_var c i with
      | Some u =>
          let r := UniquePtr_move u in
          Ok (mkUqConfig (uq_mem c) (<[i := Some r.2]> l ++ [Some r.1]))
      | None => Ok c
      end
  | UMoveAssign i j =>
      match uq_var c i, uq_var c j with
      | Some this, Some other =>
          uq_exec c (UniquePtr_assign_move (bool_decide (i = j)) this other)
            (λ r, <[i := Some r.1]> (<[j := Some r.2]> l))
      | _, _ => Ok c
      end
  | UAssignNull i =>
      match uq_var c i with
      | Some u => uq_exec c (UniquePtr_assign_null u) (λ u', <[i := Some u']> l)
      | None => Ok c
      end
  | UReset i =>
      match uq_var c i with
      | Some u => uq_exec c (UniquePtr_Reset u None) (λ u', <[i := Some u']> l)
      | None => Ok c
      end
  | UResetNew i =>
      match uq_var c i with
      | Some u =>
          uq_exec c (p ← uq_new; UniquePtr_Reset u (Some p)) (λ u', <[i := Some u']> l)
      | None => Ok c
      end
  | UResetRaw i j =>
      match uq_var c i, uq_var c j with
      | Some this, Some other =>
          uq_exec c (UniquePtr_Reset this (UniquePtr_Get other)) (λ u', <[i := Some u']> l)
      | _, _ => Ok c
      end
  | URelease i =>
      match uq_var c i with
      | Some u => Ok (mkUqConfig (uq_mem c) (<[i := Some (UniquePtr_Release u).2]> l))
      | None => Ok c
      end
  | USwap i j =>
      match uq_var c i, uq_var c j with
      | Some this, Some other =>
          let r := UniquePtr_Swap this other in
          Ok (mkUqConfig (uq_mem c) (<[i := Some r.1]> (<[j := Some r.2]> l)))
      | _, _ => Ok c
      end
  | UDestroy i =>
      match uq_var c i with
      | Some u => uq_exec c (UniquePtr_destroy u) (λ _, <[i := None]> l)
      | None => Ok c
      end
  end.

Fixpoint uq_run (prog : list uq_op) (c : uq_config) : outcome uq_config :=
  match prog with
  | [] => Ok c
  | o :: prog' =>
      match uq_step o c with
      | Ok c' => uq_run prog' c'
      | BadWeakPtr => BadWeakPtr
      | Undefined u => Undefined u
      end
  end.

(** ** Specification vocabulary *)

(** The object a variable holds, if it exists and is not empty. *)
Definition uq_ptr (x : option UniquePtr) : option addr := x ≫= GetFirst.

(** The objects held by the variables, in order. *)
Definition held (l : list (option UniquePtr)) : list addr := omap uq_ptr l.

(** Variable [i] exists and holds the object [o]. *)
Definition holds (l : list (option UniquePtr)) (i : nat) (o : addr) : Prop :=
  ∃ x, l !! i = Some x ∧ uq_ptr x = Some o.

Definition uq_count (e : uq_event) (tr : list uq_event) : nat :=
  length (filter (λ x, x = e) tr).

(** Number of deleter calls on [o], whatever the deleter. *)
Definition deletes (o : addr) (e : uq_event) : bool :=
  match e with
  | UqDelete _ o' => bool_decide (o' = o)
  | UqNew _ => false
  end.

Definition uq_deleted (o : addr) (tr : list uq_event) : nat :=
  length (filter (λ e, deletes o e = true) tr).

(** Unique ownership, for the list [hl] of held objects: they are pairwise
    different and alive, a live object has been created and not deleted,
    and an object that is not alive has been deleted once if it was ever
    created and never otherwise. *)
Definition uq_ok_at (hl : list addr) (h : UqStore) : Prop :=
  NoDup hl ∧
  (∀ o, o ∈ hl → o ∈ uq_objects h) ∧
  (∀ o, o ∈ uq_objects h → o < uq_next h ∧ uq_deleted o (uq_trace h) = 0) ∧
  (∀ o, o ∉ uq_objects h →
        uq_deleted o (uq_trace h) = if decide (o < uq_next h) then 1 else 0).

Definition uq_ok (c : uq_config) : Prop := uq_ok_at (held (uq_vars c)) (uq_mem c).

(** Every live object is held by a variable. *)
Definition uq_all_held (c : uq_config) : Prop :=
  ∀ o, o ∈ uq_objects (uq_mem c) → o ∈ held (uq_vars c).

(** Statements that give a raw pointer a second owner, and statements that
    drop an owner without deleting. *)
Definition uq_aliasing (o : uq_op) : bool :=
  match o with UResetRaw _ _ => true | _ => false end.

Definition uq_dropping (o : uq_op) : bool :=
  match o with URelease _ => true | _ => false end.

Definition uq_demo_prog : list uq_op :=
  [UNew; UNewWith 7; UMove 0; UMoveAssign 1 2; UDefault; USwap 1 3; UResetNew 3;
   UMoveAssign 3 3; UAssignNull 0; UReset 1; UDestroy 3; UDestroy 2; UDestroy 1].

(** A store with two live objects. *)
Definition uq_two : UqStore := mkUqStore {[0; 1]} 2 [UqNew 1; UqNew 0].
(** * Single-operation facts *)

Ltac munfold :=
  unfold mbind, M_bind, mret, M_ret, fail, throw_BadWeakPtr in *.

Lemma wrap_0_pred : wrap (0 - 1) = 18446744073709551615%Z.
Proof. reflexivity. Qed.

Lemma wrap_0_succ : wrap (0 + 1) = 1%Z.
Proof. reflexivity. Qed.

(** Symbolic execution of straight-line store code on the goal. *)
Ltac mrun :=
  repeat first
    [ progress
        (unfold mbind, M_bind, mret, M_ret, fail, throw_BadWeakPtr,
           load_cb, store_cb, free_cb, load_obj, store_obj, free_obj, emit, alloc,
           GetStrongRefsCount, AddStrongRef, RemoveStrongRef, IsZeroStrongOwning,
           GetWeakRefsCount, AddWeakRef, RemoveWeakRef, IsZeroWeakOwning, Destroy)
    | rewrite lookup_insert_eq
    | rewrite wrap_0_pred
    | rewrite wrap_0_succ
    | rewrite bool_decide_eq_true_2 by (reflexivity || lia)
    | rewrite bool_decide_eq_false_2 by (discriminate || lia)
    | progress cbn ].

Lemma wrap_small z : (0 ≤ z < size_t_modulus)%Z → wrap z = z.
Proof. intros; unfold wrap; by apply Z.mod_small. Qed.

Lemma wrap_succ z : (0 ≤ z < size_t_modulus - 1)%Z → wrap (z + 1) = (z + 1)%Z.
Proof. intros; apply wrap_small; lia. Qed.

Lemma wrap_pred z : (0 < z ≤ size_t_modulus)%Z → wrap (z - 1) = (z - 1)%Z.
Proof. intros; apply wrap_small; lia. Qed.

Lemma Expired_spec w h :
  live_ref h (wp_cblock_ w) →
  (expired w h → WeakPtr_Expired w h = Ok (true, h)) ∧
  (¬ expired w h → WeakPtr_Expired w h = Ok (false, h)).
Proof.
  intros Hv. unfold WeakPtr_Expired, WeakPtr_UseCount, GetStrongRefsCount, load_cb, expired.
  destruct (wp_cblock_ w) as [b|] eqn:Hb; munfold.
  - destruct (Hv b eq_refl) as (cb & Hcb). rewrite Hcb. cbn. split.
    + intros [?|(b' & cb' & ? & Hl & Hz)]; [done|]. simplify_eq.
      by rewrite bool_decide_eq_true_2.
    + intros Hn. rewrite bool_decide_eq_false_2; [done|].
      intros Hz. apply Hn. right. eauto.
  - split; [done|]. intros Hn. destruct Hn. by left.
Qed.

Lemma expired_dec w h : live_ref h (wp_cblock_ w) → expired w h ∨ ¬ expired w h.
Proof.
  intros Hv. unfold expired. destruct (wp_cblock_ w) as [b|]; [|by left; left].
  destruct (Hv b eq_refl) as (cb & Hcb).
  destruct (decide (strong_ref_counter_ cb = 0%Z)) as [Hz|Hz].
  - left. right. eauto.
  - right. intros [?|(b' & cb' & ? & ? & ?)]; [done|]. simplify_eq.
Qed.

Lemma promotion_not_expired w h :
  live_ref h (wp_cblock_ w) → ¬ expired w h →
  ∃ b cb, wp_cblock_ w = Some b ∧ cblocks h !! b = Some cb ∧
    SharedPtr_from_weak w h =
      Ok (mkShared (wp_ptr_ w) (Some b),
          with_counters b cb (wrap (strong_ref_counter_ cb + 1)) (weak_ref_counter_ cb) h) ∧
    ((0 ≤ strong_ref_counter_ cb < size_t_modulus - 1)%Z →
     wrap (strong_ref_counter_ cb + 1) = (strong_ref_counter_ cb + 1)%Z).
Proof.
  intros Hv Hn. destruct (Expired_spec w h Hv) as [_ Hne]. specialize (Hne Hn).
  destruct (wp_cblock_ w) as [b|] eqn:Hb; [|destruct Hn; by left].
  destruct (Hv b eq_refl) as (cb & Hcb).
  exists b, cb. split_and!; [done..| |apply wrap_succ].
  unfold SharedPtr_from_weak. munfold. rewrite Hne. cbn. rewrite Hb.
  unfold AddStrongRef, load_cb, store_cb. munfold. by rewrite Hcb.
Qed.

(** C3: for a weak handle whose control block, if it has one, is still
    allocated, the promoting constructor [SharedPtr(const WeakPtr&)] throws
    [BadWeakPtr] exactly when the handle is expired (no control block, or
    strong count zero); otherwise it returns a handle with the weak handle's
    raw pointer and control block, and the only change to the store is that
    block's strong counter being incremented (as a [size_t]: by one, unless
    it was [2^64 - 1]). *)
Theorem promotion_throws_iff_expired (w : WeakPtr) (h : Heap) :
  live_ref h (wp_cblock_ w) →
  (SharedPtr_from_weak w h = BadWeakPtr ↔ expired w h) ∧
  (¬ expired w h →
     ∃ b cb, wp_cblock_ w = Some b ∧ cblocks h !! b = Some cb ∧
       SharedPtr_from_weak w h =
         Ok (mkShared (wp_ptr_ w) (Some b),
             with_counters b cb (wrap (strong_ref_counter_ cb + 1))
               (weak_ref_counter_ cb) h) ∧
       ((0 ≤ strong_ref_counter_ cb < size_t_modulus - 1)%Z →
        wrap (strong_ref_counter_ cb + 1) = (strong_ref_counter_ cb + 1)%Z)).
Proof.
  intros Hv. destruct (Expired_spec w h Hv) as [He _].
  split; [|by apply promotion_not_expired]. split.
  - intros Ht. destruct (expired_dec w h Hv) as [|Hn]; [done|].
    destruct (promotion_not_expired w h Hv Hn) as (? & ? & _ & _ & Heq & _). congruence.
  - intros Hx. unfold SharedPtr_from_weak. munfold. by rewrite (He Hx).
Qed.

Lemma demo_heap_live : live_ref demo_heap (Some 0).
Proof. intros b [= <-]. by eexists. Qed.

Lemma promotion_throws_iff_expired_witness :
  live_ref demo_heap (Some 0) ∧
  (SharedPtr_from_weak (mkWeak (Some 0) (Some 0)) demo_heap = BadWeakPtr ↔
   expired (mkWeak (Some 0) (Some 0)) demo_heap) ∧
  (¬ expired (mkWeak (Some 0) (Some 0)) demo_heap →
     ∃ b cb, Some 0 = Some b ∧ cblocks demo_heap !! b = Some cb ∧
       SharedPtr_from_weak (mkWeak (Some 0) (Some 0)) demo_heap =
         Ok (mkShared (Some 0) (Some b),
             with_counters b cb (wrap (strong_ref_counter_ cb + 1))
               (weak_ref_counter_ cb) demo_heap) ∧
       ((0 ≤ strong_ref_counter_ cb < size_t_modulus - 1)%Z →
        wrap (strong_ref_counter_ cb + 1) = (strong_ref_counter_ cb + 1)%Z)).
Proof.
  split; [exact demo_heap_live|].
  exact (promotion_throws_iff_expired (mkWeak (Some 0) (Some 0)) demo_heap demo_heap_live).
Defined.

(** C4: for a weak handle whose control block, if it has one, is still
    allocated, [Lock] never throws; on an expired handle it returns the
    empty [SharedPtr] and changes nothing; otherwise it returns a handle on
    the weak handle's control block (and raw pointer) and the block's strong
    counter is incremented (as a [size_t]: by one, unless it was
    [2^64 - 1]). *)
Theorem Lock_never_throws (w : WeakPtr) (h : Heap) :
  live_ref h (wp_cblock_ w) →
  WeakPtr_Lock w h ≠ BadWeakPtr ∧
  (expired w h → WeakPtr_Lock w h = Ok (mkShared None None, h)) ∧
  (¬ expired w h →
     ∃ b cb, wp_cblock_ w = Some b ∧ cblocks h !! b = Some cb ∧
       WeakPtr_Lock w h =
         Ok (mkShared (wp_ptr_ w) (Some b),
             with_counters b cb (wrap (strong_ref_counter_ cb + 1))
               (weak_ref_counter_ cb) h) ∧
       ((0 ≤ strong_ref_counter_ cb < size_t_modulus - 1)%Z →
        wrap (strong_ref_counter_ cb + 1) = (strong_ref_counter_ cb + 1)%Z)).
Proof.
  intros Hv. destruct (Expired_spec w h Hv) as [He Hne].
  assert (H1 : expired w h → WeakPtr_Lock w h = Ok (mkShared None None, h)).
  { intros Hx. unfold WeakPtr_Lock. munfold. by rewrite (He Hx). }
  assert (H2 : ¬ expired w h →
     ∃ b cb, wp_cblock_ w = Some b ∧ cblocks h !! b = Some cb ∧
       WeakPtr_Lock w h =
         Ok (mkShared (wp_ptr_ w) (Some b),
             with_counters b cb (wrap (strong_ref_counter_ cb + 1))
               (weak_ref_counter_ cb) h) ∧
       ((0 ≤ strong_ref_counter_ cb < size_t_modulus - 1)%Z →
        wrap (strong_ref_counter_ cb + 1) = (strong_ref_counter_ cb + 1)%Z)).
  { intros Hn.
    destruct (promotion_not_expired w h Hv Hn) as (b & cb & Hb & Hcb & Heq & Hwr).
    exists b, cb. split_and!; [done..| |done].
    unfold WeakPtr_Lock. munfold. by rewrite (Hne Hn). }
  split_and!; [|done..].
  destruct (expired_dec w h Hv) as [Hx|Hn].
  - by rewrite (H1 Hx).
  - destruct (H2 Hn) as (? & ? & _ & _ & -> & _). done.
Qed.

Lemma Lock_never_throws_witness :
  live_ref demo_heap (Some 0) ∧
  WeakPtr_Lock (mkWeak (Some 0) (Some 0)) demo_heap ≠ BadWeakPtr ∧
  (expired (mkWeak (Some 0) (Some 0)) demo_heap →
   WeakPtr_Lock (mkWeak (Some 0) (Some 0)) demo_heap = Ok (mkShared None None, demo_heap)) ∧
  (¬ expired (mkWeak (Some 0) (Some 0)) demo_heap →
     ∃ b cb, Some 0 = Some b ∧ cblocks demo_heap !! b = Some cb ∧
       WeakPtr_Lock (mkWeak (Some 0) (Some 0)) demo_heap =
         Ok (mkShared (Some 0) (Some b),
             with_counters b cb (wrap (strong_ref_counter_ cb + 1))
               (weak_ref_counter_ cb) demo_heap) ∧
       ((0 ≤ strong_ref_counter_ cb < size_t_modulus - 1)%Z →
        wrap (strong_ref_counter_ cb + 1) = (strong_ref_counter_ cb + 1)%Z)).
Proof.
  split; [exact demo_heap_live|].
  exact (Lock_never_throws (mkWeak (Some 0) (Some 0)) demo_heap demo_heap_live).
Defined.

(** Both paths on concrete handles: a live one is promoted, an expired one
    makes the constructor throw and [Lock] return the empty handle. *)
Example promotion_examples :
  SharedPtr_from_weak (mkWeak (Some 0) (Some 0)) demo_heap =
    Ok (mkShared (Some 0) (Some 0),
        with_counters 0 (mkCB 1 1 ControlBlockHolder) 2 1 demo_heap) ∧
  SharedPtr_from_weak WeakPtr_default demo_heap = BadWeakPtr ∧
  WeakPtr_Lock WeakPtr_default demo_heap = Ok (SharedPtr_default, demo_heap) ∧
  SharedPtr_from_weak (mkWeak (Some 0) (Some 0))
    (with_counters 0 (mkCB 1 1 ControlBlockHolder) 0 1 demo_heap) = BadWeakPtr ∧
  WeakPtr_Lock (mkWeak (Some 0) (Some 0))
    (with_counters 0 (mkCB 1 1 ControlBlockHolder) 0 1 demo_heap) =
    Ok (SharedPtr_default, with_counters 0 (mkCB 1 1 ControlBlockHolder) 0 1 demo_heap).
Proof. split_and!; reflexivity. Qed.



(** C8: [MakeShared] calls [operator new] once, for a [ControlBlockHolder];
    the object is built inside that block (the returned raw pointer is the
    block's own storage), the strong count is 1, and nothing else is
    allocated.  (When [T] derives from [EnableSharedFromThis] the object's
    [weak_this_] is set as well, which makes the weak count 1.)  The
    constructor of [T] itself is outside the model. *)
Theorem MakeShared_single_allocation (esft : bool) (h : Heap) :
  let b := next h in
  let sp := mkShared (GetPtr b) (Some b) in
  ∃ h',
    MakeShared esft h = Ok (sp, h') ∧
    trace h' = EvAlloc Block b :: trace h ∧
    n_alloc (trace h') = S (n_alloc (trace h)) ∧
    next h' = S (next h) ∧
    cblocks h' =
      <[b := mkCB 1 (if esft then 1 else 0) ControlBlockHolder]> (cblocks h) ∧
    objects h' =
      <[b := if esft then mkWeak (Some b) (Some b) else WeakPtr_default]> (objects h) ∧
    SharedPtr_UseCount sp h' = Ok (1%Z, h').
Proof.
  intros b sp. subst sp.
  unfold MakeShared, new_ControlBlockHolder, SharedPtr_from_holder, set_weak_this,
    WeakPtr_assign_shared, WeakPtr_Release, AddStrongRef, AddWeakRef, alloc, store_cb,
    store_obj, load_cb, load_obj, SharedPtr_UseCount, GetStrongRefsCount, GetPtr.
  munfold. cbn. fold b.
  destruct esft; mrun; unfold upd_cb, upd_obj, log, bump; cbn;
    rewrite !insert_insert_eq; (eexists; split_and!; try reflexivity); by mrun.
Qed.

(** Adopting a null raw pointer (for a type without the self-reference
    capability) allocates a [ControlBlockPtr] whose strong counter stays 0;
    releasing the handle then takes the counter from 0 to [2^64 - 1], so
    neither [Dispose] nor [Destroy] runs and the block stays allocated. *)
Lemma null_adoption_wraps (h : Heap) :
  let b := next h in
  ∃ h1 h2,
    SharedPtr_from_raw false None h = Ok (mkShared None (Some b), h1) ∧
    cblocks h1 !! b = Some (mkCB 0 0 (ControlBlockPtr None)) ∧
    SharedPtr_Release false (mkShared None (Some b)) h1 = Ok (mkShared None None, h2) ∧
    cblocks h2 !! b = Some (mkCB (2 ^ 64 - 1) 0 (ControlBlockPtr None)) ∧
    trace h2 = EvAlloc Block b :: trace h ∧
    objects h2 = objects h ∧
    next h2 = S (next h).
Proof.
  intros b.
  unfold SharedPtr_from_raw, new_ControlBlockPtr. mrun. fold b.
  eexists _, _. split; [reflexivity|]. split; [by mrun|].
  unfold SharedPtr_Release. mrun.
  split; [reflexivity|]. mrun.
  split_and!; reflexivity.
Qed.

(** For a type with the capability the same constructor goes through the
    null pointer ([ptr->weak_this_ = *this]). *)
Lemma null_adoption_undefined_with_esft (h : Heap) :
  SharedPtr_from_raw true None h = Undefined NullDeref.
Proof. reflexivity. Qed.

(** C10: for a type without [EnableSharedFromThis], copy-constructing the
    empty handle gives the empty handle and leaves the store alone; for a
    type with it, the copy constructor goes through [other.ptr_] whatever
    its value, so copying an empty handle dereferences a null pointer, and
    a two-statement program reaches that. *)
Theorem copy_of_empty (h : Heap) :
  SharedPtr_copy false SharedPtr_default h = Ok (SharedPtr_default, h) ∧
  SharedPtr_copy true SharedPtr_default h = Undefined NullDeref ∧
  (∀ (sp : SharedPtr) (h0 : Heap),
     sp_ptr_ sp = None →
     SharedPtr_copy true sp h0 = Undefined NullDeref ∨
     SharedPtr_copy true sp h0 = Undefined Dangling) ∧
  run true [SDefault; SCopy 0] init = Undefined NullDeref ∧
  (∃ c, run false [SDefault; SCopy 0] init = Ok c ∧
        shared c = [SharedPtr_default; SharedPtr_default] ∧ mem c = empty_heap).
Proof.
  split_and!; try reflexivity.
  - intros [p cbp] h0 Hp. cbn in Hp. subst p.
    unfold SharedPtr_copy, set_weak_this, load_obj, AddStrongRef, load_cb, store_cb.
    munfold. cbn. destruct cbp as [b|]; [|by left].
    destruct (cblocks h0 !! b); [by left|by right].
  - eexists. split; [reflexivity|]. done.
Qed.
(** * The invariant and the counter primitives *)

Ltac hsimpl :=
  unfold upd_cb, del_cb, upd_obj, del_obj, log, bump in *;
  cbn [cblocks objects next trace] in *.

Lemma count_ev_cons e e' tr :
  count_ev e (e' :: tr) = (if decide (e' = e) then 1 else 0) + count_ev e tr.
Proof. unfold count_ev. rewrite filter_cons. by case_decide. Qed.

Lemma count_ev_pos e tr : 0 < count_ev e tr → e ∈ tr.
Proof.
  unfold count_ev. intros Hpos.
  destruct (filter (λ x, x = e) tr) as [|e' l] eqn:Hf.
  { cbn in Hpos. lia. }
  assert (He : e' ∈ filter (λ x, x = e) tr) by (rewrite Hf; left).
  apply list_elem_of_filter in He as [-> ?]. done.
Qed.

(** Rewrite the event counts of an extended trace. *)
Ltac evsimpl :=
  unfold n_dispose, n_destroy, n_created in *;
  rewrite ?count_ev_cons;
  repeat first
    [ rewrite decide_True by congruence
    | rewrite decide_False by congruence
    | rewrite decide_False by (intros [=]; lia) ];
  rewrite ?Nat.add_0_l.

Lemma ind_same b : ind (Some b) b = 1.
Proof. unfold ind. by rewrite decide_True. Qed.

Lemma ind_other b x : x ≠ b → ind (Some b) x = 0.
Proof. intros. unfold ind. rewrite decide_False; [done|congruence]. Qed.

Lemma ind_None x : ind None x = 0.
Proof. done. Qed.

Lemma heap_inv_ext pend h ns nw ns' nw' :
  (∀ b, ns b = ns' b) → (∀ b, nw b = nw' b) →
  heap_inv pend h ns nw → heap_inv pend h ns' nw'.
Proof.
  intros Hs Hw (Hb & Hf & Ho). split_and!; [|done..].
  intros b. rewrite <-Hs, <-Hw. apply Hb.
Qed.

Lemma heap_inv_live pend h ns nw b :
  heap_inv pend h ns nw → 0 < ns b + nw b → is_Some (cblocks h !! b).
Proof.
  intros (Hb & _) Hpos. specialize (Hb b). unfold block_ok in Hb.
  destruct (cblocks h !! b); [eauto|]. lia.
Qed.

(** Taking one more strong reference on a block that already has one. *)
Lemma inv_add_strong pend h ns nw b cb :
  heap_inv pend h ns nw →
  cblocks h !! b = Some cb →
  1 ≤ ns b →
  (Z.of_nat (ns b) + 1 < size_t_modulus)%Z →
  heap_inv pend
    (upd_cb b (mkCB (wrap (strong_ref_counter_ cb + 1)) (weak_ref_counter_ cb) (impl cb)) h)
    (λ x, ns x + ind (Some b) x) nw.
Proof.
  intros (Hb & Hf & Ho) Hcb Hpos Hlt. split_and!; [|..|done].
  - intros x. specialize (Hb x). unfold block_ok in *. hsimpl.
    destruct (decide (x = b)) as [->|Hne].
    + rewrite lookup_insert_eq, ind_same. rewrite Hcb in Hb. cbn [strong_ref_counter_ weak_ref_counter_ impl].
      destruct Hb as (Hs & Hw & ? & ? & ? & ? & ? & Hd).
      rewrite Hs, wrap_succ by lia. rewrite decide_False in Hd by lia.
      rewrite decide_False by lia. split_and!; try done; try lia.
    + rewrite lookup_insert_ne, ind_other by done. by rewrite Nat.add_0_r.
  - intros a Ha. destruct (Hf a Ha) as (? & ? & ?). hsimpl. split_and!; [|done..].
    rewrite lookup_insert_ne; [done|]. intros ->. congruence.
Qed.

Lemma heap_inv_weaken (pend pend' : addr → Prop) h ns nw :
  (∀ x, pend x → pend' x) → heap_inv pend h ns nw → heap_inv pend' h ns nw.
Proof.
  intros Hp (Hb & Hf & Ho). split_and!; [|done..].
  intros x. specialize (Hb x). unfold block_ok in *.
  destruct (cblocks h !! x); [|done].
  destruct Hb as (? & ? & ? & ? & Hor & ? & ? & ?); split_and!; try done.
  destruct Hor; [left; auto|by right].
Qed.

(** A new weak reference on a live block. *)
Lemma inv_add_weak pend h ns nw b cb :
  heap_inv pend h ns nw →
  cblocks h !! b = Some cb →
  (Z.of_nat (nw b) + 1 < size_t_modulus)%Z →
  heap_inv pend
    (upd_cb b (mkCB (strong_ref_counter_ cb) (wrap (weak_ref_counter_ cb + 1)) (impl cb)) h)
    ns (λ x, nw x + ind (Some b) x).
Proof.
  intros (Hb & Hf & Ho) Hcb Hlt. split_and!; [|..|done].
  - intros x. specialize (Hb x). unfold block_ok in *. hsimpl.
    destruct (decide (x = b)) as [->|Hne].
    + rewrite lookup_insert_eq, ind_same. rewrite Hcb in Hb. cbn [strong_ref_counter_ weak_ref_counter_ impl].
      destruct Hb as (Hs & Hw & ? & ? & ? & ? & ? & Hd).
      rewrite Hw, wrap_succ by lia. split_and!; try done; try lia.
    + rewrite lookup_insert_ne, ind_other by done. by rewrite Nat.add_0_r.
  - intros a Ha. destruct (Hf a Ha) as (? & ? & ?). hsimpl. split_and!; [|done..].
    rewrite lookup_insert_ne; [done|]. intros ->. congruence.
Qed.

Lemma WeakPtr_Release_eq w h :
  WeakPtr_Release w h =
    match wp_cblock_ w with
    | None => Ok (mkWeak None None, h)
    | Some b =>
        match cblocks h !! b with
        | Some cb => Ok (mkWeak None None, weak_release_heap b cb h)
        | None => Undefined Dangling
        end
    end.
Proof.
  unfold WeakPtr_Release, weak_release_heap. destruct (wp_cblock_ w) as [b|]; [|done].
  mrun. destruct (cblocks h !! b) as [cb|]; [|done]. mrun.
  destruct (decide (strong_ref_counter_ cb = 0%Z)) as [Hs|Hs].
  - rewrite (bool_decide_eq_true_2 _ Hs). mrun.
    destruct (decide (wrap (weak_ref_counter_ cb - 1) = 0%Z)) as [Hw|Hw].
    + rewrite (bool_decide_eq_true_2 _ Hw). mrun.
      rewrite decide_True by done. unfold log, del_cb, upd_cb. cbn.
      by rewrite delete_insert_eq.
    + rewrite (bool_decide_eq_false_2 _ Hw). mrun.
      rewrite decide_False by tauto. done.
  - rewrite (bool_decide_eq_false_2 _ Hs). mrun.
    rewrite decide_False by tauto. done.
Qed.

Lemma inv_weak_release pend h ns nw b cb :
  heap_inv pend h ns nw →
  cblocks h !! b = Some cb →
  1 ≤ nw b →
  heap_inv pend (weak_release_heap b cb h) ns (λ x, nw x - ind (Some b) x).
Proof.
  intros (Hb & Hf & Ho) Hcb Hpos. unfold weak_release_heap.
  pose proof (Hb b) as Hbb. unfold block_ok in Hbb. rewrite Hcb in Hbb.
  destruct Hbb as (Hs & Hw & Hsl & Hwl & Hnz & Hcr & Hnd & Hdi).
  rewrite Hs, Hw, wrap_pred by lia.
  destruct (decide (Z.of_nat (ns b) = 0 ∧ Z.of_nat (nw b) - 1 = 0)%Z) as [[Hs0 Hw0]|Hnot].
  - assert (ns b = 0) as Hns by lia. rewrite decide_True in Hdi by done.
    split_and!.
    + intros x. specialize (Hb x). unfold block_ok in *. hsimpl.
      destruct (decide (x = b)) as [->|Hne].
      * rewrite lookup_delete_eq, ind_same. evsimpl. lia.
      * rewrite lookup_delete_ne, ind_other by done. evsimpl.
        by rewrite Nat.sub_0_r.
    + intros a Ha. destruct (Hf a Ha) as (? & ? & Hc). hsimpl. evsimpl.
      split_and!; [|done..].
      rewrite lookup_delete_ne; [done|]. intros ->. congruence.
    + hsimpl. split; [|done]. intros b' [= <-]. apply count_ev_pos.
      unfold n_dispose in Hdi. lia.
  - split_and!; [|..|done].
    + intros x. specialize (Hb x). unfold block_ok in *. hsimpl.
      destruct (decide (x = b)) as [->|Hne].
      * rewrite lookup_insert_eq, ind_same. cbn [strong_ref_counter_ weak_ref_counter_ impl].
        split_and!; try done; try lia.
      * rewrite lookup_insert_ne, ind_other by done. by rewrite Nat.sub_0_r.
    + intros a Ha. destruct (Hf a Ha) as (? & ? & ?). hsimpl. split_and!; [|done..].
      rewrite lookup_insert_ne; [done|]. intros ->. congruence.
Qed.

(** Dropping a strong reference that is not the last one. *)
Lemma inv_drop_strong_keep pend h ns nw b cb :
  heap_inv pend h ns nw →
  cblocks h !! b = Some cb →
  2 ≤ ns b →
  heap_inv pend
    (upd_cb b (mkCB (wrap (strong_ref_counter_ cb - 1)) (weak_ref_counter_ cb) (impl cb)) h)
    (λ x, ns x - ind (Some b) x) nw.
Proof.
  intros (Hb & Hf & Ho) Hcb Hpos. split_and!; [|..|done].
  - intros x. specialize (Hb x). unfold block_ok in *. hsimpl.
    destruct (decide (x = b)) as [->|Hne].
    + rewrite lookup_insert_eq, ind_same. rewrite Hcb in Hb. cbn [strong_ref_counter_ weak_ref_counter_ impl].
      destruct Hb as (Hs & Hw & ? & ? & ? & ? & ? & Hd).
      rewrite Hs, wrap_pred by lia. rewrite decide_False in Hd by lia.
      rewrite decide_False by lia. split_and!; try done; try lia.
    + rewrite lookup_insert_ne, ind_other by done. by rewrite Nat.sub_0_r.
  - intros a Ha. destruct (Hf a Ha) as (? & ? & ?). hsimpl. split_and!; [|done..].
    rewrite lookup_insert_ne; [done|]. intros ->. congruence.
Qed.

(** Dropping the last strong reference and entering [Dispose()]: from here
    until the final test the block may have both counters at zero. *)
Lemma inv_drop_strong_last pend h ns nw b cb :
  heap_inv pend h ns nw →
  cblocks h !! b = Some cb →
  ns b = 1 →
  heap_inv (λ x, pend x ∨ x = b)
    (log (EvDispose b)
       (upd_cb b (mkCB (wrap (strong_ref_counter_ cb - 1)) (weak_ref_counter_ cb) (impl cb)) h))
    (λ x, ns x - ind (Some b) x) nw.
Proof.
  intros (Hb & Hf & Ho) Hcb Hone. split_and!.
  - intros x. specialize (Hb x). unfold block_ok in *. hsimpl.
    destruct (decide (x = b)) as [->|Hne].
    + rewrite lookup_insert_eq, ind_same. rewrite Hcb in Hb. cbn [strong_ref_counter_ weak_ref_counter_ impl].
      destruct Hb as (Hs & Hw & ? & ? & ? & ? & ? & Hd).
      rewrite Hs, wrap_pred by lia. rewrite decide_False in Hd by lia.
      evsimpl. rewrite decide_True by lia. split_and!; try done; try lia.
    + rewrite lookup_insert_ne, ind_other by done. evsimpl. rewrite Nat.sub_0_r.
      destruct (cblocks h !! x); [|done].
      destruct Hb as (? & ? & ? & ? & [?|?] & ? & ? & ?); split_and!; auto.
  - intros a Ha. destruct (Hf a Ha) as (? & ? & ?). hsimpl. evsimpl. split_and!; [|done..].
    rewrite lookup_insert_ne; [done|]. intros ->. congruence.
  - hsimpl. split; [|done]. intros b' [=].
Qed.

(** The final test of [Release]: the block goes away when both counters are
    zero, and stays otherwise. *)
Lemma inv_settle_destroy h ns nw b cb :
  heap_inv (λ x, x = b) h ns nw →
  cblocks h !! b = Some cb →
  strong_ref_counter_ cb = 0%Z →
  weak_ref_counter_ cb = 0%Z →
  heap_inv (λ _, False) (del_cb b (log (EvDestroy b) h)) ns nw.
Proof.
  intros (Hb & Hf & Ho) Hcb Hs0 Hw0.
  pose proof (Hb b) as Hbb. unfold block_ok in Hbb. rewrite Hcb in Hbb.
  destruct Hbb as (Hs & Hw & Hsl & Hwl & Hnz & Hcr & Hnd & Hdi).
  assert (ns b = 0) as Hns by lia. rewrite decide_True in Hdi by done.
  split_and!.
  - intros x. specialize (Hb x). unfold block_ok in *. hsimpl.
    destruct (decide (x = b)) as [->|Hne].
    + rewrite lookup_delete_eq. evsimpl. lia.
    + rewrite lookup_delete_ne by done. evsimpl.
      destruct (cblocks h !! x); [|done].
      destruct Hb as (? & ? & ? & ? & [?|?] & ? & ? & ?); [done|]. split_and!; auto.
  - intros a Ha. destruct (Hf a Ha) as (? & ? & Hc). hsimpl. evsimpl.
    split_and!; [|done..].
    rewrite lookup_delete_ne; [done|]. intros ->. congruence.
  - hsimpl. split; [|done]. intros b' [= <-]. apply count_ev_pos.
    unfold n_dispose in Hdi. lia.
Qed.

Lemma inv_settle_keep h ns nw b cb :
  heap_inv (λ x, x = b) h ns nw →
  cblocks h !! b = Some cb →
  ¬ (strong_ref_counter_ cb = 0%Z ∧ weak_ref_counter_ cb = 0%Z) →
  heap_inv (λ _, False) h ns nw.
Proof.
  intros (Hb & Hf & Ho) Hcb Hnz. split_and!; [|done..].
  intros x. specialize (Hb x). unfold block_ok in *.
  destruct (decide (x = b)) as [->|Hne].
  - rewrite Hcb in *. destruct Hb as (? & ? & ? & ? & _ & ? & ? & ?).
    split_and!; try done. right. lia.
  - destruct (cblocks h !! x); [|done].
    destruct Hb as (? & ? & ? & ? & [?|?] & ? & ? & ?); [done|]. split_and!; auto.
Qed.

(** Object storage does not matter to the block invariant. *)
Lemma inv_upd_obj pend h ns nw o w :
  heap_inv pend h ns nw → o < next h → heap_inv pend (upd_obj o w h) ns nw.
Proof.
  intros (Hb & Hf & Ho) Hlt. split_and!; [done| |done].
  intros a Ha. destruct (Hf a Ha) as (? & ? & ?). hsimpl. split_and!; [done| |done].
  rewrite lookup_insert_ne; [done|]. lia.
Qed.

Lemma inv_del_obj pend h ns nw o :
  heap_inv pend h ns nw → heap_inv pend (del_obj o h) ns nw.
Proof.
  intros (Hb & Hf & Ho). split_and!; [done| |done].
  intros a Ha. destruct (Hf a Ha) as (? & ? & ?). hsimpl. split_and!; [done| |done].
  rewrite lookup_delete_None. by right.
Qed.

(** Allocation. *)
Lemma inv_alloc_object pend h ns nw :
  heap_inv pend h ns nw →
  heap_inv pend (log (EvAlloc Object (next h)) (bump h)) ns nw.
Proof.
  intros (Hb & Hf & Ho). split_and!.
  - intros x. specialize (Hb x). unfold block_ok in *. hsimpl. by evsimpl.
  - intros a Ha. hsimpl. destruct (Hf a ltac:(lia)) as (? & ? & ?). by evsimpl.
  - hsimpl. split; [|done]. intros b' [=].
Qed.

Lemma inv_new_block pend h ns nw v :
  heap_inv pend h ns nw →
  heap_inv pend
    (upd_cb (next h) (mkCB 1 0 v) (log (EvAlloc Block (next h)) (bump h)))
    (λ x, ns x + ind (Some (next h)) x) nw.
Proof.
  intros (Hb & Hf & Ho). split_and!.
  - intros x. specialize (Hb x). unfold block_ok in *. hsimpl.
    destruct (decide (x = next h)) as [->|Hne].
    + rewrite lookup_insert_eq, ind_same. cbn [strong_ref_counter_ weak_ref_counter_ impl].
      destruct (Hf (next h) ltac:(lia)) as (Hn & _ & Hc). rewrite Hn in Hb.
      destruct Hb as (-> & -> & ? & ? & ?). evsimpl.
      try rewrite decide_False by lia. unfold n_created in *.
      split_and!; try done; try lia.
    + rewrite lookup_insert_ne, ind_other by done. evsimpl. by rewrite Nat.add_0_r.
  - intros a Ha. hsimpl. destruct (Hf a ltac:(lia)) as (? & ? & ?). evsimpl.
    split_and!; [|done..]. rewrite lookup_insert_ne; [done|]. lia.
  - hsimpl. split; [|done]. intros b' [=].
Qed.
(** * Counting handles *)

Lemma owners_nil b : owners b [] = 0.
Proof. done. Qed.

Lemma owners_cons b s sl : owners b (s :: sl) = ind (sp_cblock_ s) b + owners b sl.
Proof. unfold owners, ind. rewrite filter_cons. by case_decide. Qed.

Lemma owners_app b sl1 sl2 : owners b (sl1 ++ sl2) = owners b sl1 + owners b sl2.
Proof. unfold owners. by rewrite filter_app, length_app. Qed.

#[global] Instance owners_perm b : Proper (Permutation ==> eq) (owners b).
Proof. intros sl1 sl2 HS. unfold owners. by rewrite HS. Qed.

Lemma owners_le b sl : owners b sl ≤ length sl.
Proof. apply length_filter. Qed.

Lemma observers_nil b : observers b [] = 0.
Proof. done. Qed.

Lemma observers_cons b w wl : observers b (w :: wl) = ind (wp_cblock_ w) b + observers b wl.
Proof. unfold observers, ind. rewrite filter_cons. by case_decide. Qed.

Lemma observers_app b wl1 wl2 : observers b (wl1 ++ wl2) = observers b wl1 + observers b wl2.
Proof. unfold observers. by rewrite filter_app, length_app. Qed.

#[global] Instance observers_perm b : Proper (Permutation ==> eq) (observers b).
Proof. intros wl1 wl2 HW. unfold observers. by rewrite HW. Qed.

Lemma observers_le b wl : observers b wl ≤ length wl.
Proof. apply length_filter. Qed.

Lemma self_observers_insert_fresh esft b objs o w :
  objs !! o = None →
  self_observers esft b (<[o := w]> objs) = eind esft w b + self_observers esft b objs.
Proof.
  intros Ho. unfold self_observers, eind. destruct esft; [|done].
  rewrite (map_to_list_insert objs o w Ho). rewrite fmap_cons. by rewrite observers_cons.
Qed.

Lemma self_observers_delete esft b objs o w :
  objs !! o = Some w →
  self_observers esft b objs = eind esft w b + self_observers esft b (delete o objs).
Proof.
  intros Ho. rewrite <-(self_observers_insert_fresh esft b (delete o objs) o w).
  - by rewrite insert_delete_id.
  - apply lookup_delete_eq.
Qed.

Lemma self_observers_insert esft b objs o w w' :
  objs !! o = Some w →
  self_observers esft b (<[o := w']> objs) + eind esft w b
  = self_observers esft b objs + eind esft w' b.
Proof.
  intros Ho. rewrite (self_observers_delete esft b objs o w Ho).
  rewrite <-(insert_delete_eq objs).
  rewrite self_observers_insert_fresh by apply lookup_delete_eq. lia.
Qed.

Lemma self_observers_le esft b objs n :
  (∀ o, n ≤ o → objs !! o = None) → self_observers esft b objs ≤ n.
Proof.
  intros Hf. unfold self_observers. destruct esft; [|lia].
  etrans; [apply observers_le|]. rewrite length_fmap, length_map_to_list.
  rewrite <-size_dom. rewrite <-(size_set_seq (C:=gset nat) 0 n).
  apply subseteq_size. intros o Ho. apply elem_of_set_seq.
  split; [lia|]. cbn. destruct (decide (o < n)) as [|Hge]; [done|].
  apply elem_of_dom in Ho as [w Hw]. rewrite Hf in Hw by lia. done.
Qed.

Lemma eind_default esft b : eind esft WeakPtr_default b = 0.
Proof. by destruct esft. Qed.

(** * Inversion of monadic code *)

Lemma bind_Ok {A B} (m : M A) (f : A → M B) h r h' :
  (m ≫= f) h = Ok (r, h') → ∃ a h1, m h = Ok (a, h1) ∧ f a h1 = Ok (r, h').
Proof. unfold mbind, M_bind. destruct (m h) as [[a h1]| |]; [eauto|done..]. Qed.

Lemma ret_Ok {A} (a : A) h r h' : (mret a : M A) h = Ok (r, h') → r = a ∧ h' = h.
Proof. unfold mret, M_ret. by intros [= <- <-]. Qed.

Lemma load_cb_Ok b h cb h' :
  load_cb b h = Ok (cb, h') → cblocks h !! b = Some cb ∧ h' = h.
Proof. unfold load_cb. destruct (cblocks h !! b); [|done]. by intros [= <- <-]. Qed.

Lemma load_obj_Ok p h w h' :
  load_obj p h = Ok (w, h') → ∃ o, p = Some o ∧ objects h !! o = Some w ∧ h' = h.
Proof.
  unfold load_obj. destruct p as [o|]; [|done].
  destruct (objects h !! o) eqn:Ho; [|done]. intros [= <- <-]. eauto.
Qed.

Lemma AddStrongRef_Ok b h u h' :
  AddStrongRef b h = Ok (u, h') →
  ∃ cb, cblocks h !! b = Some cb ∧
    h' = upd_cb b (mkCB (wrap (strong_ref_counter_ cb + 1)) (weak_ref_counter_ cb) (impl cb)) h.
Proof.
  unfold AddStrongRef. intros (cb & h1 & [Hcb ->]%load_cb_Ok & H)%bind_Ok.
  exists cb. split; [done|]. unfold store_cb in H. by simplify_eq.
Qed.

Lemma RemoveStrongRef_Ok b h u h' :
  RemoveStrongRef b h = Ok (u, h') →
  ∃ cb, cblocks h !! b = Some cb ∧
    h' = upd_cb b (mkCB (wrap (strong_ref_counter_ cb - 1)) (weak_ref_counter_ cb) (impl cb)) h.
Proof.
  unfold RemoveStrongRef. intros (cb & h1 & [Hcb ->]%load_cb_Ok & H)%bind_Ok.
  exists cb. split; [done|]. unfold store_cb in H. by simplify_eq.
Qed.

Lemma AddWeakRef_Ok b h u h' :
  AddWeakRef b h = Ok (u, h') →
  ∃ cb, cblocks h !! b = Some cb ∧
    h' = upd_cb b (mkCB (strong_ref_counter_ cb) (wrap (weak_ref_counter_ cb + 1)) (impl cb)) h.
Proof.
  unfold AddWeakRef. intros (cb & h1 & [Hcb ->]%load_cb_Ok & H)%bind_Ok.
  exists cb. split; [done|]. unfold store_cb in H. by simplify_eq.
Qed.

Lemma IsZeroStrongOwning_Ok b h z h' :
  IsZeroStrongOwning b h = Ok (z, h') →
  ∃ cb, cblocks h !! b = Some cb ∧ z = bool_decide (strong_ref_counter_ cb = 0%Z) ∧ h' = h.
Proof.
  unfold IsZeroStrongOwning. intros (cb & h1 & [Hcb ->]%load_cb_Ok & H)%bind_Ok.
  apply ret_Ok in H as [-> ->]. eauto.
Qed.

Lemma IsZeroWeakOwning_Ok b h z h' :
  IsZeroWeakOwning b h = Ok (z, h') →
  ∃ cb, cblocks h !! b = Some cb ∧ z = bool_decide (weak_ref_counter_ cb = 0%Z) ∧ h' = h.
Proof.
  unfold IsZeroWeakOwning. intros (cb & h1 & [Hcb ->]%load_cb_Ok & H)%bind_Ok.
  apply ret_Ok in H as [-> ->]. eauto.
Qed.

Lemma GetStrongRefsCount_Ok b h n h' :
  GetStrongRefsCount b h = Ok (n, h') →
  ∃ cb, cblocks h !! b = Some cb ∧ n = strong_ref_counter_ cb ∧ h' = h.
Proof.
  unfold GetStrongRefsCount. intros (cb & h1 & [Hcb ->]%load_cb_Ok & H)%bind_Ok.
  apply ret_Ok in H as [-> ->]. eauto.
Qed.

Lemma Destroy_Ok b h u h' :
  Destroy b h = Ok (u, h') →
  ∃ cb, cblocks h !! b = Some cb ∧ h' = del_cb b (log (EvDestroy b) h).
Proof.
  unfold Destroy. intros (cb & h1 & [Hcb ->]%load_cb_Ok & H)%bind_Ok.
  apply bind_Ok in H as (? & h2 & He & H). unfold emit, free_cb in *. simplify_eq. eauto.
Qed.

Lemma WeakPtr_Expired_Ok w h e h' :
  WeakPtr_Expired w h = Ok (e, h') →
  h' = h ∧
  (e = false → ∃ b cb, wp_cblock_ w = Some b ∧ cblocks h !! b = Some cb ∧
                 strong_ref_counter_ cb ≠ 0%Z).
Proof.
  unfold WeakPtr_Expired, WeakPtr_UseCount. intros (n & h1 & Hn & [-> ->]%ret_Ok)%bind_Ok.
  destruct (wp_cblock_ w) as [b|].
  - apply GetStrongRefsCount_Ok in Hn as (cb & Hcb & -> & ->). split; [done|].
    intros Hz%bool_decide_eq_false. eauto.
  - apply ret_Ok in Hn as [-> ->]. split; [done|]. done.
Qed.

(** * The invariant, method by method *)

Lemma objects_weak_release_heap b cb h : objects (weak_release_heap b cb h) = objects h.
Proof. unfold weak_release_heap. by case_decide. Qed.

Lemma next_weak_release_heap b cb h : next (weak_release_heap b cb h) = next h.
Proof. unfold weak_release_heap. by case_decide. Qed.

Lemma ghost_weak_release pend h ns nw w w' h' :
  heap_inv pend h ns nw →
  (∀ b, wp_cblock_ w = Some b → 1 ≤ nw b) →
  WeakPtr_Release w h = Ok (w', h') →
  w' = mkWeak None None ∧
  heap_inv pend h' ns (λ x, nw x - ind (wp_cblock_ w) x) ∧
  next h' = next h ∧ objects h' = objects h.
Proof.
  intros Hinv Hpos. rewrite WeakPtr_Release_eq.
  destruct (wp_cblock_ w) as [b|].
  - destruct (cblocks h !! b) as [cb|] eqn:Hcb; [|done]. intros [= <- <-].
    split_and!; [done| |apply next_weak_release_heap|apply objects_weak_release_heap].
    apply inv_weak_release; auto.
  - intros [= <- <-]. split_and!; try done.
    eapply heap_inv_ext; [done| |done]. intros x. rewrite ind_None. lia.
Qed.

Lemma ghost_add_weak pend h ns nw (c : ptr) u h' :
  heap_inv pend h ns nw →
  (∀ b, c = Some b → (Z.of_nat (nw b) + 1 < size_t_modulus)%Z) →
  (if c is Some b then AddWeakRef b else (mret tt : M unit)) h = Ok (u, h') →
  heap_inv pend h' ns (λ x, nw x + ind c x) ∧ next h' = next h ∧ objects h' = objects h.
Proof.
  intros Hinv Hlt. destruct c as [b|].
  - intros (cb & Hcb & ->)%AddWeakRef_Ok. split_and!; [|done..].
    apply inv_add_weak; auto.
  - intros [_ ->]%ret_Ok. split_and!; try done.
    eapply heap_inv_ext; [done| |done]. intros x. rewrite ind_None. lia.
Qed.

Lemma ghost_add_strong pend h ns nw (c : ptr) u h' :
  heap_inv pend h ns nw →
  (∀ b, c = Some b → 1 ≤ ns b ∧ (Z.of_nat (ns b) + 1 < size_t_modulus)%Z) →
  (if c is Some b then AddStrongRef b else (mret tt : M unit)) h = Ok (u, h') →
  heap_inv pend h' (λ x, ns x + ind c x) nw ∧ next h' = next h ∧ objects h' = objects h.
Proof.
  intros Hinv Hlt. destruct c as [b|].
  - intros (cb & Hcb & ->)%AddStrongRef_Ok. split_and!; [|done..].
    destruct (Hlt b eq_refl). apply inv_add_strong; auto.
  - intros [_ ->]%ret_Ok. split_and!; try done.
    eapply heap_inv_ext; [| done |done]. intros x. rewrite ind_None. lia.
Qed.

Lemma heap_inv_strong pend h ns nw b cb :
  heap_inv pend h ns nw → cblocks h !! b = Some cb →
  strong_ref_counter_ cb = Z.of_nat (ns b) ∧ weak_ref_counter_ cb = Z.of_nat (nw b).
Proof.
  intros (Hb & _) Hcb. specialize (Hb b). unfold block_ok in Hb. rewrite Hcb in Hb.
  tauto.
Qed.

Lemma heap_inv_obj_lt pend h ns nw o w :
  heap_inv pend h ns nw → objects h !! o = Some w → o < next h.
Proof.
  intros (_ & Hf & _) Ho. destruct (decide (o < next h)) as [|Hge]; [done|].
  destruct (Hf o ltac:(lia)) as (_ & Hn & _). congruence.
Qed.

Lemma hinv_owned esft pend h s sl wl b :
  hinv esft pend h (s :: sl) wl → sp_cblock_ s = Some b →
  ∃ cb, cblocks h !! b = Some cb ∧ strong_ref_counter_ cb = Z.of_nat (S (owners b sl)).
Proof.
  intros Hinv Hb.
  assert (Ho : owners b (s :: sl) = S (owners b sl)).
  { rewrite owners_cons, Hb, ind_same. lia. }
  destruct (heap_inv_live _ _ _ _ b Hinv) as [cb Hcb]; [lia|].
  exists cb. split; [done|].
  destruct (heap_inv_strong _ _ _ _ _ _ Hinv Hcb) as [-> _]. by rewrite Ho.
Qed.

Lemma hinv_drop_empty_s esft pend h s sl wl :
  sp_cblock_ s = None → hinv esft pend h (s :: sl) wl ↔ hinv esft pend h sl wl.
Proof.
  intros Hs. unfold hinv. split; apply heap_inv_ext; intros b;
    rewrite ?owners_cons, ?Hs, ?ind_None; lia.
Qed.

Lemma hinv_drop_empty_w esft pend h w sl wl :
  wp_cblock_ w = None → hinv esft pend h sl (w :: wl) ↔ hinv esft pend h sl wl.
Proof.
  intros Hs. unfold hinv. split; apply heap_inv_ext; intros b;
    rewrite ?observers_cons, ?Hs, ?ind_None; lia.
Qed.

Lemma WeakPtr_Release_ok esft pend h sl wl w w' h' :
  hinv esft pend h sl (w :: wl) →
  WeakPtr_Release w h = Ok (w', h') →
  w' = mkWeak None None ∧ hinv esft pend h' sl wl ∧
  next h' = next h ∧ objects h' = objects h.
Proof.
  intros Hinv Hrel.
  eapply ghost_weak_release in Hrel as (-> & Hinv' & Hn & Ho); [|exact Hinv|].
  - split_and!; try done. unfold hinv. eapply heap_inv_ext; [| |exact Hinv']; intros b.
    + done.
    + cbn beta. rewrite Ho, observers_cons. lia.
  - intros b Hb. cbn beta. rewrite observers_cons, Hb, ind_same. lia.
Qed.

Lemma add_weak_ok esft pend h sl wl (c p : ptr) u h' :
  hinv esft pend h sl wl → small_w esft h wl →
  (if c is Some b then AddWeakRef b else (mret tt : M unit)) h = Ok (u, h') →
  hinv esft pend h' sl (mkWeak p c :: wl) ∧ next h' = next h ∧ objects h' = objects h.
Proof.
  intros Hinv Hsm Hadd.
  eapply ghost_add_weak in Hadd as (Hinv' & Hn & Ho); [|exact Hinv|].
  - split_and!; try done. unfold hinv. eapply heap_inv_ext; [| |exact Hinv']; intros b.
    + done.
    + cbn beta. rewrite Ho, observers_cons. cbn. lia.
  - intros b _. apply Hsm.
Qed.

Lemma add_strong_ok esft pend h sl wl (c p : ptr) u h' :
  hinv esft pend h sl wl → small_s sl →
  (∀ b, c = Some b → 1 ≤ owners b sl) →
  (if c is Some b then AddStrongRef b else (mret tt : M unit)) h = Ok (u, h') →
  hinv esft pend h' (mkShared p c :: sl) wl ∧ next h' = next h ∧ objects h' = objects h.
Proof.
  intros Hinv Hsm Hown Hadd.
  eapply ghost_add_strong in Hadd as (Hinv' & Hn & Ho); [|exact Hinv|].
  - split_and!; try done. unfold hinv. eapply heap_inv_ext; [| |exact Hinv']; intros b.
    + cbn beta. rewrite owners_cons. cbn. lia.
    + cbn beta. by rewrite Ho.
  - intros b Hb. split; [by apply Hown|apply Hsm].
Qed.

(** [p->weak_this_ = *this]: the member is one weak handle replaced by
    another. *)
Lemma set_weak_this_ok pend h sl wl p this u h' :
  hinv true pend h sl wl → small_w true h wl →
  set_weak_this p this h = Ok (u, h') →
  hinv true pend h' sl wl ∧ next h' = next h ∧
  ∃ o w, p = Some o ∧ objects h !! o = Some w ∧
    objects h' = <[o := mkWeak (sp_ptr_ this) (sp_cblock_ this)]> (objects h).
Proof.
  intros Hinv Hsm. unfold set_weak_this, WeakPtr_assign_shared.
  intros (w & h0 & (o & -> & Ho & ->)%load_obj_Ok & H)%bind_Ok.
  apply bind_Ok in H as (w' & h2 & H & Hst).
  apply bind_Ok in H as (w0 & h1 & Hrel & H).
  apply bind_Ok in H as (u1 & h2' & Hadd & [-> ->]%ret_Ok).
  unfold store_obj in Hst. simplify_eq.
  pose proof (λ b, self_observers_delete true b _ _ _ Ho) as Hsplit.
  eapply ghost_weak_release in Hrel as (-> & Hinv1 & Hn1 & Ho1); [|exact Hinv|]; last first.
  { intros b Hb. cbn beta. rewrite (Hsplit b). unfold eind. rewrite Hb, ind_same. lia. }
  eapply ghost_add_weak in Hadd as (Hinv2 & Hn2 & Ho2); [|exact Hinv1|]; last first.
  { intros b _. cbn beta. specialize (Hsm b). lia. }
  split_and!.
  - unfold hinv. eapply heap_inv_ext; [| |apply inv_upd_obj; [exact Hinv2|]].
    + done.
    + intros b. cbn beta. hsimpl. rewrite Ho2, Ho1.
      pose proof (self_observers_insert true b _ _ _
                    (mkWeak (sp_ptr_ this) (sp_cblock_ this)) Ho) as Hins.
      specialize (Hsplit b). unfold eind in *. cbn in *. lia.
    + rewrite Hn2, Hn1. eapply heap_inv_obj_lt; eauto.
  - hsimpl. congruence.
  - exists o, w. split_and!; try done. hsimpl. congruence.
Qed.

(** The first lines of [SharedPtr::Release] for a self-referencing type. *)
Lemma clear_weak_this_ok pend h sl wl (p : ptr) u h' :
  hinv true pend h sl wl →
  (w ← load_obj p;
   e ← WeakPtr_Expired w;
   if e : bool then mret tt
   else w' ← WeakPtr_Reset w;
        (if p is Some o then store_obj o w' else fail NullDeref)) h = Ok (u, h') →
  hinv true pend h' sl wl ∧ next h' = next h.
Proof.
  intros Hinv.
  intros (w & h0 & (o & -> & Ho & ->)%load_obj_Ok & H)%bind_Ok.
  apply bind_Ok in H as (e & h1 & [-> _]%WeakPtr_Expired_Ok & H).
  destruct e.
  { apply ret_Ok in H as [_ ->]. done. }
  apply bind_Ok in H as (w' & h2 & Hrel & Hst).
  unfold WeakPtr_Reset in Hrel. unfold store_obj in Hst. simplify_eq.
  pose proof (λ b, self_observers_delete true b _ _ _ Ho) as Hsplit.
  eapply ghost_weak_release in Hrel as (-> & Hinv1 & Hn1 & Ho1); [|exact Hinv|]; last first.
  { intros b Hb. cbn beta. rewrite (Hsplit b). unfold eind. rewrite Hb, ind_same. lia. }
  split.
  - unfold hinv. eapply heap_inv_ext; [| |apply inv_upd_obj; [exact Hinv1|]].
    + done.
    + intros b. cbn beta. hsimpl. rewrite Ho1.
      pose proof (self_observers_insert true b _ _ _ (mkWeak None None) Ho) as Hins.
      specialize (Hsplit b). unfold eind in *. cbn in *. rewrite ind_None in Hins. lia.
    + rewrite Hn1. eapply heap_inv_obj_lt; eauto.
  - hsimpl. congruence.
Qed.

(** [~T()] followed by the release of the object's storage. *)
Lemma destroy_object_ok esft pend h sl wl p u h' :
  hinv esft pend h sl wl →
  destroy_object esft p h = Ok (u, h') →
  hinv esft pend h' sl wl ∧ next h' = next h.
Proof.
  intros Hinv. unfold destroy_object.
  intros (w & h0 & (o & -> & Ho & ->)%load_obj_Ok & H)%bind_Ok.
  apply bind_Ok in H as (u1 & h1 & Hrel & Hfree).
  unfold free_obj in Hfree. simplify_eq.
  pose proof (λ b, self_observers_delete esft b _ _ _ Ho) as Hsplit.
  destruct esft.
  - apply bind_Ok in Hrel as (w' & h1' & Hrel & [_ ->]%ret_Ok).
    eapply ghost_weak_release in Hrel as (-> & Hinv1 & Hn1 & Ho1); [|exact Hinv|]; last first.
    { intros b Hb. cbn beta. rewrite (Hsplit b). unfold eind. rewrite Hb, ind_same. lia. }
    split; [|hsimpl; congruence].
    unfold hinv. eapply heap_inv_ext; [| |apply inv_del_obj; exact Hinv1].
    + done.
    + intros b. cbn beta. hsimpl. rewrite Ho1. specialize (Hsplit b).
      unfold eind in *. lia.
  - apply ret_Ok in Hrel as [_ ->]. split; [|done].
    unfold hinv. eapply heap_inv_ext; [| |apply inv_del_obj; exact Hinv]; done.
Qed.

Lemma Dispose_ok esft pend h sl wl b u h' :
  hinv esft pend (log (EvDispose b) h) sl wl →
  Dispose esft b h = Ok (u, h') →
  hinv esft pend h' sl wl ∧ next h' = next h.
Proof.
  intros Hinv. unfold Dispose.
  intros (cb & h0 & [Hcb ->]%load_cb_Ok & H)%bind_Ok.
  apply bind_Ok in H as (u1 & h1 & Hem & H). unfold emit in Hem. simplify_eq.
  destruct (impl cb) as [[o|]|].
  - by eapply destroy_object_ok in H; [|exact Hinv].
  - by apply ret_Ok in H as [_ ->].
  - by eapply destroy_object_ok in H; [|exact Hinv].
Qed.

(** The last lines of both [Release] functions. *)
Lemma settle_ok {A} esft (k : M A) b h sl wl r h' :
  hinv esft (λ x, x = b) h sl wl →
  (zs ← IsZeroStrongOwning b;
   zw ← (if zs then IsZeroWeakOwning b else mret false);
   (if zs && zw then Destroy b else mret tt);; k) h = Ok (r, h') →
  ∃ h1, hinv esft (λ _, False) h1 sl wl ∧ next h1 = next h ∧
        objects h1 = objects h ∧ k h1 = Ok (r, h').
Proof.
  intros Hinv.
  intros (zs & h0 & (cb & Hcb & -> & ->)%IsZeroStrongOwning_Ok & H)%bind_Ok.
  apply bind_Ok in H as (zw & h1 & Hzw & H).
  apply bind_Ok in H as (u & h2 & Hd & Hk).
  destruct (decide (strong_ref_counter_ cb = 0%Z)) as [Hs|Hs].
  - rewrite (bool_decide_eq_true_2 _ Hs) in Hzw, Hd.
    apply IsZeroWeakOwning_Ok in Hzw as (cb' & Hcb' & -> & ->). simplify_eq.
    destruct (decide (weak_ref_counter_ cb = 0%Z)) as [Hw|Hw].
    + rewrite (bool_decide_eq_true_2 _ Hw) in Hd. cbn in Hd.
      apply Destroy_Ok in Hd as (? & _ & ->).
      exists (del_cb b (log (EvDestroy b) h)). split_and!; [|done..].
      unfold hinv in *. eapply inv_settle_destroy; eauto.
    + rewrite (bool_decide_eq_false_2 _ Hw) in Hd. cbn in Hd.
      apply ret_Ok in Hd as [_ ->].
      exists h. split_and!; [|done..].
      unfold hinv in *. eapply inv_settle_keep; eauto. tauto.
  - rewrite (bool_decide_eq_false_2 _ Hs) in Hzw, Hd.
    apply ret_Ok in Hzw as [-> ->]. cbn in Hd. apply ret_Ok in Hd as [_ ->].
    exists h. split_and!; [|done..].
    unfold hinv in *. eapply inv_settle_keep; eauto. tauto.
Qed.

Lemma drop_strong_hinv esft h s sl wl b cb :
  hinv esft (λ _, False) h (s :: sl) wl →
  sp_cblock_ s = Some b →
  cblocks h !! b = Some cb →
  let h2 := upd_cb b (mkCB (wrap (strong_ref_counter_ cb - 1)) (weak_ref_counter_ cb)
                       (impl cb)) h in
  wrap (strong_ref_counter_ cb - 1) = Z.of_nat (owners b sl) ∧
  (owners b sl = 0 → hinv esft (λ x, x = b) (log (EvDispose b) h2) sl wl) ∧
  (owners b sl ≠ 0 → hinv esft (λ x, x = b) h2 sl wl).
Proof.
  intros Hinv Hsb Hcb h2.
  assert (Ho : owners b (s :: sl) = S (owners b sl)).
  { rewrite owners_cons, Hsb, ind_same. lia. }
  assert (Hext : ∀ x, owners x (s :: sl) - ind (Some b) x = owners x sl).
  { intros x. rewrite owners_cons, Hsb. lia. }
  pose proof Hinv as (Hb & _). specialize (Hb b). unfold block_ok in Hb.
  rewrite Hcb, Ho in Hb. destruct Hb as (Hs & _ & Hlt & _).
  split_and!.
  - rewrite Hs, wrap_pred by lia. lia.
  - intros Hz. unfold hinv in *.
    eapply heap_inv_ext; [exact Hext| |].
    2:{ eapply heap_inv_weaken;
          [|apply (inv_drop_strong_last _ _ _ _ b cb Hinv Hcb); lia].
        cbn beta. tauto. }
    done.
  - intros Hz. unfold hinv in *.
    eapply heap_inv_ext; [exact Hext| |].
    2:{ eapply heap_inv_weaken;
          [|apply (inv_drop_strong_keep _ _ _ _ b cb Hinv Hcb); lia].
        cbn beta. tauto. }
    done.
Qed.

Lemma SharedPtr_Release_ok esft h s sl wl s' h' :
  hinv esft (λ _, False) h (s :: sl) wl →
  SharedPtr_Release esft s h = Ok (s', h') →
  s' = mkShared None None ∧ hinv esft (λ _, False) h' sl wl ∧ next h' = next h.
Proof.
  intros Hinv. unfold SharedPtr_Release.
  destruct (sp_cblock_ s) as [b|] eqn:Hsb; last first.
  { intros [-> ->]%ret_Ok. split_and!; try done. by apply hinv_drop_empty_s in Hinv. }
  intros (u0 & h1 & Hpre & H)%bind_Ok.
  assert (hinv esft (λ _, False) h1 (s :: sl) wl ∧ next h1 = next h) as [Hinv1 Hn1].
  { destruct esft.
    - eapply clear_weak_this_ok; eauto.
    - by apply ret_Ok in Hpre as [_ ->]. }
  apply bind_Ok in H as (u1 & h2 & (cb & Hcb & ->)%RemoveStrongRef_Ok & H).
  apply bind_Ok in H as (z & h3 & (cb2 & Hcb2 & -> & ->)%IsZeroStrongOwning_Ok & H).
  apply bind_Ok in H as (u2 & h4 & Hdisp & H).
  destruct (drop_strong_hinv _ _ _ _ _ _ _ Hinv1 Hsb Hcb) as (Hw & Hlast & Hkeep).
  unfold upd_cb in Hcb2 at 1. cbn [cblocks] in Hcb2.
  rewrite lookup_insert_eq in Hcb2. simplify_eq. cbn [strong_ref_counter_] in Hdisp.
  assert (hinv esft (λ x, x = b) h4 sl wl ∧ next h4 = next h) as [Hinv4 Hn4].
  { destruct (decide (owners b sl = 0)) as [Hz|Hnz].
    - rewrite bool_decide_eq_true_2 in Hdisp by (rewrite Hw; lia).
      eapply Dispose_ok in Hdisp as [Hinv4 Hn4]; [|apply Hlast; done].
      split; [exact Hinv4|]. rewrite Hn4. done.
    - rewrite bool_decide_eq_false_2 in Hdisp by (rewrite Hw; lia).
      apply ret_Ok in Hdisp as [_ ->]. split; [|done]. by apply Hkeep. }
  eapply settle_ok in H as (h5 & Hinv5 & Hn5 & _ & [-> ->]%ret_Ok); [|exact Hinv4].
  split_and!; [done..|congruence].
Qed.

Lemma hinv_ext esft pend h sl sl' wl wl' :
  (∀ b, owners b sl = owners b sl') →
  (∀ b, observers b wl = observers b wl') →
  hinv esft pend h sl wl → hinv esft pend h sl' wl'.
Proof.
  intros HS HW. unfold hinv. apply heap_inv_ext; intros b.
  - by rewrite HS.
  - by rewrite HW.
Qed.

Lemma hinv_strong_pos esft pend h sl wl b cb :
  hinv esft pend h sl wl → cblocks h !! b = Some cb →
  strong_ref_counter_ cb ≠ 0%Z → 1 ≤ owners b sl.
Proof.
  intros Hinv Hcb Hnz.
  destruct (heap_inv_strong _ _ _ _ _ _ Hinv Hcb) as [Hs _]. cbn beta in Hs. lia.
Qed.

Lemma small_w_objects esft h h' wl :
  objects h' = objects h → small_w esft h wl → small_w esft h' wl.
Proof. intros Ho Hs b. rewrite Ho. apply Hs. Qed.

Lemma small_w_tail esft h w wl : small_w esft h (w :: wl) → small_w esft h wl.
Proof. intros Hs b. specialize (Hs b). rewrite observers_cons in Hs. lia. Qed.

(** ** Constructors of [SharedPtr] *)

Lemma SharedPtr_copy_ok esft h s sl wl s' h' :
  hinv esft (λ _, False) h sl wl →
  (∀ b, sp_cblock_ s = Some b → 1 ≤ owners b sl) →
  small_s sl → small_w esft h wl →
  SharedPtr_copy esft s h = Ok (s', h') →
  s' = mkShared (sp_ptr_ s) (sp_cblock_ s) ∧
  hinv esft (λ _, False) h' (s' :: sl) wl ∧ next h' = next h.
Proof.
  intros Hinv Hown Hss Hsw. unfold SharedPtr_copy.
  intros (u & h1 & Hadd & H)%bind_Ok.
  apply bind_Ok in H as (u2 & h2 & Hset & [-> ->]%ret_Ok).
  eapply (add_strong_ok _ _ _ _ _ _ (sp_ptr_ s)) in Hadd as (Hinv1 & Hn1 & Ho1);
    [|exact Hinv|done|done].
  destruct esft.
  - eapply set_weak_this_ok in Hset as (Hinv2 & Hn2 & _); [|exact Hinv1|].
    + split_and!; [done..|congruence].
    + by eapply small_w_objects.
  - apply ret_Ok in Hset as [_ ->]. done.
Qed.

Lemma SharedPtr_move_ok esft h s sl wl r h' :
  hinv esft (λ _, False) h (s :: sl) wl →
  small_w esft h wl →
  SharedPtr_move esft s h = Ok (r, h') →
  r = (mkShared (sp_ptr_ s) (sp_cblock_ s), mkShared None None) ∧
  hinv esft (λ _, False) h' (s :: sl) wl ∧ next h' = next h.
Proof.
  intros Hinv Hsw. unfold SharedPtr_move.
  intros (u & h1 & Hset & [-> ->]%ret_Ok)%bind_Ok.
  destruct esft.
  - eapply set_weak_this_ok in Hset as (Hinv2 & Hn2 & _); [|exact Hinv|done]. done.
  - apply ret_Ok in Hset as [_ ->]. done.
Qed.

Lemma SharedPtr_alias_ok esft h s p sl wl s' h' :
  hinv esft (λ _, False) h sl wl →
  (∀ b, sp_cblock_ s = Some b → 1 ≤ owners b sl) →
  small_s sl →
  SharedPtr_alias s p h = Ok (s', h') →
  s' = mkShared p (sp_cblock_ s) ∧
  hinv esft (λ _, False) h' (s' :: sl) wl ∧ next h' = next h.
Proof.
  intros Hinv Hown Hss. unfold SharedPtr_alias.
  intros (u & h1 & Hadd & [-> ->]%ret_Ok)%bind_Ok.
  eapply (add_strong_ok _ _ _ _ _ _ p) in Hadd as (Hinv1 & Hn1 & Ho1);
    [|exact Hinv|done|done].
  done.
Qed.

Lemma SharedPtr_from_weak_ok esft h w sl wl s' h' :
  hinv esft (λ _, False) h sl wl →
  small_s sl →
  SharedPtr_from_weak w h = Ok (s', h') →
  s' = mkShared (wp_ptr_ w) (wp_cblock_ w) ∧
  hinv esft (λ _, False) h' (s' :: sl) wl ∧ next h' = next h.
Proof.
  intros Hinv Hss. unfold SharedPtr_from_weak.
  intros (e & h1 & [-> Hne]%WeakPtr_Expired_Ok & H)%bind_Ok.
  destruct e; [done|].
  destruct (Hne eq_refl) as (b & cb & Hwb & Hcb & Hnz).
  apply bind_Ok in H as (u & h1 & Hadd & [-> ->]%ret_Ok).
  cbn [sp_cblock_] in Hadd. rewrite Hwb in Hadd.
  apply AddStrongRef_Ok in Hadd as (cb' & Hcb' & ->).
  assert (cb' = cb) as -> by congruence.
  rewrite Hwb. split_and!; [done| |done].
  pose proof (hinv_strong_pos _ _ _ _ _ _ _ Hinv Hcb Hnz) as Hpos.
  unfold hinv in *. eapply heap_inv_ext; [| |apply inv_add_strong; eauto].
  - intros x. cbn beta. rewrite owners_cons. cbn. lia.
  - done.
Qed.

Lemma WeakPtr_Lock_ok esft h w sl wl s' h' :
  hinv esft (λ _, False) h sl wl →
  small_s sl →
  WeakPtr_Lock w h = Ok (s', h') →
  hinv esft (λ _, False) h' (s' :: sl) wl ∧ next h' = next h.
Proof.
  intros Hinv Hss. unfold WeakPtr_Lock.
  intros (e & h1 & [-> Hne]%WeakPtr_Expired_Ok & H)%bind_Ok.
  destruct e.
  - apply ret_Ok in H as [-> ->]. split; [|done]. by apply hinv_drop_empty_s.
  - eapply SharedPtr_from_weak_ok in H as (_ & ? & ?); eauto.
Qed.

Lemma SharedFromThis_ok esft h p sl wl s' h' :
  hinv esft (λ _, False) h sl wl →
  small_s sl →
  SharedFromThis p h = Ok (s', h') →
  hinv esft (λ _, False) h' (s' :: sl) wl ∧ next h' = next h.
Proof.
  intros Hinv Hss. unfold SharedFromThis.
  intros (w & h0 & (o & -> & Ho & ->)%load_obj_Ok & H)%bind_Ok.
  eapply WeakPtr_Lock_ok; eauto.
Qed.

(** ** Constructors of [WeakPtr] *)

Lemma WeakPtr_copy_ok esft h w sl wl w' h' :
  hinv esft (λ _, False) h sl wl →
  small_w esft h wl →
  WeakPtr_copy w h = Ok (w', h') →
  w' = mkWeak (wp_ptr_ w) (wp_cblock_ w) ∧
  hinv esft (λ _, False) h' sl (w' :: wl) ∧ next h' = next h.
Proof.
  intros Hinv Hsw. unfold WeakPtr_copy.
  intros (u & h1 & Hadd & [-> ->]%ret_Ok)%bind_Ok.
  eapply (add_weak_ok _ _ _ _ _ _ (wp_ptr_ w)) in Hadd as (Hinv1 & Hn1 & Ho1);
    [|exact Hinv|done].
  done.
Qed.

Lemma WeakPtr_from_shared_ok esft h s sl wl w' h' :
  hinv esft (λ _, False) h sl wl →
  small_w esft h wl →
  WeakPtr_from_shared s h = Ok (w', h') →
  w' = mkWeak (sp_ptr_ s) (sp_cblock_ s) ∧
  hinv esft (λ _, False) h' sl (w' :: wl) ∧ next h' = next h.
Proof.
  intros Hinv Hsw. unfold WeakPtr_from_shared.
  intros (u & h1 & Hadd & [-> ->]%ret_Ok)%bind_Ok.
  eapply (add_weak_ok _ _ _ _ _ _ (sp_ptr_ s)) in Hadd as (Hinv1 & Hn1 & Ho1);
    [|exact Hinv|done].
  done.
Qed.

Lemma WeakFromThis_ok esft h p sl wl w' h' :
  hinv esft (λ _, False) h sl wl →
  small_w esft h wl →
  WeakFromThis p h = Ok (w', h') →
  hinv esft (λ _, False) h' sl (w' :: wl) ∧ next h' = next h.
Proof.
  intros Hinv Hsw. unfold WeakFromThis.
  intros (w & h0 & (o & -> & Ho & ->)%load_obj_Ok & H)%bind_Ok.
  eapply WeakPtr_copy_ok in H as (_ & ? & ?); eauto.
Qed.

(** ** Assignment *)

Lemma WeakPtr_assign_copy_ok esft h this other sl wl w' h' :
  hinv esft (λ _, False) h sl (this :: wl) →
  small_w esft h (this :: wl) →
  WeakPtr_assign_copy false this other h = Ok (w', h') →
  w' = mkWeak (wp_ptr_ other) (wp_cblock_ other) ∧
  hinv esft (λ _, False) h' sl (w' :: wl) ∧ next h' = next h.
Proof.
  intros Hinv Hsw. unfold WeakPtr_assign_copy.
  intros (w0 & h1 & Hrel & H)%bind_Ok.
  apply bind_Ok in H as (u & h2 & Hadd & [-> ->]%ret_Ok).
  eapply WeakPtr_Release_ok in Hrel as (-> & Hinv1 & Hn1 & Ho1); [|exact Hinv].
  eapply (add_weak_ok _ _ _ _ _ _ (wp_ptr_ other)) in Hadd as (Hinv2 & Hn2 & Ho2);
    [|exact Hinv1|].
  - split_and!; [done..|congruence].
  - eapply small_w_objects; [done|]. by eapply small_w_tail.
Qed.

Lemma WeakPtr_assign_shared_ok esft h this other sl wl w' h' :
  hinv esft (λ _, False) h sl (this :: wl) →
  small_w esft h (this :: wl) →
  WeakPtr_assign_shared this other h = Ok (w', h') →
  w' = mkWeak (sp_ptr_ other) (sp_cblock_ other) ∧
  hinv esft (λ _, False) h' sl (w' :: wl) ∧ next h' = next h.
Proof.
  intros Hinv Hsw. unfold WeakPtr_assign_shared.
  intros (w0 & h1 & Hrel & H)%bind_Ok.
  apply bind_Ok in H as (u & h2 & Hadd & [-> ->]%ret_Ok).
  eapply WeakPtr_Release_ok in Hrel as (-> & Hinv1 & Hn1 & Ho1); [|exact Hinv].
  eapply (add_weak_ok _ _ _ _ _ _ (sp_ptr_ other)) in Hadd as (Hinv2 & Hn2 & Ho2);
    [|exact Hinv1|].
  - split_and!; [done..|congruence].
  - eapply small_w_objects; [done|]. by eapply small_w_tail.
Qed.

Lemma WeakPtr_assign_move_ok esft h this other sl wl r h' :
  hinv esft (λ _, False) h sl (this :: wl) →
  WeakPtr_assign_move false this other h = Ok (r, h') →
  r = (mkWeak (wp_ptr_ other) (wp_cblock_ other), mkWeak None None) ∧
  hinv esft (λ _, False) h' sl wl ∧ next h' = next h.
Proof.
  intros Hinv. unfold WeakPtr_assign_move.
  intros (w0 & h1 & Hrel & [-> ->]%ret_Ok)%bind_Ok.
  eapply WeakPtr_Release_ok in Hrel as (-> & Hinv1 & Hn1 & Ho1); [|exact Hinv].
  done.
Qed.

Lemma SharedPtr_assign_copy_ok esft h this other sl wl s' h' :
  hinv esft (λ _, False) h (this :: sl) wl →
  (∀ b, sp_cblock_ other = Some b → 1 ≤ owners b sl) →
  small_s sl →
  SharedPtr_assign_copy esft false this other h = Ok (s', h') →
  s' = mkShared (sp_ptr_ other) (sp_cblock_ other) ∧
  hinv esft (λ _, False) h' (s' :: sl) wl ∧ next h' = next h.
Proof.
  intros Hinv Hown Hss. unfold SharedPtr_assign_copy.
  intros (s0 & h1 & Hrel & H)%bind_Ok.
  apply bind_Ok in H as (u & h2 & Hadd & [-> ->]%ret_Ok).
  eapply SharedPtr_Release_ok in Hrel as (-> & Hinv1 & Hn1); [|exact Hinv].
  eapply (add_strong_ok _ _ _ _ _ _ (sp_ptr_ other)) in Hadd as (Hinv2 & Hn2 & Ho2);
    [|exact Hinv1|done|done].
  split_and!; [done..|congruence].
Qed.

Lemma SharedPtr_assign_move_ok esft h this other sl wl r h' :
  hinv esft (λ _, False) h (this :: sl) wl →
  SharedPtr_assign_move esft false this other h = Ok (r, h') →
  r = (mkShared (sp_ptr_ other) (sp_cblock_ other), mkShared None None) ∧
  hinv esft (λ _, False) h' sl wl ∧ next h' = next h.
Proof.
  intros Hinv. unfold SharedPtr_assign_move.
  intros (s0 & h1 & Hrel & [-> ->]%ret_Ok)%bind_Ok.
  eapply SharedPtr_Release_ok in Hrel as (-> & Hinv1 & Hn1); [|exact Hinv].
  done.
Qed.

(** ** Allocation *)

Lemma new_object_eq h :
  new_object h =
    Ok (next h, upd_obj (next h) WeakPtr_default (log (EvAlloc Object (next h)) (bump h))).
Proof. reflexivity. Qed.

Lemma new_ControlBlockPtr_eq o h :
  new_ControlBlockPtr (Some o) h =
    Ok (next h,
        upd_cb (next h) (mkCB 1 0 (ControlBlockPtr (Some o)))
          (log (EvAlloc Block (next h)) (bump h))).
Proof.
  unfold new_ControlBlockPtr. mrun. unfold upd_cb, log, bump. cbn.
  by rewrite insert_insert_eq.
Qed.

Lemma new_ControlBlockHolder_eq h :
  new_ControlBlockHolder h =
    Ok (next h,
        upd_obj (next h) WeakPtr_default
          (upd_cb (next h) (mkCB 1 0 ControlBlockHolder)
             (log (EvAlloc Block (next h)) (bump h)))).
Proof.
  unfold new_ControlBlockHolder. mrun. unfold upd_cb, upd_obj, log, bump. cbn.
  by rewrite insert_insert_eq.
Qed.

Lemma hinv_fresh_obj esft pend h sl wl :
  hinv esft pend h sl wl → objects h !! next h = None.
Proof. intros (_ & Hf & _). by destruct (Hf (next h) ltac:(lia)) as (_ & ? & _). Qed.

Lemma hinv_new_object esft pend h sl wl :
  hinv esft pend h sl wl →
  hinv esft pend
    (upd_obj (next h) WeakPtr_default (log (EvAlloc Object (next h)) (bump h))) sl wl.
Proof.
  intros Hinv. pose proof (hinv_fresh_obj _ _ _ _ _ Hinv) as Hfr. unfold hinv in *.
  eapply heap_inv_ext; [| |apply inv_upd_obj; [apply inv_alloc_object; exact Hinv|]].
  - done.
  - intros b. cbn beta. hsimpl.
    rewrite self_observers_insert_fresh, eind_default by done. done.
  - hsimpl. lia.
Qed.

Lemma hinv_new_block esft pend h sl wl v p :
  hinv esft pend h sl wl →
  hinv esft pend
    (upd_cb (next h) (mkCB 1 0 v) (log (EvAlloc Block (next h)) (bump h)))
    (mkShared p (Some (next h)) :: sl) wl.
Proof.
  intros Hinv. unfold hinv in *.
  eapply heap_inv_ext; [| |apply inv_new_block; exact Hinv].
  - intros b. cbn beta. rewrite owners_cons. cbn. lia.
  - done.
Qed.

Lemma hinv_new_holder esft pend h sl wl :
  hinv esft pend h sl wl →
  hinv esft pend
    (upd_obj (next h) WeakPtr_default
       (upd_cb (next h) (mkCB 1 0 ControlBlockHolder)
          (log (EvAlloc Block (next h)) (bump h))))
    (mkShared (Some (next h)) (Some (next h)) :: sl) wl.
Proof.
  intros Hinv. pose proof (hinv_fresh_obj _ _ _ _ _ Hinv) as Hfr.
  pose proof (hinv_new_block _ _ _ _ _ ControlBlockHolder (Some (next h)) Hinv) as Hinv1.
  unfold hinv in *.
  eapply heap_inv_ext; [| |apply inv_upd_obj; [exact Hinv1|]].
  - done.
  - intros b. cbn beta. hsimpl.
    rewrite self_observers_insert_fresh, eind_default by done. done.
  - hsimpl. lia.
Qed.

Lemma SharedPtr_from_raw_ok esft h o sl wl s' h' :
  hinv esft (λ _, False) h sl wl →
  small_w esft h wl →
  SharedPtr_from_raw esft (Some o) h = Ok (s', h') →
  s' = mkShared (Some o) (Some (next h)) ∧
  hinv esft (λ _, False) h' (s' :: sl) wl ∧ next h' = S (next h).
Proof.
  intros Hinv Hsw. unfold SharedPtr_from_raw.
  intros (b & h1 & Hnew & H)%bind_Ok. rewrite new_ControlBlockPtr_eq in Hnew.
  injection Hnew as <- <-.
  apply bind_Ok in H as (u & h2 & Hset & [-> ->]%ret_Ok).
  pose proof (hinv_new_block _ _ _ _ _ (ControlBlockPtr (Some o)) (Some o) Hinv) as Hinv1.
  destruct esft.
  - eapply set_weak_this_ok in Hset as (Hinv2 & Hn2 & _); [|exact Hinv1|done].
    split_and!; [done..|]. by rewrite Hn2.
  - apply ret_Ok in Hset as [_ ->]. done.
Qed.

Lemma MakeShared_ok esft h sl wl s' h' :
  hinv esft (λ _, False) h sl wl →
  small_w esft h wl →
  MakeShared esft h = Ok (s', h') →
  s' = mkShared (Some (next h)) (Some (next h)) ∧
  hinv esft (λ _, False) h' (s' :: sl) wl ∧ next h' = S (next h).
Proof.
  intros Hinv Hsw. unfold MakeShared, SharedPtr_from_holder.
  intros (b & h1 & Hnew & H)%bind_Ok. rewrite new_ControlBlockHolder_eq in Hnew.
  injection Hnew as <- <-.
  apply bind_Ok in H as (u & h2 & Hset & [-> ->]%ret_Ok).
  pose proof (hinv_new_holder _ _ _ _ _ Hinv) as Hinv1.
  pose proof (hinv_fresh_obj _ _ _ _ _ Hinv) as Hfr.
  destruct esft.
  - eapply set_weak_this_ok in Hset as (Hinv2 & Hn2 & _); [|exact Hinv1|].
    + split_and!; [done..|]. by rewrite Hn2.
    + intros x. hsimpl.
      rewrite self_observers_insert_fresh, eind_default by done. apply Hsw.
  - apply ret_Ok in Hset as [_ ->]. done.
Qed.

Lemma SharedPtr_Reset_ptr_ok esft h this o sl wl s' h' :
  hinv esft (λ _, False) h (this :: sl) wl →
  SharedPtr_Reset_ptr esft this (Some o) h = Ok (s', h') →
  hinv esft (λ _, False) h' (s' :: sl) wl ∧ next h' = S (next h).
Proof.
  intros Hinv. unfold SharedPtr_Reset_ptr.
  intros (s0 & h1 & Hrel & H)%bind_Ok.
  apply bind_Ok in H as (b & h2 & Hnew & [-> ->]%ret_Ok).
  rewrite new_ControlBlockPtr_eq in Hnew. injection Hnew as <- <-.
  eapply SharedPtr_Release_ok in Hrel as (-> & Hinv1 & Hn1); [|exact Hinv].
  split; [|hsimpl; by rewrite Hn1].
  by apply hinv_new_block.
Qed.
(** * Programs preserve the invariant *)

Lemma owners_lookup b sl i s :
  sl !! i = Some s → owners b sl = ind (sp_cblock_ s) b + owners b (delete i sl).
Proof.
  intros Hi. rewrite <-owners_cons. apply owners_perm. by apply delete_Permutation.
Qed.

Lemma owners_insert b sl i s s' :
  sl !! i = Some s →
  owners b (<[i := s']> sl) = ind (sp_cblock_ s') b + owners b (delete i sl).
Proof.
  intros Hi. pose proof (lookup_lt_Some _ _ _ Hi) as Hlt.
  rewrite insert_take_drop, delete_take_drop by done.
  rewrite !owners_app, owners_cons. lia.
Qed.

Lemma owners_snoc b sl s : owners b (sl ++ [s]) = owners b (s :: sl).
Proof. rewrite owners_app, !owners_cons, owners_nil. lia. Qed.

Lemma observers_lookup b wl j w :
  wl !! j = Some w → observers b wl = ind (wp_cblock_ w) b + observers b (delete j wl).
Proof.
  intros Hj. rewrite <-observers_cons. apply observers_perm. by apply delete_Permutation.
Qed.

Lemma observers_insert b wl j w w' :
  wl !! j = Some w →
  observers b (<[j := w']> wl) = ind (wp_cblock_ w') b + observers b (delete j wl).
Proof.
  intros Hj. pose proof (lookup_lt_Some _ _ _ Hj) as Hlt.
  rewrite insert_take_drop, delete_take_drop by done.
  rewrite !observers_app, observers_cons. lia.
Qed.

Lemma observers_snoc b wl w : observers b (wl ++ [w]) = observers b (w :: wl).
Proof. rewrite observers_app, !observers_cons, observers_nil. lia. Qed.

Lemma exec_Ok {A} c (m : M A) k c' :
  exec c m k = Ok c' → ∃ a h', m (mem c) = Ok (a, h') ∧ c' = k a h'.
Proof.
  unfold exec. destruct (m (mem c)) as [[a h']| |]; [|done..].
  intros [= <-]. eauto.
Qed.

Lemma cfg_small_s esft n c sl :
  cfg_ok esft n c → (Z.of_nat n + 1 < size_t_modulus)%Z →
  (∀ b, owners b sl ≤ owners b (shared c)) → small_s sl.
Proof.
  intros [_ Hn] Hlt Hle b. specialize (Hle b).
  pose proof (owners_le b (shared c)). lia.
Qed.

Lemma cfg_small_w esft n c h wl :
  cfg_ok esft n c → (Z.of_nat n + 1 < size_t_modulus)%Z →
  objects h = objects (mem c) →
  (∀ b, observers b wl ≤ observers b (weak c)) → small_w esft h wl.
Proof.
  intros [Hinv Hn] Hlt Ho Hle b. specialize (Hle b). rewrite Ho.
  pose proof (observers_le b (weak c)).
  assert (self_observers esft b (objects (mem c)) ≤ next (mem c)).
  { apply self_observers_le. intros o Hge.
    destruct Hinv as (_ & Hf & _). by destruct (Hf o Hge) as (_ & ? & _). }
  lia.
Qed.

Lemma cfg_take_shared esft n c i s :
  cfg_ok esft n c → shared c !! i = Some s →
  hinv esft (λ _, False) (mem c) (s :: delete i (shared c)) (weak c).
Proof.
  intros [Hinv _] Hi. eapply hinv_ext; [| |exact Hinv]; [|done].
  intros b. rewrite owners_cons. by apply owners_lookup.
Qed.

Lemma cfg_take_weak esft n c j w :
  cfg_ok esft n c → weak c !! j = Some w →
  hinv esft (λ _, False) (mem c) (shared c) (w :: delete j (weak c)).
Proof.
  intros [Hinv _] Hj. eapply hinv_ext; [| |exact Hinv]; [done|].
  intros b. rewrite observers_cons. by apply observers_lookup.
Qed.

Lemma cfg_owned esft n c i s b :
  cfg_ok esft n c → shared c !! i = Some s → sp_cblock_ s = Some b →
  1 ≤ owners b (shared c).
Proof.
  intros _ Hi Hb. rewrite (owners_lookup b _ _ _ Hi), Hb, ind_same. lia.
Qed.

(** A declaration [SharedPtr<T> s(...)]. *)
Lemma decl_shared_ok esft n k c m c' :
  cfg_ok esft n c →
  decl_shared c m = Ok c' →
  (∀ s' h', m (mem c) = Ok (s', h') →
     hinv esft (λ _, False) h' (s' :: shared c) (weak c) ∧ next h' ≤ next (mem c) + k) →
  cfg_ok esft (n + k + 1) c'.
Proof.
  intros [Hinv Hn] (s' & h' & Hm & ->)%exec_Ok Hpost.
  destruct (Hpost _ _ Hm) as [Hinv' Hn']. split; cbn [mem shared weak].
  - eapply hinv_ext; [| |exact Hinv']; [|done]. intros b. by rewrite owners_snoc.
  - rewrite length_app. cbn. lia.
Qed.

Lemma decl_weak_ok esft n k c m c' :
  cfg_ok esft n c →
  decl_weak c m = Ok c' →
  (∀ w' h', m (mem c) = Ok (w', h') →
     hinv esft (λ _, False) h' (shared c) (w' :: weak c) ∧ next h' ≤ next (mem c) + k) →
  cfg_ok esft (n + k + 1) c'.
Proof.
  intros [Hinv Hn] (w' & h' & Hm & ->)%exec_Ok Hpost.
  destruct (Hpost _ _ Hm) as [Hinv' Hn']. split; cbn [mem shared weak].
  - eapply hinv_ext; [| |exact Hinv']; [done|]. intros b. by rewrite observers_snoc.
  - rewrite length_app. cbn. lia.
Qed.

(** A member call that changes [s_i] in place. *)
Lemma upd_shared_ok esft n k c i s m c' :
  cfg_ok esft n c →
  shared c !! i = Some s →
  upd_shared c i m = Ok c' →
  (∀ s' h', m (mem c) = Ok (s', h') →
     hinv esft (λ _, False) h' (s' :: delete i (shared c)) (weak c) ∧
     next h' ≤ next (mem c) + k) →
  cfg_ok esft (n + k) c'.
Proof.
  intros [Hinv Hn] Hi (s' & h' & Hm & ->)%exec_Ok Hpost.
  destruct (Hpost _ _ Hm) as [Hinv' Hn']. split; cbn [mem shared weak].
  - eapply hinv_ext; [| |exact Hinv']; [|done]. intros b.
    rewrite owners_cons. symmetry. by eapply owners_insert.
  - rewrite length_insert. lia.
Qed.

Lemma upd_weak_ok esft n k c j w m c' :
  cfg_ok esft n c →
  weak c !! j = Some w →
  upd_weak c j m = Ok c' →
  (∀ w' h', m (mem c) = Ok (w', h') →
     hinv esft (λ _, False) h' (shared c) (w' :: delete j (weak c)) ∧
     next h' ≤ next (mem c) + k) →
  cfg_ok esft (n + k) c'.
Proof.
  intros [Hinv Hn] Hj (w' & h' & Hm & ->)%exec_Ok Hpost.
  destruct (Hpost _ _ Hm) as [Hinv' Hn']. split; cbn [mem shared weak].
  - eapply hinv_ext; [| |exact Hinv']; [done|]. intros b.
    rewrite observers_cons. symmetry. by eapply observers_insert.
  - rewrite length_insert. lia.
Qed.

Lemma cfg_ok_mono esft n n' c : n ≤ n' → cfg_ok esft n c → cfg_ok esft n' c.
Proof. intros Hle [? ?]. split; [done|lia]. Qed.

Lemma owners_insert2 b sl i j a c a' c' :
  sl !! i = Some a → sl !! j = Some c → i ≠ j →
  owners b (<[i := a']> (<[j := c']> sl)) + ind (sp_cblock_ a) b + ind (sp_cblock_ c) b
  = owners b sl + ind (sp_cblock_ a') b + ind (sp_cblock_ c') b.
Proof.
  intros Hi Hj Hne.
  assert (Hi' : <[j := c']> sl !! i = Some a) by (by rewrite list_lookup_insert_ne).
  rewrite (owners_insert b _ i a a' Hi').
  pose proof (owners_lookup b _ _ _ Hi') as E1.
  pose proof (owners_insert b _ _ _ c' Hj) as E2.
  pose proof (owners_lookup b _ _ _ Hj) as E3. lia.
Qed.

Lemma observers_insert2 b wl i j a c a' c' :
  wl !! i = Some a → wl !! j = Some c → i ≠ j →
  observers b (<[i := a']> (<[j := c']> wl)) + ind (wp_cblock_ a) b + ind (wp_cblock_ c) b
  = observers b wl + ind (wp_cblock_ a') b + ind (wp_cblock_ c') b.
Proof.
  intros Hi Hj Hne.
  assert (Hi' : <[j := c']> wl !! i = Some a) by (by rewrite list_lookup_insert_ne).
  rewrite (observers_insert b _ i a a' Hi').
  pose proof (observers_lookup b _ _ _ Hi') as E1.
  pose proof (observers_insert b _ _ _ c' Hj) as E2.
  pose proof (observers_lookup b _ _ _ Hj) as E3. lia.
Qed.

Lemma owners_delete_other b sl i j this other :
  sl !! i = Some this → sl !! j = Some other → i ≠ j →
  sp_cblock_ other = Some b → 1 ≤ owners b (delete i sl).
Proof.
  intros Hi Hj Hne Hb.
  pose proof (owners_insert b _ _ _ (mkShared None None) Hi) as E1.
  assert (Hj' : <[i := mkShared None None]> sl !! j = Some other)
    by (by rewrite list_lookup_insert_ne).
  pose proof (owners_lookup b _ _ _ Hj') as E2.
  rewrite Hb, ind_same in E2. cbn [sp_cblock_] in E1. rewrite ind_None in E1. lia.
Qed.

Lemma small_w_sobs esft h h' wl :
  (∀ b, self_observers esft b (objects h') = self_observers esft b (objects h)) →
  small_w esft h wl → small_w esft h' wl.
Proof. intros Ho Hs b. rewrite Ho. apply Hs. Qed.

Lemma step_ok esft n o c c' :
  cfg_ok esft n c →
  (Z.of_nat n + 1 < size_t_modulus)%Z →
  adopts_null o = false →
  step esft o c = Ok c' →
  cfg_ok esft (n + 3) c'.
Proof.
  intros Hc Hlt Hnull Hstep.
  pose proof (cfg_small_s _ _ _ (shared c) Hc Hlt ltac:(done)) as Hss.
  pose proof (cfg_small_w _ _ _ (mem c) (weak c) Hc Hlt eq_refl ltac:(done)) as Hsw.
  pose proof Hc as [Hinv Hn].
  destruct o; cbn [step adopts_null] in *.
  - (* SDefault *)
    eapply cfg_ok_mono; [|eapply (decl_shared_ok _ _ 0); [exact Hc|exact Hstep|]]; [lia|].
    intros s' h' [-> ->]%ret_Ok. split; [|lia]. by apply hinv_drop_empty_s.
  - (* SAdoptNew *)
    eapply cfg_ok_mono; [|eapply (decl_shared_ok _ _ 2); [exact Hc|exact Hstep|]]; [lia|].
    intros s' h' (p & h1 & Hnew & Hraw)%bind_Ok.
    rewrite new_object_eq in Hnew. injection Hnew as <- <-.
    pose proof (hinv_new_object _ _ _ _ _ Hinv) as Hinv1.
    pose proof (hinv_fresh_obj _ _ _ _ _ Hinv) as Hfr.
    eapply SharedPtr_from_raw_ok in Hraw as (_ & Hinv2 & Hn2); [|exact Hinv1|].
    + split; [done|]. rewrite Hn2. hsimpl. lia.
    + eapply small_w_sobs; [|exact Hsw]. intros b. hsimpl.
      rewrite self_observers_insert_fresh, eind_default by done. done.
  - (* SAdopt *)
    destruct p as [o|]; [|done].
    eapply cfg_ok_mono; [|eapply (decl_shared_ok _ _ 1); [exact Hc|exact Hstep|]]; [lia|].
    intros s' h' Hraw.
    eapply SharedPtr_from_raw_ok in Hraw as (_ & Hinv2 & Hn2); [|exact Hinv|done].
    split; [done|lia].
  - (* SMakeShared *)
    eapply cfg_ok_mono; [|eapply (decl_shared_ok _ _ 1); [exact Hc|exact Hstep|]]; [lia|].
    intros s' h' Hmk.
    eapply MakeShared_ok in Hmk as (_ & Hinv2 & Hn2); [|exact Hinv|done].
    split; [done|lia].
  - (* SCopy *)
    destruct (shared c !! i) as [s|] eqn:Hi; last first.
    { injection Hstep as <-. eapply cfg_ok_mono; [|exact Hc]. lia. }
    eapply cfg_ok_mono; [|eapply (decl_shared_ok _ _ 0); [exact Hc|exact Hstep|]]; [lia|].
    intros s' h' Hcp.
    eapply SharedPtr_copy_ok in Hcp as (_ & Hinv2 & Hn2); [|exact Hinv| |done|done].
    + split; [done|lia].
    + intros b Hb. eapply cfg_owned; eauto.
  - (* SMove *)
    destruct (shared c !! i) as [s|] eqn:Hi; last first.
    { injection Hstep as <-. eapply cfg_ok_mono; [|exact Hc]. lia. }
    apply exec_Ok in Hstep as (r & h' & Hmv & ->).
    eapply SharedPtr_move_ok in Hmv as (-> & Hinv2 & Hn2);
      [|eapply cfg_take_shared; eauto|done].
    split; cbn [mem shared weak fst snd].
    + eapply hinv_ext; [| |exact Hinv2]; [|done]. intros b.
      rewrite owners_snoc, !owners_cons. rewrite (owners_insert b _ _ _ _ Hi). cbn.
      rewrite ind_None. lia.
    + rewrite length_app, length_insert. cbn. lia.
  - (* SAlias *)
    destruct (shared c !! i) as [s|] eqn:Hi; last first.
    { injection Hstep as <-. eapply cfg_ok_mono; [|exact Hc]. lia. }
    eapply cfg_ok_mono; [|eapply (decl_shared_ok _ _ 0); [exact Hc|exact Hstep|]]; [lia|].
    intros s' h' Hcp.
    eapply SharedPtr_alias_ok in Hcp as (_ & Hinv2 & Hn2); [|exact Hinv| |done].
    + split; [done|lia].
    + intros b Hb. eapply cfg_owned; eauto.
  - (* SPromote *)
    destruct (weak c !! j) as [w|] eqn:Hj; last first.
    { injection Hstep as <-. eapply cfg_ok_mono; [|exact Hc]. lia. }
    destruct (SharedPtr_from_weak w (mem c)) as [[s' h']| |] eqn:Hp; [| |done].
    + injection Hstep as <-.
      eapply SharedPtr_from_weak_ok in Hp as (_ & Hinv2 & Hn2); [|exact Hinv|done].
      split; cbn [mem shared weak].
      * eapply hinv_ext; [| |exact Hinv2]; [|done]. intros b. by rewrite owners_snoc.
      * rewrite length_app. cbn. lia.
    + injection Hstep as <-. eapply cfg_ok_mono; [|exact Hc]. lia.
  - (* SLock *)
    destruct (weak c !! j) as [w|] eqn:Hj; last first.
    { injection Hstep as <-. eapply cfg_ok_mono; [|exact Hc]. lia. }
    eapply cfg_ok_mono; [|eapply (decl_shared_ok _ _ 0); [exact Hc|exact Hstep|]]; [lia|].
    intros s' h' Hl.
    eapply WeakPtr_Lock_ok in Hl as (Hinv2 & Hn2); [|exact Hinv|done].
    split; [done|lia].
  - (* SSharedFromThis *)
    destruct (shared c !! i) as [s|] eqn:Hi; last first.
    { injection Hstep as <-. eapply cfg_ok_mono; [|exact Hc]. lia. }
    eapply cfg_ok_mono; [|eapply (decl_shared_ok _ _ 0); [exact Hc|exact Hstep|]]; [lia|].
    intros s' h' Hl.
    eapply SharedFromThis_ok in Hl as (Hinv2 & Hn2); [|exact Hinv|done].
    split; [done|lia].
  - (* SCopyAssign *)
    destruct (shared c !! i) as [this|] eqn:Hi; last first.
    { injection Hstep as <-. eapply cfg_ok_mono; [|exact Hc]. lia. }
    destruct (shared c !! j) as [other|] eqn:Hj; last first.
    { injection Hstep as <-. eapply cfg_ok_mono; [|exact Hc]. lia. }
    destruct (decide (i = j)) as [->|Hne].
    + rewrite bool_decide_eq_true_2 in Hstep by done.
      apply exec_Ok in Hstep as (r & h' & [-> ->]%ret_Ok & ->).
      rewrite list_insert_id by done. destruct c. eapply cfg_ok_mono; [|exact Hc]. lia.
    + rewrite bool_decide_eq_false_2 in Hstep by done.
      eapply cfg_ok_mono; [|eapply (upd_shared_ok _ _ 0); [exact Hc|exact Hi|exact Hstep|]];
        [lia|].
      intros s' h' Has.
      eapply SharedPtr_assign_copy_ok in Has as (_ & Hinv2 & Hn2);
        [|eapply cfg_take_shared; eauto| |].
      * split; [done|lia].
      * intros b Hb. eapply owners_delete_other; eauto.
      * eapply cfg_small_s; eauto. intros b. rewrite (owners_lookup b _ _ _ Hi). lia.
  - (* SMoveAssign *)
    destruct (shared c !! i) as [this|] eqn:Hi; last first.
    { injection Hstep as <-. eapply cfg_ok_mono; [|exact Hc]. lia. }
    destruct (shared c !! j) as [other|] eqn:Hj; last first.
    { injection Hstep as <-. eapply cfg_ok_mono; [|exact Hc]. lia. }
    destruct (decide (i = j)) as [->|Hne].
    + rewrite bool_decide_eq_true_2 in Hstep by done.
      apply exec_Ok in Hstep as (r & h' & [-> ->]%ret_Ok & ->). cbn [fst snd].
      assert (other = this) as -> by congruence.
      rewrite (list_insert_id (shared c)) by done.
      rewrite (list_insert_id (shared c)) by done.
      destruct c. eapply cfg_ok_mono; [|exact Hc]. lia.
    + rewrite bool_decide_eq_false_2 in Hstep by done.
      apply exec_Ok in Hstep as (r & h' & Has & ->).
      eapply SharedPtr_assign_move_ok in Has as (-> & Hinv2 & Hn2);
        [|eapply cfg_take_shared; eauto].
      split; cbn [mem shared weak fst snd].
      * eapply hinv_ext; [| |exact Hinv2]; [|done]. intros b.
        pose proof (owners_insert2 b _ _ _ _ _
                      (mkShared (sp_ptr_ other) (sp_cblock_ other))
                      (mkShared None None) Hi Hj Hne) as E.
        pose proof (owners_lookup b _ _ _ Hi) as E1.
        cbn [sp_cblock_] in E. rewrite ind_None in E. lia.
      * rewrite !length_insert. lia.
  - (* SReset *)
    destruct (shared c !! i) as [s|] eqn:Hi; last first.
    { injection Hstep as <-. eapply cfg_ok_mono; [|exact Hc]. lia. }
    eapply cfg_ok_mono; [|eapply (upd_shared_ok _ _ 0); [exact Hc|exact Hi|exact Hstep|]];
      [lia|].
    intros s' h' Hrel. unfold SharedPtr_Reset in Hrel.
    eapply SharedPtr_Release_ok in Hrel as (-> & Hinv2 & Hn2);
      [|eapply cfg_take_shared; eauto].
    split; [|lia]. by apply hinv_drop_empty_s.
  - (* SResetNew *)
    destruct (shared c !! i) as [s|] eqn:Hi; last first.
    { injection Hstep as <-. eapply cfg_ok_mono; [|exact Hc]. lia. }
    eapply cfg_ok_mono; [|eapply (upd_shared_ok _ _ 2); [exact Hc|exact Hi|exact Hstep|]];
      [lia|].
    intros s' h' (p & h1 & Hnew & Hrs)%bind_Ok.
    rewrite new_object_eq in Hnew. injection Hnew as <- <-.
    eapply SharedPtr_Reset_ptr_ok in Hrs as (Hinv2 & Hn2);
      [|apply hinv_new_object; eapply cfg_take_shared; eauto].
    split; [done|]. rewrite Hn2. hsimpl. lia.
  - (* SResetPtr *)
    destruct p as [o|]; [|by destruct (shared c !! i)].
    destruct (shared c !! i) as [s|] eqn:Hi; last first.
    { injection Hstep as <-. eapply cfg_ok_mono; [|exact Hc]. lia. }
    eapply cfg_ok_mono; [|eapply (upd_shared_ok _ _ 1); [exact Hc|exact Hi|exact Hstep|]];
      [lia|].
    intros s' h' Hrs.
    eapply SharedPtr_Reset_ptr_ok in Hrs as (Hinv2 & Hn2);
      [|eapply cfg_take_shared; eauto].
    split; [done|lia].
  - (* SSwap *)
    destruct (shared c !! i) as [this|] eqn:Hi; last first.
    { injection Hstep as <-. eapply cfg_ok_mono; [|exact Hc]. lia. }
    destruct (shared c !! j) as [other|] eqn:Hj; last first.
    { injection Hstep as <-. eapply cfg_ok_mono; [|exact Hc]. lia. }
    injection Hstep as <-. unfold SharedPtr_Swap. cbn [fst snd].
    split; cbn [mem shared weak]; [|rewrite !length_insert; lia].
    eapply hinv_ext; [| |exact Hinv]; [|done]. intros b.
    destruct (decide (i = j)) as [->|Hne].
    * rewrite list_insert_insert_eq. simplify_eq.
      rewrite (owners_insert b _ _ _ _ Hi), (owners_lookup b _ _ _ Hi). done.
    * pose proof (owners_insert2 b _ _ _ _ _
                    (mkShared (sp_ptr_ other) (sp_cblock_ other))
                    (mkShared (sp_ptr_ this) (sp_cblock_ this)) Hi Hj Hne) as E.
      cbn [sp_cblock_] in E. lia.
  - (* SDestroy *)
    destruct (shared c !! i) as [s|] eqn:Hi; last first.
    { injection Hstep as <-. eapply cfg_ok_mono; [|exact Hc]. lia. }
    eapply cfg_ok_mono; [|eapply (upd_shared_ok _ _ 0); [exact Hc|exact Hi|exact Hstep|]];
      [lia|].
    intros s' h' Hrel.
    eapply SharedPtr_Release_ok in Hrel as (-> & Hinv2 & Hn2);
      [|eapply cfg_take_shared; eauto].
    split; [|lia]. by apply hinv_drop_empty_s.
  - (* WDefault *)
    eapply cfg_ok_mono; [|eapply (decl_weak_ok _ _ 0); [exact Hc|exact Hstep|]]; [lia|].
    intros w' h' [-> ->]%ret_Ok. split; [|lia]. by apply hinv_drop_empty_w.
  - (* WCopy *)
    destruct (weak c !! j) as [w|] eqn:Hj; last first.
    { injection Hstep as <-. eapply cfg_ok_mono; [|exact Hc]. lia. }
    eapply cfg_ok_mono; [|eapply (decl_weak_ok _ _ 0); [exact Hc|exact Hstep|]]; [lia|].
    intros w' h' Hcp.
    eapply WeakPtr_copy_ok in Hcp as (_ & Hinv2 & Hn2); [|exact Hinv|done].
    split; [done|lia].
  - (* WMove *)
    destruct (weak c !! j) as [w|] eqn:Hj; last first.
    { injection Hstep as <-. eapply cfg_ok_mono; [|exact Hc]. lia. }
    apply exec_Ok in Hstep as (r & h' & [-> ->]%ret_Ok & ->).
    split; cbn [mem shared weak fst snd].
    + eapply hinv_ext; [| |exact Hinv]; [done|]. intros b.
      rewrite observers_snoc, !observers_cons. rewrite (observers_insert b _ _ _ _ Hj).
      rewrite (observers_lookup b _ _ _ Hj). cbn. rewrite ind_None. lia.
    + rewrite length_app, length_insert. cbn. lia.
  - (* WDemote *)
    destruct (shared c !! i) as [s|] eqn:Hi; last first.
    { injection Hstep as <-. eapply cfg_ok_mono; [|exact Hc]. lia. }
    eapply cfg_ok_mono; [|eapply (decl_weak_ok _ _ 0); [exact Hc|exact Hstep|]]; [lia|].
    intros w' h' Hcp.
    eapply WeakPtr_from_shared_ok in Hcp as (_ & Hinv2 & Hn2); [|exact Hinv|done].
    split; [done|lia].
  - (* WWeakFromThis *)
    destruct (shared c !! i) as [s|] eqn:Hi; last first.
    { injection Hstep as <-. eapply cfg_ok_mono; [|exact Hc]. lia. }
    eapply cfg_ok_mono; [|eapply (decl_weak_ok _ _ 0); [exact Hc|exact Hstep|]]; [lia|].
    intros w' h' Hcp.
    eapply WeakFromThis_ok in Hcp as (Hinv2 & Hn2); [|exact Hinv|done].
    split; [done|lia].
  - (* WCopyAssign *)
    destruct (weak c !! j) as [this|] eqn:Hj; last first.
    { injection Hstep as <-. eapply cfg_ok_mono; [|exact Hc]. lia. }
    destruct (weak c !! k) as [other|] eqn:Hk; last first.
    { injection Hstep as <-. eapply cfg_ok_mono; [|exact Hc]. lia. }
    destruct (decide (j = k)) as [->|Hne].
    + rewrite bool_decide_eq_true_2 in Hstep by done.
      apply exec_Ok in Hstep as (r & h' & [-> ->]%ret_Ok & ->).
      rewrite list_insert_id by done. destruct c. eapply cfg_ok_mono; [|exact Hc]. lia.
    + rewrite bool_decide_eq_false_2 in Hstep by done.
      eapply cfg_ok_mono; [|eapply (upd_weak_ok _ _ 0); [exact Hc|exact Hj|exact Hstep|]];
        [lia|].
      intros w' h' Has.
      eapply WeakPtr_assign_copy_ok in Has as (_ & Hinv2 & Hn2);
        [|eapply cfg_take_weak; eauto|].
      * split; [done|lia].
      * eapply cfg_small_w; eauto. intros b.
        rewrite observers_cons, (observers_lookup b _ _ _ Hj). lia.
  - (* WAssignShared *)
    destruct (weak c !! j) as [this|] eqn:Hj; last first.
    { injection Hstep as <-. eapply cfg_ok_mono; [|exact Hc]. lia. }
    destruct (shared c !! i) as [other|] eqn:Hi; last first.
    { injection Hstep as <-. eapply cfg_ok_mono; [|exact Hc]. lia. }
    eapply cfg_ok_mono; [|eapply (upd_weak_ok _ _ 0); [exact Hc|exact Hj|exact Hstep|]];
      [lia|].
    intros w' h' Has.
    eapply WeakPtr_assign_shared_ok in Has as (_ & Hinv2 & Hn2);
      [|eapply cfg_take_weak; eauto|].
    + split; [done|lia].
    + eapply cfg_small_w; eauto. intros b.
      rewrite observers_cons, (observers_lookup b _ _ _ Hj). lia.
  - (* WMoveAssign *)
    destruct (weak c !! j) as [this|] eqn:Hj; last first.
    { injection Hstep as <-. eapply cfg_ok_mono; [|exact Hc]. lia. }
    destruct (weak c !! k) as [other|] eqn:Hk; last first.
    { injection Hstep as <-. eapply cfg_ok_mono; [|exact Hc]. lia. }
    destruct (decide (j = k)) as [->|Hne].
    + rewrite bool_decide_eq_true_2 in Hstep by done.
      apply exec_Ok in Hstep as (r & h' & [-> ->]%ret_Ok & ->). cbn [fst snd].
      assert (other = this) as -> by congruence.
      rewrite (list_insert_id (weak c)) by done.
      rewrite (list_insert_id (weak c)) by done.
      destruct c. eapply cfg_ok_mono; [|exact Hc]. lia.
    + rewrite bool_decide_eq_false_2 in Hstep by done.
      apply exec_Ok in Hstep as (r & h' & Has & ->).
      eapply WeakPtr_assign_move_ok in Has as (-> & Hinv2 & Hn2);
        [|eapply cfg_take_weak; eauto].
      split; cbn [mem shared weak fst snd].
      * eapply hinv_ext; [| |exact Hinv2]; [done|]. intros b.
        pose proof (observers_insert2 b _ _ _ _ _
                      (mkWeak (wp_ptr_ other) (wp_cblock_ other))
                      (mkWeak None None) Hj Hk Hne) as E.
        pose proof (observers_lookup b _ _ _ Hj) as E1.
        cbn [wp_cblock_] in E. rewrite ind_None in E. lia.
      * rewrite !length_insert. lia.
  - (* WReset *)
    destruct (weak c !! j) as [w|] eqn:Hj; last first.
    { injection Hstep as <-. eapply cfg_ok_mono; [|exact Hc]. lia. }
    eapply cfg_ok_mono; [|eapply (upd_weak_ok _ _ 0); [exact Hc|exact Hj|exact Hstep|]];
      [lia|].
    intros w' h' Hrel. unfold WeakPtr_Reset in Hrel.
    eapply WeakPtr_Release_ok in Hrel as (-> & Hinv2 & Hn2 & _);
      [|eapply cfg_take_weak; eauto].
    split; [|lia]. by apply hinv_drop_empty_w.
  - (* WSwap *)
    destruct (weak c !! j) as [this|] eqn:Hj; last first.
    { injection Hstep as <-. eapply cfg_ok_mono; [|exact Hc]. lia. }
    destruct (weak c !! k) as [other|] eqn:Hk; last first.
    { injection Hstep as <-. eapply cfg_ok_mono; [|exact Hc]. lia. }
    injection Hstep as <-. unfold WeakPtr_Swap. cbn [fst snd].
    split; cbn [mem shared weak]; [|rewrite !length_insert; lia].
    eapply hinv_ext; [| |exact Hinv]; [done|]. intros b.
    destruct (decide (j = k)) as [->|Hne].
    * rewrite list_insert_insert_eq. simplify_eq.
      rewrite (observers_insert b _ _ _ _ Hj), (observers_lookup b _ _ _ Hj). done.
    * pose proof (observers_insert2 b _ _ _ _ _
                    (mkWeak (wp_ptr_ other) (wp_cblock_ other))
                    (mkWeak (wp_ptr_ this) (wp_cblock_ this)) Hj Hk Hne) as E.
      cbn [wp_cblock_] in E. lia.
  - (* WDestroy *)
    destruct (weak c !! j) as [w|] eqn:Hj; last first.
    { injection Hstep as <-. eapply cfg_ok_mono; [|exact Hc]. lia. }
    eapply cfg_ok_mono; [|eapply (upd_weak_ok _ _ 0); [exact Hc|exact Hj|exact Hstep|]];
      [lia|].
    intros w' h' Hrel.
    eapply WeakPtr_Release_ok in Hrel as (-> & Hinv2 & Hn2 & _);
      [|eapply cfg_take_weak; eauto].
    split; [|lia]. by apply hinv_drop_empty_w.
Qed.
(** * Definedness for types without the self-reference capability *)

Lemma obj_inv_upd_cb h b cb cb' :
  cblocks h !! b = Some cb → impl cb' = impl cb →
  (strong_ref_counter_ cb' ≠ 0%Z → strong_ref_counter_ cb ≠ 0%Z) →
  obj_inv h → obj_inv (upd_cb b cb' h).
Proof.
  intros Hcb Himpl Hnz Hobj x cbx Hx Hxnz. hsimpl.
  assert (Hold : ∃ cbx0, cblocks h !! x = Some cbx0 ∧ strong_ref_counter_ cbx0 ≠ 0%Z ∧
                   managed x cbx0 = managed x cbx).
  { destruct (decide (x = b)) as [->|Hne].
    - rewrite lookup_insert_eq in Hx. simplify_eq. exists cb. split_and!; auto.
      unfold managed. by rewrite Himpl.
    - rewrite lookup_insert_ne in Hx by done. eauto. }
  destruct Hold as (cbx0 & Hx0 & Hx0nz & Hm).
  destruct (Hobj x cbx0 Hx0 Hx0nz) as (o & Ho & Hlive & Huniq).
  exists o. split_and!; [congruence|done|].
  intros y cby Hy Hynz Hmy.
  destruct (decide (y = b)) as [->|Hne].
  - rewrite lookup_insert_eq in Hy. simplify_eq.
    apply (Huniq b cb Hcb); [auto|]. unfold managed in *. by rewrite <-Himpl.
  - rewrite lookup_insert_ne in Hy by done. eauto.
Qed.

Lemma obj_inv_del_cb h b : obj_inv h → obj_inv (del_cb b h).
Proof.
  intros Hobj x cbx Hx Hxnz. hsimpl.
  apply lookup_delete_Some in Hx as [Hne Hx].
  destruct (Hobj x cbx Hx Hxnz) as (o & Ho & Hlive & Huniq).
  exists o. split_and!; [done..|].
  intros y cby Hy Hynz Hmy. apply lookup_delete_Some in Hy as [_ Hy]. eauto.
Qed.

Lemma obj_inv_log h e : obj_inv h → obj_inv (log e h).
Proof. done. Qed.

Lemma obj_inv_bump h : obj_inv h → obj_inv (bump h).
Proof. done. Qed.

Lemma obj_inv_upd_obj h o w : obj_inv h → obj_inv (upd_obj o w h).
Proof.
  intros Hobj x cbx Hx Hxnz. hsimpl.
  destruct (Hobj x cbx Hx Hxnz) as (o' & Ho & Hlive & Huniq).
  exists o'. split_and!; [done| |done].
  destruct (decide (o = o')) as [->|Hne].
  - rewrite lookup_insert_eq. eauto.
  - by rewrite lookup_insert_ne.
Qed.

(** Deleting the object of a block whose strong count has just become
    zero. *)
Lemma obj_inv_dispose h b cb cb' o :
  cblocks h !! b = Some cb → strong_ref_counter_ cb ≠ 0%Z →
  managed b cb = Some o → impl cb' = impl cb → strong_ref_counter_ cb' = 0%Z →
  obj_inv h → obj_inv (del_obj o (upd_cb b cb' h)).
Proof.
  intros Hcb Hnz Hm Himpl Hz Hobj x cbx Hx Hxnz. hsimpl.
  destruct (decide (x = b)) as [->|Hne].
  { rewrite lookup_insert_eq in Hx. simplify_eq. }
  rewrite lookup_insert_ne in Hx by done.
  destruct (Hobj x cbx Hx Hxnz) as (o' & Ho & Hlive & Huniq).
  exists o'. split_and!; [done| |].
  - rewrite lookup_delete_ne; [done|]. intros <-.
    apply Hne. symmetry. by apply (Huniq b cb).
  - intros y cby Hy Hynz Hmy. destruct (decide (y = b)) as [->|Hne'].
    + rewrite lookup_insert_eq in Hy. simplify_eq.
    + rewrite lookup_insert_ne in Hy by done. eauto.
Qed.

Lemma obj_inv_new_block h p o v :
  obj_inv h →
  cblocks h !! p = None →
  managed p (mkCB 1 0 v) = Some o → is_Some (objects h !! o) →
  (∀ b cb, cblocks h !! b = Some cb → strong_ref_counter_ cb ≠ 0%Z →
     managed b cb ≠ Some o) →
  obj_inv (upd_cb p (mkCB 1 0 v) h).
Proof.
  intros Hobj Hfresh Hm Hlive Hun x cbx Hx Hxnz. hsimpl.
  destruct (decide (x = p)) as [->|Hne].
  - rewrite lookup_insert_eq in Hx. simplify_eq. exists o. split_and!; [done..|].
    intros y cby Hy Hynz Hmy. destruct (decide (y = p)) as [|Hne']; [done|].
    rewrite lookup_insert_ne in Hy by done. by destruct (Hun y cby Hy Hynz).
  - rewrite lookup_insert_ne in Hx by done.
    destruct (Hobj x cbx Hx Hxnz) as (o' & Ho & Hlive' & Huniq).
    exists o'. split_and!; [done..|].
    intros y cby Hy Hynz Hmy. destruct (decide (y = p)) as [->|Hne'].
    + rewrite lookup_insert_eq in Hy. simplify_eq.
      destruct (Hun x cbx Hx Hxnz). congruence.
    + rewrite lookup_insert_ne in Hy by done. eauto.
Qed.

Lemma unowned_ext o h h' :
  cblocks h' = cblocks h → objects h' = objects h → unowned o h → unowned o h'.
Proof. intros Hc Ho. unfold unowned. by rewrite Hc, Ho. Qed.

Lemma unowned_upd_cb o h b cb cb' :
  cblocks h !! b = Some cb → impl cb' = impl cb →
  (strong_ref_counter_ cb' ≠ 0%Z → strong_ref_counter_ cb ≠ 0%Z) →
  unowned o h → unowned o (upd_cb b cb' h).
Proof.
  intros Hcb Himpl Hnz [Hlive Hun]. split; [done|]. hsimpl.
  intros y cby Hy Hynz. destruct (decide (y = b)) as [->|Hne].
  - rewrite lookup_insert_eq in Hy. simplify_eq.
    unfold managed. rewrite Himpl. apply (Hun b cb Hcb). auto.
  - rewrite lookup_insert_ne in Hy by done. eauto.
Qed.

Lemma unowned_del_cb o h b : unowned o h → unowned o (del_cb b h).
Proof.
  intros [Hlive Hun]. split; [done|]. hsimpl.
  intros y cby [_ Hy]%lookup_delete_Some Hynz. eauto.
Qed.

Lemma unowned_del_obj o h b cb o' :
  cblocks h !! b = Some cb → strong_ref_counter_ cb ≠ 0%Z → managed b cb = Some o' →
  unowned o h → unowned o (del_obj o' h).
Proof.
  intros Hcb Hnz Hm [Hlive Hun]. split; [|done]. hsimpl.
  rewrite lookup_delete_ne; [done|]. intros ->. by apply (Hun b cb).
Qed.

Lemma obj_inv_ext h h' :
  cblocks h' = cblocks h → objects h' = objects h → obj_inv h → obj_inv h'.
Proof. intros Hc Ho Hobj. unfold obj_inv. rewrite Hc, Ho. exact Hobj. Qed.

Lemma add_strong_total h (c : ptr) :
  (∀ b, c = Some b →
     ∃ cb, cblocks h !! b = Some cb ∧ strong_ref_counter_ cb ≠ 0%Z) →
  obj_inv h →
  ∃ h', (if c is Some b then AddStrongRef b else (mret tt : M unit)) h = Ok (tt, h') ∧
        obj_inv h'.
Proof.
  intros Hlive Hobj. destruct c as [b|]; [|by exists h].
  destruct (Hlive b eq_refl) as (cb & Hcb & Hnz).
  eexists. split.
  - unfold AddStrongRef, load_cb, store_cb. munfold. rewrite Hcb. reflexivity.
  - by apply (obj_inv_upd_cb _ _ cb).
Qed.

Lemma add_weak_total h (c : ptr) :
  (∀ b, c = Some b → is_Some (cblocks h !! b)) →
  obj_inv h →
  ∃ h', (if c is Some b then AddWeakRef b else (mret tt : M unit)) h = Ok (tt, h') ∧
        obj_inv h'.
Proof.
  intros Hlive Hobj. destruct c as [b|]; [|by exists h].
  destruct (Hlive b eq_refl) as (cb & Hcb).
  eexists. split.
  - unfold AddWeakRef, load_cb, store_cb. munfold. rewrite Hcb. reflexivity.
  - by apply (obj_inv_upd_cb _ _ cb).
Qed.

Lemma WeakPtr_Release_total h w :
  (∀ b, wp_cblock_ w = Some b → is_Some (cblocks h !! b)) →
  obj_inv h →
  ∃ h', WeakPtr_Release w h = Ok (mkWeak None None, h') ∧ obj_inv h'.
Proof.
  intros Hlive Hobj. rewrite WeakPtr_Release_eq.
  destruct (wp_cblock_ w) as [b|]; [|by exists h].
  destruct (Hlive b eq_refl) as (cb & Hcb). rewrite Hcb.
  eexists. split; [reflexivity|]. unfold weak_release_heap. case_decide.
  - by apply obj_inv_log, obj_inv_del_cb.
  - by apply (obj_inv_upd_cb _ _ cb).
Qed.

Lemma destroy_if_unreferenced_total {A} (k : M A) b h :
  is_Some (cblocks h !! b) → obj_inv h →
  ∃ h1, obj_inv h1 ∧ (∀ o, unowned o h → unowned o h1) ∧
    (zs ← IsZeroStrongOwning b;
     zw ← (if zs then IsZeroWeakOwning b else mret false);
     (if zs && zw then Destroy b else mret tt);; k) h = k h1.
Proof.
  intros [cb Hcb] Hobj. mrun. rewrite Hcb. mrun.
  destruct (bool_decide (strong_ref_counter_ cb = 0%Z)); mrun.
  - rewrite Hcb. mrun.
    destruct (bool_decide (weak_ref_counter_ cb = 0%Z)); mrun.
    + rewrite Hcb. mrun. exists (del_cb b (log (EvDestroy b) h)).
      split_and!; [|intros o Ho|reflexivity].
      * by apply obj_inv_del_cb, obj_inv_log.
      * by apply unowned_del_cb.
    + by exists h.
  - by exists h.
Qed.

Lemma SharedPtr_Release_total h s :
  (∀ b, sp_cblock_ s = Some b →
     ∃ cb, cblocks h !! b = Some cb ∧ strong_ref_counter_ cb ≠ 0%Z) →
  obj_inv h →
  ∃ h', SharedPtr_Release false s h = Ok (mkShared None None, h') ∧ obj_inv h' ∧
        ∀ o, unowned o h → unowned o h'.
Proof.
  intros Hlive Hobj. unfold SharedPtr_Release.
  destruct (sp_cblock_ s) as [b|]; [|by exists h].
  destruct (Hlive b eq_refl) as (cb & Hcb & Hnz).
  destruct (Hobj b cb Hcb Hnz) as (o & Hm & [w Hw] & Huniq).
  set (cb' := mkCB (wrap (strong_ref_counter_ cb - 1)) (weak_ref_counter_ cb) (impl cb)).
  assert (Hstep1 : ∃ h4, obj_inv h4 ∧ is_Some (cblocks h4 !! b) ∧
            (∀ x, unowned x h → unowned x h4) ∧
            (RemoveStrongRef b;;
             z ← IsZeroStrongOwning b;
             (if z : bool then Dispose false b else mret tt)) h = Ok (tt, h4)).
  { unfold RemoveStrongRef, IsZeroStrongOwning, load_cb, store_cb. munfold.
    rewrite Hcb. hsimpl. rewrite lookup_insert_eq. cbn [strong_ref_counter_].
    destruct (decide (wrap (strong_ref_counter_ cb - 1) = 0%Z)) as [Hz|Hz].
    - rewrite (bool_decide_eq_true_2 _ Hz).
      unfold Dispose, load_cb, emit, destroy_object, load_obj, free_obj. munfold. hsimpl.
      rewrite lookup_insert_eq. cbn [impl].
      exists (del_obj o (log (EvDispose b) (upd_cb b cb' h))).
      split_and!.
      + eapply obj_inv_ext; [| |apply (obj_inv_dispose h b cb cb' o); eauto]; done.
      + hsimpl. rewrite lookup_insert_eq. eauto.
      + intros x Hx.
        pose proof (unowned_del_obj x h b cb o Hcb Hnz Hm Hx) as H1.
        pose proof (unowned_upd_cb x (del_obj o h) b cb cb' Hcb eq_refl
                      ltac:(done) H1) as H2.
        eapply unowned_ext; [| |exact H2]; done.
      + unfold managed in Hm. destruct (impl cb) as [[o'|]|]; simplify_eq.
        * hsimpl. rewrite Hw. reflexivity.
        * unfold GetPtr in *. simplify_eq. hsimpl. rewrite Hw. reflexivity.
    - rewrite (bool_decide_eq_false_2 _ Hz).
      exists (upd_cb b cb' h). split_and!.
      + by apply (obj_inv_upd_cb _ _ cb).
      + hsimpl. rewrite lookup_insert_eq. eauto.
      + intros x Hx. by apply (unowned_upd_cb _ _ _ cb).
      + reflexivity. }
  destruct Hstep1 as (h4 & Hobj4 & Hlive4 & Hun4 & Hrun).
  destruct (destroy_if_unreferenced_total (mret (mkShared None None)) b h4 Hlive4 Hobj4)
    as (h5 & Hobj5 & Hun5 & Htail).
  exists h5. split_and!; [|done|auto].
  revert Hrun Htail. unfold SharedPtr_Zeroing. munfold.
  destruct (RemoveStrongRef b h) as [[[] h2]| |]; [|done..].
  destruct (IsZeroStrongOwning b h2) as [[z h3]| |]; [|done..].
  destruct ((if z then Dispose false b else λ h0, Ok ((), h0)) h3) as [[[] h4']| |];
    [|done..].
  intros [= ->] ->. done.
Qed.

Lemma SharedPtr_from_weak_total h w :
  (∀ b, wp_cblock_ w = Some b → is_Some (cblocks h !! b)) →
  obj_inv h →
  (WeakPtr_Expired w h = Ok (true, h) ∧ SharedPtr_from_weak w h = BadWeakPtr) ∨
  (WeakPtr_Expired w h = Ok (false, h) ∧
   ∃ h', SharedPtr_from_weak w h = Ok (mkShared (wp_ptr_ w) (wp_cblock_ w), h') ∧
         obj_inv h').
Proof.
  intros Hlive Hobj. unfold SharedPtr_from_weak, WeakPtr_Expired, WeakPtr_UseCount.
  destruct (wp_cblock_ w) as [b|] eqn:Hb; [|left; by mrun].
  destruct (Hlive b eq_refl) as (cb & Hcb). mrun. rewrite Hcb. mrun.
  destruct (decide (strong_ref_counter_ cb = 0%Z)) as [Hz|Hz].
  - rewrite (bool_decide_eq_true_2 _ Hz). left. done.
  - rewrite (bool_decide_eq_false_2 _ Hz). right. split; [done|]. mrun.
    rewrite Hcb. mrun. eexists. split; [reflexivity|].
    by apply (obj_inv_upd_cb _ _ cb).
Qed.

Lemma WeakPtr_Lock_total h w :
  (∀ b, wp_cblock_ w = Some b → is_Some (cblocks h !! b)) →
  obj_inv h →
  ∃ s' h', WeakPtr_Lock w h = Ok (s', h') ∧ obj_inv h'.
Proof.
  intros Hlive Hobj. unfold WeakPtr_Lock.
  destruct (SharedPtr_from_weak_total h w Hlive Hobj)
    as [[He _]|[He (h' & Hp & Hobj')]]; munfold; rewrite He.
  - eauto.
  - rewrite Hp. eauto.
Qed.

Lemma obj_inv_new_object h :
  obj_inv h →
  obj_inv (upd_obj (next h) WeakPtr_default (log (EvAlloc Object (next h)) (bump h))).
Proof. intros Hobj. by apply obj_inv_upd_obj, obj_inv_log, obj_inv_bump. Qed.

(** [SharedPtr<T> s(new T)] and [s.Reset(new T)]: the block for a freshly
    allocated object. *)
Lemma obj_inv_adopt_new h :
  fresh h → obj_inv h →
  let h1 := upd_obj (next h) WeakPtr_default (log (EvAlloc Object (next h)) (bump h)) in
  obj_inv (upd_cb (next h1) (mkCB 1 0 (ControlBlockPtr (Some (next h))))
             (log (EvAlloc Block (next h1)) (bump h1))).
Proof.
  intros Hf Hobj h1.
  eapply obj_inv_ext;
    [| |apply (obj_inv_new_block h1 (next h1) (next h)
                 (ControlBlockPtr (Some (next h))) (obj_inv_new_object h Hobj))]; try done.
  - subst h1. hsimpl. by destruct (Hf (S (next h)) ltac:(lia)) as (? & _).
  - subst h1. hsimpl. rewrite lookup_insert_eq. eauto.
  - subst h1. hsimpl. intros b cb Hcb Hnz Hm.
    destruct (Hobj b cb Hcb Hnz) as (o & Ho & [w Hw] & _).
    destruct (Hf (next h) ltac:(lia)) as (_ & Hn & _). congruence.
Qed.

Lemma obj_inv_holder h :
  fresh h → obj_inv h →
  obj_inv (upd_obj (next h) WeakPtr_default
             (upd_cb (next h) (mkCB 1 0 ControlBlockHolder)
                (log (EvAlloc Block (next h)) (bump h)))).
Proof.
  intros Hf Hobj.
  destruct (Hf (next h) ltac:(lia)) as (Hcn & Hon & _).
  eapply obj_inv_ext;
    [| |apply (obj_inv_new_block (upd_obj (next h) WeakPtr_default h) (next h) (next h)
                 ControlBlockHolder (obj_inv_upd_obj _ _ _ Hobj))]; try done.
  - hsimpl. rewrite lookup_insert_eq. eauto.
  - hsimpl. intros b cb Hcb Hnz Hm.
    destruct (Hobj b cb Hcb Hnz) as (o & Ho & [w Hw] & _). congruence.
Qed.

Lemma hinv_live_strong esft pend h sl wl b :
  hinv esft pend h sl wl → 1 ≤ owners b sl →
  ∃ cb, cblocks h !! b = Some cb ∧ strong_ref_counter_ cb ≠ 0%Z.
Proof.
  intros Hinv Hpos. destruct (heap_inv_live _ _ _ _ b Hinv) as [cb Hcb]; [lia|].
  exists cb. split; [done|].
  destruct (heap_inv_strong _ _ _ _ _ _ Hinv Hcb) as [Hs _]. cbn beta in Hs. lia.
Qed.

Lemma hinv_live_weak esft pend h sl wl b :
  hinv esft pend h sl wl → 1 ≤ observers b wl → is_Some (cblocks h !! b).
Proof. intros Hinv Hpos. apply (heap_inv_live _ _ _ _ b Hinv). lia. Qed.

Lemma cfg_shared_live esft n c i s b :
  cfg_ok esft n c → shared c !! i = Some s → sp_cblock_ s = Some b →
  ∃ cb, cblocks (mem c) !! b = Some cb ∧ strong_ref_counter_ cb ≠ 0%Z.
Proof.
  intros Hc Hi Hb. eapply hinv_live_strong; [apply Hc|]. eapply cfg_owned; eauto.
Qed.

Lemma cfg_shared_block esft n c i s b :
  cfg_ok esft n c → shared c !! i = Some s → sp_cblock_ s = Some b →
  is_Some (cblocks (mem c) !! b).
Proof. intros Hc Hi Hb. destruct (cfg_shared_live _ _ _ _ _ _ Hc Hi Hb) as (? & ? & _). eauto. Qed.

Lemma cfg_weak_live esft n c j w b :
  cfg_ok esft n c → weak c !! j = Some w → wp_cblock_ w = Some b →
  is_Some (cblocks (mem c) !! b).
Proof.
  intros Hc Hj Hb. eapply hinv_live_weak; [apply Hc|].
  rewrite (observers_lookup b _ _ _ Hj), Hb, ind_same. lia.
Qed.

Lemma step_total n o c :
  cfg_ok false n c → obj_inv (mem c) → safe_op o = true →
  ∃ c', step false o c = Ok c' ∧ obj_inv (mem c').
Proof.
  intros Hc Hobj Hsafe. pose proof Hc as [Hinv Hn].
  pose proof Hinv as (_ & Hf & _).
  destruct o; cbn [step safe_op] in *; try done.
  - (* SDefault *) eexists. split; [reflexivity|done].
  - (* SAdoptNew *)
    unfold decl_shared, exec, SharedPtr_from_raw. munfold.
    rewrite new_object_eq, new_ControlBlockPtr_eq.
    eexists. split; [reflexivity|]. by apply obj_inv_adopt_new.
  - (* SMakeShared *)
    unfold decl_shared, exec, MakeShared, SharedPtr_from_holder. munfold.
    rewrite new_ControlBlockHolder_eq.
    eexists. split; [reflexivity|]. by apply obj_inv_holder.
  - (* SCopy *)
    destruct (shared c !! i) as [s|] eqn:Hi; [|eauto].
    destruct (add_strong_total (mem c) (sp_cblock_ s)) as (h' & Hadd & Hobj'); [|done|].
    { intros b Hb. eapply cfg_shared_live; eauto. }
    unfold decl_shared, exec, SharedPtr_copy. munfold. cbn [sp_cblock_].
    rewrite Hadd. eauto.
  - (* SMove *)
    destruct (shared c !! i) as [s|] eqn:Hi; [|eauto].
    eexists. split; [reflexivity|done].
  - (* SAlias *)
    destruct (shared c !! i) as [s|] eqn:Hi; [|eauto].
    destruct (add_strong_total (mem c) (sp_cblock_ s)) as (h' & Hadd & Hobj'); [|done|].
    { intros b Hb. eapply cfg_shared_live; eauto. }
    unfold decl_shared, exec, SharedPtr_alias. munfold. cbn [sp_cblock_].
    rewrite Hadd. eauto.
  - (* SPromote *)
    destruct (weak c !! j) as [w|] eqn:Hj; [|eauto].
    destruct (SharedPtr_from_weak_total (mem c) w) as [[_ ->]|[_ (h' & -> & Hobj')]];
      [|done|eauto..].
    intros b Hb. eapply cfg_weak_live; eauto.
  - (* SLock *)
    destruct (weak c !! j) as [w|] eqn:Hj; [|eauto].
    destruct (WeakPtr_Lock_total (mem c) w) as (s' & h' & Hl & Hobj'); [|done|].
    { intros b Hb. eapply cfg_weak_live; eauto. }
    unfold decl_shared, exec. rewrite Hl. eauto.
  - (* SCopyAssign *)
    destruct (shared c !! i) as [this|] eqn:Hi; [|eauto].
    destruct (shared c !! j) as [other|] eqn:Hj; [|eauto].
    destruct (decide (i = j)) as [->|Hne].
    { rewrite bool_decide_eq_true_2 by done. eexists. split; [reflexivity|done]. }
    rewrite bool_decide_eq_false_2 by done.
    destruct (SharedPtr_Release_total (mem c) this) as (h1 & Hrel & Hobj1 & _); [|done|].
    { intros b Hb. eapply (cfg_shared_live _ _ _ i this); eauto. }
    pose proof Hrel as Hrel'.
    eapply SharedPtr_Release_ok in Hrel' as (_ & Hinv1 & _);
      [|eapply cfg_take_shared; eauto].
    destruct (add_strong_total h1 (sp_cblock_ other)) as (h2 & Hadd & Hobj2); [|done|].
    { intros b Hb. eapply hinv_live_strong; [exact Hinv1|].
      eapply owners_delete_other; eauto. }
    unfold upd_shared, exec, SharedPtr_assign_copy. munfold. rewrite Hrel.
    cbn [sp_cblock_]. rewrite Hadd. eauto.
  - (* SMoveAssign *)
    destruct (shared c !! i) as [this|] eqn:Hi; [|eauto].
    destruct (shared c !! j) as [other|] eqn:Hj; [|eauto].
    destruct (decide (i = j)) as [->|Hne].
    { rewrite bool_decide_eq_true_2 by done. eexists. split; [reflexivity|done]. }
    rewrite bool_decide_eq_false_2 by done.
    destruct (SharedPtr_Release_total (mem c) this) as (h1 & Hrel & Hobj1 & _); [|done|].
    { intros b Hb. eapply (cfg_shared_live _ _ _ i this); eauto. }
    unfold exec, SharedPtr_assign_move. munfold. rewrite Hrel. eauto.
  - (* SReset *)
    destruct (shared c !! i) as [s|] eqn:Hi; [|eauto].
    destruct (SharedPtr_Release_total (mem c) s) as (h1 & Hrel & Hobj1 & _); [|done|].
    { intros b Hb. eapply cfg_shared_live; eauto. }
    unfold upd_shared, exec, SharedPtr_Reset. rewrite Hrel. eauto.
  - (* SResetNew *)
    destruct (shared c !! i) as [s|] eqn:Hi; [|eauto].
    set (h1 := upd_obj (next (mem c)) WeakPtr_default
                 (log (EvAlloc Object (next (mem c))) (bump (mem c)))).
    destruct (SharedPtr_Release_total h1 s) as (h2 & Hrel & Hobj2 & Hun2).
    { intros b Hb. eapply cfg_shared_live; eauto. }
    { by apply obj_inv_new_object. }
    pose proof Hrel as Hrel'.
    eapply SharedPtr_Release_ok in Hrel' as (_ & Hinv2 & Hn2);
      [|apply hinv_new_object; eapply cfg_take_shared; eauto].
    unfold upd_shared, exec, SharedPtr_Reset_ptr. munfold.
    rewrite new_object_eq. fold h1. rewrite Hrel, new_ControlBlockPtr_eq.
    eexists. split; [reflexivity|]. cbn [mem].
    destruct (Hun2 (next (mem c))) as [Hlive2 Hunm2].
    { split.
      - subst h1. hsimpl. rewrite lookup_insert_eq. eauto.
      - subst h1. hsimpl. intros b cb Hcb Hnz Hm.
        destruct (Hobj b cb Hcb Hnz) as (o & Ho & [w Hw] & _).
        destruct (Hf (next (mem c)) ltac:(lia)) as (_ & Hnone & _). congruence. }
    destruct Hinv2 as (_ & Hf2 & _).
    eapply obj_inv_ext;
      [| |apply (obj_inv_new_block h2 (next h2) (next (mem c))
                   (ControlBlockPtr (Some (next (mem c)))) Hobj2)]; try done.
    by destruct (Hf2 (next h2) ltac:(lia)) as (? & _).
  - (* SSwap *)
    destruct (shared c !! i) as [this|] eqn:Hi; [|eauto].
    destruct (shared c !! j) as [other|] eqn:Hj; [|eauto].
    eexists. split; [reflexivity|done].
  - (* SDestroy *)
    destruct (shared c !! i) as [s|] eqn:Hi; [|eauto].
    destruct (SharedPtr_Release_total (mem c) s) as (h1 & Hrel & Hobj1 & _); [|done|].
    { intros b Hb. eapply cfg_shared_live; eauto. }
    unfold upd_shared, exec. rewrite Hrel. eauto.
  - (* WDefault *) eexists. split; [reflexivity|done].
  - (* WCopy *)
    destruct (weak c !! j) as [w|] eqn:Hj; [|eauto].
    destruct (add_weak_total (mem c) (wp_cblock_ w)) as (h' & Hadd & Hobj'); [|done|].
    { intros b Hb. eapply cfg_weak_live; eauto. }
    unfold decl_weak, exec, WeakPtr_copy. munfold. cbn [wp_cblock_].
    rewrite Hadd. eauto.
  - (* WMove *)
    destruct (weak c !! j) as [w|] eqn:Hj; [|eauto].
    eexists. split; [reflexivity|done].
  - (* WDemote *)
    destruct (shared c !! i) as [s|] eqn:Hi; [|eauto].
    destruct (add_weak_total (mem c) (sp_cblock_ s)) as (h' & Hadd & Hobj'); [|done|].
    { intros b Hb. eapply cfg_shared_block; eauto. }
    unfold decl_weak, exec, WeakPtr_from_shared. munfold. cbn [wp_cblock_].
    rewrite Hadd. eauto.
  - (* WCopyAssign *)
    destruct (weak c !! j) as [this|] eqn:Hj; [|eauto].
    destruct (weak c !! k) as [other|] eqn:Hk; [|eauto].
    destruct (decide (j = k)) as [->|Hne].
    { rewrite bool_decide_eq_true_2 by done. eexists. split; [reflexivity|done]. }
    rewrite bool_decide_eq_false_2 by done.
    destruct (WeakPtr_Release_total (mem c) this) as (h1 & Hrel & Hobj1); [|done|].
    { intros b Hb. eapply (cfg_weak_live _ _ _ j this); eauto. }
    pose proof Hrel as Hrel'.
    eapply WeakPtr_Release_ok in Hrel' as (_ & Hinv1 & _);
      [|eapply cfg_take_weak; eauto].
    destruct (add_weak_total h1 (wp_cblock_ other)) as (h2 & Hadd & Hobj2); [|done|].
    { intros b Hb. eapply hinv_live_weak; [exact Hinv1|].
      pose proof (observers_insert b _ _ _ (mkWeak None None) Hj) as E1.
      assert (Hk' : <[j := mkWeak None None]> (weak c) !! k = Some other)
        by (by rewrite list_lookup_insert_ne).
      pose proof (observers_lookup b _ _ _ Hk') as E2.
      rewrite Hb, ind_same in E2. cbn [wp_cblock_] in E1. rewrite ind_None in E1. lia. }
    unfold upd_weak, exec, WeakPtr_assign_copy. munfold. rewrite Hrel.
    cbn [wp_cblock_]. rewrite Hadd. eauto.
  - (* WAssignShared *)
    destruct (weak c !! j) as [this|] eqn:Hj; [|eauto].
    destruct (shared c !! i) as [other|] eqn:Hi; [|eauto].
    destruct (WeakPtr_Release_total (mem c) this) as (h1 & Hrel & Hobj1); [|done|].
    { intros b Hb. eapply (cfg_weak_live _ _ _ j this); eauto. }
    pose proof Hrel as Hrel'.
    eapply WeakPtr_Release_ok in Hrel' as (_ & Hinv1 & _);
      [|eapply cfg_take_weak; eauto].
    destruct (add_weak_total h1 (sp_cblock_ other)) as (h2 & Hadd & Hobj2); [|done|].
    { intros b Hb. destruct (hinv_live_strong _ _ _ _ _ b Hinv1) as (cb & Hcb & _).
      - eapply cfg_owned; eauto.
      - eauto. }
    unfold upd_weak, exec, WeakPtr_assign_shared. munfold. rewrite Hrel.
    cbn [wp_cblock_]. rewrite Hadd. eauto.
  - (* WMoveAssign *)
    destruct (weak c !! j) as [this|] eqn:Hj; [|eauto].
    destruct (weak c !! k) as [other|] eqn:Hk; [|eauto].
    destruct (decide (j = k)) as [->|Hne].
    { rewrite bool_decide_eq_true_2 by done. eexists. split; [reflexivity|done]. }
    rewrite bool_decide_eq_false_2 by done.
    destruct (WeakPtr_Release_total (mem c) this) as (h1 & Hrel & Hobj1); [|done|].
    { intros b Hb. eapply (cfg_weak_live _ _ _ j this); eauto. }
    unfold exec, WeakPtr_assign_move. munfold. rewrite Hrel. eauto.
  - (* WReset *)
    destruct (weak c !! j) as [w|] eqn:Hj; [|eauto].
    destruct (WeakPtr_Release_total (mem c) w) as (h1 & Hrel & Hobj1); [|done|].
    { intros b Hb. eapply cfg_weak_live; eauto. }
    unfold upd_weak, exec, WeakPtr_Reset. rewrite Hrel. eauto.
  - (* WSwap *)
    destruct (weak c !! j) as [this|] eqn:Hj; [|eauto].
    destruct (weak c !! k) as [other|] eqn:Hk; [|eauto].
    eexists. split; [reflexivity|done].
  - (* WDestroy *)
    destruct (weak c !! j) as [w|] eqn:Hj; [|eauto].
    destruct (WeakPtr_Release_total (mem c) w) as (h1 & Hrel & Hobj1); [|done|].
    { intros b Hb. eapply cfg_weak_live; eauto. }
    unfold upd_weak, exec. rewrite Hrel. eauto.
Qed.

(** * Blocks that no handle references are never touched *)

Lemma frame_refl b h : frame b h h.
Proof. by split_and!. Qed.

Lemma frame_trans b h1 h2 h3 : frame b h1 h2 → frame b h2 h3 → frame b h1 h3.
Proof. intros (?&?&?&?) (?&?&?&?). split_and!; [congruence..|lia]. Qed.

Lemma frame_upd_cb b x cb h : x ≠ b → frame b h (upd_cb x cb h).
Proof. intros Hne. split_and!; try done. hsimpl. by rewrite lookup_insert_ne. Qed.

Lemma frame_del_cb b x h : x ≠ b → frame b h (del_cb x h).
Proof. intros Hne. split_and!; try done. hsimpl. by rewrite lookup_delete_ne. Qed.

Lemma frame_log b e h : e ≠ EvDispose b → e ≠ EvDestroy b → frame b h (log e h).
Proof. intros H1 H2. split_and!; try done; hsimpl; by evsimpl. Qed.

Lemma frame_bump b h : frame b h (bump h).
Proof. split_and!; try done. hsimpl. lia. Qed.

Lemma refs_none_upd_obj b o w h :
  w_off b w → refs_none b h → refs_none b (upd_obj o w h).
Proof.
  intros Hw Hr o' w'. hsimpl. destruct (decide (o' = o)) as [->|Hne].
  - rewrite lookup_insert_eq. by intros [= <-].
  - rewrite lookup_insert_ne by done. apply Hr.
Qed.

Lemma refs_none_del_obj b o h : refs_none b h → refs_none b (del_obj o h).
Proof. intros Hr o' w'. hsimpl. intros [_ ?]%lookup_delete_Some. eauto. Qed.

Section leaves.
Context (b : addr).

Lemma leaves_ret {A} (P : A → Prop) a : P a → leaves b P (mret a).
Proof. intros HP h r h' Hr _ [-> ->]%ret_Ok. split_and!; [apply frame_refl|done..]. Qed.

Lemma leaves_bind {A B} (Q : A → Prop) (P : B → Prop) (m : M A) (f : A → M B) :
  leaves b Q m → (∀ a, Q a → leaves b P (f a)) → leaves b P (m ≫= f).
Proof.
  intros Hm Hf h r h' Hr Hlt (a & h1 & H1 & H2)%bind_Ok.
  destruct (Hm _ _ _ Hr Hlt H1) as (Hf1 & Hr1 & HQ).
  destruct (Hf a HQ h1 r h' Hr1) as (Hf2 & Hr2 & HP); [|done|].
  { destruct Hf1 as (_ & _ & _ & ?). lia. }
  split_and!; [by eapply frame_trans|done..].
Qed.

Lemma leaves_fail {A} (P : A → Prop) u : leaves b P (fail u).
Proof. by intros h r h' _ _ ?. Qed.

Lemma leaves_throw {A} (P : A → Prop) : leaves b P throw_BadWeakPtr.
Proof. by intros h r h' _ _ ?. Qed.

Lemma leaves_load_cb x : leaves b (λ _, True) (load_cb x).
Proof. intros h r h' Hr _ [_ ->]%load_cb_Ok. split_and!; [apply frame_refl|done..]. Qed.

Lemma leaves_store_cb x cb : x ≠ b → leaves b (λ _, True) (store_cb x cb).
Proof.
  intros Hne h r h' Hr _ [= <- <-]. split_and!; [by apply frame_upd_cb|done..].
Qed.

Lemma leaves_free_cb x : x ≠ b → leaves b (λ _, True) (free_cb x).
Proof.
  intros Hne h r h' Hr _ [= <- <-]. split_and!; [by apply frame_del_cb|done..].
Qed.

Lemma leaves_load_obj p : leaves b (w_off b) (load_obj p).
Proof.
  intros h r h' Hr _ (o & -> & Ho & ->)%load_obj_Ok.
  split_and!; [apply frame_refl|done|by eapply Hr].
Qed.

Lemma leaves_store_obj o w : w_off b w → leaves b (λ _, True) (store_obj o w).
Proof.
  intros Hw h r h' Hr _ [= <- <-].
  split_and!; [by split_and!|by apply refs_none_upd_obj|done].
Qed.

Lemma leaves_free_obj o : leaves b (λ _, True) (free_obj o).
Proof.
  intros h r h' Hr _ [= <- <-].
  split_and!; [by split_and!|by apply refs_none_del_obj|done].
Qed.

Lemma leaves_emit e :
  e ≠ EvDispose b → e ≠ EvDestroy b → leaves b (λ _, True) (emit e).
Proof. intros H1 H2 h r h' Hr _ [= <- <-]. split_and!; [by apply frame_log|done..]. Qed.

Lemma leaves_alloc k : leaves b (λ a, a ≠ b) (alloc k).
Proof.
  intros h r h' Hr Hlt [= <- <-]. split_and!; [|done|lia].
  eapply frame_trans; [apply frame_bump|]. by apply frame_log.
Qed.

End leaves.

Create HintDb leaves.

(** The frame argument, by the shape of the computation. *)
Ltac lv_side :=
  first [done | congruence
        | by unfold s_off, w_off in *; subst; cbn in *; first [congruence | intuition congruence]].
Ltac lv :=
  cbn beta zeta;
  lazymatch goal with
  | |- leaves _ ?P (mret _) =>
      tryif is_evar P then apply (leaves_ret _ (λ _, True)); exact I
      else (apply leaves_ret; cbn; try lv_side)
  | |- leaves _ _ (_ ≫= _) => eapply leaves_bind; [lv | intros ? ?; lv]
  | |- leaves _ _ (fail _) => apply leaves_fail
  | |- leaves _ _ throw_BadWeakPtr => apply leaves_throw
  | |- leaves _ _ (load_cb _) => apply leaves_load_cb
  | |- leaves _ _ (store_cb _ _) => apply leaves_store_cb; lv_side
  | |- leaves _ _ (free_cb _) => apply leaves_free_cb; lv_side
  | |- leaves _ _ (load_obj _) => apply leaves_load_obj
  | |- leaves _ _ (store_obj _ _) => apply leaves_store_obj; lv_side
  | |- leaves _ _ (free_obj _) => apply leaves_free_obj
  | |- leaves _ _ (emit _) => apply leaves_emit; lv_side
  | |- leaves _ _ (alloc _) => apply leaves_alloc
  | |- leaves _ _ (if ?c then _ else _) => destruct c; lv
  | |- leaves _ _ (match ?c with _ => _ end) => destruct c eqn:?; lv
  | _ => first [solve [eauto 2 with leaves] | idtac]
  end.

Section leaves_methods.
Context (b : addr).

Lemma leaves_GetStrongRefsCount x : leaves b (λ _, True) (GetStrongRefsCount x).
Proof. unfold GetStrongRefsCount. lv. Qed.

Lemma leaves_AddStrongRef x : x ≠ b → leaves b (λ _, True) (AddStrongRef x).
Proof. intros. unfold AddStrongRef. lv. Qed.

Lemma leaves_RemoveStrongRef x : x ≠ b → leaves b (λ _, True) (RemoveStrongRef x).
Proof. intros. unfold RemoveStrongRef. lv. Qed.

Lemma leaves_AddWeakRef x : x ≠ b → leaves b (λ _, True) (AddWeakRef x).
Proof. intros. unfold AddWeakRef. lv. Qed.

Lemma leaves_RemoveWeakRef x : x ≠ b → leaves b (λ _, True) (RemoveWeakRef x).
Proof. intros. unfold RemoveWeakRef. lv. Qed.

Lemma leaves_IsZeroStrongOwning x : leaves b (λ _, True) (IsZeroStrongOwning x).
Proof. unfold IsZeroStrongOwning. lv. Qed.

Lemma leaves_IsZeroWeakOwning x : leaves b (λ _, True) (IsZeroWeakOwning x).
Proof. unfold IsZeroWeakOwning. lv. Qed.

Lemma leaves_Destroy x : x ≠ b → leaves b (λ _, True) (Destroy x).
Proof. intros. unfold Destroy. lv. Qed.

#[local] Hint Resolve leaves_GetStrongRefsCount leaves_AddStrongRef
  leaves_RemoveStrongRef leaves_AddWeakRef leaves_RemoveWeakRef
  leaves_IsZeroStrongOwning leaves_IsZeroWeakOwning leaves_Destroy : leaves.
#[local] Hint Extern 1 (_ ≠ _) => lv_side : leaves.
#[local] Hint Extern 1 (s_off _ _) => lv_side : leaves.
#[local] Hint Extern 1 (w_off _ _) => lv_side : leaves.

Lemma leaves_WeakPtr_Release w :
  w_off b w → leaves b (λ w', w' = mkWeak None None) (WeakPtr_Release w).
Proof. intros. unfold WeakPtr_Release, WeakPtr_Zeroing. lv. Qed.

#[local] Hint Resolve leaves_WeakPtr_Release : leaves.

Lemma leaves_WeakPtr_Expired w : leaves b (λ _, True) (WeakPtr_Expired w).
Proof. unfold WeakPtr_Expired, WeakPtr_UseCount. lv. Qed.

#[local] Hint Resolve leaves_WeakPtr_Expired : leaves.

Lemma leaves_WeakPtr_copy w : w_off b w → leaves b (w_off b) (WeakPtr_copy w).
Proof. intros. unfold WeakPtr_copy. lv. Qed.

Lemma leaves_WeakPtr_move w :
  w_off b w → leaves b (λ r, w_off b r.1 ∧ w_off b r.2) (WeakPtr_move w).
Proof. intros. unfold WeakPtr_move, WeakPtr_Zeroing. lv. Qed.

Lemma leaves_WeakPtr_from_shared s :
  s_off b s → leaves b (w_off b) (WeakPtr_from_shared s).
Proof. intros. unfold WeakPtr_from_shared. lv. Qed.

Lemma leaves_WeakPtr_assign_copy self this other :
  w_off b this → w_off b other →
  leaves b (w_off b) (WeakPtr_assign_copy self this other).
Proof. intros. unfold WeakPtr_assign_copy. lv. Qed.

Lemma leaves_WeakPtr_assign_shared this other :
  w_off b this → s_off b other →
  leaves b (w_off b) (WeakPtr_assign_shared this other).
Proof. intros. unfold WeakPtr_assign_shared. lv. Qed.

#[local] Hint Resolve leaves_WeakPtr_assign_shared : leaves.

Lemma leaves_WeakPtr_assign_move self this other :
  w_off b this → w_off b other →
  leaves b (λ r, w_off b r.1 ∧ w_off b r.2) (WeakPtr_assign_move self this other).
Proof. intros. unfold WeakPtr_assign_move, WeakPtr_Zeroing. lv. Qed.

Lemma leaves_new_object : leaves b (λ _, True) new_object.
Proof. unfold new_object, WeakPtr_default. lv. Qed.

Lemma leaves_destroy_object esft p : leaves b (λ _, True) (destroy_object esft p).
Proof. unfold destroy_object. lv. Qed.

#[local] Hint Resolve leaves_destroy_object : leaves.

Lemma leaves_Dispose esft x : x ≠ b → leaves b (λ _, True) (Dispose esft x).
Proof. intros. unfold Dispose. lv. Qed.

#[local] Hint Resolve leaves_Dispose : leaves.

Lemma leaves_new_ControlBlockPtr p : leaves b (λ a, a ≠ b) (new_ControlBlockPtr p).
Proof. unfold new_ControlBlockPtr. lv. Qed.

Lemma leaves_new_ControlBlockHolder : leaves b (λ a, a ≠ b) new_ControlBlockHolder.
Proof. unfold new_ControlBlockHolder, WeakPtr_default. lv. Qed.

#[local] Hint Resolve leaves_new_ControlBlockPtr leaves_new_ControlBlockHolder : leaves.

Lemma leaves_set_weak_this p this :
  s_off b this → leaves b (λ _, True) (set_weak_this p this).
Proof. intros. unfold set_weak_this. lv. Qed.

#[local] Hint Resolve leaves_set_weak_this : leaves.

Lemma leaves_SharedPtr_from_raw esft p : leaves b (s_off b) (SharedPtr_from_raw esft p).
Proof. unfold SharedPtr_from_raw. lv. Qed.

Lemma leaves_SharedPtr_copy esft s :
  s_off b s → leaves b (s_off b) (SharedPtr_copy esft s).
Proof. intros. unfold SharedPtr_copy. lv. Qed.

Lemma leaves_SharedPtr_move esft s :
  s_off b s → leaves b (λ r, s_off b r.1 ∧ s_off b r.2) (SharedPtr_move esft s).
Proof. intros. unfold SharedPtr_move, SharedPtr_Zeroing. lv. Qed.

Lemma leaves_SharedPtr_from_holder esft x :
  x ≠ b → leaves b (s_off b) (SharedPtr_from_holder esft x).
Proof. intros. unfold SharedPtr_from_holder. lv. Qed.

#[local] Hint Resolve leaves_SharedPtr_from_holder : leaves.

Lemma leaves_SharedPtr_alias s p : s_off b s → leaves b (s_off b) (SharedPtr_alias s p).
Proof. intros. unfold SharedPtr_alias. lv. Qed.

Lemma leaves_SharedPtr_from_weak w :
  w_off b w → leaves b (s_off b) (SharedPtr_from_weak w).
Proof. intros. unfold SharedPtr_from_weak. lv. Qed.

#[local] Hint Resolve leaves_SharedPtr_from_weak : leaves.

Lemma leaves_SharedPtr_Release esft s :
  s_off b s → leaves b (λ s', s' = mkShared None None) (SharedPtr_Release esft s).
Proof. intros. unfold SharedPtr_Release, SharedPtr_Zeroing, WeakPtr_Reset. lv. Qed.

#[local] Hint Resolve leaves_SharedPtr_Release : leaves.

Lemma leaves_SharedPtr_assign_copy esft self this other :
  s_off b this → s_off b other →
  leaves b (s_off b) (SharedPtr_assign_copy esft self this other).
Proof. intros. unfold SharedPtr_assign_copy. lv. Qed.

Lemma leaves_SharedPtr_assign_move esft self this other :
  s_off b this → s_off b other →
  leaves b (λ r, s_off b r.1 ∧ s_off b r.2)
    (SharedPtr_assign_move esft self this other).
Proof. intros. unfold SharedPtr_assign_move, SharedPtr_Zeroing. lv. Qed.

Lemma leaves_SharedPtr_Reset_ptr esft s p :
  s_off b s → leaves b (s_off b) (SharedPtr_Reset_ptr esft s p).
Proof. intros. unfold SharedPtr_Reset_ptr. lv. Qed.

Lemma leaves_MakeShared esft : leaves b (s_off b) (MakeShared esft).
Proof. unfold MakeShared. lv. Qed.

Lemma leaves_WeakPtr_Lock w : w_off b w → leaves b (s_off b) (WeakPtr_Lock w).
Proof. intros. unfold WeakPtr_Lock, SharedPtr_default. lv. Qed.

#[local] Hint Resolve leaves_WeakPtr_Lock leaves_WeakPtr_copy : leaves.

Lemma leaves_SharedFromThis p : leaves b (s_off b) (SharedFromThis p).
Proof. unfold SharedFromThis. lv. Qed.

Lemma leaves_WeakFromThis p : leaves b (w_off b) (WeakFromThis p).
Proof. unfold WeakFromThis. lv. Qed.

End leaves_methods.

Lemma exec_leaves {A} b c (m : M A) (k : A → Heap → config) (P : A → Prop) c' :
  isolated b c → leaves b P m →
  (∀ a h, P a → Forall (s_off b) (shared (k a h)) ∧ Forall (w_off b) (weak (k a h)) ∧
              mem (k a h) = h) →
  exec c m k = Ok c' →
  isolated b c' ∧ frame b (mem c) (mem c').
Proof.
  intros [(Hs & Hw & Hr) Hlt] Hm Hk (a & h' & Hrun & ->)%exec_Ok.
  destruct (Hm _ _ _ Hr Hlt Hrun) as (Hf & Hr' & HP).
  destruct (Hk a h' HP) as (Hs' & Hw' & Hmem).
  unfold isolated, unreferenced. rewrite Hmem.
  split_and!; try done. destruct Hf as (_ & _ & _ & ?). lia.
Qed.

Lemma step_leaves esft b o c c' :
  isolated b c → step esft o c = Ok c' →
  isolated b c' ∧ frame b (mem c) (mem c').
Proof.
  intros Hi Hstep. pose proof Hi as [(Hs & Hw & Hr) Hlt].
  assert (Hsl : ∀ i s, shared c !! i = Some s → s_off b s).
  { intros i s. by apply Forall_lookup_1. }
  assert (Hwl : ∀ j w, weak c !! j = Some w → w_off b w).
  { intros j w. by apply Forall_lookup_1. }
  assert (Hid : isolated b c ∧ frame b (mem c) (mem c)) by (split; [done|apply frame_refl]).
  destruct o; cbn [step] in Hstep;
    repeat match type of Hstep with
    | context [shared c !! ?i] =>
        let s := fresh "s" in let E := fresh "E" in
        destruct (shared c !! i) as [s|] eqn:E;
        [apply Hsl in E|by simplify_eq]
    | context [weak c !! ?j] =>
        let w := fresh "w" in let E := fresh "E" in
        destruct (weak c !! j) as [w|] eqn:E;
        [apply Hwl in E|by simplify_eq]
    end;
    unfold decl_shared, decl_weak, upd_shared, upd_weak in Hstep.
  all: try (eapply exec_leaves in Hstep; [exact Hstep|done| |];
            [first [ by apply (leaves_ret b (s_off b)) | by apply (leaves_ret b (w_off b))
                   | eapply leaves_bind;
                       [apply leaves_new_object
                       |intros ? _; first [apply leaves_SharedPtr_from_raw
                                          |by apply leaves_SharedPtr_Reset_ptr]]
                   | apply leaves_SharedPtr_from_raw | apply leaves_MakeShared
                   | by apply leaves_SharedPtr_copy | by apply leaves_SharedPtr_move
                   | by apply leaves_SharedPtr_alias | by apply leaves_WeakPtr_Lock
                   | apply leaves_SharedFromThis | by apply leaves_SharedPtr_assign_copy
                   | by apply leaves_SharedPtr_assign_move
                   | by apply leaves_SharedPtr_Release
                   | by apply leaves_SharedPtr_Reset_ptr
                   | by apply leaves_WeakPtr_copy | by apply leaves_WeakPtr_move
                   | by apply leaves_WeakPtr_from_shared | apply leaves_WeakFromThis
                   | by apply leaves_WeakPtr_assign_copy
                   | by apply leaves_WeakPtr_assign_shared
                   | by apply leaves_WeakPtr_assign_move
                   | by apply leaves_WeakPtr_Release ]
            | cbn; intros ? ? ?; split_and!; [..|done];
              repeat first [done | apply Forall_app_2 | apply Forall_insert
                           | apply Forall_cons_2 | apply Forall_nil_2
                           | lv_side ] ]).
  - (* SPromote *)
    destruct (SharedPtr_from_weak w (mem c)) as [[s h]| |] eqn:Hp; simplify_eq; [|done].
    destruct (leaves_SharedPtr_from_weak b w E _ _ _ Hr Hlt Hp) as (Hf & Hr' & Hs').
    split; [|done]. split; [split_and!; cbn; [|done..]|].
    + apply Forall_app_2; [done|by constructor].
    + cbn. destruct Hf as (_ & _ & _ & ?). lia.
  - (* SSwap *)
    simplify_eq. split; [|apply frame_refl]. split; [split_and!; cbn; [|done..]|done].
    by repeat apply Forall_insert.
  - (* WSwap *)
    simplify_eq. split; [|apply frame_refl]. split; [split_and!; cbn; [done| |done]|done].
    by repeat apply Forall_insert.
Qed.

Lemma run_leaves esft b prog c c' :
  isolated b c → run esft prog c = Ok c' →
  isolated b c' ∧ frame b (mem c) (mem c').
Proof.
  revert c. induction prog as [|o prog IH]; intros c Hi; cbn [run].
  - intros [= <-]. split; [done|apply frame_refl].
  - destruct (step esft o c) as [c1| |] eqn:Hstep; [|done..]. intros Hrun.
    destruct (step_leaves _ _ _ _ _ Hi Hstep) as [Hi1 Hf1].
    destruct (IH _ Hi1 Hrun) as [Hi' Hf']. split; [done|by eapply frame_trans].
Qed.
(** * Whole programs *)

Lemma run_ok esft prog :
  ∀ n c c',
    cfg_ok esft n c →
    Forall (λ o, adopts_null o = false) prog →
    (Z.of_nat n + 3 * Z.of_nat (length prog) + 1 < size_t_modulus)%Z →
    run esft prog c = Ok c' →
    cfg_ok esft (n + 3 * length prog) c'.
Proof.
  induction prog as [|o prog IH]; intros n c c' Hc Hnull Hlt Hrun.
  - cbn in Hrun. injection Hrun as <-. eapply cfg_ok_mono; [|exact Hc]. lia.
  - cbn [run] in Hrun. cbn [length] in *.
    apply Forall_cons in Hnull as [Ho Hnull].
    destruct (step esft o c) as [c1| |] eqn:Hstep; [|done..].
    eapply step_ok in Hstep; [|exact Hc|lia|exact Ho].
    eapply cfg_ok_mono; [|eapply IH; [exact Hstep|exact Hnull| |exact Hrun]]; lia.
Qed.

Lemma init_ok esft : cfg_ok esft 0 init.
Proof.
  split; [|cbn; lia]. split_and!.
  - intros b. unfold block_ok. cbn. rewrite lookup_empty.
    unfold self_observers. rewrite map_to_list_empty. cbn.
    destruct esft; cbn; split_and!; done || lia.
  - intros a _. cbn. rewrite !lookup_empty. done.
  - done.
Qed.

Lemma cfg_ok_lifecycle esft n c b :
  cfg_ok esft n c →
  n_created b (trace (mem c)) ≤ 1 ∧
  (n_created b (trace (mem c)) = 1 → lifecycle_ok esft c b) ∧
  (is_Some (cblocks (mem c) !! b) → n_created b (trace (mem c)) = 1) ∧
  ordered (trace (mem c)).
Proof.
  intros [(Hb & _ & Ho) _]. specialize (Hb b). unfold block_ok, lifecycle_ok in *.
  cbn beta zeta in *.
  destruct (cblocks (mem c) !! b) as [cb|].
  - destruct Hb as (? & ? & ? & ? & [[]|?] & Hcr & ? & ?).
    split_and!; try done; lia.
  - destruct Hb as (? & ? & ? & ? & ?).
    split_and!; try done; try lia.
Qed.

Lemma safe_op_no_null o : safe_op o = true → adopts_null o = false.
Proof. by destruct o. Qed.

Lemma init_obj_inv : obj_inv (mem init).
Proof. intros b cb Hcb. cbn in Hcb. by rewrite lookup_empty in Hcb. Qed.

Lemma run_total prog :
  ∀ n c,
    cfg_ok false n c → obj_inv (mem c) →
    Forall (λ o, safe_op o = true) prog →
    (Z.of_nat n + 3 * Z.of_nat (length prog) + 1 < size_t_modulus)%Z →
    ∃ c', run false prog c = Ok c'.
Proof.
  induction prog as [|o prog IH]; intros n c Hc Hobj Hsafe Hlt.
  - by exists c.
  - cbn [run length] in *. apply Forall_cons in Hsafe as [Ho Hsafe].
    destruct (step_total n o c Hc Hobj Ho) as (c1 & Hstep & Hobj1). rewrite Hstep.
    eapply step_ok in Hstep; [|exact Hc|lia|by apply safe_op_no_null].
    eapply (IH (n + 3)); [done..|lia].
Qed.

(** C1, for programs that adopt no null raw pointer: whenever the
    execution of such a program is defined, then at the end (hence at every
    point of the run, each prefix being such a program) and for every
    control block that was created: the block is still allocated exactly
    while some strong or weak handle references it, with its two counters
    equal to the numbers of such handles; [Dispose] has run exactly once if
    no strong handle is left and not at all otherwise; once no handle is
    left [Dispose] and [Destroy] have each run exactly once; and in the
    trace every [Destroy] comes after the [Dispose] of the same block.  For
    a type without the self-reference capability the execution is always
    defined, provided the program adopts only objects it has just
    allocated. *)
Theorem lifecycle_without_null_adoption (esft : bool) (prog : list op) :
  Forall (λ o, adopts_null o = false) prog →
  (3 * Z.of_nat (length prog) + 1 < size_t_modulus)%Z →
  (∀ c b,
     run esft prog init = Ok c →
     n_created b (trace (mem c)) ≤ 1 ∧
     (n_created b (trace (mem c)) = 1 → lifecycle_ok esft c b) ∧
     (is_Some (cblocks (mem c) !! b) → n_created b (trace (mem c)) = 1) ∧
     ordered (trace (mem c))) ∧
  (esft = false → Forall (λ o, safe_op o = true) prog →
   ∃ c, run esft prog init = Ok c).
Proof.
  intros Hnull Hlt. split.
  - intros c b Hrun.
    eapply cfg_ok_lifecycle, run_ok; [apply init_ok|exact Hnull| |exact Hrun]. lia.
  - intros -> Hsafe.
    eapply (run_total prog 0); [apply init_ok|apply init_obj_inv|done|lia].
Qed.

Lemma lifecycle_without_null_adoption_witness :
  (∀ c b,
     run true demo_prog init = Ok c →
     n_created b (trace (mem c)) ≤ 1 ∧
     (n_created b (trace (mem c)) = 1 → lifecycle_ok true c b) ∧
     (is_Some (cblocks (mem c) !! b) → n_created b (trace (mem c)) = 1) ∧
     ordered (trace (mem c))) ∧
  (true = false → Forall (λ o, safe_op o = true) demo_prog →
   ∃ c, run true demo_prog init = Ok c).
Proof.
  apply (lifecycle_without_null_adoption true demo_prog).
  - unfold demo_prog. repeat constructor.
  - unfold size_t_modulus. cbn. lia.
Defined.

(** The sample program runs to the end, for both kinds of element type:
    the one block it creates is disposed of, then destroyed. *)
Example demo_prog_runs (esft : bool) :
  ∃ c,
    run esft demo_prog init = Ok c ∧
    cblocks (mem c) !! 0 = None ∧
    trace (mem c) = [EvDestroy 0; EvDispose 0; EvAlloc Block 0].
Proof. destruct esft; eexists; (split; [vm_compute; reflexivity|]); by vm_compute. Qed.

(** C1 does not extend to null adoption: after a null raw pointer has been
    adopted and the handle destroyed, no handle references the control
    block, yet the block is still allocated, with strong counter
    [2^64 - 1], and neither [Dispose] nor [Destroy] has run. *)
Lemma lifecycle_fails_for_null_adoption :
  ∃ c,
    run false null_prog init = Ok c ∧
    n_created 0 (trace (mem c)) = 1 ∧
    owners 0 (shared c) = 0 ∧
    observers 0 (weak c) + self_observers false 0 (objects (mem c)) = 0 ∧
    cblocks (mem c) !! 0 = Some (mkCB (2 ^ 64 - 1) 0 (ControlBlockPtr None)) ∧
    n_dispose 0 (trace (mem c)) = 0 ∧
    n_destroy 0 (trace (mem c)) = 0 ∧
    ¬ lifecycle_ok false c 0.
Proof.
  eexists. split; [vm_compute; reflexivity|].
  split_and!; try (vm_compute; reflexivity).
  unfold lifecycle_ok. vm_compute. intros (H & _). discriminate H.
Qed.

(** In a well-formed configuration [UseCount()] of a handle with a control
    block is the number of [SharedPtr] variables that reference the block,
    which is at least one. *)
Lemma cfg_UseCount esft n c i s b :
  cfg_ok esft n c → shared c !! i = Some s → sp_cblock_ s = Some b →
  SharedPtr_UseCount s (mem c) = Ok (Z.of_nat (owners b (shared c)), mem c) ∧
  1 ≤ owners b (shared c).
Proof.
  intros Hc Hi Hb.
  pose proof (cfg_take_shared _ _ _ _ _ Hc Hi) as Hinv.
  destruct (hinv_owned _ _ _ _ _ _ _ Hinv Hb) as (cb & Hcb & Hs).
  split; [|by eapply cfg_owned].
  unfold SharedPtr_UseCount, GetStrongRefsCount, load_cb. rewrite Hb. munfold.
  rewrite Hcb, Hs. do 3 f_equal.
  rewrite (owners_lookup b _ _ _ Hi), Hb, ind_same. lia.
Qed.

(** C2, for programs that adopt no null raw pointer: after any sequence of
    statements (copies, moves, assignments, resets, destructions and the
    rest) whose execution is defined, hence after each statement of it,
    [UseCount()] of every handle that has a control block is the number of
    [SharedPtr] variables that currently reference that block.  For a type
    without the self-reference capability the execution is always defined,
    provided the program adopts only objects it has just allocated. *)
Theorem UseCount_is_number_of_owners (esft : bool) (prog : list op) :
  Forall (λ o, adopts_null o = false) prog →
  (3 * Z.of_nat (length prog) + 1 < size_t_modulus)%Z →
  (∀ c i s b,
     run esft prog init = Ok c →
     shared c !! i = Some s →
     sp_cblock_ s = Some b →
     SharedPtr_UseCount s (mem c) = Ok (Z.of_nat (owners b (shared c)), mem c)) ∧
  (esft = false → Forall (λ o, safe_op o = true) prog →
   ∃ c, run esft prog init = Ok c).
Proof.
  intros Hnull Hlt. split.
  - intros c i s b Hrun Hi Hb.
    assert (cfg_ok esft (0 + 3 * length prog) c) as Hc.
    { eapply run_ok; [apply init_ok|exact Hnull| |exact Hrun]. lia. }
    by destruct (cfg_UseCount _ _ _ _ _ _ Hc Hi Hb).
  - intros -> Hsafe.
    eapply (run_total prog 0); [apply init_ok|apply init_obj_inv|done|lia].
Qed.

Lemma UseCount_is_number_of_owners_witness :
  (∀ c i s b,
     run false copy_move_reset_prog init = Ok c →
     shared c !! i = Some s →
     sp_cblock_ s = Some b →
     SharedPtr_UseCount s (mem c) = Ok (Z.of_nat (owners b (shared c)), mem c)) ∧
  (false = false → Forall (λ o, safe_op o = true) copy_move_reset_prog →
   ∃ c, run false copy_move_reset_prog init = Ok c).
Proof.
  apply (UseCount_is_number_of_owners false copy_move_reset_prog).
  - unfold copy_move_reset_prog. repeat constructor.
  - unfold size_t_modulus. cbn. lia.
Defined.

(** C2 does not extend to null adoption: the control block of a handle
    that adopted a null raw pointer starts with strong count 0, so after
    one copy two [SharedPtr] variables reference the block and
    [UseCount()] of both is 1. *)
Lemma UseCount_fails_for_null_adoption :
  ∃ c,
    run false null_copy_prog init = Ok c ∧
    shared c = [mkShared None (Some 0); mkShared None (Some 0)] ∧
    owners 0 (shared c) = 2 ∧
    SharedPtr_UseCount (mkShared None (Some 0)) (mem c) = Ok (1%Z, mem c) ∧
    SharedPtr_UseCount (mkShared None (Some 0)) (mem c)
      ≠ Ok (Z.of_nat (owners 0 (shared c)), mem c).
Proof.
  eexists. split; [vm_compute; reflexivity|].
  split_and!; try (vm_compute; reflexivity).
  vm_compute. intros [=].
Qed.

(** The sample program ends with two owners, and [UseCount()] is 2. *)
Example copy_move_reset_runs :
  ∃ c,
    run false copy_move_reset_prog init = Ok c ∧
    shared c = [mkShared (Some 0) (Some 0); SharedPtr_default; SharedPtr_default;
                SharedPtr_default; mkShared (Some 0) (Some 0)] ∧
    SharedPtr_UseCount (mkShared (Some 0) (Some 0)) (mem c) = Ok (2%Z, mem c).
Proof. eexists. split; [vm_compute; reflexivity|]. by vm_compute. Qed.

Lemma weak_release_heap_keeps b cb h bw cbw :
  cblocks h !! b = Some cb → strong_ref_counter_ cb ≠ 0%Z →
  cblocks h !! bw = Some cbw →
  n_dispose b (trace (weak_release_heap bw cbw h)) = n_dispose b (trace h) ∧
  ∃ cb', cblocks (weak_release_heap bw cbw h) !! b = Some cb' ∧
    strong_ref_counter_ cb' = strong_ref_counter_ cb.
Proof.
  intros Hcb Hnz Hbw. unfold weak_release_heap.
  destruct (decide (bw = b)) as [->|Hne].
  - simplify_eq. rewrite decide_False by tauto. hsimpl.
    rewrite lookup_insert_eq. eauto.
  - case_decide; hsimpl.
    + rewrite lookup_delete_ne by done. evsimpl. eauto.
    + rewrite lookup_insert_ne by done. eauto.
Qed.

(** A live object's [weak_this_] counts among the observers of its block. *)
Lemma self_observers_pos h o w bw :
  objects h !! o = Some w → wp_cblock_ w = Some bw →
  1 ≤ self_observers true bw (objects h).
Proof.
  intros Ho Hw. rewrite (self_observers_delete true bw _ _ _ Ho).
  unfold eind. rewrite Hw, ind_same. lia.
Qed.

(** [Release] on a handle whose block has other owners: only the strong
    counter is decremented; no [Dispose], no [Destroy]. *)
Lemma release_while_shared esft (this : SharedPtr) b cb h :
  cblocks h !! b = Some cb →
  (1 < strong_ref_counter_ cb < size_t_modulus)%Z →
  (RemoveStrongRef b;;
   z ← IsZeroStrongOwning b;
   (if z : bool then Dispose esft b else mret tt);;
   zs ← IsZeroStrongOwning b;
   zw ← (if zs : bool then IsZeroWeakOwning b else mret false);
   (if zs && zw then Destroy b else mret tt);;
   mret (SharedPtr_Zeroing this)) h =
  Ok (mkShared None None,
      upd_cb b (mkCB (strong_ref_counter_ cb - 1) (weak_ref_counter_ cb) (impl cb)) h).
Proof.
  intros Hcb Hs.
  unfold RemoveStrongRef, IsZeroStrongOwning, load_cb, store_cb. munfold.
  rewrite Hcb. rewrite wrap_pred by lia. hsimpl. rewrite !lookup_insert_eq.
  cbn [strong_ref_counter_]. rewrite bool_decide_eq_false_2 by lia.
  hsimpl. rewrite !lookup_insert_eq. cbn [strong_ref_counter_].
  rewrite bool_decide_eq_false_2 by lia. done.
Qed.

(** For a handle whose block has other owners [Release] is defined; for a
    type with the self-reference capability this needs the handle to point
    to a live object whose [weak_this_] does not dangle. *)
Lemma SharedPtr_Release_while_shared esft sp h b cb :
  sp_cblock_ sp = Some b →
  cblocks h !! b = Some cb →
  (1 < strong_ref_counter_ cb < size_t_modulus)%Z →
  (esft = true →
   ∃ o w, sp_ptr_ sp = Some o ∧ objects h !! o = Some w ∧ live_ref h (wp_cblock_ w)) →
  ∃ h2, SharedPtr_Release esft sp h = Ok (mkShared None None, h2).
Proof.
  intros Hsb Hcb Hs Hobj. unfold SharedPtr_Release. rewrite Hsb.
  destruct esft.
  - destruct (Hobj eq_refl) as (o & w & Hp & Ho & Hlive). rewrite Hp.
    unfold load_obj at 1. unfold mbind at 1, M_bind at 1. unfold mbind at 1, M_bind at 1.
    rewrite Ho.
    unfold WeakPtr_Expired, WeakPtr_UseCount, GetStrongRefsCount, load_cb.
    destruct (wp_cblock_ w) as [bw|] eqn:Hw.
    + destruct (Hlive bw eq_refl) as [cbw Hbw].
      unfold mbind at 1, M_bind at 1. unfold mbind at 1, M_bind at 1.
      unfold mbind at 1, M_bind at 1. rewrite Hbw. unfold mret at 1, M_ret at 1.
      unfold mret at 1, M_ret at 1.
      destruct (decide (strong_ref_counter_ cbw = 0%Z)) as [Hz|Hz].
      * rewrite (bool_decide_eq_true_2 _ Hz). unfold mret at 1, M_ret at 1.
        rewrite (release_while_shared true sp b cb h Hcb Hs). eauto.
      * rewrite (bool_decide_eq_false_2 _ Hz).
        unfold WeakPtr_Reset. unfold mbind at 1, M_bind at 1.
        rewrite WeakPtr_Release_eq, Hw, Hbw. unfold store_obj.
        destruct (weak_release_heap_keeps b cb h bw cbw Hcb ltac:(lia) Hbw)
          as (_ & cb' & Hcb' & Hs').
        erewrite (release_while_shared true sp b cb'); [eauto| |lia].
        hsimpl. exact Hcb'.
    + unfold mbind at 1, M_bind at 1. unfold mbind at 1, M_bind at 1.
      unfold mret at 1, M_ret at 1. unfold mret at 1, M_ret at 1.
      rewrite bool_decide_eq_true_2 by done. unfold mret at 1, M_ret at 1.
      rewrite (release_while_shared true sp b cb h Hcb Hs). eauto.
  - unfold mbind at 1, M_bind at 1. unfold mret at 1, M_ret at 1.
    rewrite (release_while_shared false sp b cb h Hcb Hs). eauto.
Qed.

(** C6, for programs that adopt no null raw pointer: whenever such a
    program has reached a configuration in which the variable [sp] has a
    control block [b], building an alias [a] of [sp] that observes any
    pointer [p] and then resetting [sp] is defined (for a type with the
    self-reference capability [sp] has to point to a live object, which
    [Release] reads), and afterwards [UseCount()] of [a], the strong count
    of [b], is what [UseCount()] of [sp] was before, hence greater than
    zero, and [Dispose] has not run on [b]. *)
Theorem aliasing_keeps_object_alive (esft : bool) (prog : list op) (i : nat) (p : ptr) :
  Forall (λ o, adopts_null o = false) prog →
  (3 * Z.of_nat (length prog) + 7 < size_t_modulus)%Z →
  ∀ c sp b,
    run esft prog init = Ok c →
    shared c !! i = Some sp →
    sp_cblock_ sp = Some b →
    (esft = true → points_to_live sp (mem c)) →
    ∃ c1 c2 n,
      step esft (SAlias i p) c = Ok c1 ∧
      step esft (SReset i) c1 = Ok c2 ∧
      shared c2 = <[i := mkShared None None]> (shared c) ++ [mkShared p (Some b)] ∧
      SharedPtr_UseCount sp (mem c) = Ok (n, mem c) ∧
      SharedPtr_UseCount (mkShared p (Some b)) (mem c2) = Ok (n, mem c2) ∧
      (0 < n)%Z ∧
      n_dispose b (trace (mem c2)) = 0.
Proof.
  intros Hnull Hlt c sp b Hrun Hi Hb Hlive.
  set (n0 := 0 + 3 * length prog).
  assert (cfg_ok esft n0 c) as Hc.
  { eapply run_ok; [apply init_ok|exact Hnull| |exact Hrun]. lia. }
  pose proof (lookup_lt_Some _ _ _ Hi) as Hilt.
  destruct (hinv_owned _ _ _ _ _ _ _ (cfg_take_shared _ _ _ _ _ Hc Hi) Hb)
    as (cb & Hcb & Hs).
  assert (owners b (delete i (shared c)) ≤ length (shared c)) as Hle.
  { etrans; [apply owners_le|]. rewrite length_delete by eauto. lia. }
  assert (length (shared c) ≤ n0) as Hn by (destruct Hc as [_ ?]; lia).
  set (a := mkShared p (Some b)).
  set (h1 := upd_cb b (mkCB (strong_ref_counter_ cb + 1) (weak_ref_counter_ cb) (impl cb))
               (mem c)).
  assert (SharedPtr_alias sp p (mem c) = Ok (a, h1)) as Halias.
  { unfold SharedPtr_alias. cbn [sp_cblock_]. rewrite Hb.
    unfold AddStrongRef, load_cb, store_cb. munfold. rewrite Hcb.
    rewrite wrap_succ by lia. done. }
  set (c1 := mkConfig h1 (shared c ++ [a]) (weak c)).
  assert (step esft (SAlias i p) c = Ok c1) as Hstep1.
  { cbn [step]. rewrite Hi. unfold decl_shared, exec. by rewrite Halias. }
  assert (cfg_ok esft (n0 + 3) c1) as Hc1.
  { apply (step_ok esft n0 (SAlias i p) c); [exact Hc| |done|exact Hstep1]. lia. }
  assert (cblocks h1 !! b =
            Some (mkCB (strong_ref_counter_ cb + 1) (weak_ref_counter_ cb) (impl cb)))
    as Hcb1 by (unfold h1; hsimpl; by rewrite lookup_insert_eq).
  destruct (SharedPtr_Release_while_shared esft sp h1 b _ Hb Hcb1) as [h2 Hrel].
  { cbn [strong_ref_counter_]. lia. }
  { intros ->. destruct (Hlive eq_refl) as (o & Hp & [w Hw]).
    exists o, w. split_and!; [done|done|].
    intros bw Hbw. destruct Hc1 as [Hinv1 _].
    apply (heap_inv_live _ _ _ _ bw Hinv1). cbn beta.
    pose proof (self_observers_pos (mem c1) o w bw Hw Hbw). lia. }
  set (c2 := mkConfig h2 (<[i := mkShared None None]> (shared c ++ [a])) (weak c)).
  assert (shared c1 !! i = Some sp) as Hi1 by (by apply lookup_app_l_Some).
  assert (step esft (SReset i) c1 = Ok c2) as Hstep2.
  { cbn [step]. rewrite Hi1. unfold upd_shared, exec, SharedPtr_Reset.
    unfold c1 at 1. cbn [mem]. by rewrite Hrel. }
  assert (cfg_ok esft (n0 + 3 + 3) c2) as Hc2.
  { apply (step_ok esft (n0 + 3) (SReset i) c1); [exact Hc1| |done|exact Hstep2]. lia. }
  assert (shared c2 = <[i := mkShared None None]> (shared c) ++ [a]) as Hsh
    by (by apply insert_app_l).
  assert (shared c2 !! length (shared c) = Some a) as Ha.
  { rewrite Hsh. apply list_lookup_middle. by rewrite length_insert. }
  destruct (cfg_UseCount _ _ _ _ _ _ Hc Hi Hb) as [Hu Hpos].
  destruct (cfg_UseCount _ _ _ _ a b Hc2 Ha eq_refl) as [Hu2 Hpos2].
  assert (owners b (shared c2) = owners b (shared c)) as Hown.
  { rewrite Hsh, owners_app, (owners_insert _ _ _ _ _ Hi), (owners_lookup _ _ _ _ Hi).
    rewrite owners_cons, owners_nil. cbn [sp_cblock_ a].
    rewrite Hb, ind_same, ind_None. lia. }
  exists c1, c2, (Z.of_nat (owners b (shared c))).
  split_and!; [done|done|done|done|by rewrite <-Hown|lia|].
  destruct Hc2 as [(Hblk & _) _]. specialize (Hblk b). unfold block_ok in Hblk.
  destruct (cblocks (mem c2) !! b).
  - destruct Hblk as (_ & _ & _ & _ & _ & _ & _ & ->). rewrite decide_False; [done|lia].
  - lia.
Qed.

Lemma aliasing_keeps_object_alive_witness :
  ∃ c1 c2 n,
    step true (SAlias 0 None) esft_owner = Ok c1 ∧
    step true (SReset 0) c1 = Ok c2 ∧
    shared c2 = <[0 := mkShared None None]> (shared esft_owner) ++ [mkShared None (Some 0)] ∧
    SharedPtr_UseCount (mkShared (Some 0) (Some 0)) (mem esft_owner) = Ok (n, mem esft_owner) ∧
    SharedPtr_UseCount (mkShared None (Some 0)) (mem c2) = Ok (n, mem c2) ∧
    (0 < n)%Z ∧
    n_dispose 0 (trace (mem c2)) = 0.
Proof.
  apply (aliasing_keeps_object_alive true [SMakeShared] 0 None) with (sp := mkShared (Some 0) (Some 0)).
  - repeat constructor.
  - unfold size_t_modulus. cbn. lia.
  - vm_compute. reflexivity.
  - reflexivity.
  - reflexivity.
  - intros _. exists 0. split; [reflexivity|]. eexists. vm_compute. reflexivity.
Defined.

(** The witness's two statements end with the alias as the only owner of
    the object, which is still alive. *)
Example alias_then_reset_runs :
  ∃ c,
    run true [SMakeShared; SAlias 0 None; SReset 0] init = Ok c ∧
    shared c = [mkShared None None; mkShared None (Some 0)] ∧
    SharedPtr_UseCount (mkShared None (Some 0)) (mem c) = Ok (1%Z, mem c) ∧
    is_Some (objects (mem c) !! 0) ∧
    trace (mem c) = [EvAlloc Block 0].
Proof.
  eexists. split; [vm_compute; reflexivity|].
  split_and!; try (vm_compute; reflexivity). eexists. vm_compute. reflexivity.
Qed.

(** C6 does not extend to a handle that adopted a null raw pointer: its
    control block starts with strong count 0, so the alias takes the count
    to 1 and the reset of [sp] takes it back to 0 and runs [Dispose] and
    [Destroy]; the alias is left with a control block that has been
    freed. *)
Lemma aliasing_fails_for_null_adoption :
  ∃ c,
    run false null_alias_prog init = Ok c ∧
    shared c = [mkShared None None; mkShared None (Some 0)] ∧
    cblocks (mem c) !! 0 = None ∧
    n_dispose 0 (trace (mem c)) = 1 ∧
    n_destroy 0 (trace (mem c)) = 1 ∧
    trace (mem c) = [EvDestroy 0; EvDispose 0; EvAlloc Block 0] ∧
    SharedPtr_UseCount (mkShared None (Some 0)) (mem c) = Undefined Dangling.
Proof.
  eexists. split; [vm_compute; reflexivity|].
  split_and!; vm_compute; reflexivity.
Qed.

(** C5, what the code does: for a type with the self-reference capability,
    after [s0 = MakeShared<T>(); { SharedPtr<T> s1(s0); }] one strong owner
    is left ([UseCount() == 1]) but the object's [weak_this_] is already
    empty, so [SharedFromThis()] returns an empty handle; the promoting
    constructor never writes a [weak_this_], so a promoted owner does not
    set it again; and [s.Reset(new T)] makes [s] the owner of an object
    whose [weak_this_] was never set. *)
Theorem weak_this_cleared_while_owned :
  (∃ c,
     run true copy_then_drop_prog init = Ok c ∧
     shared c = [mkShared (Some 0) (Some 0); mkShared None None] ∧
     SharedPtr_UseCount (mkShared (Some 0) (Some 0)) (mem c) = Ok (1%Z, mem c) ∧
     objects (mem c) !! 0 = Some (mkWeak None None) ∧
     SharedFromThis (Some 0) (mem c) = Ok (mkShared None None, mem c)) ∧
  (∀ w h s h', SharedPtr_from_weak w h = Ok (s, h') → objects h' = objects h) ∧
  (∃ c,
     run true promote_prog init = Ok c ∧
     shared c = [mkShared (Some 0) (Some 0); mkShared None None;
                 mkShared (Some 0) (Some 0)] ∧
     SharedPtr_UseCount (mkShared (Some 0) (Some 0)) (mem c) = Ok (2%Z, mem c) ∧
     objects (mem c) !! 0 = Some (mkWeak None None)) ∧
  (∃ c,
     run true reset_new_prog init = Ok c ∧
     shared c = [mkShared (Some 0) (Some 1)] ∧
     SharedPtr_UseCount (mkShared (Some 0) (Some 1)) (mem c) = Ok (1%Z, mem c) ∧
     objects (mem c) !! 0 = Some (mkWeak None None) ∧
     SharedFromThis (Some 0) (mem c) = Ok (mkShared None None, mem c)).
Proof.
  split_and!.
  - eexists. split; [vm_compute; reflexivity|].
    split_and!; vm_compute; reflexivity.
  - intros w h s h'. unfold SharedPtr_from_weak.
    intros (e & h0 & [-> _]%WeakPtr_Expired_Ok & H)%bind_Ok.
    destruct e; [done|]. cbn [sp_cblock_] in H.
    apply bind_Ok in H as (u & h1 & Hadd & [_ ->]%ret_Ok).
    destruct (wp_cblock_ w) as [b|]; [|done].
    by apply AddStrongRef_Ok in Hadd as (cb & _ & ->).
  - eexists. split; [vm_compute; reflexivity|].
    split_and!; vm_compute; reflexivity.
  - eexists. split; [vm_compute; reflexivity|].
    split_and!; vm_compute; reflexivity.
Qed.

(** C9, for a type without the self-reference capability: adopting a null
    raw pointer allocates a [ControlBlockPtr] whose strong counter stays 0;
    destroying the handle then takes the counter from 0 to [2^64 - 1]
    without a [Dispose] or [Destroy]; and whatever the program does
    afterwards, the block stays allocated with that counter and is never
    disposed nor destroyed. *)
Theorem null_adoption_leaks_block (c : config) :
  let b := next (mem c) in
  let i := length (shared c) in
  unreferenced b c →
  ∃ c1 c2,
    step false (SAdopt None) c = Ok c1 ∧
    shared c1 !! i = Some (mkShared None (Some b)) ∧
    cblocks (mem c1) !! b = Some (mkCB 0 0 (ControlBlockPtr None)) ∧
    step false (SDestroy i) c1 = Ok c2 ∧
    shared c2 !! i = Some (mkShared None None) ∧
    cblocks (mem c2) !! b = Some (mkCB (2 ^ 64 - 1) 0 (ControlBlockPtr None)) ∧
    trace (mem c2) = EvAlloc Block b :: trace (mem c) ∧
    ∀ rest c',
      run false rest c2 = Ok c' →
      cblocks (mem c') !! b = Some (mkCB (2 ^ 64 - 1) 0 (ControlBlockPtr None)) ∧
      n_dispose b (trace (mem c')) = n_dispose b (trace (mem c)) ∧
      n_destroy b (trace (mem c')) = n_destroy b (trace (mem c)).
Proof.
  intros b i (Hs & Hw & Hr).
  destruct (null_adoption_wraps (mem c)) as (h1 & h2 & H1 & Hb1 & H2 & Hb2 & Ht & Ho & Hn).
  fold b in H1, Hb1, H2, Hb2, Ht.
  set (s := mkShared None (Some b)) in *.
  exists (mkConfig h1 (shared c ++ [s]) (weak c)),
         (mkConfig h2 (shared c ++ [mkShared None None]) (weak c)).
  assert (Hi : (shared c ++ [s]) !! i = Some s) by apply list_lookup_middle, eq_refl.
  split_and!.
  - cbn [step]. unfold decl_shared, exec. by rewrite H1.
  - done.
  - done.
  - cbn [step shared mem]. rewrite Hi. unfold upd_shared, exec. cbn [mem shared weak].
    rewrite H2. do 2 f_equal.
    rewrite insert_app_r_alt by (unfold i; lia).
    by replace (i - length (shared c)) with 0 by (unfold i; lia).
  - cbn [shared]. by apply list_lookup_middle.
  - done.
  - done.
  - intros rest c' Hrun.
    assert (Hiso : isolated b (mkConfig h2 (shared c ++ [mkShared None None]) (weak c))).
    { split; [split_and!; cbn [shared weak mem]|cbn [mem]; unfold b; lia].
      - apply Forall_app_2; [done|]. by constructor.
      - done.
      - intros o w. rewrite Ho. apply Hr. }
    destruct (run_leaves _ _ _ _ _ Hiso Hrun) as [_ (Hcb & Hd & Hy & _)].
    cbn [mem] in Hcb, Hd, Hy. rewrite Hcb, Hd, Hy, Hb2, Ht.
    split_and!; [done|by evsimpl..].
Qed.

Lemma null_adoption_leaks_block_witness :
  unreferenced 0 init ∧
  ∃ c1 c2,
    step false (SAdopt None) init = Ok c1 ∧
    shared c1 !! 0 = Some (mkShared None (Some 0)) ∧
    cblocks (mem c1) !! 0 = Some (mkCB 0 0 (ControlBlockPtr None)) ∧
    step false (SDestroy 0) c1 = Ok c2 ∧
    shared c2 !! 0 = Some (mkShared None None) ∧
    cblocks (mem c2) !! 0 = Some (mkCB (2 ^ 64 - 1) 0 (ControlBlockPtr None)) ∧
    trace (mem c2) = EvAlloc Block 0 :: trace (mem init) ∧
    ∀ rest c',
      run false rest c2 = Ok c' →
      cblocks (mem c') !! 0 = Some (mkCB (2 ^ 64 - 1) 0 (ControlBlockPtr None)) ∧
      n_dispose 0 (trace (mem c')) = n_dispose 0 (trace (mem init)) ∧
      n_destroy 0 (trace (mem c')) = n_destroy 0 (trace (mem init)).
Proof.
  assert (H : unreferenced 0 init).
  { split_and!; [constructor..|]. intros o w. cbn. by rewrite lookup_empty. }
  split; [exact H|]. exact (null_adoption_leaks_block init H).
Defined.

(** C9 does not extend to a type that derives from [EnableSharedFromThis]:
    there the constructor body, [ptr->weak_this_ = *this], goes through the
    null pointer, so the construction itself is undefined and no control
    block is left to speak of. *)
Lemma null_adoption_undefined_for_esft :
  run true null_prog init = Undefined NullDeref ∧
  ∀ c, step true (SAdopt None) c = Undefined NullDeref.
Proof.
  split; [reflexivity|]. intros c. cbn [step]. unfold decl_shared, exec.
  by rewrite null_adoption_undefined_with_esft.
Qed.

(** A continuation that allocates, shares, leaks a second block and
    releases everything runs to the end with the first leaked block as it
    was. *)
Example leaked_block_survives :
  ∃ c',
    run false (null_prog ++ leaked_prog) init = Ok c' ∧
    cblocks (mem c') !! 0 = Some (mkCB (2 ^ 64 - 1) 0 (ControlBlockPtr None)) ∧
    n_dispose 0 (trace (mem c')) = 0 ∧ n_destroy 0 (trace (mem c')) = 0 ∧
    n_destroy 1 (trace (mem c')) = 1.
Proof. eexists. split; [vm_compute; reflexivity|]. by vm_compute. Qed.

(** * Further properties of [SharedPtr] and [WeakPtr] *)

Lemma wrap_succ_pred z : (0 ≤ z < size_t_modulus)%Z → wrap (wrap (z + 1) - 1) = z.
Proof.
  intros Hz. unfold wrap. rewrite Zminus_mod_idemp_l.
  replace (z + 1 - 1)%Z with z by lia. by apply Z.mod_small.
Qed.

Lemma upd_cb_same b cb h : cblocks h !! b = Some cb → upd_cb b cb h = h.
Proof. intros Hcb. destruct h. unfold upd_cb. cbn in *. by rewrite insert_id. Qed.

Lemma upd_cb_upd_cb b cb cb' h : upd_cb b cb' (upd_cb b cb h) = upd_cb b cb' h.
Proof. unfold upd_cb. cbn. by rewrite insert_insert_eq. Qed.

Lemma mkCB_eta cb : mkCB (strong_ref_counter_ cb) (weak_ref_counter_ cb) (impl cb) = cb.
Proof. by destruct cb. Qed.

(** X1: The three ways a release of a strong handle can go, for a type without
    the self-reference capability: other owners remain and only the counter
    moves; the last owner goes while weak handles remain, so the object is
    disposed of and the block stays, with strong count 0; the last owner
    goes and no weak handle is left, so the object is disposed of and then
    the block destroyed. *)
Theorem SharedPtr_Release_cases (s : SharedPtr) (h : Heap) (b : addr)
    (cb : IControlBlock) :
  sp_cblock_ s = Some b →
  cblocks h !! b = Some cb →
  (0 < strong_ref_counter_ cb < size_t_modulus)%Z →
  let dec := upd_cb b (mkCB (strong_ref_counter_ cb - 1) (weak_ref_counter_ cb) (impl cb)) h in
  (strong_ref_counter_ cb ≠ 1%Z →
   SharedPtr_Release false s h = Ok (mkShared None None, dec)) ∧
  (∀ o, strong_ref_counter_ cb = 1%Z → managed b cb = Some o →
        is_Some (objects h !! o) →
        let disposed := del_obj o (log (EvDispose b) dec) in
        (weak_ref_counter_ cb ≠ 0%Z →
         SharedPtr_Release false s h = Ok (mkShared None None, disposed)) ∧
        (weak_ref_counter_ cb = 0%Z →
         SharedPtr_Release false s h =
           Ok (mkShared None None, del_cb b (log (EvDestroy b) disposed)))) ∧
  (strong_ref_counter_ cb = 1%Z → managed b cb = None →
   SharedPtr_Release false s h =
     Ok (mkShared None None,
         if decide (weak_ref_counter_ cb = 0%Z)
         then del_cb b (log (EvDestroy b) (log (EvDispose b) dec))
         else log (EvDispose b) dec)).
Proof.
  intros Hb Hcb Hs dec.
  assert (Hw : wrap (strong_ref_counter_ cb - 1) = (strong_ref_counter_ cb - 1)%Z)
    by (apply wrap_pred; lia).
  unfold SharedPtr_Release, Dispose, destroy_object, managed, GetPtr. rewrite Hb.
  split_and!.
  - intros Hne. mrun. rewrite Hcb. mrun. rewrite Hw. by mrun.
  - intros o H1 Hm [w Ho]. cbn zeta.
    split; intros Hwk; mrun; rewrite Hcb; mrun; rewrite Hw, H1; mrun.
    all: destruct (impl cb) as [[o'|]|] eqn:Himpl; simplify_eq; mrun; rewrite Ho; mrun.
    all: subst dec; rewrite ?Himpl, ?H1, ?Hwk; try done; by mrun.
  - intros H1 Hm. mrun. rewrite Hcb. mrun. rewrite Hw, H1. mrun.
    destruct (impl cb) as [[o'|]|] eqn:Himpl; simplify_eq. mrun.
    subst dec. rewrite ?Himpl, ?H1. case_decide as Hwk.
    + rewrite Hwk. by mrun.
    + by mrun.
Qed.

Lemma SharedPtr_Release_cases_witness :
  SharedPtr_Release false (mkShared (Some 0) (Some 0)) demo_heap =
    Ok (mkShared None None,
        del_obj 0 (log (EvDispose 0)
          (upd_cb 0 (mkCB (1 - 1) 1 ControlBlockHolder) demo_heap))).
Proof.
  assert (H : (0 < 1 < size_t_modulus)%Z) by (unfold size_t_modulus; cbn; lia).
  pose proof (SharedPtr_Release_cases (mkShared (Some 0) (Some 0)) demo_heap 0
                (mkCB 1 1 ControlBlockHolder) eq_refl eq_refl H) as (_ & H2 & _).
  apply (H2 0 eq_refl eq_refl).
  - by eexists.
  - done.
Defined.

(** X2: The two ways a release of a weak handle can go: the counter moves and
    nothing else happens, or, when no owner and no other weak handle is
    left, the control block is destroyed.  The managed object is never
    touched. *)
Theorem WeakPtr_Release_cases (w : WeakPtr) (h : Heap) (b : addr) (cb : IControlBlock) :
  wp_cblock_ w = Some b →
  cblocks h !! b = Some cb →
  (0 < weak_ref_counter_ cb < size_t_modulus)%Z →
  (strong_ref_counter_ cb ≠ 0%Z ∨ weak_ref_counter_ cb ≠ 1%Z →
   WeakPtr_Release w h =
     Ok (mkWeak None None,
         upd_cb b (mkCB (strong_ref_counter_ cb) (weak_ref_counter_ cb - 1) (impl cb)) h)) ∧
  (strong_ref_counter_ cb = 0%Z → weak_ref_counter_ cb = 1%Z →
   WeakPtr_Release w h = Ok (mkWeak None None, log (EvDestroy b) (del_cb b h))).
Proof.
  intros Hb Hcb Hw. rewrite WeakPtr_Release_eq, Hb, Hcb. unfold weak_release_heap.
  rewrite wrap_pred by lia. split.
  - intros Hne. rewrite decide_False; [done|]. lia.
  - intros Hs H1. rewrite decide_True; [done|]. lia.
Qed.

Lemma WeakPtr_Release_cases_witness :
  WeakPtr_Release (mkWeak (Some 0) (Some 0)) demo_heap =
    Ok (mkWeak None None, upd_cb 0 (mkCB 1 (1 - 1) ControlBlockHolder) demo_heap).
Proof.
  assert (H : (0 < 1 < size_t_modulus)%Z) by (unfold size_t_modulus; cbn; lia).
  pose proof (WeakPtr_Release_cases (mkWeak (Some 0) (Some 0)) demo_heap 0
                (mkCB 1 1 ControlBlockHolder) eq_refl eq_refl H) as (H1 & _).
  apply H1. by left.
Defined.

(** X3: Copying a handle and destroying the copy puts the store back exactly as
    it was (type without the self-reference capability, handle on a block
    with a non-zero strong count): in between the count is one higher. *)
Theorem copy_then_destroy_restores (s : SharedPtr) (h : Heap) (b : addr)
    (cb : IControlBlock) :
  sp_cblock_ s = Some b →
  cblocks h !! b = Some cb →
  (0 < strong_ref_counter_ cb < size_t_modulus)%Z →
  ∃ h1,
    SharedPtr_copy false s h = Ok (mkShared (sp_ptr_ s) (Some b), h1) ∧
    SharedPtr_UseCount s h1 = Ok (wrap (strong_ref_counter_ cb + 1), h1) ∧
    SharedPtr_Release false (mkShared (sp_ptr_ s) (Some b)) h1 = Ok (mkShared None None, h).
Proof.
  intros Hb Hcb Hs.
  assert (Hw : wrap (wrap (strong_ref_counter_ cb + 1) - 1) = strong_ref_counter_ cb)
    by (apply wrap_succ_pred; lia).
  eexists. split_and!.
  - unfold SharedPtr_copy. cbn [sp_cblock_ sp_ptr_]. rewrite Hb. mrun. rewrite Hcb.
    reflexivity.
  - unfold SharedPtr_UseCount. rewrite Hb. by mrun.
  - unfold SharedPtr_Release. mrun. rewrite Hw. mrun.
    rewrite upd_cb_upd_cb, mkCB_eta. by rewrite upd_cb_same.
Qed.

Lemma copy_then_destroy_restores_witness :
  ∃ h1,
    SharedPtr_copy false (mkShared (Some 0) (Some 0)) demo_heap =
      Ok (mkShared (Some 0) (Some 0), h1) ∧
    SharedPtr_UseCount (mkShared (Some 0) (Some 0)) h1 = Ok (wrap (1 + 1), h1) ∧
    SharedPtr_Release false (mkShared (Some 0) (Some 0)) h1 =
      Ok (mkShared None None, demo_heap).
Proof.
  apply (copy_then_destroy_restores (mkShared (Some 0) (Some 0)) demo_heap 0
           (mkCB 1 1 ControlBlockHolder) eq_refl eq_refl).
  unfold size_t_modulus; cbn; lia.
Defined.

(** X4: The same for weak handles: copying a weak handle and destroying the
    copy restores the store. *)
Theorem weak_copy_then_destroy_restores (w : WeakPtr) (h : Heap) (b : addr)
    (cb : IControlBlock) :
  wp_cblock_ w = Some b →
  cblocks h !! b = Some cb →
  (0 < weak_ref_counter_ cb < size_t_modulus)%Z →
  ∃ h1,
    WeakPtr_copy w h = Ok (mkWeak (wp_ptr_ w) (Some b), h1) ∧
    WeakPtr_UseCount w h1 = Ok (strong_ref_counter_ cb, h1) ∧
    WeakPtr_Release (mkWeak (wp_ptr_ w) (Some b)) h1 = Ok (mkWeak None None, h).
Proof.
  intros Hb Hcb Hs.
  assert (Hw : wrap (wrap (weak_ref_counter_ cb + 1) - 1) = weak_ref_counter_ cb)
    by (apply wrap_succ_pred; lia).
  eexists. split_and!.
  - unfold WeakPtr_copy. cbn [wp_cblock_ wp_ptr_]. rewrite Hb. mrun. rewrite Hcb.
    reflexivity.
  - unfold WeakPtr_UseCount. rewrite Hb. by mrun.
  - unfold WeakPtr_Release. mrun. rewrite Hw.
    destruct (bool_decide (strong_ref_counter_ cb = 0%Z)); mrun;
      rewrite upd_cb_upd_cb, mkCB_eta; by rewrite upd_cb_same.
Qed.

Lemma weak_copy_then_destroy_restores_witness :
  ∃ h1,
    WeakPtr_copy (mkWeak (Some 0) (Some 0)) demo_heap =
      Ok (mkWeak (Some 0) (Some 0), h1) ∧
    WeakPtr_UseCount (mkWeak (Some 0) (Some 0)) h1 = Ok (1%Z, h1) ∧
    WeakPtr_Release (mkWeak (Some 0) (Some 0)) h1 = Ok (mkWeak None None, demo_heap).
Proof.
  apply (weak_copy_then_destroy_restores (mkWeak (Some 0) (Some 0)) demo_heap 0
           (mkCB 1 1 ControlBlockHolder) eq_refl eq_refl).
  unfold size_t_modulus; cbn; lia.
Defined.

Lemma config_eta c : mkConfig (mem c) (shared c) (weak c) = c.
Proof. by destruct c. Qed.

Lemma SharedPtr_eta s : mkShared (sp_ptr_ s) (sp_cblock_ s) = s.
Proof. by destruct s. Qed.

Lemma WeakPtr_eta w : mkWeak (wp_ptr_ w) (wp_cblock_ w) = w.
Proof. by destruct w. Qed.

(** X5: Assigning a variable to itself, by copy or by move, changes nothing:
    the [this != &other] test keeps [Release] from running. *)
Theorem self_assignment_is_noop (esft : bool) (c : config) (i : nat) :
  step esft (SCopyAssign i i) c = Ok c ∧
  step esft (SMoveAssign i i) c = Ok c ∧
  step esft (WCopyAssign i i) c = Ok c ∧
  step esft (WMoveAssign i i) c = Ok c.
Proof.
  split_and!; cbn [step].
  - destruct (shared c !! i) as [s|] eqn:Hi; [|done].
    unfold upd_shared, exec, SharedPtr_assign_copy. rewrite bool_decide_eq_true_2 by done.
    cbn. rewrite list_insert_id by done. by rewrite config_eta.
  - destruct (shared c !! i) as [s|] eqn:Hi; [|done].
    unfold exec, SharedPtr_assign_move. rewrite bool_decide_eq_true_2 by done.
    cbn. rewrite !(list_insert_id (shared c)) by done. by rewrite config_eta.
  - destruct (weak c !! i) as [w|] eqn:Hi; [|done].
    unfold upd_weak, exec, WeakPtr_assign_copy. rewrite bool_decide_eq_true_2 by done.
    cbn. rewrite list_insert_id by done. by rewrite config_eta.
  - destruct (weak c !! i) as [w|] eqn:Hi; [|done].
    unfold exec, WeakPtr_assign_move. rewrite bool_decide_eq_true_2 by done.
    cbn. rewrite !(list_insert_id (weak c)) by done. by rewrite config_eta.
Qed.

Lemma swap_list {A} (l : list A) i j a b :
  l !! i = Some a → l !! j = Some b →
  <[i := a]> (<[j := b]> (<[i := b]> (<[j := a]> l))) = l.
Proof.
  intros Hi Hj. apply list_eq. intros k.
  assert (Hli : i < length l) by (by eapply lookup_lt_Some).
  assert (Hlj : j < length l) by (by eapply lookup_lt_Some).
  destruct (decide (k = i)) as [->|Hki].
  { rewrite list_lookup_insert_eq by (rewrite !length_insert; lia). done. }
  rewrite list_lookup_insert_ne by done.
  destruct (decide (k = j)) as [->|Hkj].
  { rewrite list_lookup_insert_eq by (rewrite !length_insert; lia). done. }
  by rewrite !list_lookup_insert_ne by done.
Qed.

(** X6: [Swap] exchanges the two handles without touching the store, and
    swapping twice gives back the configuration. *)
Theorem swap_twice_is_identity (esft : bool) (c : config) (i j : nat) :
  (∃ c1, step esft (SSwap i j) c = Ok c1 ∧ mem c1 = mem c ∧ weak c1 = weak c ∧
         (∀ a b, shared c !! i = Some a → shared c !! j = Some b →
                 shared c1 !! i = Some b ∧ shared c1 !! j = Some a) ∧
         step esft (SSwap i j) c1 = Ok c) ∧
  (∃ c1, step esft (WSwap i j) c = Ok c1 ∧ mem c1 = mem c ∧ shared c1 = shared c ∧
         (∀ a b, weak c !! i = Some a → weak c !! j = Some b →
                 weak c1 !! i = Some b ∧ weak c1 !! j = Some a) ∧
         step esft (WSwap i j) c1 = Ok c).
Proof.
  split; cbn [step].
  - destruct (shared c !! i) as [a|] eqn:Hi; [destruct (shared c !! j) as [b|] eqn:Hj|].
    2, 3: exists c; rewrite ?Hi, ?Hj; by split_and!.
    assert (Hli : i < length (shared c)) by (by eapply lookup_lt_Some).
    assert (Hlj : j < length (shared c)) by (by eapply lookup_lt_Some).
    unfold SharedPtr_Swap. cbn. rewrite !SharedPtr_eta.
    set (l1 := <[i := b]> (<[j := a]> (shared c))).
    assert (H1i : l1 !! i = Some b).
    { subst l1. by rewrite list_lookup_insert_eq by (rewrite length_insert; lia). }
    assert (H1j : l1 !! j = Some a).
    { subst l1. destruct (decide (i = j)) as [->|Hne].
      - rewrite list_lookup_insert_eq by (rewrite length_insert; lia). congruence.
      - rewrite list_lookup_insert_ne by done. by rewrite list_lookup_insert_eq by lia. }
    eexists. split; [reflexivity|]. cbn. split_and!; try done.
    + by intros ? ? [= <-] [= <-].
    + rewrite H1i, H1j. cbn. rewrite !SharedPtr_eta. subst l1.
      by rewrite swap_list, config_eta.
  - destruct (weak c !! i) as [a|] eqn:Hi; [destruct (weak c !! j) as [b|] eqn:Hj|].
    2, 3: exists c; rewrite ?Hi, ?Hj; by split_and!.
    assert (Hli : i < length (weak c)) by (by eapply lookup_lt_Some).
    assert (Hlj : j < length (weak c)) by (by eapply lookup_lt_Some).
    unfold WeakPtr_Swap. cbn. rewrite !WeakPtr_eta.
    set (l1 := <[i := b]> (<[j := a]> (weak c))).
    assert (H1i : l1 !! i = Some b).
    { subst l1. by rewrite list_lookup_insert_eq by (rewrite length_insert; lia). }
    assert (H1j : l1 !! j = Some a).
    { subst l1. destruct (decide (i = j)) as [->|Hne].
      - rewrite list_lookup_insert_eq by (rewrite length_insert; lia). congruence.
      - rewrite list_lookup_insert_ne by done. by rewrite list_lookup_insert_eq by lia. }
    eexists. split; [reflexivity|]. cbn. split_and!; try done.
    + by intros ? ? [= <-] [= <-].
    + rewrite H1i, H1j. cbn. rewrite !WeakPtr_eta. subst l1.
      by rewrite swap_list, config_eta.
Qed.

(** X7: Demoting an owner and locking the weak handle right away gives an owner
    of the same object on the same control block; both counters have been
    incremented and nothing else has changed. *)
Theorem Lock_after_demotion (s : SharedPtr) (h : Heap) (b : addr) (cb : IControlBlock) :
  sp_cblock_ s = Some b →
  cblocks h !! b = Some cb →
  strong_ref_counter_ cb ≠ 0%Z →
  ∃ h1,
    WeakPtr_from_shared s h = Ok (mkWeak (sp_ptr_ s) (Some b), h1) ∧
    WeakPtr_Lock (mkWeak (sp_ptr_ s) (Some b)) h1 =
      Ok (mkShared (sp_ptr_ s) (Some b),
          upd_cb b (mkCB (wrap (strong_ref_counter_ cb + 1))
                         (wrap (weak_ref_counter_ cb + 1)) (impl cb)) h).
Proof.
  intros Hb Hcb Hs. eexists. split.
  - unfold WeakPtr_from_shared. cbn [wp_cblock_]. rewrite Hb. mrun. rewrite Hcb.
    reflexivity.
  - unfold WeakPtr_Lock, SharedPtr_from_weak, WeakPtr_Expired, WeakPtr_UseCount.
    mrun. by rewrite upd_cb_upd_cb.
Qed.

Lemma Lock_after_demotion_witness :
  ∃ h1,
    WeakPtr_from_shared (mkShared (Some 0) (Some 0)) demo_heap =
      Ok (mkWeak (Some 0) (Some 0), h1) ∧
    WeakPtr_Lock (mkWeak (Some 0) (Some 0)) h1 =
      Ok (mkShared (Some 0) (Some 0),
          upd_cb 0 (mkCB (wrap (1 + 1)) (wrap (1 + 1)) ControlBlockHolder) demo_heap).
Proof.
  by apply (Lock_after_demotion (mkShared (Some 0) (Some 0)) demo_heap 0
              (mkCB 1 1 ControlBlockHolder) eq_refl eq_refl).
Defined.

(** X8: For a type with the self-reference capability, right after
    [MakeShared<T>()] or [SharedPtr<T>(new T)] the object can hand out
    owners of itself: [SharedFromThis()] returns a handle on the same
    object and control block and the use count becomes 2, and
    [WeakFromThis()] returns a weak handle on them. *)
Theorem SharedFromThis_after_construction (h : Heap) :
  (let b := next h in
   ∃ h1 h2 h3,
     MakeShared true h = Ok (mkShared (Some b) (Some b), h1) ∧
     SharedFromThis (Some b) h1 = Ok (mkShared (Some b) (Some b), h2) ∧
     SharedPtr_UseCount (mkShared (Some b) (Some b)) h2 = Ok (2%Z, h2) ∧
     WeakFromThis (Some b) h1 = Ok (mkWeak (Some b) (Some b), h3) ∧
     WeakPtr_UseCount (mkWeak (Some b) (Some b)) h3 = Ok (1%Z, h3)) ∧
  (let o := next h in
   let b := S (next h) in
   ∃ h1 h2 h3,
     (p ← new_object; SharedPtr_from_raw true (Some p)) h =
       Ok (mkShared (Some o) (Some b), h1) ∧
     SharedFromThis (Some o) h1 = Ok (mkShared (Some o) (Some b), h2) ∧
     SharedPtr_UseCount (mkShared (Some o) (Some b)) h2 = Ok (2%Z, h2) ∧
     WeakFromThis (Some o) h1 = Ok (mkWeak (Some o) (Some b), h3) ∧
     WeakPtr_UseCount (mkWeak (Some o) (Some b)) h3 = Ok (1%Z, h3)).
Proof.
  split; cbn zeta.
  - unfold MakeShared, new_ControlBlockHolder, SharedPtr_from_holder, set_weak_this,
      WeakPtr_assign_shared, WeakPtr_Release, SharedFromThis, WeakFromThis, WeakPtr_Lock,
      WeakPtr_copy, SharedPtr_from_weak, WeakPtr_Expired, WeakPtr_UseCount,
      SharedPtr_UseCount, WeakPtr_default, WeakPtr_Zeroing, GetPtr.
    mrun. eexists _, _, _. split; [reflexivity|]. mrun.
    split; [reflexivity|]. mrun. split; [reflexivity|]. split; [reflexivity|]. by mrun.
  - unfold new_object, SharedPtr_from_raw, new_ControlBlockPtr, set_weak_this,
      WeakPtr_assign_shared, WeakPtr_Release, SharedFromThis, WeakFromThis, WeakPtr_Lock,
      WeakPtr_copy, SharedPtr_from_weak, WeakPtr_Expired, WeakPtr_UseCount,
      SharedPtr_UseCount, WeakPtr_default, WeakPtr_Zeroing.
    mrun. eexists _, _, _. split; [reflexivity|]. mrun.
    split; [reflexivity|]. mrun. split; [reflexivity|]. split; [reflexivity|]. by mrun.
Qed.

(** X9: For a type without the self-reference capability, copying a handle
    that adopted a null raw pointer of object type
    ([T* n = nullptr; SharedPtr<T> s(n);]) takes the strong count from 0 to
    1, so destroying the copy disposes of (nothing) and destroys the
    control block although the original handle still references it: the
    original is left dangling, and using or destroying it is a use after
    free. *)
Theorem copy_of_null_adopted_frees_block (c : config) :
  let b := next (mem c) in
  let i := length (shared c) in
  ∃ c3,
    run false [SAdopt None; SCopy i; SDestroy (S i)] c = Ok c3 ∧
    shared c3 = shared c ++ [mkShared None (Some b); mkShared None None] ∧
    cblocks (mem c3) !! b = None ∧
    trace (mem c3) = EvDestroy b :: EvDispose b :: EvAlloc Block b :: trace (mem c) ∧
    SharedPtr_UseCount (mkShared None (Some b)) (mem c3) = Undefined Dangling ∧
    step false (SCopy i) c3 = Undefined Dangling ∧
    step false (SDestroy i) c3 = Undefined Dangling.
Proof.
  intros b i. set (s := mkShared None (Some b)).
  assert (H1 : step false (SAdopt None) c =
            Ok (mkConfig (upd_cb b (mkCB 0 0 (ControlBlockPtr None))
                            (log (EvAlloc Block b) (bump (mem c))))
                         (shared c ++ [s]) (weak c))).
  { cbn [step]. unfold decl_shared, exec, SharedPtr_from_raw, new_ControlBlockPtr. by mrun. }
  assert (Hi : ∀ l, (shared c ++ s :: l) !! i = Some s) by (intros; by apply list_lookup_middle).
  assert (Hi' : ∀ x, (shared c ++ [s; x]) !! S i = Some x).
  { intros x. rewrite lookup_app_r by (unfold i; lia).
    by replace (S i - length (shared c)) with 1 by (unfold i; lia). }
  eexists. split.
  { cbn [run]. rewrite H1. cbn [step shared]. rewrite Hi.
    unfold decl_shared, exec, SharedPtr_copy. unfold s. mrun.
    rewrite <- app_assoc. cbn [app]. fold s. rewrite Hi'.
    unfold upd_shared, exec, SharedPtr_Release, Dispose. unfold s. mrun.
    rewrite insert_app_r_alt by (unfold i; lia).
    replace (S i - length (shared c)) with 1 by (unfold i; lia). reflexivity. }
  cbn [shared mem]. change (<[1:=SharedPtr_Zeroing s]> [s; s]) with [s; mkShared None None].
  split_and!.
  - done.
  - hsimpl. by rewrite lookup_delete_eq.
  - done.
  - unfold SharedPtr_UseCount. mrun. hsimpl. by rewrite lookup_delete_eq.
  - cbn [step shared]. fold s.
    change (<[1:=SharedPtr_Zeroing s]> [s; s]) with [s; mkShared None None]. rewrite Hi.
    unfold decl_shared, exec, SharedPtr_copy. unfold s. mrun. hsimpl.
    by rewrite lookup_delete_eq.
  - cbn [step shared]. fold s.
    change (<[1:=SharedPtr_Zeroing s]> [s; s]) with [s; mkShared None None]. rewrite Hi.
    unfold upd_shared, exec, SharedPtr_Release. unfold s. mrun. hsimpl.
    by rewrite lookup_delete_eq.
Qed.

(** Symbolic execution across several blocks. *)
Ltac mrun_all :=
  repeat first
    [ progress mrun
    | progress hsimpl
    | rewrite lookup_insert_eq
    | rewrite lookup_delete_eq
    | rewrite lookup_insert_ne by lia
    | rewrite lookup_delete_ne by lia ].

(** Symbolic execution with the lookups of distinct fresh addresses. *)
Ltac lk :=
  repeat first
    [ rewrite lookup_insert_eq
    | rewrite lookup_delete_eq
    | rewrite lookup_insert_ne by lia
    | rewrite lookup_delete_ne by lia
    | progress change (wrap (1 - 1)) with 0%Z
    | progress change (wrap (1 + 1)) with 2%Z ].

Ltac mrun_lk := repeat (progress (mrun; lk)).

(** Projections out of a long chain of store updates, innermost first. *)
Ltac hnorm :=
  cbv beta iota zeta delta
    [upd_cb del_cb upd_obj del_obj log bump cblocks objects next trace mem shared weak].

(** X10: Adopting the same raw pointer twice,
    [SharedPtr<T> a(new T); SharedPtr<T> b(a.Get());], gives two control
    blocks with strong count 1 for the one object, for either kind of
    element type: destroying [a] deletes the object and destroys the block
    of [a], [b] still reports a use count of 1, and destroying [b] uses the
    deleted object (for a type without the self-reference capability, by
    deleting it a second time). *)
Theorem double_adoption_double_delete (esft : bool) (c : config) :
  let i := length (shared c) in
  let o := next (mem c) in
  let b1 := S (next (mem c)) in
  let b2 := S (S (next (mem c))) in
  ∃ c3,
    run esft [SAdoptNew; SAdopt (Some o); SDestroy i] c = Ok c3 ∧
    shared c3 = shared c ++ [mkShared None None; mkShared (Some o) (Some b2)] ∧
    objects (mem c3) !! o = None ∧
    cblocks (mem c3) !! b1 = None ∧
    SharedPtr_UseCount (mkShared (Some o) (Some b2)) (mem c3) = Ok (1%Z, mem c3) ∧
    step esft (SDestroy (S i)) c3 = Undefined Dangling.
Proof.
  destruct c as [[cbs objs o tr] sl wl]. cbn [mem shared weak next].
  set (i := length sl).
  assert (Hi : ∀ x l, (sl ++ x :: l) !! i = Some x)
    by (intros; by apply list_lookup_middle).
  assert (Hi' : ∀ x y, (sl ++ [x; y]) !! S i = Some y).
  { intros x y. rewrite lookup_app_r by (unfold i; lia).
    by replace (S i - length sl) with 1 by (unfold i; lia). }
  assert (Hins : ∀ x y z, <[i := z]> (sl ++ [x; y]) = sl ++ [z; y]).
  { intros x y z. rewrite insert_app_r_alt by (unfold i; lia).
    by replace (i - length sl) with 0 by (unfold i; lia). }
  destruct esft.
  - eexists. split.
    { cbn [run step]. unfold decl_shared, exec, new_object, SharedPtr_from_raw,
        new_ControlBlockPtr, set_weak_this, WeakPtr_assign_shared, WeakPtr_Release,
        WeakPtr_default, WeakPtr_Zeroing.
      mrun_lk. rewrite <- app_assoc. cbn [app]. rewrite Hi.
      unfold upd_shared, exec, SharedPtr_Release, Dispose, destroy_object,
        WeakPtr_Expired, WeakPtr_UseCount, WeakPtr_Reset, WeakPtr_Release, WeakPtr_Zeroing.
      mrun_lk. rewrite Hins. reflexivity. }
    split_and!.
    + done.
    + hnorm. by lk.
    + hnorm. by lk.
    + unfold SharedPtr_UseCount, GetStrongRefsCount, load_cb. munfold.
      cbn [sp_cblock_]. hnorm. by lk.
    + cbn [step shared]. rewrite Hi'.
      unfold upd_shared, exec, SharedPtr_Release, load_obj. munfold.
      cbn [sp_cblock_ sp_ptr_]. hnorm. by lk.
  - eexists. split.
    { cbn [run step]. unfold decl_shared, exec, new_object, SharedPtr_from_raw,
        new_ControlBlockPtr.
      mrun_lk. rewrite <- app_assoc. cbn [app]. rewrite Hi.
      unfold upd_shared, exec, SharedPtr_Release, Dispose, destroy_object.
      mrun_lk. rewrite Hins. reflexivity. }
    split_and!.
    + done.
    + hnorm. by lk.
    + hnorm. by lk.
    + unfold SharedPtr_UseCount, GetStrongRefsCount, load_cb. munfold.
      cbn [sp_cblock_]. hnorm. by lk.
    + cbn [step shared]. rewrite Hi'.
      unfold upd_shared, exec, SharedPtr_Release, Dispose, destroy_object.
      mrun_lk. hnorm. by lk.
Qed.

(** From the empty configuration, for a type without the self-reference
    capability: the first destruction disposes of the object through the
    first block, and the second block still counts one owner. *)
Example double_adoption_runs :
  ∃ c,
    run false [SAdoptNew; SAdopt (Some 0); SDestroy 0] init = Ok c ∧
    trace (mem c) =
      [EvDestroy 1; EvDispose 1; EvAlloc Block 2; EvAlloc Block 1; EvAlloc Object 0] ∧
    cblocks (mem c) !! 2 = Some (mkCB 1 0 (ControlBlockPtr (Some 0))) ∧
    run false [SAdoptNew; SAdopt (Some 0); SDestroy 0; SDestroy 1] init
      = Undefined Dangling.
Proof. eexists. split; [vm_compute; reflexivity|]. by vm_compute. Qed.

(** X11: On every configuration a program can reach, a weak handle with a
    control block never dangles: its [UseCount()] is the number of
    [SharedPtr] variables that reference the block (0 once they are all
    gone, the block being kept for the weak handle), and [Expired()] says
    exactly whether that number is 0. *)
Theorem WeakPtr_UseCount_is_number_of_owners (esft : bool) (prog : list op) (n : nat)
    (c : config) :
  cfg_ok esft n c →
  Forall (λ o, adopts_null o = false) prog →
  (Z.of_nat n + 3 * Z.of_nat (length prog) + 1 < size_t_modulus)%Z →
  ∀ c' j w b,
    run esft prog c = Ok c' →
    weak c' !! j = Some w →
    wp_cblock_ w = Some b →
    WeakPtr_UseCount w (mem c') = Ok (Z.of_nat (owners b (shared c')), mem c') ∧
    WeakPtr_Expired w (mem c') = Ok (bool_decide (owners b (shared c') = 0), mem c').
Proof.
  intros Hc Hnull Hlt c' j w b Hrun Hj Hb.
  pose proof (run_ok _ _ _ _ _ Hc Hnull Hlt Hrun) as Hc'.
  destruct (cfg_weak_live _ _ _ _ _ _ Hc' Hj Hb) as [cb Hcb].
  destruct Hc' as [Hinv _].
  destruct (heap_inv_strong _ _ _ _ _ _ Hinv Hcb) as [Hs _].
  assert (Hu : WeakPtr_UseCount w (mem c') = Ok (Z.of_nat (owners b (shared c')), mem c')).
  { unfold WeakPtr_UseCount. rewrite Hb. mrun. rewrite Hcb. by rewrite Hs. }
  split; [done|]. unfold WeakPtr_Expired. munfold. rewrite Hu. do 2 f_equal.
  apply bool_decide_ext. lia.
Qed.

Lemma WeakPtr_UseCount_is_number_of_owners_witness :
  WeakPtr_UseCount (mkWeak (Some 0) (Some 0)) (mem expiry_final) =
    Ok (Z.of_nat (owners 0 (shared expiry_final)), mem expiry_final) ∧
  WeakPtr_Expired (mkWeak (Some 0) (Some 0)) (mem expiry_final) =
    Ok (bool_decide (owners 0 (shared expiry_final) = 0), mem expiry_final).
Proof.
  apply (WeakPtr_UseCount_is_number_of_owners false expiry_prog 0 init) with (j := 0).
  - apply init_ok.
  - unfold expiry_prog. repeat constructor.
  - unfold size_t_modulus. cbn. lia.
  - vm_compute. reflexivity.
  - reflexivity.
  - reflexivity.
Defined.

(** The sample program ends with an expired weak handle on a block that is
    still allocated. *)
Example expiry_prog_runs :
  ∃ c,
    run false expiry_prog init = Ok c ∧
    weak c = [mkWeak (Some 0) (Some 0)] ∧
    cblocks (mem c) !! 0 = Some (mkCB 0 1 ControlBlockHolder) ∧
    WeakPtr_Expired (mkWeak (Some 0) (Some 0)) (mem c) = Ok (true, mem c).
Proof. eexists. split; [vm_compute; reflexivity|]. by vm_compute. Qed.

Lemma owners_empty b sl : Forall (λ s, sp_cblock_ s = None) sl → owners b sl = 0.
Proof.
  induction 1 as [|s sl Hs _ IH]; [done|].
  by rewrite owners_cons, Hs, ind_None, IH.
Qed.

Lemma observers_empty b wl : Forall (λ w, wp_cblock_ w = None) wl → observers b wl = 0.
Proof.
  induction 1 as [|w wl Hw _ IH]; [done|].
  by rewrite observers_cons, Hw, ind_None, IH.
Qed.

(** X12: No control block outlives its handles: when a program over a type
    without the self-reference capability ends with every [SharedPtr] and
    [WeakPtr] variable empty, no control block is allocated any more, and
    every block that was created has been disposed of and destroyed exactly
    once. *)
Theorem no_block_outlives_its_handles (prog : list op) (c : config) :
  Forall (λ o, adopts_null o = false) prog →
  (3 * Z.of_nat (length prog) + 1 < size_t_modulus)%Z →
  run false prog init = Ok c →
  Forall (λ s, sp_cblock_ s = None) (shared c) →
  Forall (λ w, wp_cblock_ w = None) (weak c) →
  cblocks (mem c) = ∅ ∧
  ∀ b, n_created b (trace (mem c)) ≤ 1 ∧
       n_dispose b (trace (mem c)) = n_created b (trace (mem c)) ∧
       n_destroy b (trace (mem c)) = n_created b (trace (mem c)).
Proof.
  intros Hnull Hlt Hrun Hs Hw.
  assert (Hc : cfg_ok false (0 + 3 * length prog) c).
  { eapply run_ok; [apply init_ok|exact Hnull| |exact Hrun]. lia. }
  destruct Hc as [(Hb & _ & _) _].
  assert (Hnone : ∀ b, cblocks (mem c) !! b = None ∧
            n_created b (trace (mem c)) ≤ 1 ∧
            n_dispose b (trace (mem c)) = n_created b (trace (mem c)) ∧
            n_destroy b (trace (mem c)) = n_created b (trace (mem c))).
  { intros b. specialize (Hb b). unfold block_ok in Hb. cbn beta in Hb.
    rewrite (owners_empty b _ Hs), (observers_empty b _ Hw) in Hb.
    destruct (cblocks (mem c) !! b) as [cb|].
    - destruct Hb as (_ & _ & _ & _ & [[]|Hpos] & _). cbn in Hpos. lia.
    - destruct Hb as (_ & _ & ? & ? & ?). done. }
  split.
  - apply map_eq. intros b. rewrite lookup_empty. apply Hnone.
  - intros b. apply Hnone.
Qed.

Lemma no_block_outlives_its_handles_witness :
  cblocks (mem release_all_final) = ∅ ∧
  ∀ b, n_created b (trace (mem release_all_final)) ≤ 1 ∧
       n_dispose b (trace (mem release_all_final)) =
         n_created b (trace (mem release_all_final)) ∧
       n_destroy b (trace (mem release_all_final)) =
         n_created b (trace (mem release_all_final)).
Proof.
  apply (no_block_outlives_its_handles release_all_prog release_all_final).
  - unfold release_all_prog. repeat constructor.
  - unfold size_t_modulus. cbn. lia.
  - vm_compute. reflexivity.
  - unfold release_all_final. repeat constructor.
  - unfold release_all_final. repeat constructor.
Defined.

(** * Intrusive pointers: the counter is the number of handles *)

Ltac rmrun :=
  repeat first
    [ progress
        (unfold mbind, RM_bind, mret, RM_ret, rc_fail, rc_load, rc_store, rc_free, rc_new,
           DefaultDelete_Destroy, RefCounted_IncRef, RefCounted_DecRef,
           RefCounted_RefCount, SimpleCounter_IncRef, SimpleCounter_DecRef,
           SimpleCounter_RefCount, SimpleCounter_new)
    | rewrite lookup_insert_eq
    | rewrite lookup_delete_eq
    | progress cbn ].

Ltac rsimpl := cbn [rc_objects rc_next rc_trace count_] in *.

Lemma rc_count_cons e e' tr :
  rc_count e (e' :: tr) = (if decide (e' = e) then 1 else 0) + rc_count e tr.
Proof. unfold rc_count. rewrite filter_cons. by case_decide. Qed.

Lemma holders_nil o : holders o [] = 0.
Proof. done. Qed.

Lemma holders_cons o s l : holders o (s :: l) = ind (ip_ptr_ s) o + holders o l.
Proof. unfold holders, ind. rewrite filter_cons. by case_decide. Qed.

Lemma holders_app o l1 l2 : holders o (l1 ++ l2) = holders o l1 + holders o l2.
Proof. unfold holders. by rewrite filter_app, length_app. Qed.

Lemma holders_le o l : holders o l ≤ length l.
Proof. apply length_filter. Qed.

Lemma holders_insert o l i s s' :
  l !! i = Some s →
  holders o (<[i := s']> l) + ind (ip_ptr_ s) o = holders o l + ind (ip_ptr_ s') o.
Proof.
  intros Hi. pose proof (lookup_lt_Some _ _ _ Hi) as Hlt.
  rewrite <- (take_drop_middle l i s Hi) at 2.
  rewrite insert_take_drop by done.
  rewrite !holders_app, !holders_cons. lia.
Qed.

Lemma holders_pos o l i s : l !! i = Some s → ip_ptr_ s = Some o → 1 ≤ holders o l.
Proof.
  intros Hi Hp. pose proof (holders_insert o l i s (mkIntrusive None) Hi) as E.
  rewrite Hp, ind_same in E. cbn [ip_ptr_] in E. rewrite ind_None in E. lia.
Qed.

Lemma holders_pos2 o l i j s t :
  l !! i = Some s → l !! j = Some t → i ≠ j →
  ip_ptr_ s = Some o → ip_ptr_ t = Some o → 2 ≤ holders o l.
Proof.
  intros Hi Hj Hne Hs Ht.
  pose proof (holders_insert o l i s (mkIntrusive None) Hi) as E.
  assert (Hj' : <[i := mkIntrusive None]> l !! j = Some t)
    by (by rewrite list_lookup_insert_ne).
  pose proof (holders_pos o _ _ _ Hj' Ht).
  rewrite Hs, ind_same in E. cbn [ip_ptr_] in E. rewrite ind_None in E. lia.
Qed.

Lemma IntrusivePtr_eta s : mkIntrusive (ip_ptr_ s) = s.
Proof. by destruct s. Qed.

Lemma rc_config_eta c : mkRcConfig (rc_mem c) (rc_vars c) = c.
Proof. by destruct c. Qed.

Lemma rc_inv_ext P h n n' : (∀ o, n o = n' o) → rc_inv P h n → rc_inv P h n'.
Proof. intros E [Hb Hf]. split; [|done]. intros o. rewrite <- E. apply Hb. Qed.

Lemma rc_inv_weaken (P P' : addr → Prop) h n :
  (∀ o, P o → P' o) → rc_inv P h n → rc_inv P' h n.
Proof.
  intros HP [Hb Hf]. split; [|done]. intros o. specialize (Hb o). unfold rc_ok in *.
  destruct (rc_objects h !! o); [|done]. destruct Hb as (? & [?|?] & ? & ?); eauto 6.
Qed.

Lemma rc_inv_live P h n o : rc_inv P h n → 0 < n o → is_Some (rc_objects h !! o).
Proof.
  intros [Hb _] Hpos. specialize (Hb o). unfold rc_ok in Hb.
  destruct (rc_objects h !! o); [eauto|]. destruct Hb as [? _]. lia.
Qed.

Lemma rc_inv_count P h n o c :
  rc_inv P h n → rc_objects h !! o = Some c → count_ c = Z.of_nat (n o).
Proof. intros [Hb _] Ho. specialize (Hb o). unfold rc_ok in Hb. rewrite Ho in Hb. apply Hb. Qed.

Lemma rc_inv_lt P h n o : rc_inv P h n → is_Some (rc_objects h !! o) → o < rc_next h.
Proof.
  intros [_ Hf] [c Ho]. destruct (decide (o < rc_next h)) as [|Hge]; [done|].
  destruct (Hf o ltac:(lia)) as [Hn _]. congruence.
Qed.

Lemma IncRef_ok P h n o :
  rc_inv P h n → is_Some (rc_objects h !! o) →
  (Z.of_nat (n o) + 1 < size_t_modulus)%Z →
  ∃ h', RefCounted_IncRef o h = Ok (tt, h') ∧
        rc_inv (λ x, P x ∧ x ≠ o) h' (λ x, n x + ind (Some o) x) ∧
        rc_next h' = rc_next h ∧
        (∀ x, x ≠ o → rc_objects h' !! x = rc_objects h !! x).
Proof.
  intros Hinv [c Ho] Hlt. pose proof (rc_inv_count _ _ _ _ _ Hinv Ho) as Hc.
  pose proof (rc_inv_lt _ _ _ o Hinv ltac:(eauto)) as Hlo.
  destruct Hinv as [Hb Hf].
  eexists. split; [rmrun; rewrite Ho; reflexivity|]. rsimpl. split_and!; [split|done|].
  - intros x. specialize (Hb x). unfold rc_ok in *. rsimpl.
    destruct (decide (x = o)) as [->|Hne].
    + rewrite lookup_insert_eq, ind_same. rewrite Ho in Hb. rsimpl.
      destruct Hb as (_ & _ & ? & ?). rewrite Hc, wrap_succ by lia.
      split_and!; [lia|right; lia|done..].
    + rewrite lookup_insert_ne, ind_other by done. rewrite Nat.add_0_r.
      destruct (rc_objects h !! x); [|done].
      destruct Hb as (? & [?|?] & ? & ?); split_and!; eauto.
  - intros a Ha. rsimpl. rewrite lookup_insert_ne by lia. by apply Hf.
  - intros x Hne. rsimpl. by rewrite lookup_insert_ne.
Qed.

Lemma DecRef_ok P h n o :
  rc_inv P h n → 0 < n o → (Z.of_nat (n o) < size_t_modulus)%Z →
  ∃ h', RefCounted_DecRef o h = Ok (tt, h') ∧
        rc_inv P h' (λ x, n x - ind (Some o) x) ∧
        rc_next h' = rc_next h ∧
        (∀ x, x ≠ o → rc_objects h' !! x = rc_objects h !! x).
Proof.
  intros Hinv Hpos Hlt. destruct (rc_inv_live _ _ _ _ Hinv Hpos) as [c Ho].
  pose proof (rc_inv_count _ _ _ _ _ Hinv Ho) as Hc.
  pose proof (rc_inv_lt _ _ _ o Hinv ltac:(eauto)) as Hlo.
  destruct Hinv as [Hb Hf].
  assert (Hw : wrap (count_ c - 1) = Z.of_nat (n o - 1)).
  { rewrite Hc, wrap_pred by lia. lia. }
  pose proof (Hb o) as Hbo. unfold rc_ok in Hbo. rewrite Ho in Hbo.
  destruct Hbo as (_ & _ & Hnew & Hdel).
  rmrun. rewrite Ho. rmrun. rewrite Hw.
  destruct (decide (n o = 1)) as [H1|H1].
  - rewrite bool_decide_eq_true_2 by lia. rmrun.
    eexists. split; [reflexivity|]. rsimpl. split_and!; [split|done|].
    + intros x. specialize (Hb x). unfold rc_ok in *. rsimpl.
      destruct (decide (x = o)) as [->|Hne].
      * rewrite lookup_delete_eq, ind_same, !rc_count_cons.
        repeat case_decide; simplify_eq; split_and!; lia.
      * rewrite lookup_delete_ne, lookup_insert_ne, ind_other by done.
        rewrite !rc_count_cons. repeat case_decide; simplify_eq. rewrite Nat.sub_0_r.
        destruct (rc_objects h !! x); done.
    + intros a Ha. rsimpl. rewrite lookup_delete_ne, lookup_insert_ne by lia.
      rewrite rc_count_cons. case_decide; simplify_eq. by apply Hf.
    + intros x Hne. rsimpl. by rewrite lookup_delete_ne, lookup_insert_ne.
  - rewrite bool_decide_eq_false_2 by lia.
    eexists. split; [reflexivity|]. rsimpl. split_and!; [split|done|].
    + intros x. specialize (Hb x). unfold rc_ok in *. rsimpl.
      destruct (decide (x = o)) as [->|Hne].
      * rewrite lookup_insert_eq, ind_same. rsimpl. split_and!; [done|right; lia|done..].
      * rewrite lookup_insert_ne, ind_other by done. rewrite Nat.sub_0_r.
        destruct (rc_objects h !! x); done.
    + intros a Ha. rsimpl. rewrite lookup_insert_ne by lia. by apply Hf.
    + intros x Hne. rsimpl. by rewrite lookup_insert_ne.
Qed.

Lemma rc_new_ok P h n :
  rc_inv P h n →
  ∃ h', rc_new h = Ok (rc_next h, h') ∧
        rc_inv (λ x, P x ∨ x = rc_next h) h' n ∧
        rc_next h' = S (rc_next h) ∧
        is_Some (rc_objects h' !! rc_next h) ∧
        n (rc_next h) = 0.
Proof.
  intros [Hb Hf]. destruct (Hf (rc_next h) ltac:(lia)) as [Hnone Hnew].
  pose proof (Hb (rc_next h)) as Hbn. unfold rc_ok in Hbn. rewrite Hnone in Hbn.
  destruct Hbn as (Hn0 & _ & Hdel).
  eexists. split; [reflexivity|]. rsimpl. split_and!; [split| |by rewrite lookup_insert_eq|done].
  - intros x. specialize (Hb x). unfold rc_ok in *. rsimpl.
    destruct (decide (x = rc_next h)) as [->|Hne].
    + rewrite lookup_insert_eq, !rc_count_cons. cbn [SimpleCounter_new count_].
      repeat case_decide; simplify_eq. split_and!; [lia|by left; right|lia|lia].
    + rewrite lookup_insert_ne by done. rewrite !rc_count_cons.
      repeat case_decide; simplify_eq.
      destruct (rc_objects h !! x); [|done].
      destruct Hb as (? & [?|?] & ? & ?); split_and!; eauto.
  - intros a Ha. rsimpl. rewrite lookup_insert_ne by lia.
    rewrite rc_count_cons. case_decide; simplify_eq; [lia|]. apply Hf. lia.
  - done.
Qed.

(** [if (ptr != nullptr) ptr->IncRef();] *)
Lemma acquire_ok P h n (p : ptr) :
  rc_inv P h n →
  (∀ o, p = Some o →
     is_Some (rc_objects h !! o) ∧ (Z.of_nat (n o) + 1 < size_t_modulus)%Z) →
  ∃ h', (if p is Some o then RefCounted_IncRef o else (mret tt : RM unit)) h = Ok (tt, h') ∧
        rc_inv (λ x, P x ∧ p ≠ Some x) h' (λ x, n x + ind p x) ∧
        rc_next h' = rc_next h.
Proof.
  intros Hinv Hp. destruct p as [o|].
  - destruct (Hp o eq_refl) as [Hlive Hlt].
    destruct (IncRef_ok _ _ _ _ Hinv Hlive Hlt) as (h' & Hrun & Hinv' & Hn & _).
    exists h'. split_and!; [done| |done].
    eapply rc_inv_weaken; [|exact Hinv']. intros x [? ?]. split; [done|congruence].
  - exists h. split_and!; [done| |done].
    eapply rc_inv_ext; [|eapply rc_inv_weaken; [|exact Hinv]].
    + intros x. by rewrite ind_None, Nat.add_0_r.
    + intros x ?. cbn. done.
Qed.

Lemma IntrusivePtr_Release_ok P h n s :
  rc_inv P h n →
  (∀ o, ip_ptr_ s = Some o → 0 < n o ∧ (Z.of_nat (n o) < size_t_modulus)%Z) →
  ∃ h', IntrusivePtr_Release s h = Ok (mkIntrusive None, h') ∧
        rc_inv P h' (λ x, n x - ind (ip_ptr_ s) x) ∧
        rc_next h' = rc_next h ∧
        (∀ x, ip_ptr_ s ≠ Some x → rc_objects h' !! x = rc_objects h !! x).
Proof.
  intros Hinv Hp. unfold IntrusivePtr_Release. destruct (ip_ptr_ s) as [o|].
  - destruct (Hp o eq_refl) as [Hpos Hlt].
    destruct (DecRef_ok _ _ _ _ Hinv Hpos Hlt) as (h' & Hrun & Hinv' & Hn & Hfr).
    exists h'. split_and!; [|done|done|].
    + unfold mbind, RM_bind. by rewrite Hrun.
    + intros x Hne. apply Hfr. congruence.
  - exists h. split_and!; [done| |done|done].
    eapply rc_inv_ext; [|exact Hinv]. intros x. by rewrite ind_None, Nat.sub_0_r.
Qed.

Lemma rc_cfg_bound N c o :
  rc_cfg_ok N c → (Z.of_nat N + 1 < size_t_modulus)%Z →
  (Z.of_nat (holders o (rc_vars c)) + 1 < size_t_modulus)%Z.
Proof. intros [_ Hn] Hlt. pose proof (holders_le o (rc_vars c)). lia. Qed.

Lemma rm_bind_eq {A B} (m : RM A) (f : A → RM B) h a h1 :
  m h = Ok (a, h1) → (m ≫= f) h = f a h1.
Proof. intros E. unfold mbind, RM_bind. by rewrite E. Qed.

Lemma IntrusivePtr_from_raw_ok P h n (p : ptr) :
  rc_inv P h n →
  (∀ o, p = Some o →
     is_Some (rc_objects h !! o) ∧ (Z.of_nat (n o) + 1 < size_t_modulus)%Z) →
  ∃ h', IntrusivePtr_from_raw p h = Ok (mkIntrusive p, h') ∧
        rc_inv (λ x, P x ∧ p ≠ Some x) h' (λ x, n x + ind p x) ∧
        rc_next h' = rc_next h.
Proof.
  intros Hinv Hp. destruct (acquire_ok _ _ _ p Hinv Hp) as (h' & Hrun & Hinv' & Hn).
  exists h'. split_and!; [|done..]. unfold IntrusivePtr_from_raw.
  by rewrite (rm_bind_eq _ _ _ _ _ Hrun).
Qed.

Lemma IntrusivePtr_copy_ok P h n s :
  rc_inv P h n →
  (∀ o, ip_ptr_ s = Some o →
     is_Some (rc_objects h !! o) ∧ (Z.of_nat (n o) + 1 < size_t_modulus)%Z) →
  ∃ h', IntrusivePtr_copy s h = Ok (mkIntrusive (ip_ptr_ s), h') ∧
        rc_inv (λ x, P x ∧ ip_ptr_ s ≠ Some x) h' (λ x, n x + ind (ip_ptr_ s) x) ∧
        rc_next h' = rc_next h.
Proof. apply IntrusivePtr_from_raw_ok. Qed.

Lemma IntrusivePtr_move_ok P h n s :
  rc_inv P h n →
  (∀ o, ip_ptr_ s = Some o →
     is_Some (rc_objects h !! o) ∧ (Z.of_nat (n o) + 1 < size_t_modulus)%Z) →
  ∃ h', IntrusivePtr_move s h = Ok ((mkIntrusive (ip_ptr_ s), mkIntrusive None), h') ∧
        rc_inv P h' n ∧ rc_next h' = rc_next h.
Proof.
  intros Hinv Hp. destruct (acquire_ok _ _ _ _ Hinv Hp) as (h1 & Hrun1 & Hinv1 & Hn1).
  destruct (IntrusivePtr_Release_ok _ _ _ s Hinv1) as (h2 & Hrun2 & Hinv2 & Hn2 & _).
  { intros o Ho. rewrite Ho, ind_same. destruct (Hp o Ho). lia. }
  exists h2. split_and!; [| |congruence].
  - unfold IntrusivePtr_move. rewrite (rm_bind_eq _ _ _ _ _ Hrun1).
    by rewrite (rm_bind_eq _ _ _ _ _ Hrun2).
  - eapply rc_inv_ext; [|eapply rc_inv_weaken; [|exact Hinv2]].
    + intros x. cbn. lia.
    + intros x [? _]. done.
Qed.

Lemma IntrusivePtr_Reset_ptr_ok P h n this (p : ptr) :
  rc_inv P h n →
  (∀ o, ip_ptr_ this = Some o → 0 < n o) →
  (∀ o, (Z.of_nat (n o) + 1 < size_t_modulus)%Z) →
  (∀ o, p = Some o →
     is_Some (rc_objects h !! o) ∧ (ip_ptr_ this = Some o → 2 ≤ n o)) →
  ∃ h', IntrusivePtr_Reset_ptr this p h = Ok (mkIntrusive p, h') ∧
        rc_inv (λ x, P x ∧ p ≠ Some x) h'
          (λ x, n x - ind (ip_ptr_ this) x + ind p x) ∧
        rc_next h' = rc_next h.
Proof.
  intros Hinv Hthis Hlt Hp.
  destruct (IntrusivePtr_Release_ok _ _ _ this Hinv) as (h1 & Hrun1 & Hinv1 & Hn1 & Hfr).
  { intros o Ho. split; [by apply Hthis|]. specialize (Hlt o). lia. }
  destruct (acquire_ok _ _ _ p Hinv1) as (h2 & Hrun2 & Hinv2 & Hn2).
  { intros o ->. destruct (Hp o eq_refl) as [Hlive H2]. split.
    - destruct (decide (ip_ptr_ this = Some o)) as [E|E].
      + apply (rc_inv_live _ _ _ _ Hinv1). cbn. rewrite E, ind_same.
        specialize (H2 E). lia.
      + by rewrite Hfr.
    - cbn. specialize (Hlt o). lia. }
  exists h2. split_and!; [|done|congruence].
  unfold IntrusivePtr_Reset_ptr. rewrite (rm_bind_eq _ _ _ _ _ Hrun1).
  by rewrite (rm_bind_eq _ _ _ _ _ Hrun2).
Qed.

Lemma IntrusivePtr_assign_copy_ok P h n this other :
  rc_inv P h n →
  (∀ o, ip_ptr_ this = Some o → 0 < n o) →
  (∀ o, ip_ptr_ other = Some o → 0 < n o) →
  (∀ o, (Z.of_nat (n o) + 1 < size_t_modulus)%Z) →
  ∃ h', IntrusivePtr_assign_copy this other h = Ok (mkIntrusive (ip_ptr_ other), h') ∧
        rc_inv P h' (λ x, n x - ind (ip_ptr_ this) x + ind (ip_ptr_ other) x) ∧
        rc_next h' = rc_next h.
Proof.
  intros Hinv Hthis Hother Hlt. unfold IntrusivePtr_assign_copy.
  case_bool_decide as Heq.
  - exists h. split_and!; [|..|done].
    + rewrite <- Heq. by rewrite IntrusivePtr_eta.
    + eapply rc_inv_ext; [|exact Hinv]. intros x. cbn. rewrite <- Heq.
      unfold ind. case_decide as E; [|lia]. specialize (Hthis x E). lia.
  - destruct (IntrusivePtr_Reset_ptr_ok _ _ _ this (ip_ptr_ other) Hinv Hthis Hlt)
      as (h' & Hrun & Hinv' & Hn).
    { intros o Ho. split; [|congruence].
      apply (rc_inv_live _ _ _ _ Hinv). by apply Hother. }
    exists h'. split_and!; [exact Hrun| |done].
    eapply rc_inv_weaken; [|exact Hinv']. by intros x [? _].
Qed.

Lemma IntrusivePtr_assign_move_ok P h n this other :
  rc_inv P h n →
  (∀ o, ip_ptr_ this = Some o → 0 < n o) →
  (∀ o, ip_ptr_ other = Some o → 0 < n o) →
  (∀ o, (Z.of_nat (n o) + 1 < size_t_modulus)%Z) →
  (ip_ptr_ this = ip_ptr_ other ∧
   IntrusivePtr_assign_move this other h = Ok ((this, other), h)) ∨
  (ip_ptr_ this ≠ ip_ptr_ other ∧
   ∃ h', IntrusivePtr_assign_move this other h =
           Ok ((mkIntrusive (ip_ptr_ other), mkIntrusive None), h') ∧
         rc_inv P h' (λ x, n x - ind (ip_ptr_ this) x) ∧
         rc_next h' = rc_next h).
Proof.
  intros Hinv Hthis Hother Hlt. unfold IntrusivePtr_assign_move.
  case_bool_decide as Heq; [by left|]. right. split; [done|].
  destruct (IntrusivePtr_Reset_ptr_ok _ _ _ this (ip_ptr_ other) Hinv Hthis Hlt)
    as (h1 & Hrun1 & Hinv1 & Hn1).
  { intros o Ho. split; [|congruence].
    apply (rc_inv_live _ _ _ _ Hinv). by apply Hother. }
  destruct (IntrusivePtr_Release_ok _ _ _ other Hinv1) as (h2 & Hrun2 & Hinv2 & Hn2 & _).
  { intros o Ho. cbn. rewrite Ho, ind_same. specialize (Hlt o). lia. }
  exists h2. split_and!; [| |congruence].
  - unfold IntrusivePtr_Reset_ptr in Hrun1.
    unfold mbind, RM_bind in *.
    destruct (IntrusivePtr_Release this h) as [[a ha]| |]; [|done..].
    destruct ((if ip_ptr_ other is Some o then RefCounted_IncRef o else mret tt) ha)
      as [[u hu]| |]; [|done..].
    unfold mret, RM_ret in Hrun1. injection Hrun1 as <-. by rewrite Hrun2.
  - eapply rc_inv_ext; [|eapply rc_inv_weaken; [|exact Hinv2]].
    + intros x. cbn. lia.
    + by intros x [? _].
Qed.

Lemma rc_cfg_intro N (P : addr → Prop) h n l :
  rc_inv P h n → (∀ x, ¬ P x) → (∀ x, n x = holders x l) → length l ≤ N →
  rc_cfg_ok N (mkRcConfig h l).
Proof.
  intros Hinv HP Hn Hlen. split; [|done]. cbn.
  eapply rc_inv_ext; [exact Hn|]. eapply rc_inv_weaken; [|exact Hinv].
  intros x Hx. by apply HP in Hx.
Qed.

Lemma rc_exec_eq {A} c (m : RM A) k a h' :
  m (rc_mem c) = Ok (a, h') → rc_exec c m k = Ok (k a h').
Proof. intros E. unfold rc_exec. by rewrite E. Qed.

Lemma holders_snoc o l s : holders o (l ++ [s]) = holders o l + ind (ip_ptr_ s) o.
Proof. rewrite holders_app, holders_cons, holders_nil. lia. Qed.

Lemma ind_le1 c x : ind c x ≤ 1.
Proof. unfold ind. case_decide; lia. Qed.

Lemma holders_ge_ind o l i s : l !! i = Some s → ind (ip_ptr_ s) o ≤ holders o l.
Proof.
  intros Hi. unfold ind. case_decide as E; [|lia]. by eapply holders_pos.
Qed.

(** Every statement either runs and keeps the configuration well formed,
    or is [p_i.Reset(p_i.Get())] on the only handle of its object, which
    deletes the object and then increments its counter. *)
Lemma rc_step_ok N o c :
  rc_cfg_ok N c → (Z.of_nat N + 1 < size_t_modulus)%Z →
  (∃ c', rc_step o c = Ok c' ∧ rc_cfg_ok (S N) c') ∨
  (∃ i s x, o = IResetRaw i i ∧ rc_vars c !! i = Some s ∧ ip_ptr_ s = Some x ∧
            holders x (rc_vars c) = 1 ∧ rc_step o c = Undefined Dangling).
Proof.
  intros Hc Hlt. pose proof Hc as [Hinv Hlen].
  assert (Hbound : ∀ x, (Z.of_nat (holders x (rc_vars c)) + 1 < size_t_modulus)%Z).
  { intros x. by eapply rc_cfg_bound. }
  assert (Hpos : ∀ i s x, rc_vars c !! i = Some s → ip_ptr_ s = Some x →
            0 < holders x (rc_vars c)).
  { intros i s x Hi Hx. pose proof (holders_pos _ _ _ _ Hi Hx). lia. }
  assert (Hlive : ∀ i s x, rc_vars c !! i = Some s → ip_ptr_ s = Some x →
            is_Some (rc_objects (rc_mem c) !! x)).
  { intros i s x Hi Hx. apply (rc_inv_live _ _ _ _ Hinv). by eapply Hpos. }
  assert (Hskip : (∃ c', Ok c = Ok c' ∧ rc_cfg_ok (S N) c') ∨
            (∃ i s x, o = IResetRaw i i ∧ rc_vars c !! i = Some s ∧ ip_ptr_ s = Some x ∧
               holders x (rc_vars c) = 1 ∧ @Ok rc_config c = Undefined Dangling)).
  { left. exists c. split; [done|]. destruct Hc. split; [done|lia]. }
  destruct o; cbn [rc_step];
    repeat match goal with
    | |- context [rc_vars c !! ?i] =>
        let s := fresh "s" in let E := fresh "E" in
        destruct (rc_vars c !! i) as [s|] eqn:E; [|exact Hskip]
    end.
  - (* IDefault *)
    left. eexists. split; [reflexivity|]. cbn.
    eapply rc_cfg_intro; [exact Hinv|by intros ? []| |rewrite length_app; cbn; lia].
    intros x. by rewrite holders_snoc, ind_None, Nat.add_0_r.
  - (* IMake *)
    left. destruct (rc_new_ok _ _ _ Hinv) as (h1 & Hrun1 & Hinv1 & Hn1 & Hl1 & Hz).
    destruct (IntrusivePtr_from_raw_ok _ _ _ (Some (rc_next (rc_mem c))) Hinv1)
      as (h2 & Hrun2 & Hinv2 & Hn2).
    { intros x [= <-]. split; [done|]. rewrite Hz. unfold size_t_modulus. cbn. lia. }
    eexists. split.
    { unfold rc_decl. apply rc_exec_eq. unfold MakeIntrusive.
      rewrite (rm_bind_eq _ _ _ _ _ Hrun1). exact Hrun2. }
    eapply rc_cfg_intro; [exact Hinv2| | |rewrite length_app; cbn; lia].
    + intros x [[[]|Hx] Hne]. subst. by destruct Hne.
    + intros x. by rewrite holders_snoc.
  - (* IFromRaw *)
    left. destruct (IntrusivePtr_from_raw_ok _ _ _ (IntrusivePtr_Get s) Hinv)
      as (h' & Hrun & Hinv' & Hn); [by eauto|].
    eexists. split; [unfold rc_decl; by apply rc_exec_eq|].
    eapply rc_cfg_intro; [exact Hinv'|by intros x [[] _]| |rewrite length_app; cbn; lia].
    intros x. by rewrite holders_snoc.
  - (* ICopy *)
    left. destruct (IntrusivePtr_copy_ok _ _ _ s Hinv) as (h' & Hrun & Hinv' & Hn);
      [by eauto|].
    eexists. split; [unfold rc_decl; by apply rc_exec_eq|].
    eapply rc_cfg_intro; [exact Hinv'|by intros x [[] _]| |rewrite length_app; cbn; lia].
    intros x. by rewrite holders_snoc.
  - (* IMove *)
    left. destruct (IntrusivePtr_move_ok _ _ _ s Hinv) as (h' & Hrun & Hinv' & Hn);
      [by eauto|].
    eexists. split; [by apply rc_exec_eq|]. cbn [fst snd].
    eapply rc_cfg_intro; [exact Hinv'|by intros ? []| |].
    + intros x. rewrite holders_snoc. cbn [ip_ptr_].
      pose proof (holders_insert x _ _ _ (mkIntrusive None) E) as E1.
      cbn [ip_ptr_] in E1. rewrite ind_None in E1. lia.
    + rewrite length_app, length_insert. cbn. lia.
  - (* ICopyAssign *)
    left. destruct (IntrusivePtr_assign_copy_ok _ _ _ s s0 Hinv) as (h' & Hrun & Hinv' & Hn);
      [by eauto..|].
    eexists. split; [unfold rc_upd; by apply rc_exec_eq|].
    eapply rc_cfg_intro; [exact Hinv'|by intros ? []| |rewrite length_insert; lia].
    intros x. cbn beta. pose proof (holders_insert x _ _ _ (mkIntrusive (ip_ptr_ s0)) E) as E1.
    pose proof (holders_ge_ind x _ _ _ E). cbn [ip_ptr_] in E1. lia.
  - (* IMoveAssign *)
    left. destruct (IntrusivePtr_assign_move_ok _ _ _ s s0 Hinv)
      as [[Heq Hrun]|(Hne & h' & Hrun & Hinv' & Hn)]; [by eauto..| |].
    + eexists. split; [by apply rc_exec_eq|]. cbn [fst snd].
      rewrite (list_insert_id (rc_vars c) j s0) by done.
      rewrite list_insert_id by done. rewrite rc_config_eta. destruct Hc. split; [done|lia].
    + assert (Hij : i ≠ j) by (intros ->; congruence).
      eexists. split; [by apply rc_exec_eq|]. cbn [fst snd].
      eapply rc_cfg_intro; [exact Hinv'|by intros ? []| |rewrite !length_insert; lia].
      intros x. cbn beta.
      assert (E' : <[j := mkIntrusive None]> (rc_vars c) !! i = Some s)
        by (by rewrite list_lookup_insert_ne).
      pose proof (holders_insert x _ _ _ (mkIntrusive (ip_ptr_ s0)) E') as E1.
      pose proof (holders_insert x _ _ _ (mkIntrusive None) E0) as E2.
      pose proof (holders_ge_ind x _ _ _ E).
      cbn [ip_ptr_] in E1, E2. rewrite ind_None in E2. lia.
  - (* IReset *)
    left. destruct (IntrusivePtr_Release_ok _ _ _ s Hinv) as (h' & Hrun & Hinv' & Hn & _).
    { intros x Hx. split; [by eauto|]. specialize (Hbound x). lia. }
    eexists. split; [unfold rc_upd; by apply rc_exec_eq|].
    eapply rc_cfg_intro; [exact Hinv'|by intros ? []| |rewrite length_insert; lia].
    intros x. cbn beta. pose proof (holders_insert x _ _ _ (mkIntrusive None) E) as E1.
    pose proof (holders_ge_ind x _ _ _ E). cbn [ip_ptr_] in E1. rewrite ind_None in E1. lia.
  - (* IResetRaw *)
    assert (Hcase : (∃ x, i = j ∧ ip_ptr_ s = Some x ∧ holders x (rc_vars c) = 1) ∨
              ¬ (∃ x, i = j ∧ ip_ptr_ s = Some x ∧ holders x (rc_vars c) = 1)).
    { destruct (decide (i = j)) as [->|?]; [|right; by intros (? & ? & _)].
      destruct (ip_ptr_ s) as [x|] eqn:Hx; [|right; by intros (? & _ & ? & _)].
      destruct (decide (holders x (rc_vars c) = 1)); [left; eauto|].
      right. by intros (y & _ & [= <-] & ?). }
    destruct Hcase as [(x & -> & Hx & H1)|Hsafe].
    + right. exists j, s, x. split_and!; try done.
      assert (s0 = s) as -> by congruence.
      destruct (IntrusivePtr_Release_ok _ _ _ s Hinv) as (h1 & Hrun1 & Hinv1 & Hn1 & _).
      { intros y Hy. split; [by eauto|]. specialize (Hbound y). lia. }
      unfold rc_upd, rc_exec, IntrusivePtr_Reset_ptr, IntrusivePtr_Get.
      rewrite (rm_bind_eq _ _ _ _ _ Hrun1). rewrite Hx.
      destruct Hinv1 as [Hb1 _]. specialize (Hb1 x). unfold rc_ok in Hb1. cbn beta in Hb1.
      rewrite Hx, ind_same, H1 in Hb1.
      destruct (rc_objects h1 !! x) as [cx|] eqn:Ho1.
      { destruct Hb1 as (_ & [[]|?] & _). lia. }
      rmrun. by rewrite Ho1.
    + left.
      destruct (IntrusivePtr_Reset_ptr_ok _ _ _ s (IntrusivePtr_Get s0) Hinv)
        as (h' & Hrun & Hinv' & Hn); [by eauto|done| |].
      { intros x Hx. split; [by eauto|]. intros Hs.
        destruct (decide (i = j)) as [->|Hij].
        - assert (holders x (rc_vars c) ≠ 1) by (intros ?; apply Hsafe; eauto).
          pose proof (Hpos _ _ _ E Hs). lia.
        - by eapply (holders_pos2 x _ i j). }
      eexists. split; [unfold rc_upd; by apply rc_exec_eq|].
      eapply rc_cfg_intro; [exact Hinv'|by intros x [[] _]| |rewrite length_insert; lia].
      intros x. cbn beta. pose proof (holders_insert x _ _ _ (mkIntrusive (IntrusivePtr_Get s0)) E) as E1.
      pose proof (holders_ge_ind x _ _ _ E). cbn [ip_ptr_] in E1. lia.
  - (* IResetNew *)
    left. destruct (rc_new_ok _ _ _ Hinv) as (h1 & Hrun1 & Hinv1 & Hn1 & Hl1 & Hz).
    destruct (IntrusivePtr_Reset_ptr_ok _ _ _ s (Some (rc_next (rc_mem c))) Hinv1)
      as (h2 & Hrun2 & Hinv2 & Hn2); [by eauto|done| |].
    { intros x [= <-]. split; [done|]. intros Hs. pose proof (Hpos _ _ _ E Hs). lia. }
    eexists. split.
    { unfold rc_upd. apply rc_exec_eq. rewrite (rm_bind_eq _ _ _ _ _ Hrun1). exact Hrun2. }
    eapply rc_cfg_intro; [exact Hinv2| | |rewrite length_insert; lia].
    + intros x [[[]|Hx] Hne]. subst. by destruct Hne.
    + intros x. cbn beta.
      pose proof (holders_insert x _ _ _ (mkIntrusive (Some (rc_next (rc_mem c)))) E) as E1.
      pose proof (holders_ge_ind x _ _ _ E). cbn [ip_ptr_] in E1. lia.
  - (* ISwap *)
    left. eexists. split; [reflexivity|]. unfold IntrusivePtr_Swap. cbn [fst snd].
    rewrite !IntrusivePtr_eta.
    eapply rc_cfg_intro; [exact Hinv|by intros ? []| |rewrite !length_insert; lia].
    intros x. destruct (decide (i = j)) as [->|Hij].
    + assert (s0 = s) as -> by congruence.
      rewrite list_insert_insert_eq. by rewrite list_insert_id.
    + assert (E' : <[j := s]> (rc_vars c) !! i = Some s)
        by (by rewrite list_lookup_insert_ne).
      pose proof (holders_insert x _ _ _ s0 E') as E1.
      pose proof (holders_insert x _ _ _ s E0) as E2. lia.
  - (* IDestroy *)
    left. destruct (IntrusivePtr_Release_ok _ _ _ s Hinv) as (h' & Hrun & Hinv' & Hn & _).
    { intros x Hx. split; [by eauto|]. specialize (Hbound x). lia. }
    eexists. split; [unfold rc_upd; by apply rc_exec_eq|].
    eapply rc_cfg_intro; [exact Hinv'|by intros ? []| |rewrite length_insert; lia].
    intros x. cbn beta. pose proof (holders_insert x _ _ _ (mkIntrusive None) E) as E1.
    pose proof (holders_ge_ind x _ _ _ E). cbn [ip_ptr_] in E1. rewrite ind_None in E1. lia.
Qed.

Lemma rc_cfg_ok_mono N N' c : N ≤ N' → rc_cfg_ok N c → rc_cfg_ok N' c.
Proof. intros ? [? ?]. split; [done|lia]. Qed.

Lemma rc_init_ok : rc_cfg_ok 0 rc_init.
Proof.
  split; [|done]. split.
  - intros o. unfold rc_ok. cbn. rewrite lookup_empty. split_and!; done || lia.
  - intros a _. cbn. by rewrite lookup_empty.
Qed.

Lemma rc_run_ok prog :
  ∀ N c,
    rc_cfg_ok N c →
    (Z.of_nat N + Z.of_nat (length prog) + 1 < size_t_modulus)%Z →
    (∃ c', rc_run prog c = Ok c' ∧ rc_cfg_ok (N + length prog) c') ∨
    (rc_run prog c = Undefined Dangling ∧ Exists (λ o, self_reset o = true) prog).
Proof.
  induction prog as [|o prog IH]; intros N c Hc Hlt; cbn [rc_run length] in *.
  - left. exists c. split; [done|]. by rewrite Nat.add_0_r.
  - destruct (rc_step_ok N o c Hc ltac:(lia))
      as [(c1 & Hstep & Hc1)|(i & s & x & -> & _ & _ & _ & Hstep)]; rewrite Hstep.
    + destruct (IH (S N) c1 Hc1 ltac:(lia)) as [(c' & Hrun & Hc')|[Hrun Hex]].
      * left. exists c'. split; [done|]. eapply rc_cfg_ok_mono; [|exact Hc']. lia.
      * right. split; [done|]. by right.
    + right. split; [done|]. left. cbn. by rewrite bool_decide_eq_true_2.
Qed.

(** X15: On every configuration that a program over [IntrusivePtr] variables
    reaches, [UseCount()] of a non-empty handle is the number of variables
    that point to its object; an object is allocated exactly while some
    variable points to it, and it is deleted exactly once, when the last
    one lets go. *)
Theorem IntrusivePtr_UseCount_is_number_of_holders (prog : list rc_op) :
  (Z.of_nat (length prog) + 1 < size_t_modulus)%Z →
  ∀ c,
    rc_run prog rc_init = Ok c →
    (∀ i s o, rc_vars c !! i = Some s → ip_ptr_ s = Some o →
       IntrusivePtr_UseCount s (rc_mem c) =
         Ok (Z.of_nat (holders o (rc_vars c)), rc_mem c)) ∧
    (∀ o, (is_Some (rc_objects (rc_mem c) !! o) ↔ 0 < holders o (rc_vars c)) ∧
          rc_count (RcNew o) (rc_trace (rc_mem c)) ≤ 1 ∧
          rc_count (RcDelete o) (rc_trace (rc_mem c)) =
            (if decide (0 < holders o (rc_vars c)) then 0
             else rc_count (RcNew o) (rc_trace (rc_mem c)))).
Proof.
  intros Hlt c Hrun.
  destruct (rc_run_ok prog 0 rc_init rc_init_ok ltac:(lia)) as [(c' & Hrun' & Hc)|[Hrun' _]];
    [|congruence].
  assert (c' = c) as -> by congruence. destruct Hc as [Hinv _]. split.
  - intros i s o Hi Ho. pose proof (holders_pos _ _ _ _ Hi Ho) as Hpos.
    destruct (rc_inv_live _ _ _ o Hinv ltac:(lia)) as [cnt Hcnt].
    pose proof (rc_inv_count _ _ _ _ _ Hinv Hcnt) as Hc. cbn beta in Hc.
    unfold IntrusivePtr_UseCount. rewrite Ho. rmrun. rewrite Hcnt. by rewrite <- Hc.
  - intros o. destruct Hinv as [Hb _]. specialize (Hb o). unfold rc_ok in Hb.
    cbn beta in Hb. destruct (rc_objects (rc_mem c) !! o) as [cnt|].
    + destruct Hb as (_ & [[]|Hpos] & Hnew & Hdel).
      rewrite decide_True by done. split_and!; [split; eauto|lia|done].
    + destruct Hb as (Hz & Hnew & Hdel). rewrite decide_False by lia.
      split_and!; [|done..]. split; [by intros [? ?]|lia].
Qed.

Lemma IntrusivePtr_UseCount_is_number_of_holders_witness :
  (∀ i s o, rc_vars rc_demo_mid !! i = Some s → ip_ptr_ s = Some o →
     IntrusivePtr_UseCount s (rc_mem rc_demo_mid) =
       Ok (Z.of_nat (holders o (rc_vars rc_demo_mid)), rc_mem rc_demo_mid)) ∧
  (∀ o, (is_Some (rc_objects (rc_mem rc_demo_mid) !! o) ↔ 0 < holders o (rc_vars rc_demo_mid)) ∧
        rc_count (RcNew o) (rc_trace (rc_mem rc_demo_mid)) ≤ 1 ∧
        rc_count (RcDelete o) (rc_trace (rc_mem rc_demo_mid)) =
          (if decide (0 < holders o (rc_vars rc_demo_mid)) then 0
           else rc_count (RcNew o) (rc_trace (rc_mem rc_demo_mid)))).
Proof.
  apply (IntrusivePtr_UseCount_is_number_of_holders (take 9 rc_demo_prog)).
  - unfold size_t_modulus. cbn. lia.
  - vm_compute. reflexivity.
Defined.

(** The sample program, stopped after nine statements and at its end. *)
Example rc_demo_prog_runs :
  (∃ c, rc_run (take 9 rc_demo_prog) rc_init = Ok c ∧
        rc_vars c = [mkIntrusive (Some 1); mkIntrusive (Some 0); mkIntrusive (Some 1);
                     mkIntrusive None; mkIntrusive (Some 0)] ∧
        IntrusivePtr_UseCount (mkIntrusive (Some 0)) (rc_mem c) = Ok (2%Z, rc_mem c) ∧
        IntrusivePtr_UseCount (mkIntrusive (Some 1)) (rc_mem c) = Ok (2%Z, rc_mem c)) ∧
  (∃ c, rc_run rc_demo_prog rc_init = Ok c ∧
        rc_objects (rc_mem c) = ∅ ∧
        rc_trace (rc_mem c) = [RcDelete 1; RcDelete 0; RcNew 1; RcNew 0]).
Proof.
  split; (eexists; split; [vm_compute; reflexivity|]); by vm_compute.
Qed.

(** X16: A program over [IntrusivePtr] variables never dereferences a null
    pointer, and the only statement that can go wrong is
    [p_i.Reset(p_i.Get())]: a program without it runs to the end, and a
    program that does not run to the end has used an object after its
    deletion and contains that statement. *)
Theorem IntrusivePtr_programs_are_defined (prog : list rc_op) :
  (Z.of_nat (length prog) + 1 < size_t_modulus)%Z →
  ((∃ c, rc_run prog rc_init = Ok c) ∨
   (rc_run prog rc_init = Undefined Dangling ∧
    Exists (λ o, self_reset o = true) prog)) ∧
  (Forall (λ o, self_reset o = false) prog → ∃ c, rc_run prog rc_init = Ok c).
Proof.
  intros Hlt.
  destruct (rc_run_ok prog 0 rc_init rc_init_ok ltac:(lia)) as [(c' & Hrun & _)|[Hrun Hex]].
  - split; [left|]; eauto.
  - split; [by right|]. intros Hall. exfalso.
    apply Exists_exists in Hex as (o & Hin & Ho).
    rewrite Forall_forall in Hall. specialize (Hall o Hin). congruence.
Qed.

Lemma IntrusivePtr_programs_are_defined_witness :
  ((∃ c, rc_run rc_demo_prog rc_init = Ok c) ∨
   (rc_run rc_demo_prog rc_init = Undefined Dangling ∧
    Exists (λ o, self_reset o = true) rc_demo_prog)) ∧
  (Forall (λ o, self_reset o = false) rc_demo_prog →
   ∃ c, rc_run rc_demo_prog rc_init = Ok c).
Proof.
  apply (IntrusivePtr_programs_are_defined rc_demo_prog).
  unfold size_t_modulus. cbn. lia.
Defined.

Lemma holders_empty o l : Forall (λ s, ip_ptr_ s = None) l → holders o l = 0.
Proof.
  induction 1 as [|s l Hs _ IH]; [done|].
  by rewrite holders_cons, Hs, ind_None, IH.
Qed.

(** X17: No object outlives its handles: when a program ends with every
    [IntrusivePtr] variable empty, no object is allocated any more and
    every object that was created has been deleted exactly once. *)
Theorem IntrusivePtr_no_leak (prog : list rc_op) :
  (Z.of_nat (length prog) + 1 < size_t_modulus)%Z →
  ∀ c,
    rc_run prog rc_init = Ok c →
    Forall (λ s, ip_ptr_ s = None) (rc_vars c) →
    rc_objects (rc_mem c) = ∅ ∧
    ∀ o, rc_count (RcNew o) (rc_trace (rc_mem c)) ≤ 1 ∧
         rc_count (RcDelete o) (rc_trace (rc_mem c)) =
           rc_count (RcNew o) (rc_trace (rc_mem c)).
Proof.
  intros Hlt c Hrun Hempty.
  destruct (rc_run_ok prog 0 rc_init rc_init_ok ltac:(lia)) as [(c' & Hrun' & Hc)|[Hrun' _]];
    [|congruence].
  assert (c' = c) as -> by congruence. destruct Hc as [[Hb _] _].
  assert (Hnone : ∀ o, rc_objects (rc_mem c) !! o = None ∧
            rc_count (RcNew o) (rc_trace (rc_mem c)) ≤ 1 ∧
            rc_count (RcDelete o) (rc_trace (rc_mem c)) =
              rc_count (RcNew o) (rc_trace (rc_mem c))).
  { intros o. specialize (Hb o). unfold rc_ok in Hb. cbn beta in Hb.
    rewrite (holders_empty o _ Hempty) in Hb.
    destruct (rc_objects (rc_mem c) !! o).
    - destruct Hb as (_ & [[]|?] & _). lia.
    - destruct Hb as (_ & ? & ?). done. }
  split.
  - apply map_eq. intros o. rewrite lookup_empty. apply Hnone.
  - intros o. apply Hnone.
Qed.

Lemma IntrusivePtr_no_leak_witness :
  rc_objects (rc_mem rc_demo_final) = ∅ ∧
  ∀ o, rc_count (RcNew o) (rc_trace (rc_mem rc_demo_final)) ≤ 1 ∧
       rc_count (RcDelete o) (rc_trace (rc_mem rc_demo_final)) =
         rc_count (RcNew o) (rc_trace (rc_mem rc_demo_final)).
Proof.
  apply (IntrusivePtr_no_leak rc_demo_prog).
  - unfold size_t_modulus. cbn. lia.
  - vm_compute. reflexivity.
  - unfold rc_demo_final. repeat constructor.
Defined.

Lemma rc_store_same h o c :
  rc_objects h !! o = Some c →
  mkRcStore (<[o := c]> (rc_objects h)) (rc_next h) (rc_trace h) = h.
Proof. intros Ho. destruct h. cbn in *. by rewrite insert_id. Qed.

Lemma mkCounter_eta c : mkCounter (count_ c) = c.
Proof. by destruct c. Qed.

Lemma wrap_pred_succ z : (0 ≤ z < size_t_modulus)%Z → wrap (wrap (z - 1) + 1) = z.
Proof.
  intros Hz. unfold wrap. rewrite Zplus_mod_idemp_l.
  replace (z - 1 + 1)%Z with z by lia. by apply Z.mod_small.
Qed.

(** X18: [p.Reset(p.Get())]: when [p] is the only handle of its object, the
    release deletes the object and the increment that follows uses it after
    its deletion; when other handles exist the store ends as it was. *)
Theorem Reset_to_own_pointer (h : RcStore) (o : addr) (c : SimpleCounter) :
  rc_objects h !! o = Some c →
  (count_ c = 1%Z →
   IntrusivePtr_Reset_ptr (mkIntrusive (Some o)) (Some o) h = Undefined Dangling) ∧
  ((1 < count_ c < size_t_modulus)%Z →
   IntrusivePtr_Reset_ptr (mkIntrusive (Some o)) (Some o) h = Ok (mkIntrusive (Some o), h)).
Proof.
  intros Ho. unfold IntrusivePtr_Reset_ptr, IntrusivePtr_Release. split.
  - intros H1. rmrun. rewrite Ho. rmrun. rewrite H1.
    change (wrap (1 - 1)) with 0%Z. rewrite bool_decide_eq_true_2 by done. by rmrun.
  - intros Hc. rmrun. rewrite Ho. rmrun.
    rewrite wrap_pred by lia. rewrite bool_decide_eq_false_2 by lia. rmrun.
    rewrite insert_insert_eq. replace (wrap (count_ c - 1 + 1)) with (count_ c).
    + by rewrite mkCounter_eta, rc_store_same.
    + rewrite <- (wrap_pred (count_ c)) by lia. rewrite wrap_pred_succ; lia.
Qed.

Lemma Reset_to_own_pointer_witness :
  IntrusivePtr_Reset_ptr (mkIntrusive (Some 0)) (Some 0)
    (mkRcStore {[ 0 := mkCounter 1 ]} 1 [RcNew 0]) = Undefined Dangling.
Proof.
  apply (Reset_to_own_pointer (mkRcStore {[ 0 := mkCounter 1 ]} 1 [RcNew 0]) 0 (mkCounter 1)).
  - reflexivity.
  - reflexivity.
Defined.

(** X19: Moving a handle, or copying it and destroying the copy, leaves the
    store exactly as it was: the counter goes up before it comes down, so
    the object is never deleted on the way. *)
Theorem IntrusivePtr_move_restores (h : RcStore) (s : IntrusivePtr) (o : addr)
    (c : SimpleCounter) :
  ip_ptr_ s = Some o →
  rc_objects h !! o = Some c →
  (0 < count_ c < size_t_modulus)%Z →
  IntrusivePtr_move s h = Ok ((mkIntrusive (Some o), mkIntrusive None), h) ∧
  ∃ h1,
    IntrusivePtr_copy s h = Ok (mkIntrusive (Some o), h1) ∧
    IntrusivePtr_UseCount s h1 = Ok (wrap (count_ c + 1), h1) ∧
    IntrusivePtr_Release (mkIntrusive (Some o)) h1 = Ok (mkIntrusive None, h).
Proof.
  intros Hs Ho Hc.
  assert (Hw : wrap (wrap (count_ c + 1) - 1) = count_ c) by (apply wrap_succ_pred; lia).
  unfold IntrusivePtr_move, IntrusivePtr_copy, IntrusivePtr_UseCount, IntrusivePtr_Release.
  rewrite Hs. split.
  - rmrun. rewrite Ho. rmrun. rewrite Hw. rewrite bool_decide_eq_false_2 by lia.
    rewrite insert_insert_eq. by rewrite mkCounter_eta, rc_store_same.
  - eexists. split; [rmrun; rewrite Ho; reflexivity|]. split; [by rmrun|].
    rmrun. rewrite Hw. rewrite bool_decide_eq_false_2 by lia.
    rewrite insert_insert_eq. by rewrite mkCounter_eta, rc_store_same.
Qed.

Lemma IntrusivePtr_move_restores_witness :
  IntrusivePtr_move (mkIntrusive (Some 0)) (mkRcStore {[ 0 := mkCounter 1 ]} 1 [RcNew 0]) =
    Ok ((mkIntrusive (Some 0), mkIntrusive None),
        mkRcStore {[ 0 := mkCounter 1 ]} 1 [RcNew 0]).
Proof.
  refine (proj1 (IntrusivePtr_move_restores (mkRcStore {[ 0 := mkCounter 1 ]} 1 [RcNew 0])
                   (mkIntrusive (Some 0)) 0 (mkCounter 1) eq_refl eq_refl _)).
  unfold size_t_modulus. cbn. lia.
Defined.

(** * Objects and their owners *)

Lemma managed_impl b cb cb' : impl cb' = impl cb → managed b cb' = managed b cb.
Proof. unfold managed. by intros ->. Qed.

Lemma owned_upd_cb X b cb cb' h :
  cblocks h !! b = Some cb → impl cb' = impl cb →
  owned_except X h → owned_except X (upd_cb b cb' h).
Proof.
  intros Hcb Himpl Hj o Ho. hsimpl. destruct (Hj o Ho) as [?|(b0 & cb0 & Hb0 & Hm & Hd)]; [by left|].
  right. destruct (decide (b0 = b)) as [->|Hne].
  - exists b, cb'. rewrite lookup_insert_eq. simplify_eq.
    by rewrite (managed_impl _ _ _ Himpl).
  - exists b0, cb0. by rewrite lookup_insert_ne.
Qed.

Lemma owned_destroy X b h :
  (∀ cb, cblocks h !! b = Some cb →
     0 < n_dispose b (trace h) ∨ managed b cb = None) →
  owned_except X h → owned_except X (del_cb b (log (EvDestroy b) h)).
Proof.
  intros Hb Hj o Ho. hsimpl. destruct (Hj o Ho) as [?|(b0 & cb0 & Hb0 & Hm & Hd)]; [by left|].
  right. exists b0, cb0. assert (b0 ≠ b).
  { intros ->. destruct (Hb _ Hb0) as [?|?]; [lia|congruence]. }
  rewrite lookup_delete_ne by done. split_and!; [done..|]. by evsimpl.
Qed.

Lemma owned_dispose X b cb h :
  cblocks h !! b = Some cb →
  owned_except X h →
  owned_except X
    (match managed b cb with
     | Some o => del_obj o (log (EvDispose b) h)
     | None => log (EvDispose b) h
     end).
Proof.
  intros Hcb Hj o.
  assert (Hkeep : is_Some (objects h !! o) → managed b cb ≠ Some o →
            X o ∨ ∃ b0 cb0, cblocks h !! b0 = Some cb0 ∧ managed b0 cb0 = Some o ∧
              n_dispose b0 (EvDispose b :: trace h) = 0).
  { intros Ho Hne. destruct (Hj o Ho) as [?|(b0 & cb0 & Hb0 & Hm & Hd)]; [by left|].
    right. exists b0, cb0. assert (b0 ≠ b) by (intros ->; simplify_eq).
    split_and!; [done..|]. by evsimpl. }
  destruct (managed b cb) as [o'|] eqn:Hm; hsimpl.
  - intros [Ho Hne]%lookup_delete_is_Some. apply Hkeep; [done|congruence].
  - intros Ho. by apply Hkeep.
Qed.

Lemma owned_new_object X w h :
  owned_except X h →
  owned_except (λ o, X o ∨ o = next h)
    (upd_obj (next h) w (log (EvAlloc Object (next h)) (bump h))).
Proof.
  intros Hj o. hsimpl. destruct (decide (o = next h)) as [->|Hne]; [by left; right|].
  rewrite lookup_insert_ne by done. intros Ho.
  destruct (Hj o Ho) as [?|(b0 & cb0 & Hb0 & Hm & Hd)]; [by left; left|].
  right. exists b0, cb0. split_and!; [done..|]. by evsimpl.
Qed.

Lemma owned_new_block (X : addr → Prop) cb h :
  cblocks h !! next h = None → n_dispose (next h) (trace h) = 0 →
  owned_except X h →
  owned_except (λ o, X o ∧ managed (next h) cb ≠ Some o)
    (upd_cb (next h) cb (log (EvAlloc Block (next h)) (bump h))).
Proof.
  intros Hnone Hd Hj o Ho. hsimpl.
  destruct (decide (managed (next h) cb = Some o)) as [Hm|Hm].
  { right. exists (next h), cb. rewrite lookup_insert_eq. split_and!; [done..|]. by evsimpl. }
  destruct (Hj o Ho) as [?|(b0 & cb0 & Hb0 & Hm0 & Hd0)]; [by left|].
  right. exists b0, cb0. assert (b0 ≠ next h) by congruence.
  rewrite lookup_insert_ne by done. split_and!; [done..|]. by evsimpl.
Qed.

Lemma owned_weaken (X X' : addr → Prop) h :
  (∀ o, X o → X' o) → owned_except X h → owned_except X' h.
Proof. intros HX Hj o Ho. destruct (Hj o Ho) as [?|?]; eauto. Qed.

Section keeps.
Context (X : addr → Prop).

Lemma keeps_ret {A} (a : A) : keeps X (mret a).
Proof. by intros h r h' Hj [_ ->]%ret_Ok. Qed.

Lemma keeps_bind {A B} (m : M A) (f : A → M B) :
  keeps X m → (∀ a, keeps X (f a)) → keeps X (m ≫= f).
Proof. intros Hm Hf h r h' Hj (a & h1 & H1 & H2)%bind_Ok. eapply Hf; [|exact H2]. eauto. Qed.

Lemma keeps_fail {A} u : keeps X (fail u : M A).
Proof. by intros h r h' _ ?. Qed.

Lemma keeps_throw {A} : keeps X (throw_BadWeakPtr : M A).
Proof. by intros h r h' _ ?. Qed.

Lemma keeps_AddStrongRef b : keeps X (AddStrongRef b).
Proof. intros h r h' Hj (cb & Hcb & ->)%AddStrongRef_Ok. by eapply owned_upd_cb. Qed.

Lemma keeps_AddWeakRef b : keeps X (AddWeakRef b).
Proof. intros h r h' Hj (cb & Hcb & ->)%AddWeakRef_Ok. by eapply owned_upd_cb. Qed.

Lemma keeps_WeakPtr_Expired w : keeps X (WeakPtr_Expired w).
Proof. by intros h r h' Hj [-> _]%WeakPtr_Expired_Ok. Qed.

Lemma keeps_SharedPtr_Release s : keeps X (SharedPtr_Release false s).
Proof.
  intros h r h' Hj. unfold SharedPtr_Release.
  destruct (sp_cblock_ s) as [b|]; [|by intros [_ ->]%ret_Ok].
  intros (u0 & h0 & [_ ->]%ret_Ok & H)%bind_Ok.
  apply bind_Ok in H as (u1 & h1 & (cb & Hcb & ->)%RemoveStrongRef_Ok & H).
  set (cb1 := mkCB (wrap (strong_ref_counter_ cb - 1)) (weak_ref_counter_ cb) (impl cb)) in *.
  apply bind_Ok in H as (z & h2 & (cb2 & Hcb2 & -> & ->)%IsZeroStrongOwning_Ok & H).
  assert (cb2 = cb1) as ->.
  { hsimpl. rewrite lookup_insert_eq in Hcb2. congruence. }
  assert (Hj1 : owned_except X (upd_cb b cb1 h)) by (by eapply owned_upd_cb).
  apply bind_Ok in H as (u2 & h3 & Hdisp & H).
  assert (owned_except X h3 ∧ cblocks h3 = cblocks (upd_cb b cb1 h) ∧
            (strong_ref_counter_ cb1 = 0%Z → 0 < n_dispose b (trace h3))) as (Hj3 & Hc3 & Hd3).
  { destruct (bool_decide (strong_ref_counter_ cb1 = 0%Z)) eqn:Hz.
    - unfold Dispose in Hdisp.
      apply bind_Ok in Hdisp as (cb' & hd & [Hcb' ->]%load_cb_Ok & Hdisp).
      assert (cb' = cb1) as -> by congruence.
      apply bind_Ok in Hdisp as (u3 & h4 & Hem & Hdisp). unfold emit in Hem.
      injection Hem as <- <-.
      pose proof (owned_dispose X b cb1 _ Hcb2 Hj1) as Hjd. unfold managed, GetPtr in Hjd.
      cbn [impl cb1] in *.
      destruct (impl cb) as [[o|]|].
      + unfold destroy_object, free_obj in Hdisp.
        apply bind_Ok in Hdisp as (w & h5 & (o' & [= <-] & Ho & ->)%load_obj_Ok & Hdisp).
        apply bind_Ok in Hdisp as (? & h6 & [_ ->]%ret_Ok & [= <- <-]).
        split_and!; [done|done|]. intros _. hsimpl. evsimpl. lia.
      + apply ret_Ok in Hdisp as [_ ->]. split_and!; [done|done|].
        intros _. hsimpl. evsimpl. lia.
      + unfold destroy_object, free_obj in Hdisp.
        apply bind_Ok in Hdisp as (w & h5 & (o' & [= <-] & Ho & ->)%load_obj_Ok & Hdisp).
        apply bind_Ok in Hdisp as (? & h6 & [_ ->]%ret_Ok & [= <- <-]).
        split_and!; [done|done|]. intros _. hsimpl. evsimpl. lia.
    - apply ret_Ok in Hdisp as [_ ->]. split_and!; [done|done|].
      intros Hz'. by rewrite bool_decide_eq_true_2 in Hz. }
  apply bind_Ok in H as (zs & h4 & (cb4 & Hcb4 & -> & ->)%IsZeroStrongOwning_Ok & H).
  rewrite Hc3, Hcb2 in Hcb4. injection Hcb4 as <-.
  apply bind_Ok in H as (zw & h5 & Hzw & H).
  assert (h5 = h3) as ->.
  { destruct (bool_decide _).
    - by apply IsZeroWeakOwning_Ok in Hzw as (? & _ & _ & ->).
    - by apply ret_Ok in Hzw as [_ ->]. }
  apply bind_Ok in H as (u5 & h6 & Hd & [_ ->]%ret_Ok).
  destruct (bool_decide (strong_ref_counter_ cb1 = 0%Z)) eqn:Hz; cbn [andb] in Hd.
  - destruct zw.
    + apply Destroy_Ok in Hd as (? & _ & ->). apply owned_destroy; [|done].
      intros ? _. left. apply Hd3. by apply bool_decide_eq_true_1 in Hz.
    + by apply ret_Ok in Hd as [_ ->].
  - by apply ret_Ok in Hd as [_ ->].
Qed.
End keeps.

Ltac kp :=
  cbn beta zeta;
  lazymatch goal with
  | |- keeps _ (mret _) => apply keeps_ret
  | |- keeps _ (_ ≫= _) => apply keeps_bind; [kp | intros ?; kp]
  | |- keeps _ (fail _) => apply keeps_fail
  | |- keeps _ throw_BadWeakPtr => apply keeps_throw
  | |- keeps _ (AddStrongRef _) => apply keeps_AddStrongRef
  | |- keeps _ (AddWeakRef _) => apply keeps_AddWeakRef
  | |- keeps _ (WeakPtr_Expired _) => apply keeps_WeakPtr_Expired
  | |- keeps _ (SharedPtr_Release false _) => apply keeps_SharedPtr_Release
  | |- keeps _ (if ?c then _ else _) => destruct c; kp
  | |- keeps _ (match ?c with _ => _ end) => destruct c; kp
  | _ => idtac
  end.

Section keeps_methods.
Context (X : addr → Prop).

Lemma keeps_SharedPtr_copy s : keeps X (SharedPtr_copy false s).
Proof. unfold SharedPtr_copy. kp. Qed.

Lemma keeps_SharedPtr_move s : keeps X (SharedPtr_move false s).
Proof. unfold SharedPtr_move. kp. Qed.

Lemma keeps_SharedPtr_alias s p : keeps X (SharedPtr_alias s p).
Proof. unfold SharedPtr_alias. kp. Qed.

Lemma keeps_SharedPtr_from_weak w : keeps X (SharedPtr_from_weak w).
Proof. unfold SharedPtr_from_weak. kp. Qed.

Lemma keeps_WeakPtr_Lock w : keeps X (WeakPtr_Lock w).
Proof. unfold WeakPtr_Lock, SharedPtr_from_weak. kp. Qed.

Lemma keeps_SharedPtr_assign_copy self this other :
  keeps X (SharedPtr_assign_copy false self this other).
Proof. unfold SharedPtr_assign_copy. kp. Qed.

Lemma keeps_SharedPtr_assign_move self this other :
  keeps X (SharedPtr_assign_move false self this other).
Proof. unfold SharedPtr_assign_move. kp. Qed.

Lemma keeps_WeakPtr_copy w : keeps X (WeakPtr_copy w).
Proof. unfold WeakPtr_copy. kp. Qed.

Lemma keeps_WeakPtr_move w : keeps X (WeakPtr_move w).
Proof. unfold WeakPtr_move. kp. Qed.

Lemma keeps_WeakPtr_from_shared s : keeps X (WeakPtr_from_shared s).
Proof. unfold WeakPtr_from_shared. kp. Qed.
End keeps_methods.

Lemma disposed_without_owner pend h ns nw b cb :
  heap_inv pend h ns nw → cblocks h !! b = Some cb →
  strong_ref_counter_ cb = 0%Z → n_dispose b (trace h) = 1.
Proof.
  intros (Hb & _ & _) Hcb Hz. specialize (Hb b). unfold block_ok in Hb. rewrite Hcb in Hb.
  destruct Hb as (Hs & _ & _ & _ & _ & _ & _ & Hd). rewrite Hd, decide_True; [done|lia].
Qed.

Lemma owner_when_not_disposed pend h ns nw b cb :
  heap_inv pend h ns nw → cblocks h !! b = Some cb →
  n_dispose b (trace h) = 0 → 0 < ns b.
Proof.
  intros (Hb & _ & _) Hcb Hz. specialize (Hb b). unfold block_ok in Hb. rewrite Hcb in Hb.
  destruct Hb as (_ & _ & _ & _ & _ & _ & _ & Hd). rewrite Hz in Hd.
  case_decide; [done|lia].
Qed.

Lemma fresh_block pend h ns nw :
  heap_inv pend h ns nw →
  cblocks h !! next h = None ∧ n_dispose (next h) (trace h) = 0.
Proof.
  intros (Hb & Hf & _). destruct (Hf (next h) ltac:(lia)) as (Hn & _ & Hc).
  split; [done|]. specialize (Hb (next h)). unfold block_ok in Hb. rewrite Hn in Hb.
  destruct Hb as (_ & _ & _ & Hd & _). lia.
Qed.

Lemma owned_WeakPtr_Release X pend h ns nw w w' h' :
  heap_inv pend h ns nw → owned_except X h →
  WeakPtr_Release w h = Ok (w', h') → owned_except X h'.
Proof.
  intros Hinv Hj. rewrite WeakPtr_Release_eq. destruct (wp_cblock_ w) as [b|]; [|by intros [= _ <-]].
  destruct (cblocks h !! b) as [cb|] eqn:Hcb; [|done]. intros [= _ <-].
  unfold weak_release_heap. case_decide as Hz.
  - change (log (EvDestroy b) (del_cb b h)) with (del_cb b (log (EvDestroy b) h)).
    apply owned_destroy; [|done]. intros cb' Hcb'. left. simplify_eq.
    rewrite (disposed_without_owner _ _ _ _ _ _ Hinv Hcb); [lia|tauto].
  - by eapply owned_upd_cb.
Qed.

Lemma owned_add_weak X (c : ptr) h u h' :
  owned_except X h →
  (if c is Some b then AddWeakRef b else (mret tt : M unit)) h = Ok (u, h') →
  owned_except X h'.
Proof.
  intros Hj. destruct c as [b|].
  - by apply keeps_AddWeakRef.
  - by intros [_ ->]%ret_Ok.
Qed.

Lemma owned_WeakPtr_assign_copy X pend h ns nw self this other w' h' :
  heap_inv pend h ns nw → owned_except X h →
  WeakPtr_assign_copy self this other h = Ok (w', h') → owned_except X h'.
Proof.
  intros Hinv Hj. unfold WeakPtr_assign_copy. destruct self; [by intros [_ ->]%ret_Ok|].
  intros (w0 & h1 & Hrel & H)%bind_Ok.
  apply bind_Ok in H as (u & h2 & Hadd & [_ ->]%ret_Ok).
  eapply owned_add_weak; [|exact Hadd]. by eapply owned_WeakPtr_Release.
Qed.

Lemma owned_WeakPtr_assign_shared X pend h ns nw this other w' h' :
  heap_inv pend h ns nw → owned_except X h →
  WeakPtr_assign_shared this other h = Ok (w', h') → owned_except X h'.
Proof.
  intros Hinv Hj. unfold WeakPtr_assign_shared.
  intros (w0 & h1 & Hrel & H)%bind_Ok.
  apply bind_Ok in H as (u & h2 & Hadd & [_ ->]%ret_Ok).
  eapply owned_add_weak; [|exact Hadd]. by eapply owned_WeakPtr_Release.
Qed.

Lemma owned_WeakPtr_assign_move X pend h ns nw self this other r h' :
  heap_inv pend h ns nw → owned_except X h →
  WeakPtr_assign_move self this other h = Ok (r, h') → owned_except X h'.
Proof.
  intros Hinv Hj. unfold WeakPtr_assign_move. destruct self; [by intros [_ ->]%ret_Ok|].
  intros (w0 & h1 & Hrel & [_ ->]%ret_Ok)%bind_Ok. by eapply owned_WeakPtr_Release.
Qed.

Lemma owned_from_raw (X : addr → Prop) pend h ns nw p s h' :
  heap_inv pend h ns nw → owned_except X h →
  SharedPtr_from_raw false (Some p) h = Ok (s, h') →
  owned_except (λ o, X o ∧ o ≠ p) h'.
Proof.
  intros Hinv Hj. unfold SharedPtr_from_raw.
  intros (b & h1 & Hnew & H)%bind_Ok. rewrite new_ControlBlockPtr_eq in Hnew.
  injection Hnew as <- <-. apply bind_Ok in H as (u & h2 & [_ ->]%ret_Ok & [_ ->]%ret_Ok).
  destruct (fresh_block _ _ _ _ Hinv) as [Hn Hd].
  eapply owned_weaken; [|by apply owned_new_block].
  intros o [? Hne]. split; [done|]. unfold managed in Hne. cbn in Hne. congruence.
Qed.

Lemma owned_MakeShared (X : addr → Prop) pend h ns nw s h' :
  heap_inv pend h ns nw → owned_except X h →
  MakeShared false h = Ok (s, h') → owned_except X h'.
Proof.
  intros Hinv Hj. unfold MakeShared, SharedPtr_from_holder.
  intros (b & h1 & Hnew & H)%bind_Ok. rewrite new_ControlBlockHolder_eq in Hnew.
  injection Hnew as <- <-. apply bind_Ok in H as (u & h2 & [_ ->]%ret_Ok & [_ ->]%ret_Ok).
  destruct (fresh_block _ _ _ _ Hinv) as [Hn Hd].
  pose proof (owned_new_block X (mkCB 1 0 ControlBlockHolder) h Hn Hd Hj) as Hj1.
  intros o. hsimpl. destruct (decide (o = next h)) as [->|Hne].
  - intros _. right. exists (next h), (mkCB 1 0 ControlBlockHolder).
    rewrite lookup_insert_eq. split_and!; [done..|]. by evsimpl.
  - rewrite lookup_insert_ne by done. intros Ho.
    destruct (Hj1 o Ho) as [[? _]|?]; [by left|by right].
Qed.

Lemma owned_Reset_ptr (X : addr → Prop) h this sl wl p s' h' :
  hinv false (λ _, False) h (this :: sl) wl → owned_except X h →
  SharedPtr_Reset_ptr false this (Some p) h = Ok (s', h') →
  owned_except (λ o, X o ∧ o ≠ p) h'.
Proof.
  intros Hinv Hj. unfold SharedPtr_Reset_ptr.
  intros (s0 & h1 & Hrel & H)%bind_Ok.
  apply bind_Ok in H as (b & h2 & Hnew & [_ ->]%ret_Ok).
  rewrite new_ControlBlockPtr_eq in Hnew. injection Hnew as <- <-.
  pose proof (keeps_SharedPtr_Release X this _ _ _ Hj Hrel) as Hj1.
  eapply SharedPtr_Release_ok in Hrel as (_ & Hinv1 & _); [|exact Hinv].
  destruct (fresh_block _ _ _ _ Hinv1) as [Hn Hd].
  eapply owned_weaken; [|by apply owned_new_block].
  intros o [? Hne]. split; [done|]. unfold managed in Hne. cbn in Hne. congruence.
Qed.

Lemma step_owned n o c c' :
  cfg_ok false n c →
  owned_except (λ _, False) (mem c) →
  safe_op o = true →
  step false o c = Ok c' →
  owned_except (λ _, False) (mem c').
Proof.
  intros Hc Hj Hsafe Hstep. pose proof Hc as [Hinv _]. unfold hinv in Hinv.
  destruct o; try discriminate Hsafe; cbn [step] in Hstep;
    repeat match type of Hstep with
    | context [shared c !! ?i] =>
        let s := fresh "s" in let E := fresh "E" in
        destruct (shared c !! i) as [s|] eqn:E; [|by simplify_eq]
    | context [weak c !! ?j] =>
        let w := fresh "w" in let E := fresh "E" in
        destruct (weak c !! j) as [w|] eqn:E; [|by simplify_eq]
    end;
    unfold decl_shared, decl_weak, upd_shared, upd_weak in Hstep;
    try (apply exec_Ok in Hstep as (r & h' & Hrun & ->); cbn [mem]).
  - (* SDefault *) by apply ret_Ok in Hrun as [_ ->].
  - (* SAdoptNew *)
    apply bind_Ok in Hrun as (p & h1 & Hnew & Hraw).
    rewrite new_object_eq in Hnew. injection Hnew as <- <-.
    eapply (owned_weaken (λ o, (False ∨ o = next (mem c)) ∧ o ≠ next (mem c)));
      [|eapply owned_from_raw; [| |exact Hraw]].
    + intros o [[[]|Hx] Hne]. done.
    + apply hinv_new_object. exact (proj1 Hc).
    + by apply owned_new_object.
  - (* SMakeShared *) by eapply owned_MakeShared.
  - (* SCopy *) by eapply keeps_SharedPtr_copy.
  - (* SMove *) by eapply keeps_SharedPtr_move.
  - (* SAlias *) by eapply keeps_SharedPtr_alias.
  - (* SPromote *)
    destruct (SharedPtr_from_weak w (mem c)) as [[s h]| |] eqn:Hp; simplify_eq; [|done].
    cbn [mem]. by eapply keeps_SharedPtr_from_weak.
  - (* SLock *) by eapply keeps_WeakPtr_Lock.
  - (* SCopyAssign *) by eapply keeps_SharedPtr_assign_copy.
  - (* SMoveAssign *) by eapply keeps_SharedPtr_assign_move.
  - (* SReset *) by eapply keeps_SharedPtr_Release.
  - (* SResetNew *)
    apply bind_Ok in Hrun as (p & h1 & Hnew & Hreset).
    rewrite new_object_eq in Hnew. injection Hnew as <- <-.
    eapply (owned_weaken (λ o, (False ∨ o = next (mem c)) ∧ o ≠ next (mem c)));
      [|eapply owned_Reset_ptr; [| |exact Hreset]].
    + intros o [[[]|Hx] Hne]. done.
    + apply hinv_new_object. by eapply cfg_take_shared.
    + by apply owned_new_object.
  - (* SSwap *) by simplify_eq.
  - (* SDestroy *) by eapply keeps_SharedPtr_Release.
  - (* WDefault *) by apply ret_Ok in Hrun as [_ ->].
  - (* WCopy *) by eapply keeps_WeakPtr_copy.
  - (* WMove *) by eapply keeps_WeakPtr_move.
  - (* WDemote *) by eapply keeps_WeakPtr_from_shared.
  - (* WCopyAssign *) by eapply owned_WeakPtr_assign_copy.
  - (* WAssignShared *) by eapply owned_WeakPtr_assign_shared.
  - (* WMoveAssign *) by eapply owned_WeakPtr_assign_move.
  - (* WReset *) by eapply owned_WeakPtr_Release.
  - (* WSwap *) by simplify_eq.
  - (* WDestroy *) by eapply owned_WeakPtr_Release.
Qed.

Lemma run_owned prog :
  ∀ n c c',
    cfg_ok false n c →
    owned_except (λ _, False) (mem c) →
    Forall (λ o, safe_op o = true) prog →
    (Z.of_nat n + 3 * Z.of_nat (length prog) + 1 < size_t_modulus)%Z →
    run false prog c = Ok c' →
    cfg_ok false (n + 3 * length prog) c' ∧ owned_except (λ _, False) (mem c').
Proof.
  induction prog as [|o prog IH]; intros n c c' Hc Hj Hsafe Hlt Hrun; cbn [run length] in *.
  - injection Hrun as <-. split; [|done]. eapply cfg_ok_mono; [|exact Hc]. lia.
  - apply Forall_cons in Hsafe as [Ho Hsafe].
    destruct (step false o c) as [c1| |] eqn:Hstep; [|done..].
    pose proof (step_owned _ _ _ _ Hc Hj Ho Hstep) as Hj1.
    eapply step_ok in Hstep; [|exact Hc|lia|by apply safe_op_no_null].
    destruct (IH (n + 3) c1 c' Hstep Hj1 Hsafe ltac:(lia) Hrun) as [Hc' Hj'].
    split; [|done]. eapply cfg_ok_mono; [|exact Hc']. lia.
Qed.

(** X13: No object outlives its owners: at the end of a program over a type
    without the self-reference capability that adopts only objects it has
    just allocated, every live object is the one managed by a control block
    that some [SharedPtr] variable references; so once every [SharedPtr]
    variable is empty, no object is left. *)
Theorem no_object_outlives_its_owners (prog : list op) :
  Forall (λ o, safe_op o = true) prog →
  (3 * Z.of_nat (length prog) + 1 < size_t_modulus)%Z →
  ∀ c,
    run false prog init = Ok c →
    (∀ o, is_Some (objects (mem c) !! o) →
       ∃ b cb, cblocks (mem c) !! b = Some cb ∧ managed b cb = Some o ∧
               0 < owners b (shared c)) ∧
    (Forall (λ s, sp_cblock_ s = None) (shared c) → objects (mem c) = ∅).
Proof.
  intros Hsafe Hlt c Hrun.
  assert (Hinit : owned_except (λ _, False) (mem init)).
  { intros o Ho. cbn in Ho. rewrite lookup_empty in Ho. by destruct Ho. }
  assert (Hlt' : (Z.of_nat 0 + 3 * Z.of_nat (length prog) + 1 < size_t_modulus)%Z) by lia.
  destruct (run_owned prog 0 init c (init_ok false) Hinit Hsafe Hlt' Hrun) as [[Hinv _] Hj].
  assert (Hown : ∀ o, is_Some (objects (mem c) !! o) →
            ∃ b cb, cblocks (mem c) !! b = Some cb ∧ managed b cb = Some o ∧
                    0 < owners b (shared c)).
  { intros o Ho. destruct (Hj o Ho) as [[]|(b & cb & Hcb & Hm & Hd)].
    exists b, cb. split_and!; [done..|].
    apply (owner_when_not_disposed _ _ _ _ _ _ Hinv Hcb Hd). }
  split; [done|]. intros Hempty. apply map_eq. intros o. rewrite lookup_empty.
  destruct (objects (mem c) !! o) as [w|] eqn:Ho; [|done].
  destruct (Hown o ltac:(eauto)) as (b & cb & _ & _ & Hpos).
  rewrite (owners_empty b _ Hempty) in Hpos. lia.
Qed.

Lemma no_object_outlives_its_owners_witness :
  (∀ o, is_Some (objects (mem release_all_final) !! o) →
     ∃ b cb, cblocks (mem release_all_final) !! b = Some cb ∧ managed b cb = Some o ∧
             0 < owners b (shared release_all_final)) ∧
  (Forall (λ s, sp_cblock_ s = None) (shared release_all_final) →
   objects (mem release_all_final) = ∅).
Proof.
  apply (no_object_outlives_its_owners release_all_prog).
  - unfold release_all_prog. repeat constructor.
  - unfold size_t_modulus. cbn. lia.
  - vm_compute. reflexivity.
Defined.

(** X14: A control block that no handle and no [weak_this_] references is out
    of reach: whatever statements run afterwards, for either kind of
    element type, its counters stay as they are, it is neither disposed of
    nor destroyed, and it stays unreferenced. *)
Theorem unreferenced_block_is_never_touched (esft : bool) (b : addr) (prog : list op)
    (c : config) :
  isolated b c →
  ∀ c',
    run esft prog c = Ok c' →
    cblocks (mem c') !! b = cblocks (mem c) !! b ∧
    n_dispose b (trace (mem c')) = n_dispose b (trace (mem c)) ∧
    n_destroy b (trace (mem c')) = n_destroy b (trace (mem c)) ∧
    unreferenced b c'.
Proof.
  intros Hi c' Hrun. destruct (run_leaves _ _ _ _ _ Hi Hrun) as [[Hu _] (? & ? & ? & _)].
  by split_and!.
Qed.

Lemma unreferenced_block_is_never_touched_witness :
  cblocks (mem churn_final) !! 0 = cblocks demo_heap !! 0 ∧
  n_dispose 0 (trace (mem churn_final)) = n_dispose 0 (trace demo_heap) ∧
  n_destroy 0 (trace (mem churn_final)) = n_destroy 0 (trace demo_heap) ∧
  unreferenced 0 churn_final.
Proof.
  apply (unreferenced_block_is_never_touched true 0 churn_prog (mkConfig demo_heap [] [])).
  - split; [split_and!|cbn; lia].
    + constructor.
    + constructor.
    + intros o w. cbn. intros [[= <-] <-]%lookup_singleton_Some. done.
  - vm_compute. reflexivity.
Defined.

(** The sample program runs from that configuration, for both kinds of
    element type. *)
Example churn_prog_runs (esft : bool) :
  ∃ c', run esft churn_prog (mkConfig demo_heap [] []) = Ok c' ∧
        cblocks (mem c') !! 0 = Some (mkCB 1 1 ControlBlockHolder).
Proof. destruct esft; eexists; (split; [vm_compute; reflexivity|]); by vm_compute. Qed.
(** * Unique ownership *)

Lemma held_app l1 l2 : held (l1 ++ l2) = held l1 ++ held l2.
Proof. apply omap_app. Qed.

Lemma held_cons x l : held (x :: l) = option_list (uq_ptr x) ++ held l.
Proof. unfold held; cbn. by destruct (uq_ptr x). Qed.

Lemma held_split l i x :
  l !! i = Some x →
  held l ≡ₚ option_list (uq_ptr x) ++ held (delete i l).
Proof.
  intros Hi. rewrite <-(take_drop_middle l i x Hi) at 1.
  rewrite delete_take_drop, !held_app.
  rewrite held_cons. apply Permutation_app_swap_app.
Qed.

Lemma held_insert l i y :
  i < length l →
  held (<[i := y]> l) ≡ₚ option_list (uq_ptr y) ++ held (delete i l).
Proof.
  intros Hi.
  rewrite (held_split (<[i := y]> l) i y) by (by apply list_lookup_insert_eq).
  f_equiv. f_equal.
  rewrite !delete_take_drop, take_insert_ge, drop_insert_lt by lia. done.
Qed.

Lemma holds_held l i o : holds l i o → o ∈ held l.
Proof.
  intros (x & Hi & Hx). unfold held. apply list_elem_of_omap.
  exists x. split; [by eapply list_elem_of_lookup_2|done].
Qed.

Lemma held_holds l o : o ∈ held l → ∃ i, holds l i o.
Proof.
  unfold held. intros (x & Hx & Hp)%list_elem_of_omap.
  apply list_elem_of_lookup in Hx as [i Hi]. by exists i, x.
Qed.

Lemma held_unique l i j o :
  NoDup (held l) → holds l i o → holds l j o → i = j.
Proof.
  revert i j. induction l as [|x l IH]; intros i j Hnd (xi & Hi & Hxi) (xj & Hj & Hxj).
  { done. }
  rewrite held_cons in Hnd.
  apply NoDup_app in Hnd as (_ & Hdis & Hnd).
  assert (∀ k y, l !! k = Some y → uq_ptr y = Some o → uq_ptr x = Some o → False) as Hno.
  { intros k y Hk Hy Hx. apply (Hdis o).
    - rewrite Hx. set_solver.
    - apply (holds_held l k). by exists y. }
  destruct i as [|i], j as [|j]; cbn in *; simplify_eq; try done.
  - exfalso; eauto.
  - exfalso; eauto.
  - f_equal. apply IH; [done|by exists xi|by exists xj].
Qed.

Lemma uq_deleted_cons o e tr :
  uq_deleted o (e :: tr) = (if deletes o e then 1 else 0) + uq_deleted o tr.
Proof.
  unfold uq_deleted. rewrite filter_cons. by destruct (deletes o e); case_decide.
Qed.

Lemma uq_var_Some c i u : uq_var c i = Some u → uq_vars c !! i = Some (Some u).
Proof.
  unfold uq_var. by destruct (uq_vars c !! i) as [[?|]|]; intros; simplify_eq.
Qed.
Lemma held_blank l i z :
  i < length l →
  held (<[i := z]> l) ≡ₚ option_list (uq_ptr z) ++ held (<[i := None]> l).
Proof.
  intros Hi. rewrite !held_insert by done. done.
Qed.

Lemma held_update l i x z :
  l !! i = Some x →
  held l ≡ₚ option_list (uq_ptr x) ++ held (<[i := None]> l) ∧
  held (<[i := z]> l) ≡ₚ option_list (uq_ptr z) ++ held (<[i := None]> l).
Proof.
  intros Hi. assert (i < length l) by (by eapply lookup_lt_Some).
  split; [|by apply held_blank].
  rewrite <-(list_insert_id l i x Hi) at 1. by apply held_blank.
Qed.

Lemma held_update2 l i j x y x' y' :
  i ≠ j → l !! i = Some x → l !! j = Some y →
  let T := held (<[j := None]> (<[i := None]> l)) in
  held l ≡ₚ option_list (uq_ptr x) ++ option_list (uq_ptr y) ++ T ∧
  held (<[i := x']> (<[j := y']> l)) ≡ₚ option_list (uq_ptr x') ++ option_list (uq_ptr y') ++ T.
Proof.
  intros Hne Hi Hj T.
  assert (i < length l) by (by eapply lookup_lt_Some).
  assert (j < length l) by (by eapply lookup_lt_Some).
  assert (∀ a b, held (<[i := a]> (<[j := b]> l))
            ≡ₚ option_list (uq_ptr a) ++ option_list (uq_ptr b) ++ T) as Hgen.
  { intros a b. rewrite held_blank by (by rewrite length_insert).
    rewrite list_insert_insert_ne by done.
    rewrite (held_blank _ j b) by (by rewrite length_insert). done. }
  split; [|apply Hgen].
  rewrite <-(Hgen x y), (list_insert_id l j y), (list_insert_id l i x); done.
Qed.

Lemma uq_ok_perm hl hl' h : hl ≡ₚ hl' → uq_ok_at hl h → uq_ok_at hl' h.
Proof.
  intros Hp (Hnd & Hin & Hlive & Htr). split_and!; try done.
  - by rewrite <-Hp.
  - intros o. rewrite <-Hp. auto.
Qed.

Lemma uq_ok_drop p R h : uq_ok_at (option_list p ++ R) h → uq_ok_at R h.
Proof.
  intros (Hnd & Hin & Hlive & Htr). split_and!; try done.
  - by apply NoDup_app in Hnd as (_ & _ & ?).
  - intros o Ho. apply Hin. set_solver.
Qed.

Lemma uq_new_ok hl h :
  uq_ok_at hl h →
  ∃ h', uq_new h = Ok (uq_next h, h') ∧ uq_ok_at (uq_next h :: hl) h' ∧
        uq_objects h' = {[uq_next h]} ∪ uq_objects h.
Proof.
  intros (Hnd & Hin & Hlive & Htr). eexists. split; [done|]. split; [|done].
  split_and!; cbn [uq_objects uq_next uq_trace].
  - apply NoDup_cons. split; [|done].
    intros Ho%Hin%Hlive. lia.
  - intros o [->|Ho%Hin]%elem_of_cons; set_solver.
  - intros o. rewrite uq_deleted_cons; cbn [deletes].
    intros [->%elem_of_singleton|Ho%Hlive]%elem_of_union.
    + split; [lia|]. rewrite Htr; [by rewrite decide_False by lia|].
      intros Ho%Hlive. lia.
    + lia.
  - intros o Ho. rewrite uq_deleted_cons; cbn [deletes].
    rewrite Htr by set_solver.
    assert (o ≠ uq_next h) by set_solver.
    repeat case_decide; lia.
Qed.

Lemma call_deleter_ok d o R h :
  uq_ok_at (o :: R) h →
  ∃ h', call_deleter d o h = Ok (tt, h') ∧ uq_ok_at R h' ∧
        uq_objects h' = uq_objects h ∖ {[o]} ∧
        uq_trace h' = UqDelete d o :: uq_trace h.
Proof.
  intros (Hnd & Hin & Hlive & Htr).
  apply NoDup_cons in Hnd as [Hno Hnd].
  assert (o ∈ uq_objects h) as Ho by (apply Hin; set_solver).
  unfold call_deleter. rewrite decide_True by done.
  eexists. split; [done|]. split; [|done].
  split_and!; cbn [uq_objects uq_next uq_trace].
  - done.
  - intros o' Ho'. apply elem_of_difference. split; [apply Hin; set_solver|].
    intros ->%elem_of_singleton. done.
  - intros o' [Ho' Hne]%elem_of_difference. rewrite uq_deleted_cons; cbn [deletes].
    rewrite bool_decide_eq_false_2 by set_solver. by apply Hlive.
  - intros o' Ho'. rewrite uq_deleted_cons; cbn [deletes]. case_bool_decide as Heq.
    + subst o'. destruct (Hlive o Ho) as [Hlt ->]. by rewrite decide_True.
    + apply Htr. set_solver.
Qed.

Lemma UniquePtr_Reset_ok u p R h :
  uq_ok_at (option_list (GetFirst u) ++ R) h →
  ∃ h', UniquePtr_Reset u p h = Ok (mkPair p (GetSecond u), h') ∧
        uq_ok_at R h' ∧ uq_next h' = uq_next h ∧
        (∀ o, o ∈ uq_objects h' ↔ o ∈ uq_objects h ∧ GetFirst u ≠ Some o).
Proof.
  intros Hok. unfold UniquePtr_Reset, UniquePtr_Get, UniquePtr_GetDeleter.
  destruct (GetFirst u) as [o|]; cbn [option_list app] in *.
  - destruct (call_deleter_ok (GetSecond u) o R h Hok) as (h' & Hd & Hok' & Hobj & Htr).
    exists h'. unfold mbind, UM_bind. cbn. rewrite Hd. cbn. split_and!; try done.
    + revert Hd. unfold call_deleter. case_decide; [|done]. by intros [= <-].
    + intros o'. rewrite Hobj. set_solver.
  - exists h. split_and!; try done. naive_solver.
Qed.
Lemma uq_exec_eq {A} c (m : UM A) k a h :
  m (uq_mem c) = Ok (a, h) → uq_exec c m k = Ok (mkUqConfig h (k a)).
Proof. unfold uq_exec. by intros ->. Qed.

Lemma uq_config_eta c : mkUqConfig (uq_mem c) (uq_vars c) = c.
Proof. by destruct c. Qed.

Lemma CompressedPair_eta {F S} (u : CompressedPair F S) :
  mkPair (GetFirst u) (GetSecond u) = u.
Proof. by destruct u. Qed.

(** A statement that does not alias keeps unique ownership and is defined;
    if it does not drop an owner either, every live object stays held. *)
Lemma uq_step_ok o c :
  uq_ok c → uq_aliasing o = false →
  ∃ c', uq_step o c = Ok c' ∧ uq_ok c' ∧
        (uq_dropping o = false → uq_all_held c → uq_all_held c').
Proof.
  intros Hok Hal. unfold uq_ok, uq_all_held in *.
  destruct o as [| |d|i|i j|i|i|i|i j|i|i j|i]; try done; cbn [uq_step uq_dropping].
  - eexists. split; [done|]. cbn. rewrite held_app. cbn. rewrite app_nil_r. done.
  - destruct (uq_new_ok _ _ Hok) as (h' & Hn & Hok' & Hobj).
    eexists. split; [by apply uq_exec_eq|]. cbn. rewrite held_app. cbn.
    split.
    + eapply uq_ok_perm; [|done]. by rewrite Permutation_cons_append.
    + intros _ Hall o. rewrite Hobj. set_solver.
  - destruct (uq_new_ok _ _ Hok) as (h' & Hn & Hok' & Hobj).
    eexists. split; [by apply uq_exec_eq|]. cbn. rewrite held_app. cbn.
    split.
    + eapply uq_ok_perm; [|done]. by rewrite Permutation_cons_append.
    + intros _ Hall o. rewrite Hobj. set_solver.
  - destruct (uq_var c i) as [u|] eqn:Hu; [|by eauto].
    apply uq_var_Some in Hu.
    destruct (held_update _ _ _ (Some (UniquePtr_move u).2) Hu) as [H1 H2].
    eexists. split; [done|]. cbn [uq_mem uq_vars]. rewrite held_app.
    assert (held (<[i:=Some (UniquePtr_move u).2]> (uq_vars c))
              ++ held [Some (UniquePtr_move u).1] ≡ₚ held (uq_vars c)) as Hp.
    { rewrite H2, H1. cbn. exact (Permutation_app_comm _ (option_list (GetFirst u))). }
    split.
    + eapply uq_ok_perm; [|done]. done.
    + intros _ Hall o Ho. rewrite Hp. auto.
  - destruct (uq_var c i) as [this|] eqn:Hi; [|by eauto].
    destruct (uq_var c j) as [other|] eqn:Hj; [|by eauto].
    apply uq_var_Some in Hi, Hj.
    case_bool_decide as Hij.
    + subst j. simplify_eq. exists c. split.
      * erewrite uq_exec_eq.
        2:{ unfold UniquePtr_assign_move, UniquePtr_Release, UniquePtr_Reset,
              UniquePtr_Get, UniquePtr_GetDeleter. cbn. done. }
        cbn. rewrite CompressedPair_eta, list_insert_insert_eq, list_insert_id by done.
        by rewrite uq_config_eta.
      * done.
    + destruct (held_update2 _ _ _ _ _
                  (Some (mkPair (GetFirst other) (GetSecond other)))
                  (Some (mkPair None (GetSecond other))) Hij Hi Hj) as [H1 H2].
      cbn in H1, H2.
      set (T := held (<[j:=None]> (<[i:=None]> (uq_vars c)))) in *.
      destruct (UniquePtr_Reset_ok this (GetFirst other)
                  (option_list (GetFirst other) ++ T) (uq_mem c))
        as (h' & Hr & Hok' & Hnext & Hobj).
      { eapply uq_ok_perm; [|done]. rewrite H1.
        by rewrite !(assoc_L (++)), (Permutation_app_comm (option_list (GetFirst this))). }
      eexists. split.
      * apply uq_exec_eq. unfold UniquePtr_assign_move, UniquePtr_Release.
        unfold mbind, UM_bind, UniquePtr_Get. cbn [fst snd]. rewrite Hr. done.
      * cbn. split.
        -- eapply uq_ok_perm; [|done]. by rewrite H2.
        -- intros _ Hall o [Ho Hne]%Hobj. rewrite H2. apply Hall in Ho.
           rewrite H1 in Ho. destruct (GetFirst this); set_solver.
  - destruct (uq_var c i) as [u|] eqn:Hu; [|by eauto].
    apply uq_var_Some in Hu.
    destruct (held_update _ _ _ (Some (mkPair None (GetSecond u))) Hu) as [H1 H2].
    cbn in H1, H2.
    destruct (UniquePtr_Reset_ok u None _ (uq_mem c) (uq_ok_perm _ _ _ H1 Hok))
      as (h' & Hr & Hok' & Hnext & Hobj).
    eexists. split; [by apply uq_exec_eq|]. cbn. split.
    + eapply uq_ok_perm; [|done]. by rewrite H2.
    + intros _ Hall o [Ho Hne]%Hobj. rewrite H2. apply Hall in Ho.
      rewrite H1 in Ho. destruct (GetFirst u); set_solver.
  - destruct (uq_var c i) as [u|] eqn:Hu; [|by eauto].
    apply uq_var_Some in Hu.
    destruct (held_update _ _ _ (Some (mkPair None (GetSecond u))) Hu) as [H1 H2].
    cbn in H1, H2.
    destruct (UniquePtr_Reset_ok u None _ (uq_mem c) (uq_ok_perm _ _ _ H1 Hok))
      as (h' & Hr & Hok' & Hnext & Hobj).
    eexists. split; [by apply uq_exec_eq|]. cbn. split.
    + eapply uq_ok_perm; [|done]. by rewrite H2.
    + intros _ Hall o [Ho Hne]%Hobj. rewrite H2. apply Hall in Ho.
      rewrite H1 in Ho. destruct (GetFirst u); set_solver.
  - destruct (uq_var c i) as [u|] eqn:Hu; [|by eauto].
    apply uq_var_Some in Hu.
    destruct (uq_new_ok _ _ Hok) as (h1 & Hn & Hok1 & Hobj1).
    destruct (held_update _ _ _
                (Some (mkPair (Some (uq_next (uq_mem c))) (GetSecond u))) Hu) as [H1 H2].
    cbn in H1, H2.
    destruct (UniquePtr_Reset_ok u (Some (uq_next (uq_mem c)))
                (uq_next (uq_mem c) :: held (<[i:=None]> (uq_vars c))) h1)
      as (h' & Hr & Hok' & Hnext & Hobj).
    { eapply uq_ok_perm; [|done]. rewrite H1. apply Permutation_middle. }
    eexists. split.
    + apply uq_exec_eq. unfold mbind, UM_bind. rewrite Hn. exact Hr.
    + cbn. split.
      * eapply uq_ok_perm; [|done]. by rewrite H2.
      * intros _ Hall o [Ho Hne]%Hobj. rewrite H2. rewrite Hobj1 in Ho.
        apply elem_of_union in Ho as [->%elem_of_singleton|Ho]; [set_solver|].
        apply Hall in Ho. rewrite H1 in Ho. destruct (GetFirst u); set_solver.
  - destruct (uq_var c i) as [u|] eqn:Hu; [|by eauto].
    apply uq_var_Some in Hu.
    destruct (held_update _ _ _ (Some (UniquePtr_Release u).2) Hu) as [H1 H2].
    cbn in H1, H2.
    eexists. split; [done|]. cbn. split; [|done].
    apply (uq_ok_perm (held (<[i:=None]> (uq_vars c)))); [by rewrite H2|].
    eapply uq_ok_drop. eapply uq_ok_perm; [|done]. exact H1.
  - destruct (uq_var c i) as [this|] eqn:Hi; [|by eauto].
    destruct (uq_var c j) as [other|] eqn:Hj; [|by eauto].
    apply uq_var_Some in Hi, Hj.
    assert (held (<[i:=Some (UniquePtr_Swap this other).1]>
                    (<[j:=Some (UniquePtr_Swap this other).2]> (uq_vars c)))
              ≡ₚ held (uq_vars c)) as Hp.
    { destruct (decide (i = j)) as [->|Hij].
      - simplify_eq. cbn. rewrite CompressedPair_eta, list_insert_insert_eq.
        by rewrite list_insert_id.
      - destruct (held_update2 _ _ _ _ _ (Some (UniquePtr_Swap this other).1)
                    (Some (UniquePtr_Swap this other).2) Hij Hi Hj) as [H1 H2].
        cbn in H1, H2. rewrite H2, H1.
        by rewrite !(assoc_L (++)), (Permutation_app_comm (option_list (GetFirst this))). }
    eexists. split; [done|]. cbn [uq_mem uq_vars]. split.
    + eapply uq_ok_perm; [|done]. done.
    + intros _ Hall o Ho. rewrite Hp. auto.
  - destruct (uq_var c i) as [u|] eqn:Hu; [|by eauto].
    apply uq_var_Some in Hu.
    destruct (held_update _ _ _ None Hu) as [H1 H2].
    cbn in H1, H2.
    destruct (UniquePtr_Reset_ok u None _ (uq_mem c) (uq_ok_perm _ _ _ H1 Hok))
      as (h' & Hr & Hok' & Hnext & Hobj).
    assert (UniquePtr_destroy u (uq_mem c) = Ok (tt, h')) as Hd.
    { revert Hr. unfold UniquePtr_destroy, UniquePtr_Reset, UniquePtr_Get,
        UniquePtr_GetDeleter, mbind, UM_bind. cbn.
      destruct (GetFirst u); [|by intros [= <-]].
      destruct (call_deleter _ _ _) as [[[] ?]| |]; cbn; by intros [= <-] || done. }
    eexists. split; [by apply uq_exec_eq|]. cbn. split.
    + done.
    + intros _ Hall o [Ho Hne]%Hobj. apply Hall in Ho.
      rewrite H1 in Ho. destruct (GetFirst u); set_solver.
Qed.
Lemma uq_init_ok : uq_ok uq_init ∧ uq_all_held uq_init.
Proof.
  split.
  - split_and!; cbn; try done; [apply NoDup_nil_2|set_solver].
  - intros o. cbn. set_solver.
Qed.

Lemma uq_run_ok prog c :
  uq_ok c → Forall (λ o, uq_aliasing o = false) prog →
  ∃ c', uq_run prog c = Ok c' ∧ uq_ok c' ∧
        (Forall (λ o, uq_dropping o = false) prog → uq_all_held c → uq_all_held c').
Proof.
  intros Hok Hal. revert c Hok.
  induction Hal as [|o prog Ho _ IH]; intros c Hok; [by exists c|].
  destruct (uq_step_ok o c Hok Ho) as (c1 & Hstep & Hok1 & Hheld1).
  destruct (IH c1 Hok1) as (c' & Hrun & Hok' & Hheld').
  exists c'. cbn. rewrite Hstep. split_and!; try done.
  intros [Hd Hds]%Forall_cons Hall. auto.
Qed.

Example uq_demo_prog_runs :
  ∃ c, uq_run uq_demo_prog uq_init = Ok c ∧
       uq_vars c = [Some (mkPair None Slug); None; None; None] ∧
       uq_objects (uq_mem c) = ∅ ∧
       uq_trace (uq_mem c) =
         [UqDelete Slug 2; UqDelete Slug 0; UqNew 2; UqDelete 7 1; UqNew 1; UqNew 0].
Proof. eexists. split; [vm_compute; reflexivity|]. by vm_compute. Qed.

(** X20: A program over [UniquePtr] variables in which no raw pointer is handed
    to a second owner runs to the end: no deleter is called on an object
    that is gone.  At the end no two variables hold the same object, every
    held object is alive, and no object has been deleted twice. *)
Theorem UniquePtr_ownership_is_unique (prog : list uq_op) :
  Forall (λ o, uq_aliasing o = false) prog →
  ∃ c, uq_run prog uq_init = Ok c ∧
       (∀ i j o, holds (uq_vars c) i o → holds (uq_vars c) j o → i = j) ∧
       (∀ i o, holds (uq_vars c) i o → o ∈ uq_objects (uq_mem c)) ∧
       (∀ o, uq_deleted o (uq_trace (uq_mem c)) ≤ 1).
Proof.
  intros Hal.
  destruct (uq_run_ok prog uq_init (proj1 uq_init_ok) Hal)
    as (c & Hrun & (Hnd & Hin & Hlive & Htr) & _).
  exists c. split_and!; [done|..].
  - intros i j o. by apply held_unique.
  - intros i o Ho. by apply Hin, (holds_held _ i).
  - intros o. destruct (decide (o ∈ uq_objects (uq_mem c))) as [Ho|Ho].
    + destruct (Hlive o Ho) as [_ ->]. lia.
    + rewrite (Htr o Ho). case_decide; lia.
Qed.

Lemma UniquePtr_ownership_is_unique_witness :
  ∃ c, uq_run uq_demo_prog uq_init = Ok c ∧
       (∀ i j o, holds (uq_vars c) i o → holds (uq_vars c) j o → i = j) ∧
       (∀ i o, holds (uq_vars c) i o → o ∈ uq_objects (uq_mem c)) ∧
       (∀ o, uq_deleted o (uq_trace (uq_mem c)) ≤ 1).
Proof.
  apply (UniquePtr_ownership_is_unique uq_demo_prog).
  unfold uq_demo_prog. repeat constructor.
Defined.

(** X21: No object outlives its owner: in a program that neither hands a raw
    pointer to a second owner nor calls [Release], every live object is
    held by a variable and every other object that was created has been
    deleted exactly once; once no variable holds an object, none is left. *)
Theorem UniquePtr_no_leak (prog : list uq_op) :
  Forall (λ o, uq_aliasing o = false) prog →
  Forall (λ o, uq_dropping o = false) prog →
  ∃ c, uq_run prog uq_init = Ok c ∧
       (∀ o, o ∈ uq_objects (uq_mem c) → ∃ i, holds (uq_vars c) i o) ∧
       (∀ o, o < uq_next (uq_mem c) →
             (∃ i, holds (uq_vars c) i o) ∨ uq_deleted o (uq_trace (uq_mem c)) = 1) ∧
       ((∀ i o, ¬ holds (uq_vars c) i o) → uq_objects (uq_mem c) = ∅).
Proof.
  intros Hal Hdr.
  destruct (uq_run_ok prog uq_init (proj1 uq_init_ok) Hal)
    as (c & Hrun & (Hnd & Hin & Hlive & Htr) & Hheld).
  specialize (Hheld Hdr (proj2 uq_init_ok)).
  exists c. split_and!; [done|..].
  - intros o Ho. by apply held_holds, Hheld.
  - intros o Hlt. destruct (decide (o ∈ uq_objects (uq_mem c))) as [Ho|Ho].
    + left. by apply held_holds, Hheld.
    + right. rewrite (Htr o Ho). by rewrite decide_True.
  - intros Hnone. apply set_eq. intros o. split; [|set_solver].
    intros Ho. destruct (held_holds _ _ (Hheld o Ho)) as [i Hi]. by destruct (Hnone i o).
Qed.

Lemma UniquePtr_no_leak_witness :
  ∃ c, uq_run uq_demo_prog uq_init = Ok c ∧
       (∀ o, o ∈ uq_objects (uq_mem c) → ∃ i, holds (uq_vars c) i o) ∧
       (∀ o, o < uq_next (uq_mem c) →
             (∃ i, holds (uq_vars c) i o) ∨ uq_deleted o (uq_trace (uq_mem c)) = 1) ∧
       ((∀ i o, ¬ holds (uq_vars c) i o) → uq_objects (uq_mem c) = ∅).
Proof.
  apply (UniquePtr_no_leak uq_demo_prog); unfold uq_demo_prog; repeat constructor.
Defined.

(** X22: [u = std::move(u)] changes nothing: the pointer is released and put
    back, and no deleter runs. *)
Theorem UniquePtr_self_move_assignment (i : nat) (c : uq_config) :
  uq_step (UMoveAssign i i) c = Ok c.
Proof.
  cbn [uq_step]. destruct (uq_var c i) as [u|] eqn:Hu; [|done].
  apply uq_var_Some in Hu.
  rewrite bool_decide_eq_true_2 by done.
  erewrite uq_exec_eq.
  2:{ unfold UniquePtr_assign_move, UniquePtr_Release, UniquePtr_Reset,
        UniquePtr_Get, UniquePtr_GetDeleter. cbn. done. }
  cbn. rewrite CompressedPair_eta, list_insert_insert_eq, list_insert_id by done.
  by rewrite uq_config_eta.
Qed.

(** X23: Move-constructing [v] from [u] and move-assigning [v] back to [u]
    restores the pointer and the deleter of [u], leaves [v] empty, and
    calls no deleter. *)
Theorem UniquePtr_move_round_trip (u : UniquePtr) (h : UqStore) :
  let v := (UniquePtr_move u).1 in
  let u' := (UniquePtr_move u).2 in
  UniquePtr_Get u' = None ∧
  UniquePtr_assign_move false u' v h = Ok ((u, mkPair None (GetSecond u)), h).
Proof.
  destruct u as [p d]. done.
Qed.

(** X24: Move assignment to a handle that owns an object deletes that object
    with the deleter the handle had before the assignment, and only then
    takes over the pointer and the deleter of the other handle, which is
    left empty. *)
Theorem UniquePtr_move_assignment_uses_old_deleter
    (o : addr) (d : Deleter) (other : UniquePtr) (h : UqStore) :
  o ∈ uq_objects h →
  ∃ h', UniquePtr_assign_move false (mkPair (Some o) d) other h
          = Ok ((other, mkPair None (GetSecond other)), h') ∧
        uq_trace h' = UqDelete d o :: uq_trace h ∧
        uq_objects h' = uq_objects h ∖ {[o]}.
Proof.
  intros Ho. destruct other as [p d'].
  unfold UniquePtr_assign_move, UniquePtr_Release, UniquePtr_Reset, UniquePtr_Get,
    UniquePtr_GetDeleter, mbind, UM_bind, call_deleter. cbn.
  rewrite decide_True by done. by eexists.
Qed.

Lemma UniquePtr_move_assignment_uses_old_deleter_witness :
  ∃ h', UniquePtr_assign_move false (mkPair (Some 0) 7) (mkPair (Some 1) Slug) uq_two
          = Ok ((mkPair (Some 1) Slug, mkPair None Slug), h') ∧
        uq_trace h' = UqDelete 7 0 :: uq_trace uq_two ∧
        uq_objects h' = uq_objects uq_two ∖ {[0]}.
Proof.
  apply (UniquePtr_move_assignment_uses_old_deleter 0 7 (mkPair (Some 1) Slug) uq_two).
  by vm_compute.
Defined.

(** X25: [u.Reset(p)] with a pointer that another handle (or [u] itself) still
    holds makes two owners of one object: the first of them to let go
    deletes it, and the second then deletes a dead object.  In particular
    [u.Reset(u.Get())] deletes the object [u] goes on holding, and the
    destructor of [u] deletes it again. *)
Theorem UniquePtr_Reset_to_held_pointer
    (o : addr) (d d' : Deleter) (p : ptr) (h : UqStore) :
  o ∈ uq_objects h →
  (∀ v h1, UniquePtr_Reset (mkPair p d') (Some o) h = Ok (v, h1) →
     UniquePtr_Get v = Some o ∧
     (p ≠ Some o → o ∈ uq_objects h1 ∧
        ∃ h2, UniquePtr_destroy (mkPair (Some o) d) h1 = Ok (tt, h2) ∧
              UniquePtr_destroy v h2 = Undefined Dangling)) ∧
  ∃ h1, UniquePtr_Reset (mkPair (Some o) d) (Some o) h = Ok (mkPair (Some o) d, h1) ∧
        (o ∉ uq_objects h1) ∧
        UniquePtr_destroy (mkPair (Some o) d) h1 = Undefined Dangling.
Proof.
  intros Ho. split.
  - intros v h1.
    unfold UniquePtr_Reset, UniquePtr_destroy, UniquePtr_Get, UniquePtr_GetDeleter,
      mbind, UM_bind, call_deleter. cbn.
    destruct p as [o'|]; cbn.
    + case_decide; [|done]. intros [= <- <-]. cbn. split; [done|].
      intros Hne. assert (o ∈ uq_objects h ∖ {[o']}) by set_solver.
      split; [done|]. rewrite decide_True by done. eexists. split; [done|].
      cbn. rewrite decide_False by set_solver. done.
    + intros [= <- <-]. cbn. split; [done|]. intros _. split; [done|].
      rewrite decide_True by done. eexists. split; [done|].
      cbn. rewrite decide_False by set_solver. done.
  - unfold UniquePtr_Reset, UniquePtr_destroy, UniquePtr_Get, UniquePtr_GetDeleter,
      mbind, UM_bind, call_deleter. cbn.
    rewrite decide_True by done. cbn. eexists. split; [done|]. cbn.
    split; [set_solver|]. rewrite decide_False by set_solver. done.
Qed.

Lemma UniquePtr_Reset_to_held_pointer_witness :
  (∀ v h1, UniquePtr_Reset (mkPair (Some 1) Slug) (Some 0) uq_two = Ok (v, h1) →
     UniquePtr_Get v = Some 0 ∧
     (Some 1 ≠ Some 0 → 0 ∈ uq_objects h1 ∧
        ∃ h2, UniquePtr_destroy (mkPair (Some 0) 7) h1 = Ok (tt, h2) ∧
              UniquePtr_destroy v h2 = Undefined Dangling)) ∧
  ∃ h1, UniquePtr_Reset (mkPair (Some 0) 7) (Some 0) uq_two = Ok (mkPair (Some 0) 7, h1) ∧
        (0 ∉ uq_objects h1) ∧
        UniquePtr_destroy (mkPair (Some 0) 7) h1 = Undefined Dangling.
Proof.
  apply (UniquePtr_Reset_to_held_pointer 0 7 Slug (Some 1) uq_two).
  by vm_compute.
Defined.
